(* ===== verification/_CoqProject ===== *)
-Q . S2P
Prelude.v
Lts.v
GoLib.v
Json.v
JsonFuel.v
Proto.v
Config.v
Sha256.v
Prog.v
Net.v
Monitor.v
GoFlag.v
Auth.v
Control.v
Reconnect.v
Cmd.v
NetUtil.v
Pipe.v
Tunnel.v
Session.v
UdpRelay.v
TlsUtil.v
Transport.v
Dialer.v
SessionCount.v
Serve.v
Establish.v
Server.v
Client.v
Timeouts.v
ClientRun.v
WsConn.v
Agreement.v
