(* ===== verification/Prelude.v ===== *)
(** * G-Tun: a verification library for the tunnel's Go code (root file)

    G-Tun carries TCP and UDP traffic between a client and a server over one of
    ten transports.  The server (src/internal/server) listens for control
    connections and for tunnel connections; the client (src/internal/client)
    keeps an authenticated control connection, is told over it which transport
    to run, and runs it; each local connection is carried to the server by a
    stream of that transport (src/internal/transport) and relayed to the
    target (src/internal/netutil).  Both ends prove knowledge of a shared token
    (src/internal/auth).  This library models the Go code of the repository,
    file by file, and proves what makes it correct.

    ** How code is modelled

    Pure functions are functions.  Code that talks to the network, the file
    system or the user is a program in a free monad ([Prog.v]): [runs p tr a]
    says that [p] can show the events [tr] and return [a] whatever the
    environment answers within its contract; [only] and [emits] say what a
    program can show.  Goroutines that share state are step functions over
    labels that name the goroutine and what its environment answers ([Lts.v]:
    runs, invariants, variants, simulations), or, where a mutex protects the
    state, programs with critical sections ([Monitor.v], an inductive step
    relation with single operations interleaved, its reduction to whole
    sections, which keeps the order of everything done inside them, and an
    accounting of what the sections do).  Go's [error] is a structured value
    ([GoLib.v]); integers are [Z] with wrap-around written out; a pointer is an
    index or an address.

    ** Files and code

    - [Prelude.v], [Lts.v], [GoLib.v], [Prog.v], [Net.v], [Monitor.v]: what the
      components share: bytes and strings, transition systems, the parts of
      Go's library the code uses (errors, [strconv], [net.SplitHostPort],
      [binary.BigEndian], [time.Duration]), programs, the operations on
      connections and sessions, two programs connected by byte queues
      ([duplex]), mutexes.
    - [Json.v]: package encoding/json as the code uses it: the decoder, which
      matches keys up to case and skips unknown ones, the encoder, and that
      they are inverse.
      [JsonFuel.v]: the decoder's fuel is always enough.
    - [GoFlag.v]: package flag: the command-line parser and its inverse.
    - [Sha256.v]: SHA-256 and HMAC, executable, as an instance of the [Mac]
      interface that the other files are parametrised by.
    - [Proto.v]: proto/proto.go.  [Config.v]: config/config.go, records,
      defaults, validation and loading, with a declarative specification of a
      valid configuration.
    - [Auth.v]: auth/auth.go and datagram.go: the two handshake programs and
      the sealing of datagrams.  [Agreement.v]: what the handshake
      establishes when tags cannot be forged.
    - [Control.v]: control/control.go: the signed announcement.
    - [NetUtil.v], [Pipe.v]: netutil/accept.go and pipe.go.  [Tunnel.v]: the
      relays of the client and of the server with the stream between them, and
      the abstract channel they implement.  A receiver sees one kind of end of
      stream, as [copyHalf] makes the same shutdown whether its copy ended or
      failed; that it was early is stated from the operations that failed or,
      over a stream that cannot half-close, from the other direction's end.
    - [Session.v]: transport/session.go as an atomic dialer under concurrency;
      [Dialer.v]: the same methods as programs under their mutex, over the
      [muxSession] interface (a type class with its laws) and its two
      implementations, with the client's goroutines; it refines [Session.v],
      with the calls it makes on the sessions as the events of both.
      [SessionCount.v]: the sessions those goroutines start and close.
    - [UdpRelay.v]: transport/udp.go.  [WsConn.v]: transport/wsconn.go.
      [Transport.v]: transport/transport.go, kcp.go, quic.go, client.go and
      the client of stealth.go.  [Serve.v]: transport/server.go and the server
      of stealth.go.  [TlsUtil.v]: tlsutil/tlsutil.go.
    - [Establish.v]: the programs of both ends connected to each other, from
      the carrier connection to the relays.  [Timeouts.v]: the deadlines and
      timeouts under which each waits for a peer that has not authenticated,
      dialling it included.
    - [Server.v]: server/server.go.  [Client.v]: client/runner.go and the
      control connection of client/client.go; [Reconnect.v]: the loops of
      client/client.go and [supervise].  [ClientRun.v]: both together, the
      goroutine of [Run] with the runner's methods operation by operation and
      the goroutines that supervise transports; it refines the runner of
      [Client.v].
    - [Cmd.v]: the three commands under src/cmd and logging/logging.go.

    ** What the theorems show

    - Authentication: the outcomes of both handshakes against any peer; two
      honest ends complete and agree on the channel; a wrong token fails and
      the client reveals no proof; with unforgeable tags an accepting server
      has exactly one matching client and no replay ([Auth], [Agreement]); the
      server does nothing for a connection before its proof ([Serve]); the
      client relays only to streams of sessions that authenticated, in every
      interleaving ([Dialer]); a peer that has not authenticated can hold a
      goroutine only for a fixed time: 10 seconds on a data or control
      connection of the server, 20 on a QUIC connection, 25 on the client's end
      of a control connection ([Timeouts]).
    - Establishment: with the same protocol and token both ends get past
      authentication to where they relay, or serve streams, and a stream
      reaches the target, for every carrier ([Establish]).
    - Data: the relays of both ends implement one byte queue per direction,
      lose nothing when no connection fails and the stream can half-close, and
      are never stuck before both have returned with every connection closed
      ([Pipe], [Tunnel]); a WebSocket connection is the byte
      stream its peer wrote ([WsConn]); datagrams cross unchanged, only
      authentic ones, each peer seeing its own replies ([UdpRelay]).
    - Control: the announcement crosses exactly, bound to the channel
      ([Control], [Client]); from it the client builds the transport that
      matches the server's, for each of the ten protocols ([Client], [Serve]).
    - Resources: the session dialer keeps at most one session open and shares
      it ([Session], [Dialer]); in every interleaving of its goroutines a
      client closes every session it started, once ([SessionCount]); at most one transport runs and when the client has
      returned none does, in every interleaving of its goroutines, which never
      deadlock ([Client], [ClientRun]); dialling
      and handlers leak no connection ([Transport], [Serve]); the UDP relay
      leaks no upstream socket, but its listening socket after a read error
      ([UdpRelay]); the server waits for its
      listeners ([Server]).
    - Configuration and commands: loading accepts exactly the valid
      configurations, an accepted one starts with exactly its settings and
      without a nil dereference, and the commands start nothing else and exit
      with the code of what happened ([Config], [Server], [Cmd]).
    - Time: both reconnection loops and the accept loop back off exponentially
      between fixed bounds without overflow ([Reconnect], [NetUtil]).

    ** Fuel and bounds

    [duplex] is given the number of operations the two programs make (the
    theorems name it: 24 for a control connection); [WsConn.read_fuel] is one
    more than the messages left and always suffices; infinite loops (accepting
    streams, reconnecting, restarting) have one unit of fuel per iteration and
    the theorems hold for every fuel, [None] being a loop still going on.  In
    [ClientRun] a supervising goroutine is started with any fuel, so that
    every finite execution is one of the model.  The
    JSON decoder is given twice the length of its text plus two; [JsonFuel]
    proves that more fuel changes nothing.

    ** Not modelled

    The libraries under the transports (smux, quic-go, kcp-go, gorilla
    websocket, ShadowTLS, uTLS, crypto/tls and crypto/x509) are operations or
    arguments with their documented contracts.  Unforgeability of HMAC is a
    hypothesis of the agreement theorem and of nothing else.  Time is the
    durations passed to timers and deadlines; a context is done or not, a
    timeout on it is an event around the calls it bounds, and its expiry is any
    failure of one of them.  Log
    lines, the addresses only used in them ([remoteAddr]), and the pool of copy
    buffers have no effect here and are left out: a read of the relay takes any
    number of the bytes that have arrived, since [io.CopyBuffer] may bypass its
    buffer. *)

From stdpp Require Export base tactics list strings gmap sorting relations.
From Stdlib Require Export ZArith Lia.
From Stdlib Require Import Strings.Byte.

(** ** Bytes and strings *)

(** A Go [byte] is [Byte.byte]; a Go [[]byte] is a list of them. *)
Abbreviation byte := Byte.byte.
Abbreviation bytes := (list Byte.byte).

#[export] Instance byte_eq_decision : EqDecision byte := Byte.byte_eq_dec.

Definition byte_to_Z (b : byte) : Z := Z.of_N (Byte.to_N b).

(** The conversion [byte(z)]: reduction modulo 256. *)
Definition byte_of_Z (z : Z) : byte :=
  match Byte.of_N (Z.to_N (z mod 256)) with
  | Some b => b
  | None => x00
  end.

(** [[]byte(s)] and [string(b)]. *)
Definition bytes_of_string (s : string) : bytes := String.list_byte_of_string s.
Definition string_of_bytes (b : bytes) : string := String.string_of_list_byte b.

Lemma string_of_bytes_of_string s : string_of_bytes (bytes_of_string s) = s.
Proof. apply String.string_of_list_byte_of_string. Qed.

Lemma bytes_of_string_of_bytes b : bytes_of_string (string_of_bytes b) = b.
Proof. apply String.list_byte_of_string_of_list_byte. Qed.

#[export] Instance bytes_of_string_inj : Inj (=) (=) bytes_of_string.
Proof.
  intros s1 s2 H%(f_equal string_of_bytes). by rewrite !string_of_bytes_of_string in H.
Qed.

Lemma byte_to_Z_range b : (0 <= byte_to_Z b < 256)%Z.
Proof.
  unfold byte_to_Z. pose proof (Byte.to_N_bounded b). lia.
Qed.

Lemma byte_of_to_Z b : byte_of_Z (byte_to_Z b) = b.
Proof.
  unfold byte_of_Z. rewrite Z.mod_small by apply byte_to_Z_range.
  unfold byte_to_Z. by rewrite N2Z.id, Byte.of_to_N.
Qed.

Lemma byte_to_of_Z z : (0 <= z < 256)%Z -> byte_to_Z (byte_of_Z z) = z.
Proof.
  intros Hz. unfold byte_of_Z. rewrite Z.mod_small by done.
  destruct (Byte.of_N (Z.to_N z)) as [b|] eqn:E.
  - apply Byte.to_of_N in E. unfold byte_to_Z. rewrite E. lia.
  - apply Byte.of_N_None_iff in E. lia.
Qed.

Lemma byte_to_of_Z_mod z : byte_to_Z (byte_of_Z z) = (z mod 256)%Z.
Proof.
  rewrite <-(byte_to_of_Z (z mod 256)) by (apply Z.mod_pos_bound; lia).
  f_equal. unfold byte_of_Z. by rewrite Z.mod_mod by lia.
Qed.

(** Gluing a low byte to higher bits is an addition. *)
Lemma lor_shiftl8 a b :
  (0 <= a < 256)%Z -> Z.lor a (Z.shiftl b 8) = (a + b * 256)%Z.
Proof.
  intros Ha. change 256%Z with (2 ^ 8)%Z. rewrite <-Z.shiftl_mul_pow2 by lia.
  rewrite Z.add_nocarry_lxor; [symmetry; apply Z.lxor_lor|].
  all: apply Z.bits_inj'; intros n Hn; rewrite Z.land_spec, Z.bits_0.
  all: destruct (decide (n < 8)%Z);
    [rewrite Z.shiftl_spec_low by lia; apply andb_false_r|].
  all: rewrite <-(Z.mod_small a (2 ^ 8)) by lia.
  all: rewrite Z.mod_pow2_bits_high by lia; done.
Qed.

#[export] Instance byte_to_Z_inj : Inj (=) (=) byte_to_Z.
Proof. intros b1 b2 H%(f_equal byte_of_Z). by rewrite !byte_of_to_Z in H. Qed.

(** ** Lists *)

Section lists.
Context {A : Type}.
Implicit Types l k : list A.

Lemma app_split_eq l1 l2 k1 k2 :
  length l1 = length k1 -> l1 ++ l2 = k1 ++ k2 -> l1 = k1 /\ l2 = k2.
Proof. intros Hlen H. by apply app_inj_1. Qed.

Lemma take_drop_split n l :
  n <= length l -> l = take n l ++ drop n l /\ length (take n l) = n.
Proof. intros H. split; [by rewrite take_drop|]. rewrite length_take. lia. Qed.

End lists.

(** ** Tactics *)

(** Take the existentials, conjunctions and disjunctions of the context apart. *)
Ltac open_hyps :=
  repeat match goal with
  | H : exists _, _ |- _ => destruct H as [? H]
  | H : _ /\ _ |- _ => destruct H
  | H : _ \/ _ |- _ => destruct H
  end; simplify_eq/=.

(** Boolean hypotheses as propositions. *)
Ltac bool_facts :=
  repeat match goal with
  | H : (_ && _)%bool = true |- _ => apply andb_true_iff in H as [? ?]
  | H : (_ || _)%bool = false |- _ => apply orb_false_iff in H as [? ?]
  | H : bool_decide _ = true |- _ => apply bool_decide_eq_true in H
  | H : negb _ = true |- _ => apply negb_true_iff in H
  end.

(** The lemmas that say what the operations of a component preserve or show;
    and the round trips of the data formats. *)
Create HintDb gtun.
Create Rewrite HintDb gtun.
#[export] Hint Rewrite string_of_bytes_of_string bytes_of_string_of_bytes
  byte_of_to_Z : gtun.

Declare Scope gtun_scope.
Open Scope gtun_scope.
