(* ===== verification/Lts.v ===== *)
(** * Transition systems

    The concurrent components are step functions: a label says which goroutine
    moves and what its environment answers, and [step l s] is the next state,
    or [None] when the label cannot happen.  This file has what they share:
    finite runs, invariants, variants, and forward simulations between a
    detailed system and an abstract one, compared by what they show. *)

From S2P Require Import Prelude.

Section lts.
Context {L S : Type} (step : L -> S -> option S).

Fixpoint steps (ls : list L) (s : S) : option S :=
  match ls with
  | [] => Some s
  | l :: ls => match step l s with Some s' => steps ls s' | None => None end
  end.

Lemma steps_cons l ls s s' :
  steps (l :: ls) s = Some s' <-> exists s1, step l s = Some s1 /\ steps ls s1 = Some s'.
Proof. simpl. destruct (step l s); naive_solver. Qed.

Lemma steps_app ls1 ls2 s s' :
  steps (ls1 ++ ls2) s = Some s' <-> exists s1, steps ls1 s = Some s1 /\ steps ls2 s1 = Some s'.
Proof.
  revert s. induction ls1 as [|l ls1 IH]; intros s; simpl; [naive_solver|].
  destruct (step l s); [apply IH|]. naive_solver.
Qed.

(** What every step between labels satisfying [P] preserves holds in every
    state a run of such labels reaches. *)
Lemma steps_invariant (P : L -> Prop) (I : S -> Prop) ls s s' :
  (forall l s s', P l -> I s -> step l s = Some s' -> I s') ->
  Forall P ls -> I s -> steps ls s = Some s' -> I s'.
Proof.
  intros HI Hls. revert s. induction Hls as [|l ls Hl _ IH]; intros s Hs; simpl.
  - by intros [= <-].
  - destruct (step l s) as [s1|] eqn:E; [|done]. eauto.
Qed.

Lemma steps_preserve (I : S -> Prop) ls s s' :
  (forall l s s', I s -> step l s = Some s' -> I s') ->
  I s -> steps ls s = Some s' -> I s'.
Proof.
  intros HI. apply (steps_invariant (fun _ => True)); [eauto|]. by apply Forall_true.
Qed.

(** A variant bounds the length of the runs. *)
Lemma steps_variant (P : L -> Prop) (m : S -> nat) ls s s' :
  (forall l s s', P l -> step l s = Some s' -> m s' < m s) ->
  Forall P ls -> steps ls s = Some s' -> length ls + m s' <= m s.
Proof.
  intros Hm Hls. revert s. induction Hls as [|l ls Hl _ IH]; intros s; simpl.
  - intros [= <-]. lia.
  - destruct (step l s) as [s1|] eqn:E; [|done]. intros Hr%IH. apply Hm in E; [lia|done].
Qed.

(** A system that is never stuck short of its goal, and whose variant
    decreases, has a run to its goal. *)
Lemma steps_reach (P : L -> Prop) (I goal : S -> Prop) (m : S -> nat) :
  (forall s, I s -> goal s \/ exists l s', P l /\ step l s = Some s' /\ I s' /\ m s' < m s) ->
  forall s, I s -> exists ls s', Forall P ls /\ steps ls s = Some s' /\ I s' /\ goal s'.
Proof.
  intros Hprog s. remember (m s) as n eqn:Hn. revert s Hn.
  induction n as [n IH] using lt_wf_ind. intros s -> Hs.
  destruct (Hprog s Hs) as [Hg|(l & s1 & Hl & Hstep & Hs1 & Hlt)].
  { exists [], s. by split_and!. }
  destruct (IH _ Hlt s1 eq_refl Hs1) as (ls & s2 & Hls & Hr & ? & ?).
  exists (l :: ls), s2. split_and!; [by constructor|by simpl; rewrite Hstep|done..].
Qed.

(** What a run shows; a step shows what its label does in the state it is
    taken in. *)
Fixpoint shown {O : Type} (obs : L -> S -> list O) (ls : list L) (s : S) : list O :=
  match ls with
  | [] => []
  | l :: ls =>
      obs l s ++ match step l s with Some s' => shown obs ls s' | None => [] end
  end.

Lemma shown_app {O : Type} (obs : L -> S -> list O) ls1 ls2 s s1 :
  steps ls1 s = Some s1 -> shown obs (ls1 ++ ls2) s = shown obs ls1 s ++ shown obs ls2 s1.
Proof.
  revert s. induction ls1 as [|l ls1 IH]; intros s; simpl; [by intros [= <-]|].
  destruct (step l s) as [s2|]; [|done]. intros H. by rewrite (IH _ H), (assoc_L (++)).
Qed.

End lts.

(** ** Simulations

    The labels of an abstract system are what it shows.  A detailed system
    refines it when each of its steps is matched by the abstract steps that it
    shows, so that every run of the detailed system shows a run of the
    abstract one. *)

Section simulation.
Context {L S : Type} (step : L -> S -> option S).
Context {O A : Type} (spec : O -> A -> option A).
Context (obs : L -> S -> list O).

Definition simulation (R : S -> A -> Prop) : Prop :=
  forall l s s' a, R s a -> step l s = Some s' ->
    exists a', steps spec (obs l s) a = Some a' /\ R s' a'.

Lemma simulation_run R ls s s' a :
  simulation R -> R s a -> steps step ls s = Some s' ->
  exists a', steps spec (shown step obs ls s) a = Some a' /\ R s' a'.
Proof.
  intros Hsim. revert s a. induction ls as [|l ls IH]; intros s a HR; simpl.
  - intros [= <-]. by exists a.
  - destruct (step l s) as [s1|] eqn:E; [|done]. intros Hr.
    destruct (Hsim _ _ _ _ HR E) as (a1 & Ha1 & HR1).
    destruct (IH _ _ HR1 Hr) as (a2 & Ha2 & ?).
    exists a2. split; [|done]. apply steps_app. eauto.
Qed.

End simulation.

(** ** Step relations

    Systems whose steps are not functions of their labels. *)

Section execution.
Context {L S : Type} (step : L -> S -> S -> Prop).

Inductive execution : list L -> S -> S -> Prop :=
| exec_nil s : execution [] s s
| exec_snoc ls l s s1 s2 :
    execution ls s s1 -> step l s1 s2 -> execution (ls ++ [l]) s s2.

Lemma execution_invariant (I : S -> Prop) ls s s' :
  (forall l s s', I s -> step l s s' -> I s') -> I s -> execution ls s s' -> I s'.
Proof. intros HI Hs. induction 1; eauto. Qed.

Lemma execution_snoc_inv ls l s s2 :
  execution (ls ++ [l]) s s2 -> exists s1, execution ls s s1 /\ step l s1 s2.
Proof.
  remember (ls ++ [l]) as ls' eqn:E. intros H. destruct H as [|ls0 l0 s s1 s2 H Hstep].
  - by destruct ls.
  - apply app_inj_tail in E as [-> ->]. eauto.
Qed.

Lemma execution_one l s s' : step l s s' -> execution [l] s s'.
Proof. intros H. apply (exec_snoc [] l s s s'); [constructor|done]. Qed.

Lemma execution_app ls1 ls2 s s1 s2 :
  execution ls1 s s1 -> execution ls2 s1 s2 -> execution (ls1 ++ ls2) s s2.
Proof.
  intros H1 H2. induction H2 as [|ls l s1 s2 s3 _ IH Hl]; [by rewrite app_nil_r|].
  rewrite (assoc_L (++)). econstructor; eauto.
Qed.

Lemma execution_cons l ls s s1 s2 :
  step l s s1 -> execution ls s1 s2 -> execution (l :: ls) s s2.
Proof. intros H1 H2. apply (execution_app [l] ls s s1 s2); [by apply execution_one|done]. Qed.

End execution.
