(* ===== verification/GoLib.v ===== *)
(** * The Go language and standard library, as far as the program uses them

    Errors ([errors], [fmt.Errorf]), 64-bit integers and durations
    ([time.Duration]), [strconv.Atoi] and the decimal printer,
    [net.SplitHostPort] / [net.JoinHostPort], [filepath.Dir] /
    [filepath.Join], [encoding/binary]'s big-endian [uint16]. *)

From Stdlib Require Import Ascii.
From S2P Require Import Prelude.

(** ** Errors *)

(** An argument of a format string. *)
Inductive farg : Type :=
| FStr (s : string)
| FInt (z : Z)
| FList (l : list string).

(** A Go [error] value.  A package-level error variable is identified by its
    message; [Errorf] keeps the format and its arguments; the [%w] argument
    is the wrapped error. *)
Inductive error : Type :=
| Sentinel (name : string)
| Errorf (format : string) (args : list farg)
| Wrapf (format : string) (args : list farg) (inner : error)
| Joined1 (a : error)
| Joined2 (a b : error).

(** A run-time panic, kept apart from the errors the code returns. *)
Definition nil_dereference : error := Sentinel "panic: nil pointer dereference".

(** [errors.Is(e, target)] for a sentinel target: follow [Unwrap]. *)
Fixpoint errors_Is (e : error) (target : string) : bool :=
  match e with
  | Sentinel n => bool_decide (n = target)
  | Errorf _ _ => false
  | Wrapf _ _ i => errors_Is i target
  | Joined1 a => errors_Is a target
  | Joined2 a b => errors_Is a target || errors_Is b target
  end.

(** [errors.Join(a, b)]: nil arguments are discarded; nil if all are. *)
Definition errors_Join (a b : option error) : option error :=
  match a, b with
  | None, None => None
  | Some x, None => Some (Joined1 x)
  | None, Some y => Some (Joined1 y)
  | Some x, Some y => Some (Joined2 x y)
  end.

(** A Go [(T, error)] return value. *)
Inductive result (A : Type) : Type :=
| Ok (a : A)
| Err (e : error).
Arguments Ok {_} _.
Arguments Err {_} _.

Definition is_ok {A} (r : result A) : bool :=
  match r with Ok _ => true | Err _ => false end.

(** The error component of a result. *)
Definition err_of {A} (r : result A) : option error :=
  match r with Ok _ => None | Err e => Some e end.

(** [if err := e; err != nil { return err }] *)
Notation "'check!' e ; k" :=
  (match e with Some err => Some err | None => k end)
  (at level 100, e at level 99, right associativity) : gtun_scope.
(** [x, err := e; if err != nil { return ..., w(err) }] *)
Notation "'try!' x ':=' e 'or' w ; k" :=
  (match e with Ok x => k | Err err => Err (w err) end)
  (at level 100, x pattern, e at level 99, w at level 99, right associativity)
  : gtun_scope.

Lemma try_ok {A B} (e : result A) (w : error -> error) (k : A -> result B) b :
  (try! x := e or w; k x) = Ok b <-> exists a, e = Ok a /\ k a = Ok b.
Proof. destruct e as [a|e]; split; [eauto| |done|]; intros (?&?&?); congruence. Qed.

Lemma check_none (e : option error) (k : option error) :
  (check! e; k) = None <-> e = None /\ k = None.
Proof. destruct e; intuition congruence. Qed.

(** ** Integers *)

(** Two's complement wrap-around of [int] / [int64]. *)
Definition int64_wrap (z : Z) : Z :=
  ((z + 2 ^ 63) mod 2 ^ 64 - 2 ^ 63)%Z.
Definition max_int64 : Z := (2 ^ 63 - 1)%Z.
Definition min_int64 : Z := (- 2 ^ 63)%Z.

Definition int64 (z : Z) : Prop := (min_int64 <= z <= max_int64)%Z.

Lemma int64_wrap_id z : int64 z -> int64_wrap z = z.
Proof.
  unfold int64, min_int64, max_int64, int64_wrap. intros.
  rewrite Z.mod_small; lia.
Qed.

(** [time.Duration], in nanoseconds. *)
Definition Millisecond : Z := 1000000.
Definition Second : Z := 1000000000.
Definition Minute : Z := 60000000000.

(** [binary.BigEndian.PutUint16] and [Uint16]; [uint16(n)] wraps. *)
Definition uint16 (z : Z) : Z := (z mod 65536)%Z.
Definition put_uint16 (z : Z) : bytes :=
  [byte_of_Z (Z.shiftr z 8); byte_of_Z z].
Definition get_uint16 (b : bytes) : Z :=
  match b with
  | [b0; b1] => Z.lor (byte_to_Z b1) (Z.shiftl (byte_to_Z b0) 8)
  | _ => 0
  end.

Lemma get_put_uint16 z : (0 <= z < 65536)%Z -> get_uint16 (put_uint16 z) = z.
Proof.
  intros Hz. simpl. rewrite lor_shiftl8 by apply byte_to_Z_range.
  rewrite !byte_to_of_Z_mod, Z.shiftr_div_pow2 by lia. change (2 ^ 8)%Z with 256%Z.
  rewrite (Z.mod_small (z / 256)); [|split; [apply Z.div_pos|apply Z.div_lt_upper_bound]; lia].
  pose proof (Z.div_mod z 256). lia.
Qed.

Lemma get_uint16_range b : (0 <= get_uint16 b < 65536)%Z.
Proof.
  destruct b as [|b0 [|b1 [|]]]; simpl; try lia.
  pose proof (byte_to_Z_range b0). pose proof (byte_to_Z_range b1).
  rewrite lor_shiftl8 by done. lia.
Qed.

(** ** [strconv] *)

Definition digit_val (c : ascii) : option Z :=
  let n := (Z.of_N (N_of_ascii c) - 48)%Z in
  if bool_decide (0 <= n <= 9)%Z then Some n else None.

(** The digit loop [n = n*10 + int(ch)]. *)
Fixpoint digits_val (acc : Z) (cs : list ascii) : option Z :=
  match cs with
  | [] => Some acc
  | c :: cs =>
      match digit_val c with
      | Some d => digits_val (acc * 10 + d) cs
      | None => None
      end
  end.

Definition ErrSyntax := Sentinel "strconv.ErrSyntax".
Definition ErrRange := Sentinel "strconv.ErrRange".

(** [strconv.Atoi]: an optional sign, at least one decimal digit and nothing
    else, with a value that fits [int]. *)
Definition split_sign (cs : list ascii) : bool * list ascii :=
  match cs with
  | [] => (false, [])
  | c :: ds =>
      if bool_decide (c = "-"%char) then (true, ds)
      else if bool_decide (c = "+"%char) then (false, ds)
      else (false, cs)
  end.
Definition atoi_chars (cs : list ascii) : result Z :=
  let '(neg, ds) := split_sign cs in
  match ds with
  | [] => Err ErrSyntax
  | _ =>
    match digits_val 0 ds with
    | None => Err ErrSyntax
    | Some n =>
        let v := if neg : bool then (- n)%Z else n in
        if bool_decide (min_int64 <= v <= max_int64)%Z then Ok v else Err ErrRange
    end
  end.
Definition Atoi (s : string) : result Z := atoi_chars (String.list_ascii_of_string s).

(** [strconv.Itoa]: [fuel] bounds the number of digits. *)
Definition digit_char (d : Z) : ascii := ascii_of_N (Z.to_N (d + 48)).
Fixpoint itoa_digits (fuel : nat) (n : Z) : list ascii :=
  match fuel with
  | O => []
  | S fuel =>
      if bool_decide (n < 10)%Z then [digit_char n]
      else itoa_digits fuel (n / 10) ++ [digit_char (n mod 10)]
  end.
Definition itoa_chars (z : Z) : list ascii :=
  if bool_decide (z < 0)%Z then "-"%char :: itoa_digits 20 (- z) else itoa_digits 20 z.
Definition Itoa (z : Z) : string := String.string_of_list_ascii (itoa_chars z).

Lemma digit_val_char d : (0 <= d <= 9)%Z -> digit_val (digit_char d) = Some d.
Proof.
  intros Hd. unfold digit_val, digit_char.
  rewrite N_ascii_embedding by lia. rewrite bool_decide_eq_true_2; [f_equal|]; lia.
Qed.

Lemma digits_val_app acc cs1 cs2 :
  digits_val acc (cs1 ++ cs2) = digits_val acc cs1 ≫= fun n => digits_val n cs2.
Proof.
  revert acc. induction cs1 as [|c cs1 IH]; intros acc; simpl; [done|].
  destruct (digit_val c); [apply IH|done].
Qed.

Lemma digits_val_itoa fuel n :
  (0 <= n < 10 ^ Z.of_nat (S fuel))%Z -> digits_val 0 (itoa_digits (S fuel) n) = Some n.
Proof.
  revert n. induction fuel as [|fuel IH]; intros n Hn.
  - simpl. rewrite bool_decide_eq_true_2 by lia. simpl. by rewrite digit_val_char by lia.
  - cbn -[Z.of_nat]. case_bool_decide; [simpl; by rewrite digit_val_char by lia|].
    rewrite digits_val_app. change (if bool_decide (n / 10 < 10)%Z then _ else _)
      with (itoa_digits (S fuel) (n / 10)).
    rewrite (IH (n / 10)%Z).
    2: { rewrite (Nat2Z.inj_succ (S fuel)), Z.pow_succ_r in Hn by lia.
         split; [apply Z.div_pos|apply Z.div_lt_upper_bound]; lia. }
    simpl. pose proof (Z.mod_pos_bound n 10). rewrite digit_val_char by lia.
    f_equal. pose proof (Z.div_mod n 10). lia.
Qed.

(** The first character printed is a digit. *)
Lemma itoa_digits_head fuel n :
  (0 <= n)%Z -> exists d cs, (0 <= d <= 9)%Z /\ itoa_digits (S fuel) n = digit_char d :: cs.
Proof.
  revert n. induction fuel as [|fuel IH]; intros n Hn; cbn -[itoa_digits].
  - simpl. case_bool_decide; [exists n, []; split; [lia|done]|].
    exists (n mod 10)%Z, []. split; [|done]. pose proof (Z.mod_pos_bound n 10). lia.
  - change (itoa_digits (S (S fuel)) n) with
      (if bool_decide (n < 10)%Z then [digit_char n]
       else itoa_digits (S fuel) (n / 10) ++ [digit_char (n mod 10)]).
    case_bool_decide; [exists n, []; split; [lia|done]|].
    destruct (IH (n / 10)%Z) as (d & cs & Hd & ->); [apply Z.div_pos; lia|].
    by exists d, (cs ++ [digit_char (n mod 10)]).
Qed.

Lemma digit_char_not_sign d :
  (0 <= d <= 9)%Z -> digit_char d <> "-"%char /\ digit_char d <> "+"%char.
Proof.
  intros Hd. assert (digit_val (digit_char d) = Some d) as E by by apply digit_val_char.
  split; intros Heq; rewrite Heq in E; discriminate E.
Qed.

Lemma atoi_itoa_chars z : int64 z -> atoi_chars (itoa_chars z) = Ok z.
Proof.
  unfold int64, min_int64, max_int64. intros Hz. unfold itoa_chars, atoi_chars.
  case_bool_decide as Hneg.
  - cbn [split_sign]. rewrite bool_decide_eq_true_2 by done.
    destruct (itoa_digits_head 19 (- z)) as (d & cs & _ & Hd); [lia|].
    rewrite Hd, <-Hd, digits_val_itoa by lia. rewrite Z.opp_involutive.
    by rewrite bool_decide_eq_true_2 by (unfold min_int64, max_int64; lia).
  - destruct (itoa_digits_head 19 z) as (d & cs & Hr & Hd); [lia|].
    rewrite Hd. destruct (digit_char_not_sign d Hr) as [H1 H2]. cbn [split_sign].
    rewrite !bool_decide_eq_false_2 by done. rewrite <-Hd, digits_val_itoa by lia.
    by rewrite bool_decide_eq_true_2 by (unfold min_int64, max_int64; lia).
Qed.

Lemma Atoi_Itoa z : int64 z -> Atoi (Itoa z) = Ok z.
Proof.
  intros. unfold Atoi, Itoa.
  rewrite String.list_ascii_of_string_of_list_ascii. by apply atoi_itoa_chars.
Qed.

Lemma Atoi_int64 s z : Atoi s = Ok z -> int64 z.
Proof.
  unfold Atoi, atoi_chars. destruct (split_sign _) as [neg ds].
  destruct ds as [|c ds]; [done|]. destruct (digits_val 0 (c :: ds)); [|done].
  case_bool_decide; [|done]. by intros [= <-].
Qed.

(** ** [net] and [filepath] *)

(** [strings.IndexByte] and [strings.LastIndexByte]. *)
Fixpoint index_byte (c : ascii) (cs : list ascii) : option nat :=
  match cs with
  | [] => None
  | x :: cs => if bool_decide (x = c) then Some 0 else S <$> index_byte c cs
  end.
Fixpoint last_index_byte (c : ascii) (cs : list ascii) : option nat :=
  match cs with
  | [] => None
  | x :: cs =>
      match last_index_byte c cs with
      | Some i => Some (S i)
      | None => if bool_decide (x = c) then Some 0 else None
      end
  end.

Definition colon : ascii := ":"%char.
Definition lbracket : ascii := "["%char.
Definition rbracket : ascii := "]"%char.

Definition missingPort := Errorf "missing port in address" [].
Definition tooManyColons := Errorf "too many colons in address" [].
Definition missingBracket := Errorf "missing ']' in address" [].
Definition unexpectedOpen := Errorf "unexpected '[' in address" [].
Definition unexpectedClose := Errorf "unexpected ']' in address" [].

Definition has_byte (c : ascii) (cs : list ascii) : bool :=
  match index_byte c cs with Some _ => true | None => false end.

(** The two checks at the end of [SplitHostPort]: no bracket where none may be. *)
Definition split_finish (hp host : list ascii) (j k i : nat)
    : result (list ascii * list ascii) :=
  if has_byte lbracket (drop j hp) then Err unexpectedOpen
  else if has_byte rbracket (drop k hp) then Err unexpectedClose
  else Ok (host, drop (S i) hp).

Definition split_host_port (hp : list ascii) : result (list ascii * list ascii) :=
  match last_index_byte colon hp with
  | None => Err missingPort
  | Some i =>
    if bool_decide (head hp = Some lbracket) then
      match index_byte rbracket hp with
      | None => Err missingBracket
      | Some e =>
        if bool_decide (S e = length hp) then Err missingPort
        else if bool_decide (S e = i) then
          split_finish hp (take (e - 1) (drop 1 hp)) 1 (S e) i
        else if bool_decide (hp !! S e = Some colon) then Err tooManyColons
        else Err missingPort
      end
    else
      let host := take i hp in
      if has_byte colon host then Err tooManyColons else split_finish hp host 0 0 i
  end.

Definition SplitHostPort (hostport : string) : result (string * string) :=
  match split_host_port (String.list_ascii_of_string hostport) with
  | Ok (h, p) => Ok (String.string_of_list_ascii h, String.string_of_list_ascii p)
  | Err e => Err e
  end.

Definition JoinHostPort (host port : string) : string :=
  if has_byte colon (String.list_ascii_of_string host)
  then ("[" +:+ host +:+ "]:" +:+ port)%string
  else (host +:+ ":" +:+ port)%string.

(** [filepath.Clean] on Unix: drop empty and [.] elements, resolve [..]. *)
Fixpoint split_on (c : ascii) (cs : list ascii) : list (list ascii) :=
  match cs with
  | [] => [[]]
  | x :: cs =>
      if bool_decide (x = c) then [] :: split_on c cs
      else match split_on c cs with
           | [] => [[x]]
           | w :: ws => (x :: w) :: ws
           end
  end.
Fixpoint join_with (c : ascii) (ws : list (list ascii)) : list ascii :=
  match ws with
  | [] => []
  | [w] => w
  | w :: ws => w ++ c :: join_with c ws
  end.

Definition slash : ascii := "/"%char.
Definition dot : list ascii := ["."%char].
Definition dotdot : list ascii := ["."%char; "."%char].

(** One element; the stack holds the output in reverse. *)
Definition clean_step (rooted : bool) (stk : list (list ascii)) (w : list ascii)
    : list (list ascii) :=
  if bool_decide (w = []) || bool_decide (w = dot) then stk
  else if bool_decide (w = dotdot) then
    match stk with
    | top :: stk' => if bool_decide (top = dotdot) then w :: stk else stk'
    | [] => if rooted then [] else [w]
    end
  else w :: stk.

Definition clean_chars (cs : list ascii) : list ascii :=
  let rooted := bool_decide (head cs = Some slash) in
  let out := join_with slash (rev (foldl (clean_step rooted) [] (split_on slash cs))) in
  match (if rooted then slash :: out else out) with
  | [] => dot
  | p => p
  end.

(** [filepath.Dir]: everything up to the last slash, cleaned. *)
Definition dir_chars (cs : list ascii) : list ascii :=
  match last_index_byte slash cs with
  | Some i => clean_chars (take (S i) cs)
  | None => clean_chars []
  end.

(** [filepath.Join(a, b)]: empty elements are ignored. *)
Definition join_chars (a b : list ascii) : list ascii :=
  match a, b with
  | [], [] => []
  | [], _ => clean_chars b
  | _, [] => clean_chars a
  | _, _ => clean_chars (a ++ slash :: b)
  end.

Definition filepath_Dir (p : string) : string :=
  String.string_of_list_ascii (dir_chars (String.list_ascii_of_string p)).
Definition filepath_Join (a b : string) : string :=
  String.string_of_list_ascii
    (join_chars (String.list_ascii_of_string a) (String.list_ascii_of_string b)).

Example dir_etc : filepath_Dir "/etc/g-tun/client_config.json" = "/etc/g-tun"%string.
Proof. reflexivity. Qed.
Example dir_plain : filepath_Dir "client_config.json" = "."%string.
Proof. reflexivity. Qed.
Example join_plain : filepath_Join "." "cert.pem" = "cert.pem"%string.
Proof. reflexivity. Qed.
Example join_up : filepath_Join "/a/../../b//" "cert.pem" = "/b/cert.pem"%string.
Proof. reflexivity. Qed.

(** ** Lemmas on the string searches *)

Lemma index_byte_app c l r :
  c ∉ l -> index_byte c (l ++ c :: r) = Some (length l).
Proof.
  induction l as [|x l IH]; simpl; intros Hc.
  - by rewrite bool_decide_eq_true_2.
  - rewrite bool_decide_eq_false_2 by set_solver. rewrite IH by set_solver. done.
Qed.

Lemma last_index_byte_none c l : c ∉ l -> last_index_byte c l = None.
Proof.
  induction l as [|x l IH]; simpl; intros Hc; [done|].
  rewrite IH by set_solver. rewrite bool_decide_eq_false_2; [done|set_solver].
Qed.

Lemma last_index_byte_app c l r :
  c ∉ r -> last_index_byte c (l ++ c :: r) = Some (length l).
Proof.
  induction l as [|x l IH]; simpl; intros Hc.
  - rewrite last_index_byte_none by done. by rewrite bool_decide_eq_true_2.
  - by rewrite IH.
Qed.

Lemma has_byte_spec c l : has_byte c l = true <-> c ∈ l.
Proof.
  unfold has_byte. induction l as [|x l IH]; simpl; [set_solver|].
  case_bool_decide as Hx; [set_solver|].
  destruct (index_byte c l); simpl in *; set_solver.
Qed.

Lemma has_byte_false c l : has_byte c l = false <-> c ∉ l.
Proof. rewrite <-not_true_iff_false, has_byte_spec. done. Qed.

Lemma list_ascii_app a b :
  String.list_ascii_of_string (String.append a b)
  = String.list_ascii_of_string a ++ String.list_ascii_of_string b.
Proof. induction a; simpl; [done|by f_equal]. Qed.

Definition no_brackets (cs : list ascii) : Prop := (lbracket ∉ cs) /\ (rbracket ∉ cs).

Lemma split_finish_ok hp host j k i :
  lbracket ∉ drop j hp -> rbracket ∉ drop k hp ->
  split_finish hp host j k i = Ok (host, drop (S i) hp).
Proof. intros H1%has_byte_false H2%has_byte_false. unfold split_finish. by rewrite H1, H2. Qed.

Lemma split_host_port_plain h p :
  no_brackets h -> no_brackets p -> colon ∉ h -> colon ∉ p ->
  split_host_port (h ++ colon :: p) = Ok (h, p).
Proof.
  intros [Hh1 Hh2] [Hp1 Hp2] Hch Hcp. unfold split_host_port.
  rewrite last_index_byte_app by done.
  rewrite bool_decide_eq_false_2 by (destruct h; simpl; intros [= ->]; set_solver).
  cbv zeta. rewrite take_app_length. rewrite (proj2 (has_byte_false _ _) Hch).
  rewrite split_finish_ok; rewrite ?drop_0; try set_solver.
  by rewrite cons_middle, app_assoc, drop_app_length' by (rewrite length_app; simpl; lia).
Qed.

Lemma split_host_port_bracketed h p :
  no_brackets h -> no_brackets p -> colon ∉ p ->
  split_host_port (lbracket :: h ++ rbracket :: colon :: p) = Ok (h, p).
Proof.
  intros [Hh1 Hh2] [Hp1 Hp2] Hcp. unfold split_host_port.
  replace (lbracket :: h ++ rbracket :: colon :: p)
    with ((lbracket :: h ++ [rbracket]) ++ colon :: p) at 1
    by (simpl; by rewrite <-app_assoc).
  rewrite last_index_byte_app by done. rewrite bool_decide_eq_true_2 by done.
  replace (lbracket :: h ++ rbracket :: colon :: p)
    with ((lbracket :: h) ++ rbracket :: colon :: p) at 1 by done.
  rewrite index_byte_app by set_solver. cbn [length].
  rewrite bool_decide_eq_false_2 by (rewrite length_app; simpl; lia).
  rewrite bool_decide_eq_true_2 by (rewrite length_app; simpl; lia).
  rewrite split_finish_ok.
  - cbn [skipn]. rewrite drop_0, Nat.sub_succ, Nat.sub_0_r, take_app_length.
    do 2 f_equal. replace (h ++ rbracket :: colon :: p)
      with ((h ++ [rbracket; colon]) ++ p) by by rewrite <-app_assoc.
    apply drop_app_length'. rewrite !length_app. simpl. lia.
  - cbn [skipn]. rewrite drop_0, elem_of_app, !elem_of_cons. unfold lbracket, rbracket, colon.
    naive_solver.
  - cbn [skipn]. replace (h ++ rbracket :: colon :: p)
      with ((h ++ [rbracket]) ++ colon :: p) by by rewrite <-app_assoc.
    rewrite drop_app_length' by (rewrite length_app; simpl; lia). set_solver.
Qed.

Lemma SplitHostPort_JoinHostPort h p :
  no_brackets (String.list_ascii_of_string h) ->
  no_brackets (String.list_ascii_of_string p) ->
  colon ∉ String.list_ascii_of_string p ->
  SplitHostPort (JoinHostPort h p) = Ok (h, p).
Proof.
  intros Hh Hp Hc. unfold SplitHostPort, JoinHostPort.
  destruct (has_byte colon _) eqn:E; rewrite !list_ascii_app; simpl.
  - rewrite split_host_port_bracketed by done.
    by rewrite !String.string_of_list_ascii_of_string.
  - apply has_byte_false in E. rewrite split_host_port_plain by done.
    by rewrite !String.string_of_list_ascii_of_string.
Qed.

Arguments itoa_digits : simpl never.
Arguments int64_wrap : simpl never.
