(* ===== verification/Json.v ===== *)
(** * [encoding/json], as packages [config] and [control] use it

    A parser of JSON texts into values (whitespace, strings with escapes,
    surrogates and UTF-8 repair, numbers, nesting limit), the string and
    integer printers of [json.Marshal], and the decoding of an object into a
    struct: exact field name first, then case folding, last duplicate wins,
    [null] leaves a field alone, unknown keys are skipped. *)

From Stdlib Require Import Ascii.
From S2P Require Import Prelude GoLib.

Local Open Scope char_scope.
Local Set Warnings "-register-all".

Abbreviation text := (list ascii) (only parsing).

Definition char_code (c : ascii) : Z := Z.of_N (N_of_ascii c).
Definition chr (z : Z) : ascii := ascii_of_N (Z.to_N z).
Definition dquote : ascii := chr 34.
Definition isc (c d : ascii) : bool := bool_decide (c = d).

Inductive jvalue : Type :=
| JNull
| JBool (b : bool)
| JNum (lit : text)
| JStr (s : text)
| JArr (vs : list jvalue)
| JObj (kvs : list (text * jvalue)).

(** ** Lexical elements *)

Definition is_space (c : ascii) : bool :=
  isc c " " || isc c (chr 9) || isc c (chr 10) || isc c (chr 13).

Fixpoint skip_space (cs : text) : text :=
  match cs with
  | [] => []
  | c :: cs' => if is_space c then skip_space cs' else cs
  end.

Definition hex_val (c : ascii) : option Z :=
  let n := char_code c in
  if bool_decide (48 <= n <= 57)%Z then Some (n - 48)%Z
  else if bool_decide (97 <= n <= 102)%Z then Some (n - 87)%Z
  else if bool_decide (65 <= n <= 70)%Z then Some (n - 55)%Z
  else None.

Definition hex4 (a b c d : ascii) : option Z :=
  match hex_val a, hex_val b, hex_val c, hex_val d with
  | Some a, Some b, Some c, Some d => Some (((a * 16 + b) * 16 + c) * 16 + d)%Z
  | _, _, _, _ => None
  end.

(** [utf8.AppendRune]. *)
Definition utf8_encode (r : Z) : text :=
  if bool_decide (r < 128)%Z then [chr r]
  else if bool_decide (r < 2048)%Z then [chr (192 + r / 64); chr (128 + r mod 64)]
  else if bool_decide (r < 65536)%Z then
    [chr (224 + r / 4096); chr (128 + r / 64 mod 64); chr (128 + r mod 64)]
  else [chr (240 + r / 262144); chr (128 + r / 4096 mod 64);
        chr (128 + r / 64 mod 64); chr (128 + r mod 64)].

(** U+FFFD, which replaces every byte that is not part of valid UTF-8. *)
Definition rune_error : text := utf8_encode 65533.

Definition between (lo hi : Z) (c : ascii) : bool := bool_decide (lo <= char_code c <= hi)%Z.
Definition cont (c : ascii) : bool := between 128 191 c.

(** The valid second bytes after each lead byte of [n] continuation bytes. *)
Definition utf8_two (c d : ascii) : bool := between 194 223 c && cont d.
Definition utf8_three (c d e : ascii) : bool :=
  ((isc c (chr 224) && between 160 191 d)
   || ((between 225 236 c || between 238 239 c) && cont d)
   || (isc c (chr 237) && between 128 159 d)) && cont e.
Definition utf8_four (c d e f : ascii) : bool :=
  ((isc c (chr 240) && between 144 191 d) || (between 241 243 c && cont d)
   || (isc c (chr 244) && between 128 143 d)) && cont e && cont f.

Definition push (s : text) (r : option (text * text)) : option (text * text) :=
  match r with Some (t, rest) => Some (s ++ t, rest) | None => None end.

Definition simple_escape (e : ascii) : option ascii :=
  if isc e dquote then Some dquote
  else if isc e "\" then Some "\"
  else if isc e "/" then Some "/"
  else if isc e "b" then Some (chr 8)
  else if isc e "f" then Some (chr 12)
  else if isc e "n" then Some (chr 10)
  else if isc e "r" then Some (chr 13)
  else if isc e "t" then Some (chr 9)
  else None.

Definition high_surrogate (r : Z) : bool := bool_decide (55296 <= r < 56320)%Z.
Definition low_surrogate (r : Z) : bool := bool_decide (56320 <= r < 57344)%Z.

(** The rest of a string literal after its opening quote: the decoded bytes
    and what follows the closing quote. *)
Fixpoint parse_string (cs : text) : option (text * text) :=
  match cs with
  | [] => None
  | c :: cs1 =>
    if isc c dquote then Some ([], cs1)
    else if isc c "\" then
      match cs1 with
      | [] => None
      | e :: cs2 =>
        if isc e "u" then
          match cs2 with
          | h1 :: h2 :: h3 :: h4 :: cs3 =>
            match hex4 h1 h2 h3 h4 with
            | None => None
            | Some r =>
              if high_surrogate r then
                match cs3 with
                | b :: u :: g1 :: g2 :: g3 :: g4 :: cs4 =>
                  match (if isc b "\" && isc u "u" then hex4 g1 g2 g3 g4 else None) with
                  | Some r2 =>
                    if low_surrogate r2 then
                      push (utf8_encode ((r - 55296) * 1024 + (r2 - 56320) + 65536))
                           (parse_string cs4)
                    else push rune_error (parse_string cs3)
                  | None => push rune_error (parse_string cs3)
                  end
                | _ => push rune_error (parse_string cs3)
                end
              else if low_surrogate r then push rune_error (parse_string cs3)
              else push (utf8_encode r) (parse_string cs3)
            end
          | _ => None
          end
        else match simple_escape e with
             | Some d => push [d] (parse_string cs2)
             | None => None
             end
      end
    else if bool_decide (char_code c < 32)%Z then None
    else if bool_decide (char_code c < 128)%Z then push [c] (parse_string cs1)
    else
      match cs1 with
      | d :: cs2 =>
        if utf8_two c d then push [c; d] (parse_string cs2)
        else
          match cs2 with
          | e :: cs3 =>
            if utf8_three c d e then push [c; d; e] (parse_string cs3)
            else
              match cs3 with
              | f :: cs4 =>
                if utf8_four c d e f then push [c; d; e; f] (parse_string cs4)
                else push rune_error (parse_string cs1)
              | [] => push rune_error (parse_string cs1)
              end
          | [] => push rune_error (parse_string cs1)
          end
      | [] => None
      end
  end.

Definition is_digit (c : ascii) : bool := between 48 57 c.

(** The longest prefix of digits, and the rest. *)
Fixpoint span_digits (cs : text) : text * text :=
  match cs with
  | c :: cs' =>
      if is_digit c then let '(ds, rest) := span_digits cs' in (c :: ds, rest) else ([], cs)
  | [] => ([], [])
  end.

Definition parse_int_part (cs : text) : option (text * text) :=
  match cs with
  | c :: cs' =>
      if isc c "0" then Some (["0"], cs')
      else if is_digit c then Some (span_digits cs)
      else None
  | [] => None
  end.

Definition parse_frac (cs : text) : option (text * text) :=
  match cs with
  | c :: cs' =>
      if isc c "." then
        match span_digits cs' with
        | ([], _) => None
        | (ds, rest) => Some ("." :: ds, rest)
        end
      else Some ([], cs)
  | [] => Some ([], [])
  end.

Definition parse_exp (cs : text) : option (text * text) :=
  match cs with
  | c :: cs' =>
      if isc c "e" || isc c "E" then
        let '(sign, cs1) :=
          match cs' with
          | g :: cs1 => if isc g "+" || isc g "-" then ([g], cs1) else ([], cs')
          | [] => ([], [])
          end in
        match span_digits cs1 with
        | ([], _) => None
        | (ds, rest) => Some (c :: sign ++ ds, rest)
        end
      else Some ([], cs)
  | [] => Some ([], [])
  end.

(** A number literal; its text is kept, as [strconv] will read it. *)
Definition parse_number (cs : text) : option (text * text) :=
  let '(sign, cs1) :=
    match cs with
    | c :: cs1 => if isc c "-" then ([c], cs1) else ([], cs)
    | [] => ([], [])
    end in
  match parse_int_part cs1 with
  | None => None
  | Some (i, cs2) =>
    match parse_frac cs2 with
    | None => None
    | Some (f, cs3) =>
      match parse_exp cs3 with
      | None => None
      | Some (e, cs4) => Some (sign ++ i ++ f ++ e, cs4)
      end
    end
  end.

Definition chars (s : string) : text := String.list_ascii_of_string s.

Fixpoint strip_prefix (w cs : text) : option text :=
  match w, cs with
  | [], _ => Some cs
  | a :: w, c :: cs => if isc c a then strip_prefix w cs else None
  | _, [] => None
  end.

(** ** Values *)

Definition maxNestingDepth : Z := 10000.

(** One value and the text after it.  [depth] counts the open brackets;
    every recursive call is on a shorter text, so [length cs] bounds [fuel]. *)
Fixpoint parse_value (fuel : nat) (depth : Z) (cs : text) : option (jvalue * text) :=
  match fuel with
  | O => None
  | S fuel =>
    match skip_space cs with
    | [] => None
    | c :: cs1 =>
      if isc c "{" then
        if bool_decide (maxNestingDepth < depth + 1)%Z then None
        else match skip_space cs1 with
             | d :: cs2 =>
                 if isc d "}" then Some (JObj [], cs2)
                 else match parse_members fuel (depth + 1) (d :: cs2) with
                      | Some (kvs, rest) => Some (JObj kvs, rest)
                      | None => None
                      end
             | [] => None
             end
      else if isc c "[" then
        if bool_decide (maxNestingDepth < depth + 1)%Z then None
        else match skip_space cs1 with
             | d :: cs2 =>
                 if isc d "]" then Some (JArr [], cs2)
                 else match parse_elements fuel (depth + 1) (d :: cs2) with
                      | Some (vs, rest) => Some (JArr vs, rest)
                      | None => None
                      end
             | [] => None
             end
      else if isc c dquote then
        match parse_string cs1 with
        | Some (s, rest) => Some (JStr s, rest)
        | None => None
        end
      else if isc c "t" then (fun r => (JBool true, r)) <$> strip_prefix (chars "rue") cs1
      else if isc c "f" then (fun r => (JBool false, r)) <$> strip_prefix (chars "alse") cs1
      else if isc c "n" then (fun r => (JNull, r)) <$> strip_prefix (chars "ull") cs1
      else
        match parse_number (c :: cs1) with
        | Some (lit, rest) => Some (JNum lit, rest)
        | None => None
        end
    end
  end
(** The members of an object, from the quote of the first key. *)
with parse_members (fuel : nat) (depth : Z) (cs : text) : option (list (text * jvalue) * text) :=
  match fuel with
  | O => None
  | S fuel =>
    match skip_space cs with
    | c :: cs1 =>
      if negb (isc c dquote) then None else
      match parse_string cs1 with
      | None => None
      | Some (key, cs2) =>
        match skip_space cs2 with
        | c2 :: cs3 =>
          if negb (isc c2 ":") then None else
          match parse_value fuel depth cs3 with
          | None => None
          | Some (v, cs4) =>
            match skip_space cs4 with
            | c4 :: cs5 =>
                if isc c4 "}" then Some ([(key, v)], cs5)
                else if isc c4 "," then
                  match parse_members fuel depth cs5 with
                  | Some (kvs, rest) => Some ((key, v) :: kvs, rest)
                  | None => None
                  end
                else None
            | [] => None
            end
          end
        | [] => None
        end
      end
    | [] => None
    end
  end
with parse_elements (fuel : nat) (depth : Z) (cs : text) : option (list jvalue * text) :=
  match fuel with
  | O => None
  | S fuel =>
    match parse_value fuel depth cs with
    | None => None
    | Some (v, cs1) =>
      match skip_space cs1 with
      | c :: cs2 =>
          if isc c "]" then Some ([v], cs2)
          else if isc c "," then
            match parse_elements fuel depth cs2 with
            | Some (vs, rest) => Some (v :: vs, rest)
            | None => None
            end
          else None
      | [] => None
      end
    end
  end.

(** Fuel for a text: a value costs one step, and so does each list of members. *)
Definition parse_fuel (cs : text) : nat := 2 * length cs + 2.

Definition ErrJSON := Sentinel "encoding/json".

(** [Decoder.Decode]: the first value of the stream. *)
Definition decode_value (cs : text) : result jvalue :=
  match parse_value (parse_fuel cs) 0 cs with
  | Some (v, _) => Ok v
  | None => Err ErrJSON
  end.

(** [json.Unmarshal]: the whole input is one value. *)
Definition unmarshal_value (cs : text) : result jvalue :=
  match parse_value (parse_fuel cs) 0 cs with
  | Some (v, rest) => match skip_space rest with [] => Ok v | _ => Err ErrJSON end
  | None => Err ErrJSON
  end.

(** ** Decoding into Go values *)

(** A string field; [null] leaves it unchanged. *)
Definition dec_string (v : jvalue) (old : string) : option string :=
  match v with
  | JStr s => Some (String.string_of_list_ascii s)
  | JNull => Some old
  | _ => None
  end.

(** An [int] field. *)
Definition dec_int (v : jvalue) (old : Z) : option Z :=
  match v with
  | JNum lit => match atoi_chars lit with Ok n => Some n | Err _ => None end
  | JNull => Some old
  | _ => None
  end.

(** A struct, as the fold of its members over the old value. *)
Definition field (A : Type) : Type := (string * (jvalue -> A -> option A))%type.

Definition upper (c : ascii) : ascii := if between 97 122 c then chr (char_code c - 32) else c.

(** [foldName]: ASCII letters to upper case; the two other letters in the
    case-folding classes of ASCII letters (U+017F and U+212A) to S and K. *)
Fixpoint foldName (cs : text) : text :=
  match cs with
  | [] => []
  | c :: cs1 =>
    match cs1 with
    | d :: cs2 =>
      if isc c (chr 197) && isc d (chr 191) then "S" :: foldName cs2
      else
        match cs2 with
        | e :: cs3 =>
            if isc c (chr 226) && isc d (chr 132) && isc e (chr 170)
            then "K" :: foldName cs3 else upper c :: foldName cs1
        | [] => upper c :: foldName cs1
        end
    | [] => upper c :: foldName cs1
    end
  end.

Section struct.
Context {A : Type}.

Definition find_field (fields : list (field A)) (key : text)
    : option (jvalue -> A -> option A) :=
  match list_find (fun f => chars f.1 = key) fields with
  | Some (_, f) => Some f.2
  | None =>
    match list_find (fun f => foldName (chars f.1) = foldName key) fields with
    | Some (_, f) => Some f.2
    | None => None
    end
  end.

Fixpoint dec_members (fields : list (field A)) (kvs : list (text * jvalue)) (a : A) : option A :=
  match kvs with
  | [] => Some a
  | (key, v) :: kvs =>
    match find_field fields key with
    | None => dec_members fields kvs a
    | Some set =>
      match set v a with
      | Some a' => dec_members fields kvs a'
      | None => None
      end
    end
  end.

Definition dec_struct (fields : list (field A)) (v : jvalue) (a : A) : option A :=
  match v with
  | JObj kvs => dec_members fields kvs a
  | JNull => Some a
  | _ => None
  end.

(** A pointer to a struct: [null] clears it, an object is decoded into the
    struct it points to, allocated if it was nil. *)
Definition dec_pointer (fields : list (field A)) (zero : A) (v : jvalue) (old : option A)
    : option (option A) :=
  match v with
  | JNull => Some None
  | _ => Some <$> dec_struct fields v (default zero old)
  end.
End struct.

(** ** Printing ([json.Marshal]) *)

Definition hex_digit (n : Z) : ascii := if bool_decide (n < 10)%Z then chr (48 + n) else chr (87 + n).

(** One ASCII character of a string, with HTML escaping. *)
Definition enc_ascii (c : ascii) : text :=
  if isc c dquote then ["\"; dquote]
  else if isc c "\" then ["\"; "\"]
  else if isc c (chr 8) then ["\"; "b"]
  else if isc c (chr 12) then ["\"; "f"]
  else if isc c (chr 10) then ["\"; "n"]
  else if isc c (chr 13) then ["\"; "r"]
  else if isc c (chr 9) then ["\"; "t"]
  else if bool_decide (char_code c < 32)%Z || isc c "<" || isc c ">" || isc c "&" then
    ["\"; "u"; "0"; "0"; hex_digit (char_code c / 16); hex_digit (char_code c mod 16)]
  else [c].

Fixpoint enc_chars (cs : text) : text :=
  match cs with
  | [] => []
  | c :: cs1 =>
    if bool_decide (char_code c < 128)%Z then enc_ascii c ++ enc_chars cs1
    else
      match cs1 with
      | d :: cs2 =>
        if utf8_two c d then c :: d :: enc_chars cs2
        else
          match cs2 with
          | e :: cs3 =>
            if utf8_three c d e then
              (if isc c (chr 226) && isc d (chr 128) && (isc e (chr 168) || isc e (chr 169))
               then chars "\u202" ++ [hex_digit (char_code e mod 16)]
               else [c; d; e]) ++ enc_chars cs3
            else
              match cs3 with
              | f :: cs4 =>
                if utf8_four c d e f then c :: d :: e :: f :: enc_chars cs4
                else chars "\ufffd" ++ enc_chars cs1
              | [] => chars "\ufffd" ++ enc_chars cs1
              end
          | [] => chars "\ufffd" ++ enc_chars cs1
          end
      | [] => chars "\ufffd"
      end
  end.

Definition quote (s : text) : text := dquote :: enc_chars s ++ [dquote].

(** The compact form [json.Marshal] writes. *)
Fixpoint print (v : jvalue) : text :=
  match v with
  | JNull => chars "null"
  | JBool true => chars "true"
  | JBool false => chars "false"
  | JNum lit => lit
  | JStr s => quote s
  | JArr vs => "[" :: join_with "," (map print vs) ++ ["]"]
  | JObj kvs =>
      "{" :: join_with "," (map (fun kv => quote kv.1 ++ ":" :: print kv.2) kvs) ++ ["}"]
  end.

(** A JSON text written with apostrophes for its quotes. *)
Definition json_text (s : string) : text :=
  map (fun c => if isc c "'" then dquote else c) (chars s).

Example parse_sample :
  unmarshal_value (json_text " {'a' : [1, null] ,'b':'x\u0041\ud83d\ude00\/'} ")
  = Ok (JObj [(chars "a", JArr [JNum ["1"]; JNull]);
              (chars "b", JStr (chars "xA" ++ utf8_encode 128512 ++ chars "/"))]).
Proof. vm_compute. reflexivity. Qed.
Example parse_trailing :
  unmarshal_value (json_text "{} x") = Err ErrJSON /\ decode_value (json_text "{} x") = Ok (JObj []).
Proof. split; vm_compute; reflexivity. Qed.
Example parse_bad_escape : unmarshal_value (json_text "'\x'") = Err ErrJSON.
Proof. vm_compute. reflexivity. Qed.
Example foldName_kelvin :
  foldName (utf8_encode 8490 ++ chars "cp") = foldName (chars "KCP").
Proof. vm_compute. reflexivity. Qed.

(** ** Parsing what was printed *)

Lemma isc_true c d : isc c d = true <-> c = d.
Proof. apply bool_decide_eq_true. Qed.

(** A character, tested exhaustively. *)
Lemma ascii_forallb (P : ascii -> bool) :
  forallb P (map (fun n => ascii_of_nat n) (seq 0 256)) = true -> forall c, P c = true.
Proof.
  rewrite forallb_forall. intros HP c. apply HP.
  apply in_map_iff. exists (nat_of_ascii c). split; [apply ascii_nat_embedding|].
  apply in_seq. pose proof (nat_ascii_bounded c). lia.
Qed.

Definition ascii_text (s : text) : Prop := Forall (fun c => (char_code c < 128)%Z) s.

Lemma parse_string_enc_ascii c rest :
  (char_code c < 128)%Z -> parse_string (enc_ascii c ++ rest) = push [c] (parse_string rest).
Proof.
  intros Hc. destruct c as [[] [] [] [] [] [] [] []]; try reflexivity; vm_compute in Hc; discriminate.
Qed.

Lemma parse_string_enc s rest :
  ascii_text s -> parse_string (enc_chars s ++ dquote :: rest) = Some (s, rest).
Proof.
  induction 1 as [|c s Hc Hs IH]; [done|]. cbn [enc_chars].
  rewrite bool_decide_eq_true_2 by done.
  by rewrite <-app_assoc, parse_string_enc_ascii, IH by done.
Qed.

Lemma parse_string_quote s rest :
  ascii_text s -> parse_string (tail (quote s) ++ rest) = Some (s, rest).
Proof.
  intros Hs. unfold quote. simpl. rewrite <-app_assoc. by apply parse_string_enc.
Qed.

(** The characters a number literal cannot go on with. *)
Definition ends_number (rest : text) : Prop :=
  match rest with
  | [] => True
  | c :: _ => is_digit c = false /\ isc c "." = false /\ (isc c "e" || isc c "E") = false
  end.

Definition digits (ds : text) : Prop := Forall (fun c => is_digit c = true) ds.

Lemma span_digits_app ds rest :
  digits ds -> ends_number rest -> span_digits (ds ++ rest) = (ds, rest).
Proof.
  intros Hds Hr. induction Hds as [|c ds Hc Hds IH]; simpl.
  - destruct rest as [|c rest]; [done|]. destruct Hr as (Hd & _). simpl. by rewrite Hd.
  - by rewrite Hc, IH.
Qed.

Lemma is_digit_char d : (0 <= d <= 9)%Z -> is_digit (digit_char d) = true.
Proof.
  intros Hd. unfold is_digit, between, char_code, digit_char.
  rewrite N_ascii_embedding by lia. apply bool_decide_eq_true. lia.
Qed.

Lemma digit_char_zero d : (1 <= d <= 9)%Z -> isc (digit_char d) "0" = false.
Proof.
  intros Hd. apply bool_decide_eq_false. intros H%(f_equal digit_val).
  rewrite digit_val_char in H by lia. change (Some d = Some 0%Z) in H. injection H. lia.
Qed.

(** The digits of a positive number: no leading zero. *)
Lemma itoa_digits_shape fuel n :
  (0 < n < 10 ^ Z.of_nat (S fuel))%Z ->
  exists d ds, (1 <= d <= 9)%Z /\ digits ds /\ itoa_digits (S fuel) n = digit_char d :: ds.
Proof.
  revert n. induction fuel as [|fuel IH]; intros n Hn;
    change (itoa_digits (S ?f) n) with
      (if bool_decide (n < 10)%Z then [digit_char n]
       else itoa_digits f (n / 10) ++ [digit_char (n mod 10)]);
    case_bool_decide; try (exists n, []; split_and!; [lia|lia|constructor|done]).
  - change (10 ^ Z.of_nat 1)%Z with 10%Z in Hn. lia.
  - destruct (IH (n / 10)%Z) as (d & ds & Hd & Hds & ->).
    { rewrite (Nat2Z.inj_succ (S fuel)), Z.pow_succ_r in Hn by lia.
      split; [apply Z.div_str_pos|apply Z.div_lt_upper_bound]; lia. }
    exists d, (ds ++ [digit_char (n mod 10)]). split; [done|]. split; [|done].
    apply Forall_app. split; [done|]. constructor; [|constructor].
    apply is_digit_char. pose proof (Z.mod_pos_bound n 10). lia.
Qed.

Lemma parse_int_part_itoa n rest :
  (0 <= n < 10 ^ 20)%Z -> ends_number rest ->
  parse_int_part (itoa_digits 20 n ++ rest) = Some (itoa_digits 20 n, rest).
Proof.
  intros Hn Hr. destruct (decide (n = 0%Z)) as [->|Hnz]; [done|].
  destruct (itoa_digits_shape 19 n) as (d & ds & Hd & Hds & ->); [simpl; lia|].
  unfold parse_int_part. cbn [app]. rewrite digit_char_zero, is_digit_char by lia.
  rewrite app_comm_cons, span_digits_app; [done| |done].
  constructor; [apply is_digit_char; lia|done].
Qed.

Lemma parse_number_itoa z rest :
  int64 z -> ends_number rest ->
  parse_number (itoa_chars z ++ rest) = Some (itoa_chars z, rest).
Proof.
  unfold int64, min_int64, max_int64. intros Hz Hr.
  assert (forall i cs, parse_int_part cs = Some (i, rest) ->
    forall sign, match parse_int_part cs with
     | None => None
     | Some (i, cs2) =>
       match parse_frac cs2 with
       | None => None
       | Some (f, cs3) =>
         match parse_exp cs3 with
         | None => None
         | Some (e, cs4) => Some (sign ++ i ++ f ++ e, cs4)
         end
       end
     end = Some (sign ++ i, rest)) as Htail.
  { intros i cs -> sign. destruct rest as [|c rest]; simpl; [by rewrite app_nil_r|].
    destruct Hr as (_ & H1 & H2). unfold parse_frac. rewrite H1.
    unfold parse_exp. rewrite H2. by rewrite app_nil_r. }
  unfold parse_number, itoa_chars. case_bool_decide as Hneg.
  - cbn [app]. rewrite (proj2 (isc_true _ _)) by done.
    by rewrite (Htail _ _ (parse_int_part_itoa (- z) rest ltac:(lia) Hr)).
  - destruct (itoa_digits_head 19 z) as (d & cs & Hd & Hi); [lia|].
    rewrite Hi. cbn [app].
    assert (isc (digit_char d) "-" = false) as ->.
    { apply bool_decide_eq_false. by destruct (digit_char_not_sign d Hd). }
    rewrite app_comm_cons, <-Hi.
    by rewrite (Htail _ _ (parse_int_part_itoa z rest ltac:(lia) Hr)).
Qed.

(** The values the program writes: strings of ASCII characters, 64-bit
    integers, and objects of such values. *)
Inductive printable : jvalue -> Prop :=
| printable_null : printable JNull
| printable_bool b : printable (JBool b)
| printable_num z : int64 z -> printable (JNum (itoa_chars z))
| printable_str s : ascii_text s -> printable (JStr s)
| printable_obj kvs :
    (forall k v, (k, v) ∈ kvs -> ascii_text k /\ printable v) -> printable (JObj kvs).

(** The first character of a number selects the number branch of the parser. *)
Definition number_start (c : ascii) : bool := isc c "-" || is_digit c.
Lemma number_start_other c :
  number_start c = true ->
  is_space c = false /\ isc c "{" = false /\ isc c "[" = false /\ isc c dquote = false
  /\ isc c "t" = false /\ isc c "f" = false /\ isc c "n" = false.
Proof.
  assert (forall c, implb (number_start c)
    (negb (is_space c || isc c "{" || isc c "[" || isc c dquote
           || isc c "t" || isc c "f" || isc c "n")) = true) as Hall.
  { apply ascii_forallb. vm_compute. reflexivity. }
  specialize (Hall c). intros Hc. rewrite Hc in Hall. simpl in Hall.
  by rewrite negb_true_iff, !orb_false_iff in Hall; destruct_and!.
Qed.

Lemma itoa_start z : int64 z -> exists c cs, itoa_chars z = c :: cs /\ number_start c = true.
Proof.
  unfold int64, min_int64, max_int64, itoa_chars. intros Hz. case_bool_decide.
  - exists "-", (itoa_digits 20 (- z)). split; reflexivity.
  - destruct (itoa_digits_head 19 z) as (d & cs & Hd & ->); [lia|].
    eexists _, _. split; [done|]. unfold number_start. rewrite is_digit_char by done.
    apply orb_true_r.
Qed.

(** The first character of a printed value is not a space, and tells its kind. *)
Lemma print_head v :
  printable v -> exists c cs, print v = c :: cs /\ is_space c = false.
Proof.
  destruct 1 as [|[]|z Hz|s|kvs]; try (eexists _, _; split; reflexivity).
  destruct (itoa_start z Hz) as (c & cs & Hi & (Hc & _)%number_start_other).
  simpl. rewrite Hi. eauto.
Qed.

Lemma skip_space_print v rest :
  printable v -> skip_space (print v ++ rest) = print v ++ rest.
Proof. intros (c & cs & -> & Hc)%print_head. simpl. by rewrite Hc. Qed.

(** The text of the members of an object. *)
Definition print_members (kvs : list (text * jvalue)) : text :=
  join_with "," (map (fun kv => quote kv.1 ++ ":" :: print kv.2) kvs).

(** [parse_value] reads back a printed value, whatever follows it; the fuel
    and the nesting limit are bounded by the length of the text. *)
Definition parses_back (fuel : nat) : Prop :=
  forall v rest depth, printable v -> ends_number rest ->
  2 * length (print v) <= fuel ->
  (0 <= depth /\ depth + Z.of_nat (length (print v)) <= maxNestingDepth)%Z ->
  parse_value fuel depth (print v ++ rest) = Some (v, rest).

(** One member, its value being parsed by [parse_value]. *)
Lemma parse_member fuel depth k v cs c cs' :
  ascii_text k -> parse_value fuel depth cs = Some (v, c :: cs') -> is_space c = false ->
  parse_members (S fuel) depth (quote k ++ ":" :: cs)
  = if isc c "}" then Some ([(k, v)], cs')
    else if isc c "," then
      match parse_members fuel depth cs' with
      | Some (kvs, rest) => Some ((k, v) :: kvs, rest)
      | None => None
      end
    else None.
Proof.
  intros Hk Hv Hc. change (quote k ++ ":" :: cs) with (dquote :: tail (quote k) ++ ":" :: cs).
  cbn [parse_members]. change (skip_space (dquote :: ?x)) with (dquote :: x).
  cbv beta iota. change (negb (isc dquote dquote)) with false. cbv iota.
  rewrite parse_string_quote by done. change (skip_space (":" :: cs)) with (":" :: cs).
  cbv iota. change (negb (isc ":" ":")) with false. cbv iota.
  rewrite Hv. cbn [skip_space]. by rewrite Hc.
Qed.

Lemma print_members_cons k v kv kvs :
  print_members ((k, v) :: kv :: kvs)
  = quote k ++ ":" :: print v ++ "," :: print_members (kv :: kvs).
Proof. unfold print_members. simpl. by rewrite <-app_assoc. Qed.

Lemma parse_members_print fuel depth kvs rest :
  (forall f, f < fuel -> parses_back f) ->
  kvs <> [] ->
  (forall k v, (k, v) ∈ kvs -> ascii_text k /\ printable v) ->
  2 * length (print_members kvs) <= fuel ->
  (0 <= depth /\ depth + Z.of_nat (length (print_members kvs)) <= maxNestingDepth)%Z ->
  parse_members fuel depth (print_members kvs ++ "}" :: rest) = Some (kvs, rest).
Proof.
  revert fuel. induction kvs as [|[k v] kvs IH]; intros fuel Hback Hne Hkvs Hfuel Hdepth; [done|].
  destruct (Hkvs k v) as [Hk Hv]; [set_solver|].
  destruct kvs as [|kv kvs].
  - change (print_members [(k, v)]) with (quote k ++ ":" :: print v) in *.
    rewrite <-app_assoc. cbn [app]. rewrite length_app in Hfuel, Hdepth.
    simpl length in Hfuel, Hdepth.
    destruct fuel as [|fuel]; [lia|].
    rewrite (parse_member fuel depth k v _ "}" rest); [done|done| |done].
    apply Hback; try done; lia.
  - rewrite print_members_cons in Hfuel, Hdepth |- *.
    rewrite !length_app in Hfuel, Hdepth. simpl length in Hfuel, Hdepth.
    rewrite !length_app in Hfuel, Hdepth. simpl length in Hfuel, Hdepth.
    destruct fuel as [|fuel]; [lia|].
    rewrite <-app_assoc. cbn [app]. rewrite <-app_assoc. cbn [app].
    rewrite (parse_member fuel depth k v _ "," (print_members (kv :: kvs) ++ "}" :: rest));
      [ |done| |done].
    + change (isc "," "}") with false. change (isc "," ",") with true. cbv iota.
      rewrite IH; [done| |done| | |]; try lia.
      * intros f Hf. apply Hback. lia.
      * intros. apply Hkvs. set_solver.
    + apply Hback; try done; lia.
Qed.

Lemma parse_value_print fuel : parses_back fuel.
Proof.
  induction fuel as [fuel IH] using lt_wf_ind.
  intros v rest depth Hv Hrest Hfuel Hdepth.
  pose proof (skip_space_print v rest Hv) as Hskip.
  destruct (print_head v Hv) as (c0 & cs0 & Hhead & _).
  destruct fuel as [|fuel]; [rewrite Hhead in Hfuel; simpl in Hfuel; lia|].
  cbn [parse_value]. rewrite Hskip. clear Hskip Hhead c0 cs0.
  destruct Hv as [|[]|z Hz|s Hs|kvs Hkvs]; try reflexivity.
  - destruct (itoa_start z Hz) as (c & cs & Hi & Hc).
    apply number_start_other in Hc as (_ & H1 & H2 & H3 & H4 & H5 & H6).
    change (print (JNum (itoa_chars z))) with (itoa_chars z). rewrite Hi. cbn [app].
    rewrite H1, H2, H3, H4, H5, H6. rewrite app_comm_cons, <-Hi.
    by rewrite parse_number_itoa.
  - change (print (JStr s) ++ rest) with (dquote :: tail (quote s) ++ rest).
    cbv beta iota. rewrite parse_string_quote by done. reflexivity.
  - change (print (JObj kvs)) with ("{" :: print_members kvs ++ ["}"]) in *.
    simpl length in Hfuel, Hdepth. rewrite length_app in Hfuel, Hdepth.
    simpl length in Hfuel, Hdepth. cbn [app]. rewrite <-app_assoc. cbn [app].
    change (isc "{" "{") with true. cbv iota.
    rewrite bool_decide_eq_false_2 by lia.
    destruct kvs as [|[k v] kvs]; [done|].
    assert (exists x, print_members ((k, v) :: kvs) = dquote :: x) as [x Hx].
    { unfold print_members. simpl. destruct kvs; simpl; eauto. }
    rewrite Hx. cbn [app]. change (skip_space (dquote :: ?y)) with (dquote :: y). cbv iota.
    change (isc dquote "}") with false. cbv iota. rewrite app_comm_cons, <-Hx.
    rewrite parse_members_print; [done| |done|done|lia|lia].
    intros f Hf. apply IH. lia.
Qed.

(** [json.Unmarshal] after [json.Marshal], for a text within the nesting limit. *)
Lemma unmarshal_print v :
  printable v -> (Z.of_nat (length (print v)) <= maxNestingDepth)%Z ->
  unmarshal_value (print v) = Ok v.
Proof.
  intros Hv Hlen. unfold unmarshal_value.
  pose proof (parse_value_print (parse_fuel (print v)) v [] 0%Z Hv) as H.
  rewrite app_nil_r in H. rewrite H; [done|done| |lia]. unfold parse_fuel. lia.
Qed.

(** ** Texts as bytes *)

Definition text_of_bytes (b : bytes) : text := map ascii_of_byte b.
Definition bytes_of_text (t : text) : bytes := map byte_of_ascii t.

Lemma text_of_bytes_of_text t : text_of_bytes (bytes_of_text t) = t.
Proof.
  unfold text_of_bytes, bytes_of_text. rewrite map_map.
  induction t as [|c t IH]; simpl; [done|]. by rewrite ascii_of_byte_of_ascii, IH.
Qed.

Lemma length_bytes_of_text t : length (bytes_of_text t) = length t.
Proof. apply length_map. Qed.

Lemma chars_string_of s : String.string_of_list_ascii (chars s) = s.
Proof. apply String.string_of_list_ascii_of_string. Qed.

Definition of_option {A} (o : option A) : result A :=
  match o with Some a => Ok a | None => Err ErrJSON end.

(** [json.NewDecoder(f).Decode(&a)] and [json.Unmarshal(b, &a)]. *)
Definition decode_into {A} (fields : list (field A)) (b : bytes) (a : A) : result A :=
  try! v := decode_value (text_of_bytes b) or id; of_option (dec_struct fields v a).
Definition unmarshal_into {A} (fields : list (field A)) (b : bytes) (a : A) : result A :=
  try! v := unmarshal_value (text_of_bytes b) or id; of_option (dec_struct fields v a).

Arguments print : simpl never.
