(* ===== verification/JsonFuel.v ===== *)
(** * The JSON parser needs no more fuel than it is given

    [decode_value] and [unmarshal_value] run the parser with [parse_fuel].
    Here: every parser leaves strictly less text than it was given, and with
    any fuel from [parse_fuel] on the result is the same, so [None] is always
    a syntax error and never fuel that has run out. *)

From S2P Require Import Prelude GoLib Json.

(** ** The parsers consume *)

Definition consumes {A} (p : text -> option (A * text)) (cs : text) : Prop :=
  forall r rest, p cs = Some (r, rest) -> length rest < length cs.

Lemma skip_space_length cs : length (skip_space cs) <= length cs.
Proof. induction cs as [|c cs IH]; simpl; [done|]. case_match; simpl; lia. Qed.

Lemma strip_prefix_length w cs rest : strip_prefix w cs = Some rest -> length rest <= length cs.
Proof.
  revert cs. induction w as [|a w IH]; intros [|c cs]; simpl; try done;
    try (intros [= <-]; simpl; lia).
  case_match; [|done]. intros ?%IH. lia.
Qed.

Lemma push_Some s r t rest : push s r = Some (t, rest) -> exists t', r = Some (t', rest).
Proof. destruct r as [[t' rest']|]; [|done]. intros [= _ <-]. eauto. Qed.

Lemma parse_string_consumes cs : consumes parse_string cs.
Proof.
  induction cs as [cs IH] using (induction_ltof1 _ (@length Ascii.ascii)). unfold ltof in IH.
  intros r rest H. destruct cs as [|c cs]; [done|]. cbn [parse_string] in H. cbn [length].
  assert (forall t cs', length cs' < S (length cs) -> push t (parse_string cs') = Some (r, rest) ->
    length rest < S (length cs)) as Hpush.
  { intros t cs' Hlt [t' Hp]%push_Some. apply IH in Hp; simpl; lia. }
  clear IH. repeat (case_match; try discriminate H);
    first [ injection H as _ <-; lia | eapply Hpush, H; subst; simpl; lia ].
Qed.

Lemma span_digits_length cs : length (span_digits cs).2 <= length cs.
Proof.
  induction cs as [|c cs IH]; simpl; [done|]. case_match; [|done].
  destruct (span_digits cs). simpl in *. lia.
Qed.

(** The same for a digit span that was taken apart. *)
Ltac spans :=
  repeat match goal with
  | H : span_digits ?cs = (_, ?rest) |- _ =>
      let L := fresh "L" in
      assert (length rest <= length cs) as L
        by (pose proof (span_digits_length cs) as L; by rewrite H in L);
      clear H
  end.

Lemma parse_int_part_consumes cs : consumes parse_int_part cs.
Proof.
  intros r rest. destruct cs as [|c cs]; [done|]. cbn [parse_int_part span_digits].
  repeat case_match; intros; simplify_eq; spans; simpl; lia.
Qed.

Lemma parse_frac_length cs r rest : parse_frac cs = Some (r, rest) -> length rest <= length cs.
Proof.
  destruct cs as [|c cs]; cbn [parse_frac]; [by intros [= _ <-]|].
  repeat case_match; intros; simplify_eq; spans; simpl in *; lia.
Qed.

Lemma parse_exp_length cs r rest : parse_exp cs = Some (r, rest) -> length rest <= length cs.
Proof.
  destruct cs as [|c cs]; cbn [parse_exp]; [by intros [= _ <-]|].
  repeat case_match; intros; simplify_eq; spans; simpl in *; lia.
Qed.

Lemma parse_number_consumes cs : consumes parse_number cs.
Proof.
  intros r rest H. unfold parse_number in H.
  destruct (match cs with [] => _ | _ => _ end) as [sign cs1] eqn:Hs.
  assert (length cs1 <= length cs) by (repeat case_match; simplify_eq; simpl; lia).
  destruct (parse_int_part cs1) as [[i cs2]|] eqn:Hi; [|done]. apply parse_int_part_consumes in Hi.
  destruct (parse_frac cs2) as [[f cs3]|] eqn:Hf; [|done]. apply parse_frac_length in Hf.
  destruct (parse_exp cs3) as [[e cs4]|] eqn:He; [|done]. apply parse_exp_length in He.
  injection H as _ <-. lia.
Qed.

(** ** Values *)

(** Name what [skip_space] leaves, with its length. *)
Ltac skip cs l E :=
  let L := fresh "L" in
  pose proof (skip_space_length cs) as L; destruct (skip_space cs) as l eqn:E; simpl in L.

Lemma parsers_consume fuel :
  (forall d cs, consumes (parse_value fuel d) cs)
  /\ (forall d cs, consumes (parse_members fuel d) cs)
  /\ (forall d cs, consumes (parse_elements fuel d) cs).
Proof.
  induction fuel as [|fuel (IHv & IHm & IHe)]; [done|]. split_and!; intros d cs r rest H;
    pose proof (skip_space_length cs).
  - cbn [parse_value] in H. destruct (skip_space cs) as [|c cs1]; [done|]. simpl in *.
    pose proof (skip_space_length cs1).
    repeat (case_match; simplify_eq; try done); simpl in *; try lia;
      repeat match goal with
      | E : parse_members _ _ _ = Some _ |- _ => apply IHm in E; simpl in E
      | E : parse_elements _ _ _ = Some _ |- _ => apply IHe in E; simpl in E
      | E : parse_string _ = Some _ |- _ => apply parse_string_consumes in E
      | E : parse_number _ = Some _ |- _ => apply parse_number_consumes in E; simpl in E
      | E : _ <$> strip_prefix _ _ = Some _ |- _ =>
          apply fmap_Some in E as (? & E & ?); simplify_eq; apply strip_prefix_length in E
      end; simplify_eq; try lia.
  - cbn [parse_members] in H. destruct (skip_space cs) as [|c cs1]; [done|]. simpl in *.
    case_match; [done|]. destruct (parse_string cs1) as [[key cs2]|] eqn:E1; [|done].
    apply parse_string_consumes in E1. pose proof (skip_space_length cs2).
    destruct (skip_space cs2) as [|c2 cs3]; [done|]. simpl in *. case_match; [done|].
    destruct (parse_value fuel d cs3) as [[v cs4]|] eqn:E2; [|done]. apply IHv in E2.
    pose proof (skip_space_length cs4). destruct (skip_space cs4) as [|c4 cs5]; [done|]. simpl in *.
    repeat (case_match; simplify_eq; try done); simpl in *; try lia;
      match goal with E : parse_members _ _ _ = Some _ |- _ => apply IHm in E end; lia.
  - cbn [parse_elements] in H. destruct (parse_value fuel d cs) as [[v cs1]|] eqn:E1; [|done].
    apply IHv in E1. pose proof (skip_space_length cs1).
    destruct (skip_space cs1) as [|c cs2]; [done|]. simpl in *.
    repeat (case_match; simplify_eq; try done); simpl in *; try lia;
      match goal with E : parse_elements _ _ _ = Some _ |- _ => apply IHe in E end; lia.
Qed.

Lemma parse_value_consumes fuel d cs : consumes (parse_value fuel d) cs.
Proof. apply parsers_consume. Qed.

(** A text of length [n] is parsed the same with any fuel from [2 n + 1] on. *)
Lemma parsers_fuel n :
  (forall f f' d cs, length cs <= n -> 2 * n + 1 <= f -> 2 * n + 1 <= f' ->
     parse_value f d cs = parse_value f' d cs)
  /\ (forall f f' d cs, length cs <= n -> 2 * n + 2 <= f -> 2 * n + 2 <= f' ->
     parse_members f d cs = parse_members f' d cs)
  /\ (forall f f' d cs, length cs <= n -> 2 * n + 2 <= f -> 2 * n + 2 <= f' ->
     parse_elements f d cs = parse_elements f' d cs).
Proof.
  induction n as [n IH] using lt_wf_ind.
  assert (forall f f' d cs, length cs <= n -> 2 * n + 1 <= f -> 2 * n + 1 <= f' ->
    parse_value f d cs = parse_value f' d cs) as Hv.
  { intros f f' d cs Hl Hf Hf'. destruct f as [|f]; [lia|]. destruct f' as [|f']; [lia|].
    cbn [parse_value]. pose proof (skip_space_length cs).
    destruct (skip_space cs) as [|c cs1]; [done|]. simpl in *. pose proof (skip_space_length cs1).
    destruct (IH (n - 1)) as (_ & IHm & IHe); [lia|].
    repeat (case_match; try done); simpl in *.
    all: match goal with
      | E1 : parse_members ?g ?d ?cs = ?a, E2 : parse_members ?g' ?d ?cs = ?b |- _ =>
          rewrite (IHm g g') in E1 by (simpl; lia)
      | E1 : parse_elements ?g ?d ?cs = ?a, E2 : parse_elements ?g' ?d ?cs = ?b |- _ =>
          rewrite (IHe g g') in E1 by (simpl; lia)
      end; congruence. }
  split_and!; [exact Hv| |]; intros f f' d cs Hl Hf Hf';
    (destruct f as [|f]; [lia|]); (destruct f' as [|f']; [lia|]).
  - cbn [parse_members]. pose proof (skip_space_length cs).
    destruct (skip_space cs) as [|c cs1]; [done|]. simpl in *. case_match; [done|].
    destruct (parse_string cs1) as [[key cs2]|] eqn:E1; [|done].
    apply parse_string_consumes in E1. pose proof (skip_space_length cs2).
    destruct (skip_space cs2) as [|c2 cs3]; [done|]. simpl in *. case_match; [done|].
    rewrite (Hv f f') by lia.
    destruct (parse_value f' d cs3) as [[v cs4]|] eqn:E2; [|done]. apply parse_value_consumes in E2.
    pose proof (skip_space_length cs4). destruct (skip_space cs4) as [|c4 cs5]; [done|]. simpl in *.
    case_match; [done|]. case_match; [|done].
    destruct (IH (n - 1)) as (_ & IHm & _); [lia|]. by rewrite (IHm f f') by lia.
  - cbn [parse_elements]. rewrite (Hv f f') by lia.
    destruct (parse_value f' d cs) as [[v cs1]|] eqn:E1; [|done]. apply parse_value_consumes in E1.
    pose proof (skip_space_length cs1). destruct (skip_space cs1) as [|c cs2]; [done|]. simpl in *.
    case_match; [done|]. case_match; [|done].
    destruct (IH (n - 1)) as (_ & _ & IHe); [lia|]. by rewrite (IHe f f') by lia.
Qed.

(** The parser on a text, without fuel: what it returns with all fuel from
    some point on. *)
Definition parses_to (cs : text) (o : option (jvalue * text)) : Prop :=
  exists f0, forall f, f0 <= f -> parse_value f 0 cs = o.

Lemma parse_fuel_enough cs : parses_to cs (parse_value (parse_fuel cs) 0 cs).
Proof.
  exists (parse_fuel cs). intros f Hf. unfold parse_fuel in *.
  destruct (parsers_fuel (length cs)) as (Hv & _ & _). apply Hv; lia.
Qed.

Lemma parses_to_functional cs o1 o2 : parses_to cs o1 -> parses_to cs o2 -> o1 = o2.
Proof. intros [f1 H1] [f2 H2]. rewrite <- (H1 (f1 + f2)), <- (H2 (f1 + f2)) by lia. done. Qed.

(** A decoding error is an error of the text. *)
Lemma decode_value_spec cs r :
  decode_value cs = r <->
  exists o, parses_to cs o
    /\ r = match o with Some (v, _) => Ok v | None => Err ErrJSON end.
Proof.
  unfold decode_value. split.
  - intros <-. eexists. split; [apply parse_fuel_enough|done].
  - intros (o & Ho & ->). by rewrite (parses_to_functional _ _ _ Ho (parse_fuel_enough cs)).
Qed.

Arguments parse_value : simpl never.
Arguments parse_members : simpl never.
Arguments parse_elements : simpl never.
