(* ===== verification/Proto.v ===== *)
(** * Package [proto]: the transport protocols (src/internal/proto/proto.go)

    A [Name] is a Go string.  [Parse] recognises exactly the ten supported
    names; the four predicates drive every dispatch of the program. *)

From S2P Require Import Prelude GoLib.

Definition Name : Type := string.

#[export] Instance Name_eq_decision : EqDecision Name := String.eq_dec.

Definition TCP : Name := "tcp".
Definition UDP : Name := "udp".
Definition WS : Name := "ws".
Definition WSS : Name := "wss".
Definition TCPMux : Name := "tcpmux".
Definition WSMux : Name := "wsmux".
Definition WSSMux : Name := "wssmux".
Definition UTCPMux : Name := "utcpmux".
Definition QUIC : Name := "quic".
Definition Stealth : Name := "stealth".

Definition supported : list Name :=
  [TCP; UDP; WS; WSS; TCPMux; WSMux; WSSMux; UTCPMux; QUIC; Stealth].

(** The [for _, n := range supported] loop of [Parse]. *)
Fixpoint parse_loop (s : string) (names : list Name) : option Name :=
  match names with
  | [] => None
  | n :: names => if decide (n = s) then Some n else parse_loop s names
  end.

Definition Parse (s : string) : result Name :=
  match parse_loop s supported with
  | Some n => Ok n
  | None => Err (Errorf "unknown protocol %q (supported: %v)" [FStr s; FList supported])
  end.

Definition Mux (n : Name) : bool :=
  bool_decide (n ∈ [TCPMux; WSMux; WSSMux; UTCPMux; Stealth]).
Definition WebSocket (n : Name) : bool :=
  bool_decide (n ∈ [WS; WSS; WSMux; WSSMux]).
Definition TLS (n : Name) : bool :=
  bool_decide (n ∈ [WSS; WSSMux; QUIC]).
Definition UDPBased (n : Name) : bool :=
  bool_decide (n ∈ [UDP; UTCPMux; QUIC]).

(** ** Lemmas *)

Lemma parse_loop_spec s names n :
  parse_loop s names = Some n <-> n = s /\ n ∈ names.
Proof.
  induction names as [|m names IH]; simpl; [set_solver|].
  case_decide as Hm; [|rewrite IH; set_solver].
  split; [intros [= <-]; set_solver|naive_solver].
Qed.

Lemma Parse_ok s n : Parse s = Ok n <-> n = s /\ s ∈ supported.
Proof.
  pose proof (parse_loop_spec s supported) as Hspec. unfold Parse. split.
  - destruct (parse_loop s supported) as [m|]; [|done]. intros [= ->].
    destruct (proj1 (Hspec n) eq_refl) as [-> ?]. done.
  - intros [-> Hs]. by rewrite (proj2 (Hspec s)).
Qed.

Lemma Parse_supported s : s ∈ supported -> Parse s = Ok s.
Proof. intros. by apply Parse_ok. Qed.

(** Case analysis on a supported name. *)
Ltac supported_cases H :=
  unfold supported in H; rewrite ?elem_of_cons, ?elem_of_nil in H; destruct_or! H;
  try (exfalso; exact H); subst.

(** Decide the conditions that mention only concrete names. *)
Ltac name_ifs :=
  repeat match goal with
  | |- context [@bool_decide ?P ?d] =>
      let b := eval vm_compute in (@bool_decide P d) in
      lazymatch b with true => idtac | false => idtac end;
      change (@bool_decide P d) with b
  | |- context [@decide (?x = ?y) ?d] =>
      first [ rewrite (decide_True (P := x = y)) by reflexivity
            | rewrite (decide_False (P := x = y)) by discriminate ]
  | |- context [negb true] => change (negb true) with false
  | |- context [negb false] => change (negb false) with true
  | |- context [if true then ?a else ?b] => change (if true then a else b) with a
  | |- context [if false then ?a else ?b] => change (if false then a else b) with b
  end.

(** A check of a boolean statement on each supported name. *)
Lemma supported_forallb (f : Name -> bool) :
  forallb f supported = true -> forall n, n ∈ supported -> f n = true.
Proof. rewrite forallb_forall. intros Hf n Hn. by apply Hf, list_elem_of_In. Qed.

(** The carrier a protocol runs on. *)
Inductive carrier : Type := CarrierTCP | CarrierWebSocket | CarrierUDP.

#[export] Instance carrier_eq_decision : EqDecision carrier.
Proof. solve_decision. Defined.

Definition carrier_of (n : Name) : carrier :=
  if WebSocket n then CarrierWebSocket
  else if UDPBased n then CarrierUDP
  else CarrierTCP.
