(* ===== verification/Config.v ===== *)
(** * Package [config]: the configuration files (src/internal/config/config.go)

    The two configuration records with their JSON fields, their validation
    and their loading; the file system is an argument of the loaders. *)

From S2P Require Import Prelude GoLib Json JsonFuel Proto.

Local Open Scope Z_scope.

Definition minTokenLength : nat := 16.

Record KCP : Type := mkKCP {
  NoDelay : Z;
  Interval : Z;
  Resend : Z;
  NoCongestion : Z;
  SndWnd : Z;
  RcvWnd : Z;
  DataShards : Z;
  ParityShards : Z;
}.

#[export] Instance KCP_eq_decision : EqDecision KCP.
Proof. solve_decision. Defined.

Definition DefaultKCP : KCP := {|
  NoDelay := 1;
  Interval := 20;
  Resend := 2;
  NoCongestion := 1;
  SndWnd := 4096;
  RcvWnd := 4096;
  DataShards := 10;
  ParityShards := 3;
|}.

Definition KCP_Validate (k : KCP) : option error :=
  if bool_decide (Interval k <= 0) then
    Some (Errorf "kcp Interval must be positive, got %d" [FInt (Interval k)])
  else if bool_decide (SndWnd k <= 0) || bool_decide (RcvWnd k <= 0) then
    Some (Errorf "kcp SndWnd and RcvWnd must be positive, got %d and %d"
            [FInt (SndWnd k); FInt (RcvWnd k)])
  else if bool_decide (DataShards k < 0) || bool_decide (ParityShards k < 0) then
    Some (Errorf "kcp DataShards and ParityShards must not be negative" [])
  else None.

Record Server : Type := mkServer {
  ControlPort : string;
  ServerDataPort : string;
  ServerProtocol : Name;
  TargetAddress : string;
  ServerToken : string;
  ServerTLSCertPath : string;
  TLSKeyPath : string;
  StealthHandshakeServer : string;
  ServerKCP : option KCP;   (* *KCP: nil or a pointer *)
}.

Record Client : Type := mkClient {
  ControlAddress : string;
  RemoteHost : string;
  ListenAddress : string;
  ClientToken : string;
  ClientProtocol : Name;
  ClientDataPort : string;
  StealthSNI : string;
  StealthCAFile : string;
  ClientTLSCertPath : string;
}.

(** The zero values [var cfg Server] and [var cfg Client]. *)
Definition zero_Server : Server := mkServer "" "" "" "" "" "" "" "" None.
Definition zero_Client : Client := mkClient "" "" "" "" "" "" "" "" "".

Definition set_ServerKCP (k : option KCP) (c : Server) : Server :=
  {| ControlPort := ControlPort c; ServerDataPort := ServerDataPort c;
     ServerProtocol := ServerProtocol c; TargetAddress := TargetAddress c;
     ServerToken := ServerToken c; ServerTLSCertPath := ServerTLSCertPath c;
     TLSKeyPath := TLSKeyPath c; StealthHandshakeServer := StealthHandshakeServer c;
     ServerKCP := k |}.

Definition set_ClientTLSCertPath (p : string) (c : Client) : Client :=
  {| ControlAddress := ControlAddress c; RemoteHost := RemoteHost c;
     ListenAddress := ListenAddress c; ClientToken := ClientToken c;
     ClientProtocol := ClientProtocol c; ClientDataPort := ClientDataPort c;
     StealthSNI := StealthSNI c; StealthCAFile := StealthCAFile c;
     ClientTLSCertPath := p |}.

(** ** Validation *)

Definition validateToken (token : string) : option error :=
  if bool_decide (String.length token < minTokenLength)%nat then
    Some (Errorf "token must be at least %d characters" [FInt (Z.of_nat minTokenLength)])
  else None.

Definition validatePort (field port : string) : option error :=
  let bad := Some (Errorf "%s must be a port number between 1 and 65535, got %q"
                     [FStr field; FStr port]) in
  match Atoi port with
  | Err _ => bad
  | Ok n => if bool_decide (n < 1) || bool_decide (n > 65535) then bad else None
  end.

Definition validateHostPort (field addr : string) : option error :=
  match SplitHostPort addr with
  | Err err => Some (Wrapf "%s must be host:port, got %q: %w" [FStr field; FStr addr] err)
  | Ok (host, port) =>
      if bool_decide (host = ""%string) && negb (bool_decide (field = "local_listen_port"%string))
      then Some (Errorf "%s must include a host, got %q" [FStr field; FStr addr])
      else validatePort field port
  end.

Definition server_validate (c : Server) : option error :=
  check! err_of (Parse (ServerProtocol c));
  check! validatePort "data_port" (ServerDataPort c);
  check! (if decide (ServerProtocol c = Stealth) then
            validateHostPort "stealth_handshake_server" (StealthHandshakeServer c)
          else validatePort "control_port" (ControlPort c));
  if bool_decide (ControlPort c = ServerDataPort c) && negb (UDPBased (ServerProtocol c)) then
    Some (Errorf "control_port and data_port must differ for protocol %q"
            [FStr (ServerProtocol c)])
  else
  check! validateHostPort "xray_inbound_address" (TargetAddress c);
  check! validateToken (ServerToken c);
  if TLS (ServerProtocol c)
     && (bool_decide (ServerTLSCertPath c = ""%string) || bool_decide (TLSKeyPath c = ""%string))
  then Some (Errorf "tls_cert_path and tls_key_path are required for protocol %q"
               [FStr (ServerProtocol c)])
  else
    match ServerKCP c with
    | Some k => KCP_Validate k
    | None => Some nil_dereference   (* method call through a nil pointer *)
    end.

Definition client_validate (c : Client) : option error :=
  check! (if decide (ClientProtocol c <> ""%string) then
            check! err_of (Parse (ClientProtocol c));
            check! validatePort "data_port" (ClientDataPort c);
            if bool_decide (ClientProtocol c = Stealth) && bool_decide (StealthSNI c = ""%string)
            then Some (Errorf "stealth_sni is required for protocol %q"
                         [FStr (ClientProtocol c)])
            else None
          else validateHostPort "control_server_address" (ControlAddress c));
  if bool_decide (RemoteHost c = ""%string) then
    Some (Errorf "remote_server_ip must not be empty" [])
  else
  check! validateHostPort "local_listen_port" (ListenAddress c);
  validateToken (ClientToken c).

(** ** The JSON fields (the struct tags) *)

Definition int_field (name : string) (get : KCP -> Z) (put : Z -> KCP -> KCP) : field KCP :=
  (name, fun v k => (fun n => put n k) <$> dec_int v (get k)).

Definition KCP_fields : list (field KCP) := [
  int_field "NoDelay" NoDelay (fun n '(mkKCP _ b c d e f g h) => mkKCP n b c d e f g h);
  int_field "Interval" Interval (fun n '(mkKCP a _ c d e f g h) => mkKCP a n c d e f g h);
  int_field "Resend" Resend (fun n '(mkKCP a b _ d e f g h) => mkKCP a b n d e f g h);
  int_field "NoCongestion" NoCongestion
    (fun n '(mkKCP a b c _ e f g h) => mkKCP a b c n e f g h);
  int_field "SndWnd" SndWnd (fun n '(mkKCP a b c d _ f g h) => mkKCP a b c d n f g h);
  int_field "RcvWnd" RcvWnd (fun n '(mkKCP a b c d e _ g h) => mkKCP a b c d e n g h);
  int_field "DataShards" DataShards (fun n '(mkKCP a b c d e f _ h) => mkKCP a b c d e f n h);
  int_field "ParityShards" ParityShards (fun n '(mkKCP a b c d e f g _) => mkKCP a b c d e f g n)
].

Definition zero_KCP : KCP := mkKCP 0 0 0 0 0 0 0 0.

Definition string_field {A} (name : string) (get : A -> string) (put : string -> A -> A)
    : field A :=
  (name, fun v a => (fun s => put s a) <$> dec_string v (get a)).

Definition Server_fields : list (field Server) := [
  string_field "control_port" ControlPort
    (fun s '(mkServer _ b c d e f g h i) => mkServer s b c d e f g h i);
  string_field "data_port" ServerDataPort
    (fun s '(mkServer a _ c d e f g h i) => mkServer a s c d e f g h i);
  string_field "protocol" ServerProtocol
    (fun s '(mkServer a b _ d e f g h i) => mkServer a b s d e f g h i);
  string_field "xray_inbound_address" TargetAddress
    (fun s '(mkServer a b c _ e f g h i) => mkServer a b c s e f g h i);
  string_field "token" ServerToken
    (fun s '(mkServer a b c d _ f g h i) => mkServer a b c d s f g h i);
  string_field "tls_cert_path" ServerTLSCertPath
    (fun s '(mkServer a b c d e _ g h i) => mkServer a b c d e s g h i);
  string_field "tls_key_path" TLSKeyPath
    (fun s '(mkServer a b c d e f _ h i) => mkServer a b c d e f s h i);
  string_field "stealth_handshake_server" StealthHandshakeServer
    (fun s '(mkServer a b c d e f g _ i) => mkServer a b c d e f g s i);
  ("kcp_config"%string, fun v c =>
     (fun k => set_ServerKCP k c) <$> dec_pointer KCP_fields zero_KCP v (ServerKCP c))
].

Definition Client_fields : list (field Client) := [
  string_field "control_server_address" ControlAddress
    (fun s '(mkClient _ b c d e f g h i) => mkClient s b c d e f g h i);
  string_field "remote_server_ip" RemoteHost
    (fun s '(mkClient a _ c d e f g h i) => mkClient a s c d e f g h i);
  string_field "local_listen_port" ListenAddress
    (fun s '(mkClient a b _ d e f g h i) => mkClient a b s d e f g h i);
  string_field "token" ClientToken
    (fun s '(mkClient a b c _ e f g h i) => mkClient a b c s e f g h i);
  string_field "protocol" ClientProtocol
    (fun s '(mkClient a b c d _ f g h i) => mkClient a b c d s f g h i);
  string_field "data_port" ClientDataPort
    (fun s '(mkClient a b c d e _ g h i) => mkClient a b c d e s g h i);
  string_field "stealth_sni" StealthSNI
    (fun s '(mkClient a b c d e f _ h i) => mkClient a b c d e f s h i);
  string_field "stealth_ca_file" StealthCAFile
    (fun s '(mkClient a b c d e f g _ i) => mkClient a b c d e f g s i);
  string_field "tls_cert_path" ClientTLSCertPath
    (fun s '(mkClient a b c d e f g h _) => mkClient a b c d e f g h s)
].

(** ** Loading *)

(** What loading does to the decoded record before validating it. *)
Definition default_kcp (c : Server) : Server :=
  match ServerKCP c with
  | None => set_ServerKCP (Some DefaultKCP) c
  | Some _ => c
  end.
Definition default_cert (path : string) (c : Client) : Client :=
  if decide (ClientTLSCertPath c = ""%string)
  then set_ClientTLSCertPath (filepath_Join (filepath_Dir path) "cert.pem") c
  else c.

Section load.
Context (os_Open : string -> result bytes).

(** [load]: open the file, decode its JSON into the value [v] points to. *)
Definition load {A} (fields : list (field A)) (path : string) (v : A) : result A :=
  try! data := os_Open path or Wrapf "open config: %w" [];
  try! v' := decode_into fields data v or Wrapf "parse config %s: %w" [FStr path];
  Ok v'.

Definition LoadServer (path : string) : result Server :=
  try! cfg := load Server_fields path zero_Server or id;
  let cfg := default_kcp cfg in
  match server_validate cfg with
  | Some err => Err (Wrapf "invalid server config %s: %w" [FStr path] err)
  | None => Ok cfg
  end.

Definition LoadClient (path : string) : result Client :=
  try! cfg := load Client_fields path zero_Client or id;
  let cfg := default_cert path cfg in
  match client_validate cfg with
  | Some err => Err (Wrapf "invalid client config %s: %w" [FStr path] err)
  | None => Ok cfg
  end.

End load.

(** ** What a valid configuration is *)

Definition valid_port (p : string) : Prop := exists n, Atoi p = Ok n /\ 1 <= n <= 65535.

Definition valid_host_port (need_host : bool) (a : string) : Prop :=
  exists h p, SplitHostPort a = Ok (h, p) /\ (need_host = true -> h <> ""%string)
              /\ valid_port p.

Record valid_KCP (k : KCP) : Prop := {
  valid_Interval : 0 < Interval k;
  valid_SndWnd : 0 < SndWnd k;
  valid_RcvWnd : 0 < RcvWnd k;
  valid_DataShards : 0 <= DataShards k;
  valid_ParityShards : 0 <= ParityShards k;
}.

Record valid_server (c : Server) : Prop := {
  vs_protocol : ServerProtocol c ∈ supported;
  vs_data_port : valid_port (ServerDataPort c);
  vs_stealth : ServerProtocol c = Stealth -> valid_host_port true (StealthHandshakeServer c);
  vs_control_port : ServerProtocol c <> Stealth -> valid_port (ControlPort c);
  vs_distinct : UDPBased (ServerProtocol c) = false -> ControlPort c <> ServerDataPort c;
  vs_target : valid_host_port true (TargetAddress c);
  vs_token : (minTokenLength <= String.length (ServerToken c))%nat;
  vs_tls : TLS (ServerProtocol c) = true ->
           ServerTLSCertPath c <> ""%string /\ TLSKeyPath c <> ""%string;
  vs_kcp : exists k, ServerKCP c = Some k /\ valid_KCP k;
}.

Record valid_client (c : Client) : Prop := {
  vc_static : ClientProtocol c <> ""%string ->
              ClientProtocol c ∈ supported /\ valid_port (ClientDataPort c)
              /\ (ClientProtocol c = Stealth -> StealthSNI c <> ""%string);
  vc_control : ClientProtocol c = ""%string -> valid_host_port true (ControlAddress c);
  vc_host : RemoteHost c <> ""%string;
  vc_listen : valid_host_port false (ListenAddress c);
  vc_token : (minTokenLength <= String.length (ClientToken c))%nat;
}.

(** ** The validators decide the specification *)

Lemma validatePort_none f p : validatePort f p = None <-> valid_port p.
Proof.
  unfold validatePort, valid_port. destruct (Atoi p) as [n|e]; [|naive_solver].
  repeat case_bool_decide; simpl; split; try done; intros; try (exists n; split; [done|lia]).
  all: destruct H as (m & [= <-] & ?) || destruct H0 as (m & [= <-] & ?)
       || destruct H1 as (m & [= <-] & ?); lia.
Qed.

Lemma validateToken_none t :
  validateToken t = None <-> (minTokenLength <= String.length t)%nat.
Proof. unfold validateToken. case_bool_decide; split; try done; lia. Qed.

Lemma validateHostPort_none f a :
  validateHostPort f a = None
  <-> valid_host_port (negb (bool_decide (f = "local_listen_port"%string))) a.
Proof.
  unfold validateHostPort, valid_host_port.
  destruct (SplitHostPort a) as [[h p]|e]; [|naive_solver].
  destruct (bool_decide (f = _)); simpl; rewrite ?andb_false_r, ?andb_true_r;
    [|case_bool_decide as Hh]; simpl; rewrite ?validatePort_none; naive_solver.
Qed.

Lemma KCP_Validate_none k : KCP_Validate k = None <-> valid_KCP k.
Proof.
  unfold KCP_Validate. split.
  - intros H. repeat (case_bool_decide; try discriminate H). split; lia.
  - intros []. by rewrite !bool_decide_eq_false_2 by lia.
Qed.

Lemma Parse_err_none p : err_of (Parse p) = None <-> p ∈ supported.
Proof.
  destruct (Parse p) as [n|e] eqn:E; simpl; split; try done.
  - intros _. by apply Parse_ok in E as [-> ?].
  - intros H%Parse_supported. congruence.
Qed.

(** [if cond { return err }] *)
Lemma guard_none (b : bool) (err : error) (k : option error) :
  (if b then Some err else k) = None <-> b = false /\ k = None.
Proof. destruct b; naive_solver. Qed.

(** Boolean guards of the form [b && not c]. *)
Lemma andb_guard (P : Prop) `{Decision P} (b : bool) :
  bool_decide P && negb b = false <-> (b = false -> ~ P).
Proof. destruct b; case_bool_decide; simpl; naive_solver. Qed.

Lemma empty_paths_guard (b : bool) (p q : string) :
  b && (bool_decide (p = ""%string) || bool_decide (q = ""%string)) = false
  <-> (b = true -> p <> ""%string /\ q <> ""%string).
Proof. destruct b; repeat case_bool_decide; simpl; naive_solver. Qed.

Lemma kcp_pointer_none (o : option KCP) :
  match o with Some k => KCP_Validate k | None => Some nil_dereference end = None
  <-> exists k, o = Some k /\ valid_KCP k.
Proof. destruct o as [k|]; [rewrite KCP_Validate_none|]; naive_solver. Qed.

Lemma and_guard (P Q : Prop) `{Decision P, Decision Q} :
  bool_decide P && bool_decide Q = false <-> (P -> ~ Q).
Proof. repeat case_bool_decide; simpl; naive_solver. Qed.

(** An error chain returns nil exactly when each of its conditions holds. *)
Ltac chain_none :=
  repeat first
    [ rewrite check_none | rewrite guard_none | rewrite kcp_pointer_none
    | rewrite empty_paths_guard | rewrite andb_guard | rewrite and_guard
    | rewrite Parse_err_none | rewrite validatePort_none
    | rewrite validateHostPort_none | rewrite validateToken_none
    | rewrite bool_decide_eq_false ].

(** [Server.validate] accepts a configuration exactly when it satisfies the
    declarative specification [valid_server]: supported protocol, ports in
    range, handshake site for stealth and control port otherwise, distinct
    ports unless the data port is UDP, target with host, token length,
    certificate paths for the TLS protocols, and usable KCP parameters. *)
Lemma server_validate_correct c : server_validate c = None <-> valid_server c.
Proof.
  unfold server_validate.
  destruct (decide (ServerProtocol c = Stealth)) as [Hs|Hs]; chain_none; split.
  1, 3: by intros (?&?&?&?&?&?&?&?); split.
  all: by intros []; split_and!; auto.
Qed.

(** [Client.validate] accepts a configuration exactly when it satisfies
    [valid_client]: a static configuration (protocol set) needs a supported
    protocol, a data port and, for stealth, a server name; any other needs a
    control address with host and port; both need a remote host, a local
    listen address (whose host may be empty) and a long enough token. *)
Lemma client_validate_correct c : client_validate c = None <-> valid_client c.
Proof.
  unfold client_validate.
  destruct (decide (ClientProtocol c <> ""%string)) as [Hp|Hp]; chain_none;
    split.
  - intros ((?&?&?&_)&?&?&?). by split.
  - intros [Hst _ ? ? ?]. destruct (Hst Hp) as (?&?&?). by split_and!.
  - intros (?&?&?&?). by split.
  - intros []. assert (ClientProtocol c = ""%string) by (by apply dec_stable).
    split_and!; auto.
Qed.

Lemma client_validate_static c :
  valid_client c -> ClientProtocol c <> ""%string -> ClientProtocol c ∈ supported.
Proof. intros Hc Hp. by apply (vc_static c Hc). Qed.

Lemma load_ok {A} os_Open (fields : list (field A)) path v v' :
  load os_Open fields path v = Ok v'
  <-> exists data, os_Open path = Ok data /\ decode_into fields data v = Ok v'.
Proof.
  unfold load. rewrite try_ok. split.
  - intros (data & Ho & (v0 & Hd & [= ->])%try_ok). eauto.
  - intros (data & Ho & Hd). exists data. rewrite Hd. done.
Qed.

Lemma LoadServer_spec os_Open path c :
  LoadServer os_Open path = Ok c
  <-> exists data v, os_Open path = Ok data /\ decode_into Server_fields data zero_Server = Ok v
        /\ c = default_kcp v /\ valid_server c.
Proof.
  unfold LoadServer. rewrite try_ok. setoid_rewrite load_ok. cbv zeta. split.
  - intros (v & (data & Ho & Hd) & H).
    destruct (server_validate _) eqn:E; [done|]. injection H as <-.
    apply server_validate_correct in E. eauto 10.
  - intros (data & v & ? & ? & -> & Hv%server_validate_correct).
    exists v. split; [eauto|]. by rewrite Hv.
Qed.

(** C21: [LoadServer] returns a configuration exactly when the file opens, its
    JSON decodes and the decoded record, with absent KCP parameters replaced
    by the defaults, satisfies the specification; in particular the KCP
    pointer of a returned configuration is never nil. *)
Theorem LoadServer_ok os_Open path c :
  LoadServer os_Open path = Ok c
  <-> exists data v, os_Open path = Ok data /\ decode_into Server_fields data zero_Server = Ok v
        /\ c = default_kcp v /\ valid_server c.
Proof. apply LoadServer_spec. Qed.

Lemma LoadClient_spec os_Open path c :
  LoadClient os_Open path = Ok c
  <-> exists data v, os_Open path = Ok data /\ decode_into Client_fields data zero_Client = Ok v
        /\ c = default_cert path v /\ valid_client c.
Proof.
  unfold LoadClient. rewrite try_ok. setoid_rewrite load_ok. cbv zeta. split.
  - intros (v & (data & Ho & Hd) & H).
    destruct (client_validate _) eqn:E; [done|]. injection H as <-.
    apply client_validate_correct in E. eauto 10.
  - intros (data & v & ? & ? & -> & Hv%client_validate_correct).
    exists v. split; [eauto|]. by rewrite Hv.
Qed.

(** C22: [LoadClient] returns a configuration exactly when the file opens, its
    JSON decodes and the decoded record, with an absent certificate path
    replaced by [cert.pem] next to the file, satisfies the specification. *)
Theorem LoadClient_ok os_Open path c :
  LoadClient os_Open path = Ok c
  <-> exists data v, os_Open path = Ok data /\ decode_into Client_fields data zero_Client = Ok v
        /\ c = default_cert path v /\ valid_client c.
Proof. apply LoadClient_spec. Qed.

(** ** The package's own test files *)

Definition test_token : string := "0123456789abcdef0123456789abcdef".

(** A file system with one file. *)
Definition one_file (path body : string) (p : string) : result bytes :=
  if decide (p = path) then Ok (bytes_of_text (json_text body))
  else Err (Sentinel "fs.ErrNotExist").

Definition legacy_body : string :=
  "{'control_port':'8080','data_port':'8081','protocol':'tcp','xray_inbound_address':'127.0.0.1:10085','token':'0123456789abcdef0123456789abcdef','kcp_config':{'NoDelay':1,'Interval':20,'Resend':2,'NoCongestion':1,'SndWnd':4096,'RcvWnd':4096,'DataShards':10,'ParityShards':3}}".
Definition same_port_body : string :=
  "{'control_port':'8080','data_port':'8080','protocol':'tcp','xray_inbound_address':'127.0.0.1:1','token':'0123456789abcdef0123456789abcdef'}".
Definition static_stealth_body : string :=
  "{'protocol':'stealth','data_port':'443','stealth_sni':'www.example.com','remote_server_ip':'203.0.113.5','local_listen_port':'0.0.0.0:1080','token':'0123456789abcdef0123456789abcdef'}".

Example load_legacy :
  LoadServer (one_file "/c.json" legacy_body) "/c.json"
  = Ok (mkServer "8080" "8081" TCP "127.0.0.1:10085" test_token "" "" "" (Some DefaultKCP)).
Proof. vm_compute. reflexivity. Qed.
Example load_same_port :
  LoadServer (one_file "/c.json" same_port_body) "/c.json"
  = Err (Wrapf "invalid server config %s: %w" [FStr "/c.json"]
      (Errorf "control_port and data_port must differ for protocol %q" [FStr TCP])).
Proof. vm_compute. reflexivity. Qed.
Example load_static_stealth :
  LoadClient (one_file "/etc/g-tun/c.json" static_stealth_body) "/etc/g-tun/c.json"
  = Ok (mkClient "" "203.0.113.5" "0.0.0.0:1080" test_token Stealth "443" "www.example.com" ""
          "/etc/g-tun/cert.pem").
Proof. vm_compute. reflexivity. Qed.
Example load_missing :
  is_ok (LoadServer (one_file "/c.json" legacy_body) "/d.json") = false.
Proof. reflexivity. Qed.

(** ** Two consequences the validation does not intend *)

(** A stealth server is refused when [control_port] repeats [data_port],
    although the stealth protocol opens no control port. *)
Lemma stealth_same_port_refused c :
  ServerProtocol c = Stealth -> ControlPort c = ServerDataPort c -> server_validate c <> None.
Proof.
  intros Hs Hp Hv%server_validate_correct. apply (vs_distinct c Hv); [by rewrite Hs|done].
Qed.

(** The two ports are compared as text: two spellings of one port number pass. *)
Lemma same_port_two_spellings :
  let c := mkServer "8081" "08081" TCP "127.0.0.1:1" test_token "" "" "" (Some DefaultKCP) in
  server_validate c = None /\ Atoi (ControlPort c) = Atoi (ServerDataPort c).
Proof. split; vm_compute; reflexivity. Qed.
