(* ===== verification/Sha256.v ===== *)
(** * [crypto/sha256] and [crypto/hmac], as package [auth] uses them

    SHA-256 (FIPS 180-4) and HMAC (FIPS 198-1) on byte lists, executable, with
    published test vectors.  The interface [Mac] states the only thing the
    rest of the development needs of HMAC-SHA256: a keyed function whose tags
    have 32 bytes. *)

From S2P Require Import Prelude.

Local Open Scope Z_scope.

(** ** 32-bit words *)

Definition w32 (z : Z) : Z := z mod 2 ^ 32.
Definition rotr (n x : Z) : Z :=
  Z.lor (Z.shiftr x n) (w32 (Z.shiftl x (32 - n))).
Definition not32 (x : Z) : Z := 2 ^ 32 - 1 - x.

Definition Ch (x y z : Z) : Z := Z.lxor (Z.land x y) (Z.land (not32 x) z).
Definition Maj (x y z : Z) : Z :=
  Z.lxor (Z.lxor (Z.land x y) (Z.land x z)) (Z.land y z).
Definition Sigma0 (x : Z) : Z := Z.lxor (Z.lxor (rotr 2 x) (rotr 13 x)) (rotr 22 x).
Definition Sigma1 (x : Z) : Z := Z.lxor (Z.lxor (rotr 6 x) (rotr 11 x)) (rotr 25 x).
Definition sigma0 (x : Z) : Z := Z.lxor (Z.lxor (rotr 7 x) (rotr 18 x)) (Z.shiftr x 3).
Definition sigma1 (x : Z) : Z := Z.lxor (Z.lxor (rotr 17 x) (rotr 19 x)) (Z.shiftr x 10).

(** The constants are derived as the standard derives them, from the first
    primes [p]: the first 32 fractional bits of the cube roots of sixty-four of
    them for the rounds, and of the square roots of eight of them for the
    initial state. *)
Definition is_prime (n : Z) : bool :=
  forallb (fun d => negb (n mod Z.of_nat d =? 0)) (seq 2 (Z.to_nat n - 2)).
Definition primes : list Z := List.filter is_prime (Z.of_nat <$> seq 2 310).

(** The integer cube root, bit by bit from bit [n - 1] down. *)
Fixpoint cube_root (n : nat) (r z : Z) : Z :=
  match n with
  | O => r
  | S n =>
      let r' := r + 2 ^ Z.of_nat n in
      cube_root n (if r' * r' * r' <=? z then r' else r) z
  end.

Definition round_constants : list Z :=
  Eval vm_compute in
    (fun p => w32 (cube_root 36 0 (p * 2 ^ 96))) <$> primes.
Definition initial_words : list Z :=
  Eval vm_compute in (fun p => w32 (Z.sqrt (p * 2 ^ 64))) <$> take 8 primes.

Record sha_state : Type := mkSha { hA : Z; hB : Z; hC : Z; hD : Z; hE : Z; hF : Z; hG : Z; hH : Z }.

Definition sha_init : sha_state :=
  let w i := nth i initial_words 0 in
  mkSha (w 0%nat) (w 1%nat) (w 2%nat) (w 3%nat) (w 4%nat) (w 5%nat) (w 6%nat) (w 7%nat).

Definition sha_round (s : sha_state) (kw : Z * Z) : sha_state :=
  let '(mkSha a b c d e f g h) := s in
  let t1 := h + Sigma1 e + Ch e f g + kw.1 + kw.2 in
  let t2 := Sigma0 a + Maj a b c in
  mkSha (w32 (t1 + t2)) a b c (w32 (d + t1)) e f g.

Definition sha_add (s t : sha_state) : sha_state :=
  mkSha (w32 (hA s + hA t)) (w32 (hB s + hB t)) (w32 (hC s + hC t)) (w32 (hD s + hD t))
        (w32 (hE s + hE t)) (w32 (hF s + hF t)) (w32 (hG s + hG t)) (w32 (hH s + hH t)).

(** The message schedule, most recent word first: sixteen words of the block,
    then [n] computed ones. *)
Fixpoint schedule (n : nat) (ws : list Z) : list Z :=
  match n with
  | O => ws
  | S n =>
      let w i := nth i ws 0 in
      schedule n (w32 (sigma1 (w 1%nat) + w 6%nat + sigma0 (w 14%nat) + w 15%nat) :: ws)
  end.

Fixpoint be_words (n : nat) (bs : bytes) : list Z :=
  match n, bs with
  | S n, b0 :: b1 :: b2 :: b3 :: bs =>
      (((byte_to_Z b0 * 256 + byte_to_Z b1) * 256 + byte_to_Z b2) * 256 + byte_to_Z b3)
      :: be_words n bs
  | _, _ => []
  end.

Definition sha_block (s : sha_state) (block : bytes) : sha_state :=
  let ws := rev (schedule 48 (rev (be_words 16 block))) in
  sha_add s (foldl sha_round s (zip round_constants ws)).

Fixpoint sha_blocks (n : nat) (s : sha_state) (bs : bytes) : sha_state :=
  match n with
  | O => s
  | S n => sha_blocks n (sha_block s (take 64 bs)) (drop 64 bs)
  end.

Definition be32 (w : Z) : bytes :=
  [byte_of_Z (Z.shiftr w 24); byte_of_Z (Z.shiftr w 16); byte_of_Z (Z.shiftr w 8); byte_of_Z w].

Definition sha_pad (m : bytes) : bytes :=
  let n := Z.of_nat (length m) in
  m ++ Byte.x80 :: replicate (Z.to_nat ((55 - n) mod 64)) Byte.x00
    ++ be32 (8 * n / 2 ^ 32) ++ be32 (8 * n).

Definition sha256 (m : bytes) : bytes :=
  let p := sha_pad m in
  let '(mkSha a b c d e f g h) := sha_blocks (length p / 64)%nat sha_init p in
  be32 a ++ be32 b ++ be32 c ++ be32 d ++ be32 e ++ be32 f ++ be32 g ++ be32 h.

(** ** HMAC *)

Definition xor_byte (k b : byte) : byte := byte_of_Z (Z.lxor (byte_to_Z k) (byte_to_Z b)).

Definition hmac_key (key : bytes) : bytes :=
  let k := if bool_decide (64 < length key)%nat then sha256 key else key in
  k ++ replicate (64 - length k) Byte.x00.

Definition hmac_sha256 (key m : bytes) : bytes :=
  let k := hmac_key key in
  sha256 (map (xor_byte Byte.x5c) k ++ sha256 (map (xor_byte Byte.x36) k ++ m)).

Lemma length_sha256 m : length (sha256 m) = 32%nat.
Proof. unfold sha256. by destruct (sha_blocks _ _ _). Qed.

Lemma length_hmac_sha256 key m : length (hmac_sha256 key m) = 32%nat.
Proof. apply length_sha256. Qed.

(** ** Published test vectors *)

Definition hex (bs : bytes) : list Z := byte_to_Z <$> bs.
Definition be_value (bs : bytes) : Z := foldl (fun acc b => acc * 256 + byte_to_Z b) 0 bs.

(** FIPS 180-4: the empty message and [abc]. *)
Example sha256_empty :
  be_value (sha256 [])
  = 0xe3b0c44298fc1c149afbf4c8996fb92427ae41e4649b934ca495991b7852b855.
Proof. vm_compute. reflexivity. Qed.
Example sha256_abc :
  be_value (sha256 (bytes_of_string "abc"))
  = 0xba7816bf8f01cfea414140de5dae2223b00361a396177a9cb410ff61f20015ad.
Proof. vm_compute. reflexivity. Qed.
(** RFC 4231, test case 2. *)
Example hmac_sha256_jefe :
  be_value (hmac_sha256 (bytes_of_string "Jefe")
                        (bytes_of_string "what do ya want for nothing?"))
  = 0x5bdcc146bf60754e6a042426089575c75a003f089d2739839dec58b964ec3843.
Proof. vm_compute. reflexivity. Qed.

(** ** The interface *)

(** [sha256.Size]. *)
Definition Size : nat := 32.

Class Mac : Type := {
  mac : bytes -> bytes -> bytes;
  length_mac : forall key m, length (mac key m) = Size;
}.

#[export] Instance hmac_sha256_Mac : Mac :=
  {| mac := hmac_sha256; length_mac := length_hmac_sha256 |}.
