(* ===== verification/Prog.v ===== *)
(** * Effectful programs

    Goroutine bodies that talk to the network are written in a small free
    monad: [prog E A] performs operations of a signature [E] and returns an
    [A].  A program has two semantics:

    - [runs p tr a]: [p] can perform the operations [tr] with the recorded
      responses and return [a], the environment answering anything its
      contract allows (an adversarial network, a full disk, a closed peer);
    - [run h p s]: the execution against a deterministic environment [h],
      which computes.

    [run_runs] connects them. *)

From S2P Require Import Prelude GoLib.

(** ** The monad *)

Inductive prog (E : Type -> Type) (A : Type) : Type :=
| Ret (a : A)
| Vis {X : Type} (e : E X) (k : X -> prog E A).
Arguments Ret {_ _} _.
Arguments Vis {_ _ _} _ _.

Definition call {E : Type -> Type} {X : Type} (e : E X) : prog E X := Vis e Ret.

Fixpoint bind {E A B} (f : A -> prog E B) (p : prog E A) : prog E B :=
  match p with
  | Ret a => f a
  | Vis e k => Vis e (fun x => bind f (k x))
  end.

(** [x := p; k], and [p; k] for a call whose result is ignored. *)
Notation "'do!' x ':=' p ; k" := (bind (fun x => k) p)
  (at level 100, x pattern, p at level 99, right associativity) : gtun_scope.
Notation "'run!' p ; k" := (bind (fun _ => k) p)
  (at level 100, p at level 99, right associativity) : gtun_scope.
(** [x, err := p; if err != nil { return ..., w(err) }] *)
Notation "'let!' x ':=' p 'or' w ; k" :=
  (bind (fun r => match r with Ok x => k | Err err => Ret (Err (w err)) end) p)
  (at level 100, x pattern, p at level 99, w at level 99, right associativity)
  : gtun_scope.

(** A program in a larger signature. *)
Class Embeds (E F : Type -> Type) : Type := embed : forall X, E X -> F X.
Arguments embed {_ _ _ _} _.
#[export] Instance embeds_refl E : Embeds E E := fun _ e => e.

Fixpoint translate {E F A} `{!Embeds E F} (p : prog E A) : prog F A :=
  match p with
  | Ret a => Ret a
  | Vis e k => Vis (embed e) (fun x => translate (k x))
  end.

(** The operations of [p] carried out by programs of another signature. *)
Fixpoint interp {E F A} (h : forall X, E X -> prog F X) (p : prog E A) : prog F A :=
  match p with
  | Ret a => Ret a
  | Vis e k => bind (fun x => interp h (k x)) (h _ e)
  end.

(** ** Semantics *)

(** A signature with the events it shows and the contract of its responses. *)
Class Effect (E : Type -> Type) (event : Type) : Type := {
  observe : forall X, E X -> X -> event;
  contract : forall X, E X -> X -> Prop;
}.
Arguments observe {_ _ _ _} _ _.
Arguments contract {_ _ _ _} _ _.

Section semantics.
Context {E : Type -> Type} {event : Type} `{!Effect E event}.

Fixpoint runs {A} (p : prog E A) (tr : list event) (a : A) : Prop :=
  match p with
  | Ret a' => tr = [] /\ a = a'
  | Vis e k => exists x tr', contract e x /\ tr = observe e x :: tr' /\ runs (k x) tr' a
  end.

Fixpoint run {S A} (h : forall X, E X -> S -> X * S) (p : prog E A) (s : S)
    : A * S * list event :=
  match p with
  | Ret a => (a, s, [])
  | Vis e k =>
      let '(x, s1) := h _ e s in
      let '(a, s2, tr) := run h (k x) s1 in
      (a, s2, observe e x :: tr)
  end.

Lemma runs_ret {A} (a a' : A) tr : runs (Ret a) tr a' <-> tr = [] /\ a' = a.
Proof. done. Qed.

Lemma runs_bind {A B} (f : A -> prog E B) (p : prog E A) tr b :
  runs (bind f p) tr b
  <-> exists tr1 tr2 a, tr = tr1 ++ tr2 /\ runs p tr1 a /\ runs (f a) tr2 b.
Proof.
  revert tr. induction p as [a|X e k IH]; intros tr; simpl.
  - split; [intros; by exists [], tr, a|]. by intros (tr1 & tr2 & a' & -> & [-> ->] & ?).
  - split.
    + intros (x & tr' & Hc & -> & (tr1 & tr2 & a & -> & ? & ?)%IH).
      exists (observe e x :: tr1), tr2, a. eauto 10.
    + intros (tr1 & tr2 & a & -> & (x & tr' & Hc & -> & Hk) & Hf).
      exists x, (tr' ++ tr2). split; [done|]. split; [done|]. apply IH. eauto 10.
Qed.

Lemma runs_bind_mono {A B} (f g : A -> prog E B) (p : prog E A) tr b :
  (forall a tr, runs (f a) tr b -> runs (g a) tr b) -> runs (bind f p) tr b -> runs (bind g p) tr b.
Proof. intros Hfg (t1 & t2 & a & -> & ? & ?)%runs_bind. apply runs_bind. exists t1, t2, a. auto. Qed.

Lemma runs_bind_assoc {A B C} (f : A -> prog E B) (g : B -> prog E C) (p : prog E A) tr c :
  runs (bind g (bind f p)) tr c <-> runs (bind (fun a => bind g (f a)) p) tr c.
Proof.
  revert tr. induction p as [a|X e k IH]; intros tr; simpl; [done|].
  by setoid_rewrite IH.
Qed.

Lemma runs_call {X} (e : E X) tr x :
  runs (call e) tr x <-> contract e x /\ tr = [observe e x].
Proof.
  simpl. split; [by intros (y & ? & ? & -> & -> & ->)|].
  intros [? ->]. exists x, []. done.
Qed.

Lemma runs_vis_bind {X B} (e : E X) (f : X -> prog E B) tr b :
  runs (bind f (call e)) tr b
  <-> exists x tr', contract e x /\ tr = observe e x :: tr' /\ runs (f x) tr' b.
Proof. done. Qed.

(** Every event of every run satisfies [P]. *)
Definition emits {A} (P : event -> Prop) (p : prog E A) : Prop :=
  forall tr a, runs p tr a -> Forall P tr.

Lemma emits_ret {A} P (a : A) : emits P (Ret a).
Proof. intros tr a' [-> _]. constructor. Qed.

Lemma emits_call {X} P (e : E X) : (forall x, P (observe e x)) -> emits P (call e).
Proof. intros HP tr x [_ ->]%runs_call. constructor; auto. Qed.

Lemma emits_bind {A B} P (f : A -> prog E B) (p : prog E A) :
  emits P p -> (forall a, emits P (f a)) -> emits P (bind f p).
Proof.
  intros Hp Hf tr b (t1 & t2 & a & -> & H1 & H2)%runs_bind. apply Forall_app. split.
  - by eapply Hp.
  - by eapply Hf.
Qed.

Lemma emits_weaken {A} (P Q : event -> Prop) (p : prog E A) :
  (forall e, P e -> Q e) -> emits P p -> emits Q p.
Proof. intros HPQ Hp tr a Hr. eapply Forall_impl; [by eapply Hp|done]. Qed.

(** Every event a run of [p] can show satisfies [P], finished or not. *)
Fixpoint only {A} (P : event -> Prop) (p : prog E A) : Prop :=
  match p with
  | Ret _ => True
  | Vis e k => forall x, contract e x -> P (observe e x) /\ only P (k x)
  end.

Lemma only_bind {A B} P (f : A -> prog E B) (p : prog E A) :
  only P p -> (forall a, only P (f a)) -> only P (bind f p).
Proof. intros Hp Hf. induction p as [a|X e k IH]; simpl in *; naive_solver. Qed.

Lemma only_call {X} P (e : E X) : (forall x, P (observe e x)) -> only P (call e).
Proof. intros HP x _. done. Qed.

Lemma only_weaken {A} (P Q : event -> Prop) (p : prog E A) :
  (forall e, P e -> Q e) -> only P p -> only Q p.
Proof. intros HPQ. induction p as [a|X e k IH]; simpl; [done|]. naive_solver. Qed.

Lemma only_emits {A} P (p : prog E A) : only P p -> emits P p.
Proof.
  intros Hp tr. revert Hp. revert tr. induction p as [a|X e k IH]; intros tr Hp r; simpl.
  - intros [-> _]. constructor.
  - intros (x & tr' & Hc & -> & Hr). destruct (Hp x Hc). constructor; [done|]. by eapply IH.
Qed.

(** The computed execution is one of the runs. *)
Lemma run_runs {S A} (h : forall X, E X -> S -> X * S) (p : prog E A) s :
  (forall X (e : E X) s, contract e (h X e s).1) ->
  runs p (run h p s).2 (run h p s).1.1.
Proof.
  intros Hh. revert s. induction p as [a|X e k IH]; intros s; simpl; [done|].
  specialize (Hh X e s). destruct (h X e s) as [x s1] eqn:Ex. simpl in Hh.
  specialize (IH x s1). destruct (run h (k x) s1) as [[a s2] tr]. simpl in *. eauto.
Qed.

Lemma runs_translate {A} (p : prog E A) tr a : runs (translate p) tr a <-> runs p tr a.
Proof.
  revert tr. induction p as [a'|X e k IH]; intros tr; simpl; [done|].
  split; intros (x & tr' & Hc & -> & Hr%IH); by exists x, tr'.
Qed.

Lemma emits_translate {A} P (p : prog E A) : emits P p -> emits P (translate p).
Proof. intros Hp tr a Hr. rewrite runs_translate in Hr. exact (Hp _ _ Hr). Qed.

End semantics.

(** ** Inverting runs *)

Ltac inv_run_step H :=
  cbv beta iota zeta in H;
  lazymatch type of H with
  | runs (Ret _) _ _ => let E := fresh "E" in apply runs_ret in H as [-> E]
  | runs (bind _ (Ret _)) _ _ => cbn [bind] in H
  | runs (bind _ (call _)) _ _ =>
      let x := fresh "r" in let tr := fresh "tr" in let Hc := fresh "Hc" in
      apply runs_vis_bind in H as (x & tr & Hc & -> & H); cbn in Hc; cbn [bind] in H
  | runs (bind _ _) _ _ =>
      let t1 := fresh "tr" in let t2 := fresh "tr" in let a := fresh "a" in
      let H1 := fresh "Hrun" in
      apply runs_bind in H as (t1 & t2 & a & -> & H1 & H)
  | runs (call _) _ _ => let Hc := fresh "Hc" in apply runs_call in H as [Hc ->]; cbn in Hc
  | runs (match ?r with Ok _ => _ | Err _ => _ end) _ _ => destruct r
  | runs (if ?b then _ else _) _ _ =>
      let T := type of b in
      lazymatch T with
      | bool => let E := fresh "E" in destruct b eqn:E
      | _ => destruct b
      end
  end.

(** Walk through the whole run recorded by [H]. *)
Ltac inv_runs H := repeat inv_run_step H.

(** Prove [emits P p] by walking through [p]. *)
Ltac emits_step :=
  lazymatch goal with
  | |- emits _ (Ret _) => apply emits_ret
  | |- emits _ (call _) => apply emits_call; intros
  | |- emits _ (bind _ _) => apply emits_bind; [|intros]
  | |- emits _ (match ?r with Ok _ => _ | Err _ => _ end) => destruct r
  | |- emits _ (if ?b then _ else _) => destruct b
  | |- emits _ (match ?r with None => _ | Some _ => _ end) => destruct r
  end.

(** Prove [only P p] by walking through [p]. *)
Ltac only_step :=
  lazymatch goal with
  | |- only _ (Ret _) => exact I
  | |- only _ (call _) => apply only_call; intros
  | |- only _ (bind _ _) => apply only_bind; [|intros]
  | |- only _ (match ?r with Ok _ => _ | Err _ => _ end) => destruct r
  | |- only _ (if ?b then _ else _) => destruct b
  | |- only _ (match ?r with None => _ | Some _ => _ end) => destruct r
  end.

(** The same to the end, with the lemmas of [gtun] for the sub-programs. *)
Ltac emits_all := repeat (emits_step; try done); auto with gtun.
Ltac only_all := repeat (only_step; try done); auto with gtun.

(** Exhibit a run of a straight-line program, response by response. *)
Ltac exec_step := cbn [runs bind call]; eexists _, _; split_and!; [ |reflexivity| ].
