(* ===== verification/Net.v ===== *)
(** * The operations goroutines perform on connections

    One signature for the connection-level code of the client and the server:
    plain reads and writes, deadlines, closing, dialling, smux and QUIC
    sessions, starting goroutines.  Responses come from the environment; the
    contracts are those of the Go standard library ([io.ReadFull] and
    [rand.Read] fill the buffer or fail).  [duplex] runs two programs against
    each other over a pair of byte queues. *)

From S2P Require Import Prelude GoLib Prog.

(** A connection or stream, and a smux session or QUIC connection. *)
Abbreviation conn := nat (only parsing).
Abbreviation session := nat (only parsing).

(** The argument of [SetDeadline]: the zero time, or now plus a duration. *)
Inductive deadline : Type :=
| NoDeadline
| DeadlineIn (d : Z).

(** [smux.Config] and [quic.Config]: the fields the program sets. *)
Record smux_Config : Type := mkSmuxConfig {
  KeepAliveInterval : Z;
  KeepAliveTimeout : Z;
  MaxFrameSize : Z;
  MaxReceiveBuffer : Z;
  MaxStreamBuffer : Z;
}.
Record quic_Config : Type := mkQuicConfig {
  KeepAlivePeriod : Z;
  MaxIdleTimeout : Z;
  MaxIncomingStreams : Z;
}.

(** [utls.Config] and the fingerprint of the ClientHello. *)
Inductive utls_ClientHelloID : Type := HelloChrome_Auto.
Record utls_Config : Type := mkUtlsConfig {
  utls_ServerName : string;
  utls_RootCAs : option bytes;      (* nil: the system roots *)
  utls_MinVersion : Z;
  utls_Hello : utls_ClientHelloID;
}.

(** [shadowtls.ServiceConfig] and [shadowtls.ClientConfig]. *)
Record shadowtls_ServiceConfig : Type := mkServiceConfig {
  ssc_Version : Z;
  ssc_Users : list (string * string);    (* Name, Password *)
  ssc_HandshakeServer : string;
  ssc_StrictMode : bool;
}.
Record shadowtls_ClientConfig : Type := mkClientConfig {
  scc_Version : Z;
  scc_Password : string;
  scc_StrictMode : bool;
  scc_TLSHandshake : utls_Config;
}.

(** What [client.dialCarrier] and [server.handleStream] connect to. *)
Inductive address : Type :=
| AddrTCP (hostport : string) (timeout keepAlive : Z)
| AddrWebSocket (scheme host path : string) (pinned_tls : bool) (timeout : Z)
| AddrKCP (hostport : string) (key : bytes) (dataShards parityShards : Z)
| AddrQUIC (hostport : string) (cfg : quic_Config).

(** What the server listens on. *)
Inductive listen_address : Type :=
| ListenTCP (addr : string) (keepAlive : Z)
| ListenUDP (addr : string)
| ListenKCP (addr : string) (key : bytes) (dataShards parityShards : Z)
| ListenQUIC (addr : string) (cfg : quic_Config).

(** The handlers the accept loops are given. *)
Inductive handler : Type :=
| HandleTCP        (* serveTCP: s.handleConn *)
| HandleKCP        (* serveKCP: tuneKCP, then s.handleConn *)
| HandleStealth    (* serveStealth: service.NewConnection *)
| HandleControl    (* server.serveControl: handleControl *)
| HandleLocal.     (* client.Run: dial a stream and pipe *)

(** The goroutines the server starts per accepted stream or connection. *)
Inductive goroutine : Type :=
| GoHandleStream (st : conn)
| GoHandleQUICStream (st : conn)
| GoServeQUICConn (c : session).

Inductive netE : Type -> Type :=
| Write (c : conn) (b : bytes) : netE (result unit)
| ReadFull (c : conn) (n : nat) : netE (result bytes)
| RandRead (n : nat) : netE (result bytes)
| SetDeadline (c : conn) (d : deadline) : netE (result unit)
| Close (c : conn) : netE unit
| CancelRead (c : conn) : netE unit
| CopyDiscard (c : conn) : netE (result unit)
| Dial (a : address) : netE (result conn)
| AfterFuncClose (c : conn) : netE unit
| StopAfterFunc (c : conn) : netE unit
| SmuxServer (c : conn) (cfg : smux_Config) : netE (result session)
| SmuxClient (c : conn) (cfg : smux_Config) : netE (result session)
| SmuxClose (s : session) : netE unit
| DialQUIC (a : address) : netE (result session)
| CloseWithError (s : session) : netE unit
| AcceptStream (s : session) : netE (result conn)
| OpenStream (s : session) : netE (result conn)
| IsClosed (s : session) : netE bool
| Go (g : goroutine) : netE unit
| PipeConns (a b : conn) : netE unit
| TuneKCP (c : conn) (noDelay interval resend noCongestion sndWnd rcvWnd : Z) : netE unit
| NewBlockCrypt (key : bytes) : netE (result unit)
| ShadowTLSClient (cfg : shadowtls_ClientConfig) : netE (result unit)
| ShadowTLSHandshake (raw : conn) (cfg : shadowtls_ClientConfig) : netE (result conn)
| Listen (a : listen_address) : netE (result conn)
| ResolveUDP (addr : string) : netE (result unit)
| NewShadowTLSService (cfg : shadowtls_ServiceConfig) : netE (result unit)
| NewHTTPServer : netE conn           (* &http.Server{...}; Close ends its listener and connections *)
| ServeHTTP (srv : conn) (tls : bool) (addr pattern : string) (readHeaderTimeout : Z) : netE (result unit)
| AcceptLoopOn (l : conn) (h : handler) : netE unit
| AcceptQUIC (l : conn) : netE (result session)
| CtxDone : netE bool
| WithTimeout (d : Z) : netE unit    (* context.WithTimeout, for the calls up to its cancel *)
| CancelTimeout : netE unit
| RunUDPRelay (l : conn) (remote : string) : netE (result unit)
| DialerClose : netE unit.

Inductive event : Type :=
| EWrite (c : conn) (b : bytes) (r : result unit)
| ERead (c : conn) (n : nat) (r : result bytes)
| ERand (n : nat) (r : result bytes)
| EDeadline (c : conn) (d : deadline) (r : result unit)
| EClose (c : conn)
| ECancelRead (c : conn)
| EDiscard (c : conn) (r : result unit)
| EDial (a : address) (r : result conn)
| EAfterFunc (c : conn)
| EStopAfterFunc (c : conn)
| ESmuxServer (c : conn) (cfg : smux_Config) (r : result session)
| ESmuxClient (c : conn) (cfg : smux_Config) (r : result session)
| ESmuxClose (s : session)
| EDialQUIC (a : address) (r : result session)
| ECloseWithError (s : session)
| EAccept (s : session) (r : result conn)
| EOpen (s : session) (r : result conn)
| EIsClosed (s : session) (b : bool)
| EGo (g : goroutine)
| EPipe (a b : conn)
| ETuneKCP (c : conn) (noDelay interval resend noCongestion sndWnd rcvWnd : Z)
| EBlockCrypt (key : bytes) (r : result unit)
| EShadowClient (cfg : shadowtls_ClientConfig) (r : result unit)
| EShadowHandshake (raw : conn) (cfg : shadowtls_ClientConfig) (r : result conn)
| EListen (a : listen_address) (r : result conn)
| EResolve (addr : string) (r : result unit)
| EShadowService (cfg : shadowtls_ServiceConfig) (r : result unit)
| ENewHTTPServer (srv : conn)
| EServeHTTP (srv : conn) (tls : bool) (addr pattern : string) (readHeaderTimeout : Z) (r : result unit)
| EAcceptLoop (l : conn) (h : handler)
| EAcceptQUIC (l : conn) (r : result session)
| ECtxDone (b : bool)
| EWithTimeout (d : Z)
| ECancelTimeout
| EUDPRelay (l : conn) (remote : string) (r : result unit)
| EDialerClose.

Definition net_observe {X} (e : netE X) : X -> event :=
  match e in netE X return X -> event with
  | Write c b => EWrite c b
  | ReadFull c n => ERead c n
  | RandRead n => ERand n
  | SetDeadline c d => EDeadline c d
  | Close c => fun _ => EClose c
  | CancelRead c => fun _ => ECancelRead c
  | CopyDiscard c => EDiscard c
  | Dial a => EDial a
  | AfterFuncClose c => fun _ => EAfterFunc c
  | StopAfterFunc c => fun _ => EStopAfterFunc c
  | SmuxServer c cfg => ESmuxServer c cfg
  | SmuxClient c cfg => ESmuxClient c cfg
  | SmuxClose s => fun _ => ESmuxClose s
  | DialQUIC a => EDialQUIC a
  | CloseWithError s => fun _ => ECloseWithError s
  | AcceptStream s => EAccept s
  | OpenStream s => EOpen s
  | IsClosed s => EIsClosed s
  | Go g => fun _ => EGo g
  | PipeConns a b => fun _ => EPipe a b
  | TuneKCP c a b d e f g => fun _ => ETuneKCP c a b d e f g
  | NewBlockCrypt key => EBlockCrypt key
  | ShadowTLSClient cfg => EShadowClient cfg
  | ShadowTLSHandshake raw cfg => EShadowHandshake raw cfg
  | Listen a => EListen a
  | ResolveUDP a => EResolve a
  | NewShadowTLSService cfg => EShadowService cfg
  | NewHTTPServer => ENewHTTPServer
  | ServeHTTP srv tls addr pat d => EServeHTTP srv tls addr pat d
  | AcceptLoopOn l h => fun _ => EAcceptLoop l h
  | AcceptQUIC l => EAcceptQUIC l
  | CtxDone => ECtxDone
  | WithTimeout d => fun _ => EWithTimeout d
  | CancelTimeout => fun _ => ECancelTimeout
  | RunUDPRelay l r => EUDPRelay l r
  | DialerClose => fun _ => EDialerClose
  end.

(** [io.ReadFull] and [rand.Read] return a full buffer or an error. *)
Definition full (n : nat) (r : result bytes) : Prop :=
  match r with Ok b => length b = n | Err _ => True end.

Definition net_contract {X} (e : netE X) : X -> Prop :=
  match e in netE X return X -> Prop with
  | ReadFull _ n | RandRead n => full n
  | _ => fun _ => True
  end.

#[export] Instance net_Effect : Effect netE event :=
  {| observe := @net_observe; contract := @net_contract |}.

(** Reading, writing and waiting on an established connection. *)
Definition conversation (e : event) : bool :=
  match e with
  | EWrite _ _ _ | ERead _ _ _ | ERand _ _ | EDeadline _ _ _ => true
  | _ => false
  end.

(** ** Two programs connected to each other *)

(** One end: what is left of its program, its supply of random bytes. *)
Record endpoint (A : Type) : Type := mkEndpoint { code : prog netE A; entropy : bytes }.
Arguments mkEndpoint {_} _ _.
Arguments code {_} _.
Arguments entropy {_} _.

(** Perform the next operation of an end, which reads from [inb] and appends
    to [outb]; [None] when it is finished or blocked.  Only the operations of
    a conversation over one established connection succeed here. *)
Definition step_end {A} (p : endpoint A) (inb outb : bytes)
    : option (endpoint A * bytes * bytes) :=
  match code p with
  | Ret _ => None
  | Vis e k =>
    match e in netE X return (X -> prog netE A) -> option (endpoint A * bytes * bytes) with
    | Write _ b => fun k => Some (mkEndpoint (k (Ok tt)) (entropy p), inb, outb ++ b)
    | ReadFull _ n => fun k =>
        if decide (n <= length inb) then
          Some (mkEndpoint (k (Ok (take n inb))) (entropy p), drop n inb, outb)
        else None
    | RandRead n => fun k =>
        if decide (n <= length (entropy p)) then
          Some (mkEndpoint (k (Ok (take n (entropy p)))) (drop n (entropy p)), inb, outb)
        else Some (mkEndpoint (k (Err (Sentinel "entropy exhausted"))) [], inb, outb)
    | SetDeadline _ _ => fun k => Some (mkEndpoint (k (Ok tt)) (entropy p), inb, outb)
    | Close _ | CancelRead _ | AfterFuncClose _ | StopAfterFunc _
    | WithTimeout _ | CancelTimeout => fun k =>
        Some (mkEndpoint (k tt) (entropy p), inb, outb)
    | _ => fun _ => None
    end k
  end.

(** Run both ends; the left one first whenever it can move.  [ab] and [ba] are
    the bytes in flight in the two directions. *)
Fixpoint duplex {A B} (fuel : nat) (a : endpoint A) (b : endpoint B) (ab ba : bytes)
    : endpoint A * endpoint B * bytes * bytes :=
  match fuel with
  | O => (a, b, ab, ba)
  | S fuel =>
    match step_end a ba ab with
    | Some (a', ba', ab') => duplex fuel a' b ab' ba'
    | None =>
      match step_end b ab ba with
      | Some (b', ab', ba') => duplex fuel a b' ab' ba'
      | None => (a, b, ab, ba)
      end
    end
  end.

(** Invert a run of a network program and read off its responses. *)
Ltac net_runs H :=
  inv_runs H; cbn [observe net_Effect net_observe full app] in *; simplify_eq;
  repeat match goal with u : unit |- _ => destruct u end.

(** The same for every run in the context, calls of sub-programs included. *)
Ltac net_runs_all :=
  repeat match goal with H : runs _ _ _ |- _ => progress inv_runs H end;
  cbn [observe net_Effect net_observe full app] in *; simplify_eq;
  repeat match goal with u : unit |- _ => destruct u end.

(** Decide membership in a concrete trace. *)
Ltac in_trace H :=
  repeat first [ rewrite elem_of_cons in H | rewrite elem_of_app in H | rewrite elem_of_nil in H ];
  destruct_or? H; simplify_eq.
Ltac pick_disjunct :=
  first [ reflexivity | assumption | left; pick_disjunct | right; pick_disjunct ].
Ltac find_in_trace :=
  repeat first [ rewrite elem_of_cons | rewrite elem_of_app ]; repeat split; pick_disjunct.

(** Exhibit a run of a network program. *)
Ltac net_exec := repeat exec_step; try done.

Lemma duplex_left {A B} fuel (a a' : endpoint A) (b : endpoint B) ab ba ab' ba' :
  step_end a ba ab = Some (a', ba', ab') ->
  duplex (S fuel) a b ab ba = duplex fuel a' b ab' ba'.
Proof. intros H. cbn [duplex]. by rewrite H. Qed.

Lemma duplex_right {A B} fuel (a : endpoint A) (b b' : endpoint B) ab ba ab' ba' :
  step_end a ba ab = None -> step_end b ab ba = Some (b', ab', ba') ->
  duplex (S fuel) a b ab ba = duplex fuel a b' ab' ba'.
Proof. intros H1 H2. cbn [duplex]. by rewrite H1, H2. Qed.

Lemma duplex_done {A B} fuel (a : endpoint A) (b : endpoint B) ab ba :
  step_end a ba ab = None -> step_end b ab ba = None -> duplex fuel a b ab ba = (a, b, ab, ba).
Proof. intros H1 H2. destruct fuel; cbn [duplex]; by rewrite ?H1, ?H2. Qed.

(** Run two programs against each other, one operation at a time, deciding by
    length whether a read can be served. *)
Ltac duplex_len := rewrite ?length_app; simpl; lia.
Ltac solve_step :=
  cbn [step_end code entropy bind call app length negb];
  try first [ rewrite decide_True by duplex_len | rewrite decide_False by duplex_len ];
  repeat first
    [ rewrite take_app_length' by duplex_len
    | rewrite drop_app_length' by duplex_len
    | rewrite firstn_all2 by duplex_len
    | rewrite skipn_all2 by duplex_len ];
  reflexivity.
Ltac duplex_step :=
  first [ erewrite duplex_left by solve_step
        | erewrite duplex_right by solve_step
        | rewrite duplex_done by solve_step ];
  cbn [bind call app length negb].
