(* ===== verification/Monitor.v ===== *)
(** * Goroutines that share state under a mutex

    A goroutine is a program whose operations are network operations and
    critical sections.  A section is a network program over the state that the
    mutex protects: [Lock] hands the state to the goroutine, [Unlock] gives it
    back.  The fine-grained system interleaves single operations, including
    those inside a section; the atomic one runs a whole section as one step.
    [atomicity] reduces the first to the second, with the events shown inside
    sections in the same order. *)

From S2P Require Import Prelude Lts GoLib Prog Net.

Section monitor.
Context {S : Type}.

Inductive syncE : Type -> Type :=
| Net {X : Type} (e : netE X) : syncE X
| Sync {X : Type} (body : S -> prog netE (X * S)) : syncE X.

(** A network program outside the critical sections. *)
Fixpoint lift {A} (p : prog netE A) : prog syncE A :=
  match p with
  | Ret a => Ret a
  | Vis e k => Vis (Net e) (fun x => lift (k x))
  end.

Context {A : Type}.
Abbreviation proc := (prog syncE A).

(** [p] performs its next operation, showing [ev]. *)
Definition performs {B} (p : prog netE B) (ev : event) (p' : prog netE B) : Prop :=
  match p with
  | Ret _ => False
  | Vis e k => exists x, contract e x /\ ev = observe e x /\ p' = k x
  end.

(** The same for a goroutine outside its critical sections. *)
Definition outside (g : proc) (ev : event) (g' : proc) : Prop :=
  match g with
  | Ret _ => False
  | Vis e k =>
    match e in syncE X return (X -> proc) -> Prop with
    | Net e => fun k => exists x, contract e x /\ ev = observe e x /\ g' = k x
    | Sync _ => fun _ => False
    end k
  end.

(** [g] is about to enter a section; on state [s] the section is [p], which
    returns what [g] goes on with and the new state. *)
Definition enters (g : proc) (s : S) (p : prog netE (proc * S)) : Prop :=
  match g with
  | Ret _ => False
  | Vis e k =>
    match e in syncE X return (X -> proc) -> Prop with
    | Net _ => fun _ => False
    | Sync body => fun k => p = (do! r := body s; Ret (k r.1, r.2))
    end k
  end.

Lemma enters_outside g s p ev g' : enters g s p -> outside g ev g' -> False.
Proof. destruct g as [a|X e k]; [done|]. by destruct e. Qed.

(** ** Fine-grained execution *)

Inductive mutex : Type :=
| Free (s : S)
| Held (t : nat) (rest : prog netE (proc * S)).

Record system : Type := mkSystem { mu : mutex; procs : list proc }.

Inductive label : Type :=
| Locks (t : nat)
| Shows (t : nat) (ev : event)
| Unlocks (t : nat).

Inductive step : label -> system -> system -> Prop :=
| step_outside t g ev g' m ps :
    ps !! t = Some g -> outside g ev g' ->
    step (Shows t ev) (mkSystem m ps) (mkSystem m (<[t := g']> ps))
| step_lock t g s p ps :
    ps !! t = Some g -> enters g s p ->
    step (Locks t) (mkSystem (Free s) ps) (mkSystem (Held t p) ps)
| step_inside t ev p p' ps :
    performs p ev p' -> step (Shows t ev) (mkSystem (Held t p) ps) (mkSystem (Held t p') ps)
| step_unlock t g s ps :
    step (Unlocks t) (mkSystem (Held t (Ret (g, s))) ps) (mkSystem (Free s) (<[t := g]> ps)).

(** What goroutine [t] shows in an execution. *)
Definition events_of (t : nat) (ls : list label) : list event :=
  flat_map (fun l => match l with Shows t' ev => if decide (t = t') then [ev] else [] | _ => [] end) ls.

Lemma events_of_snoc t ls l :
  events_of t (ls ++ [l]) = events_of t ls ++ events_of t [l].
Proof. apply flat_map_app. Qed.

(** Who holds the mutex, and all that has been shown inside the sections: by a
    goroutine while it holds the mutex. *)
Definition follow (acc : option nat * list event) (l : label) : option nat * list event :=
  match l with
  | Locks t => (Some t, acc.2)
  | Unlocks _ => (None, acc.2)
  | Shows t ev => (acc.1, if decide (acc.1 = Some t) then acc.2 ++ [ev] else acc.2)
  end.
Definition following (ls : list label) : option nat * list event := foldl follow (None, []) ls.
Definition inside (ls : list label) : list event := (following ls).2.

Lemma following_snoc ls l : following (ls ++ [l]) = follow (following ls) l.
Proof. unfold following. by rewrite foldl_app. Qed.

(** ** Atomic execution *)

(** Goroutine [g] performs one operation, or a whole section. *)
Definition acts (g : proc) (s : S) (tr : list event) (g' : proc) (s' : S) : Prop :=
  (exists ev, tr = [ev] /\ outside g ev g' /\ s' = s)
  \/ exists p, enters g s p /\ runs p tr (g', s').

Inductive astep : nat * list event -> S * list proc -> S * list proc -> Prop :=
| astep_acts t g s tr g' s' ps :
    ps !! t = Some g -> acts g s tr g' s' ->
    astep (t, tr) (s, ps) (s', <[t := g']> ps).

Definition shows (t : nat) (ls : list (nat * list event)) : list event :=
  flat_map (fun l => if decide (t = l.1) then l.2 else []) ls.

Lemma shows_snoc t ls u tr :
  shows t (ls ++ [(u, tr)]) = shows t ls ++ if decide (t = u) then tr else [].
Proof. unfold shows. rewrite flat_map_app. simpl. by rewrite app_nil_r. Qed.

Lemma shows_block t tr ls : (t, tr) ∈ ls -> exists pre post, shows t ls = pre ++ tr ++ post.
Proof.
  intros (ls1 & ls2 & ->)%list_elem_of_split. unfold shows. rewrite flat_map_app. simpl.
  rewrite decide_True by done. eauto.
Qed.

(** The same, with all that the sections show, one after the other. *)
Inductive acting : list (nat * list event) -> list event -> S * list proc -> S * list proc -> Prop :=
| acting_nil c : acting [] [] c c
| acting_outside als ins c t g ev g' s ps :
    acting als ins c (s, ps) -> ps !! t = Some g -> outside g ev g' ->
    acting (als ++ [(t, [ev])]) ins c (s, <[t := g']> ps)
| acting_section als ins c t g p tr g' s s' ps :
    acting als ins c (s, ps) -> ps !! t = Some g -> enters g s p -> runs p tr (g', s') ->
    acting (als ++ [(t, tr)]) (ins ++ tr) c (s', <[t := g']> ps).

Lemma acting_execution als ins c c' : acting als ins c c' -> execution astep als c c'.
Proof.
  induction 1 as [|als ins c t g ev g' s ps _ IH Hg Ho|als ins c t g p tr g' s s' ps _ IH Hg He Hr];
    [constructor| |]; (eapply exec_snoc; [exact IH|]); (econstructor; [exact Hg|]); unfold acts; eauto 6.
Qed.

(** ** Reduction *)

(** The goroutine that holds the mutex has shown [tr] of its section. *)
Definition within (a : S * list proc) (t : nat) (p : prog netE (proc * S)) (tr : list event) : Prop :=
  exists g p0, a.2 !! t = Some g /\ enters g a.1 p0
    /\ (forall tr' r, runs p tr' r -> runs p0 (tr ++ tr') r)
    /\ forall P, only P p0 -> only P p.

(** An atomic execution that a fine-grained one has caught up with, except
    for the section that is going on. *)
Definition reduced (ls : list label) (y : system) (als : list (nat * list event)) (ins : list event)
    (a : S * list proc) : Prop :=
  a.2 = procs y
  /\ match mu y with
     | Free s => a.1 = s /\ following ls = (None, ins) /\ forall t, events_of t ls = shows t als
     | Held t p => exists tr, within a t p tr /\ following ls = (Some t, ins ++ tr)
         /\ forall t', events_of t' ls = shows t' als ++ if decide (t' = t) then tr else []
     end.

Lemma performs_runs {B} (p p' : prog netE B) ev tr r :
  performs p ev p' -> runs p' tr r -> runs p (ev :: tr) r.
Proof. destruct p as [b|X e k]; [done|]. intros (x & ? & -> & ->). simpl. eauto. Qed.

Lemma performs_only {B} (P : event -> Prop) (p p' : prog netE B) ev :
  performs p ev p' -> only P p -> P ev /\ only P p'.
Proof. destruct p as [b|X e k]; [done|]. intros (x & ? & -> & ->) Hp. by apply Hp. Qed.

Lemma reduced_step s0 ps0 ls l y y' als ins a :
  acting als ins (s0, ps0) a -> reduced ls y als ins a -> step l y y' ->
  exists als' ins' a', acting als' ins' (s0, ps0) a' /\ reduced (ls ++ [l]) y' als' ins' a'.
Proof.
  intros Hact [Hps Hmu] Hstep. destruct a as [s1 ps1]. simpl in Hps.
  destruct Hstep as [t g ev g' m ps Hg Ho|t g s p ps Hg He|t ev p p' ps Hp|t g s ps];
    simpl in *; subst ps1.
  - exists (als ++ [(t, [ev])]), ins, (s1, <[t:=g']> ps). split; [by eapply acting_outside|].
    split; [done|]. cbn [mu]. destruct m as [s|u p].
    + destruct Hmu as (-> & Hf & He). split; [done|]. rewrite following_snoc, Hf. split; [done|].
      intros t'. rewrite events_of_snoc, shows_snoc, He. simpl. by case_decide.
    + destruct Hmu as (tr & (g1 & p0 & Hg1 & Hen & Hr & Ho') & Hf & He).
      assert (t <> u) as Hne.
      { intros ->. simpl in *. simplify_eq. by eapply enters_outside. }
      exists tr. split_and!.
      * exists g1, p0. simpl in *. by rewrite list_lookup_insert_ne.
      * rewrite following_snoc, Hf. simpl. by rewrite decide_False by congruence.
      * intros t'. rewrite events_of_snoc, shows_snoc, He. simpl.
        repeat case_decide; subst; rewrite ?app_nil_r; done.
  - destruct Hmu as (-> & Hf & Hev). exists als, ins, (s, ps). split; [done|].
    split; [done|]. exists []. split; [by exists g, p; eauto|]. rewrite following_snoc, Hf, app_nil_r.
    split; [done|]. intros t'. rewrite events_of_snoc, Hev. simpl. by case_decide.
  - destruct Hmu as (tr & (g1 & p0 & Hg1 & Hen & Hr & Ho') & Hf & He).
    exists als, ins, (s1, ps). split; [done|]. split; [done|].
    exists (tr ++ [ev]). split_and!.
    + exists g1, p0. split_and!; [done..| |].
      { intros tr' r Hr'. rewrite <- (assoc_L (++)). apply Hr. by eapply performs_runs. }
      intros P HP. by eapply performs_only; [|apply Ho'].
    + rewrite following_snoc, Hf. simpl. by rewrite decide_True, (assoc_L (++)) by done.
    + intros t'. rewrite events_of_snoc, He. simpl. case_decide; by rewrite ?app_nil_r, <- ?(assoc_L (++)).
  - destruct Hmu as (tr & (g1 & p0 & Hg1 & Hen & Hr & Ho') & Hf & He).
    exists (als ++ [(t, tr)]), (ins ++ tr), (s, <[t:=g]> ps). split.
    { eapply acting_section; [done|exact Hg1|done|]. rewrite <- (app_nil_r tr). by apply Hr. }
    split; [done|]. split; [done|]. rewrite following_snoc, Hf. split; [done|].
    intros t'. rewrite events_of_snoc, shows_snoc, He. simpl. by rewrite app_nil_r.
Qed.

(** Every interleaving of single operations is, goroutine by goroutine and
    inside the sections, an interleaving of whole sections, up to the section
    that is going on. *)
Lemma atomicity ls s ps y :
  execution step ls (mkSystem (Free s) ps) y ->
  exists als ins a, acting als ins (s, ps) a /\ reduced ls y als ins a.
Proof.
  remember (mkSystem (Free s) ps) as y0 eqn:E0. induction 1 as [|ls l y0 y1 y2 _ IH Hstep]; subst.
  - exists [], [], (s, ps). split; [constructor|]. done.
  - destruct (IH eq_refl) as (als & ins & a & Hx & Hred). by eapply reduced_step.
Qed.

(** Conversely a whole section can be executed step by step. *)
Lemma inside_runs t ps p tr r :
  runs p tr r ->
  execution step (Shows t <$> tr) (mkSystem (Held t p) ps) (mkSystem (Held t (Ret r)) ps).
Proof.
  revert tr. induction p as [a|X e k IH]; intros tr; simpl.
  - intros [-> ->]. constructor.
  - intros (x & tr' & Hc & -> & Hr). rewrite fmap_cons.
    eapply execution_cons; [|by apply IH]. constructor. by exists x.
Qed.

Lemma section_runs t ps g s p tr g' s' :
  ps !! t = Some g -> enters g s p -> runs p tr (g', s') ->
  execution step ([Locks t] ++ (Shows t <$> tr) ++ [Unlocks t])
    (mkSystem (Free s) ps) (mkSystem (Free s') (<[t := g']> ps)).
Proof.
  intros Hg He Hr. eapply execution_app; [apply execution_one; by econstructor|].
  eapply execution_app; [by apply inside_runs|]. apply execution_one. constructor.
Qed.

(** What goroutine [t] shows next it shows outside its sections or inside the
    one that is going on. *)
Lemma shows_next ls t ev y y' als ins a :
  reduced ls y als ins a -> step (Shows t ev) y y' ->
  (exists g g', a.2 !! t = Some g /\ outside g ev g')
  \/ (exists p p' tr, mu y = Held t p /\ performs p ev p' /\ within a t p tr).
Proof.
  intros [Hps Hmu] Hstep. inversion Hstep; subst; simpl in *.
  - left. rewrite Hps. eauto.
  - right. destruct Hmu as (tr & Hw & _). eauto 10.
Qed.

End monitor.

(** ** What sections do to the state

    [Q] holds of every event outside the sections of [g], and [R] relates the
    states before and after a section to what it shows. *)

Section sections.
Context {S : Type}.
Context (Q : event -> Prop) (R : S -> list event -> S -> Prop).

Fixpoint conforms {A} (g : prog (@syncE S) A) : Prop :=
  match g with
  | Ret _ => True
  | Vis e k =>
    match e in syncE X return (X -> Prop) -> Prop with
    | Net e => fun next => forall x, contract e x -> Q (observe e x) /\ next x
    | Sync body => fun next =>
        (forall s tr x s', runs (body s) tr (x, s') -> R s tr s') /\ forall x, next x
    end (fun x => conforms (k x))
  end.

Lemma conforms_bind {A B} (f : A -> prog (@syncE S) B) g :
  conforms g -> (forall a, conforms (f a)) -> conforms (bind f g).
Proof.
  intros Hg Hf. induction g as [a|X e k IH]; simpl; [done|]. destruct e; simpl in *; naive_solver.
Qed.

Lemma conforms_lift {A} (p : prog netE A) : only Q p -> conforms (lift (S := S) p).
Proof. induction p as [a|X e k IH]; simpl; naive_solver. Qed.

Context {A : Type}.
Implicit Types (g : prog (@syncE S) A) (ps : list (prog (@syncE S) A)).

Lemma conforms_outside g ev g' : conforms g -> outside g ev g' -> Q ev /\ conforms g'.
Proof. destruct g as [a|X [Y e|Y body] k]; try done. intros Hg (x & Hc & -> & ->). by apply Hg. Qed.

Lemma conforms_enters g s p tr g' s' :
  conforms g -> enters g s p -> runs p tr (g', s') -> R s tr s' /\ conforms g'.
Proof.
  destruct g as [a|X [Y e|Y body] k]; try done. intros [HR Hk] -> Hr.
  apply runs_bind in Hr as (t1 & t2 & [x s1] & -> & Hb & [-> [= -> ->]]). rewrite app_nil_r.
  split; [by eapply HR|apply Hk].
Qed.

Lemma conforms_astep t tr s ps s' ps' :
  astep (t, tr) (s, ps) (s', ps') -> Forall conforms ps ->
  Forall conforms ps' /\ (s' = s \/ R s tr s').
Proof.
  intros Hs Hps. inversion Hs as [? g ? ? g' ? ? Hg Hact]; subst.
  pose proof (proj1 (Forall_lookup _ _) Hps _ _ Hg) as Hc.
  destruct Hact as [(ev & -> & Ho & ->)|(p & He & Hr)].
  - split; [|by left]. apply Forall_insert; [done|]. by eapply conforms_outside.
  - destruct (conforms_enters _ _ _ _ _ _ Hc He Hr). split; [by apply Forall_insert|by right].
Qed.

End sections.

(** Accounting: every event has a cost, which outside the sections is zero,
    and a section costs what it adds to the worth of the state. *)
Section accounting.
Context {S A : Type} (cost : event -> Z) (worth : S -> Z).
Local Open Scope Z_scope.

Definition total (tr : list event) : Z := foldr (fun ev n => cost ev + n) 0 tr.

Lemma total_cons ev tr : total (ev :: tr) = cost ev + total tr.
Proof. done. Qed.

Lemma total_app tr1 tr2 : total (tr1 ++ tr2) = total tr1 + total tr2.
Proof. induction tr1 as [|ev tr1 IH]; simpl; lia. Qed.

Lemma total_free tr : Forall (fun ev => cost ev = 0) tr -> total tr = 0.
Proof. induction 1; simpl; lia. Qed.

(** All that the goroutines show. *)
Definition trace_of (ls : list label) : list event :=
  flat_map (fun l => match l with Shows _ ev => [ev] | _ => [] end) ls.

Definition settles (R : S -> list event -> S -> Prop) : Prop :=
  forall s tr s', R s tr s' -> total tr = worth s' - worth s.

Lemma accounts R ls s0 (ps : list (prog (@syncE S) A)) y :
  settles R -> Forall (conforms (fun ev => cost ev = 0) R) ps ->
  execution step ls (mkSystem (Free s0) ps) y ->
  Forall (conforms (fun ev => cost ev = 0) R) (procs y)
  /\ match mu y with
     | Free s => total (trace_of ls) = worth s - worth s0
     | Held _ p => forall tr g s, runs p tr (g, s) ->
         conforms (fun ev => cost ev = 0) R g /\ total (trace_of ls) + total tr = worth s - worth s0
     end.
Proof.
  intros HR Hps. remember (mkSystem (Free s0) ps) as y0 eqn:E0.
  induction 1 as [|ls l y0 y1 y2 _ IH Hstep]; subst; [split; [done|simpl; lia]|].
  destruct (IH eq_refl) as [Hall Hmu]. unfold trace_of in *. rewrite flat_map_app, total_app.
  rewrite Forall_lookup in Hall.
  destruct Hstep as [t g ev g' m ps1 Hg Ho|t g s p ps1 Hg He|t ev p p' ps1 Hp|t g s ps1]; simpl in *.
  - destruct (conforms_outside _ _ _ _ _ (Hall _ _ Hg) Ho) as [-> Hg'].
    split; [apply Forall_insert; [by apply Forall_lookup|done]|].
    destruct m; [lia|]. intros tr g0 s Hr. destruct (Hmu _ _ _ Hr). split; [done|lia].
  - split; [by apply Forall_lookup|]. intros tr g0 s1 Hr.
    destruct (conforms_enters _ _ _ _ _ _ _ _ (Hall _ _ Hg) He Hr) as [HR1 ?].
    apply HR in HR1. split; [done|lia].
  - split; [by apply Forall_lookup|]. intros tr g s Hr.
    destruct (Hmu (ev :: tr) g s) as [??]; [by eapply performs_runs|]. simpl in *. split; [done|lia].
  - destruct (Hmu [] g s) as [Hg Hw]; [done|]. simpl in *.
    split; [apply Forall_insert; [by apply Forall_lookup|done]|lia].
Qed.

End accounting.
Arguments syncE _ _ : clear implicits.
Arguments system _ _ : clear implicits.
