(* ===== verification/GoFlag.v ===== *)
(** * Package [flag] of the standard library, as the commands use it

    The parser of command lines for a set of boolean and string flags:
    [-name], [--name], [-name=value] and, for string flags, [-name value];
    it stops at the first argument that is not a flag and after [--].  Later
    occurrences of a flag win. *)

From Stdlib Require Import Ascii.
From S2P Require Import Prelude GoLib.

(** ** Flags *)

Inductive flag_value : Type :=
| FlagBool (b : bool)
| FlagString (s : string).

(** A [FlagSet]: the defined flags with their current values. *)
Abbreviation flag_set := (list (string * flag_value)).

Fixpoint flag_lookup (name : string) (fs : flag_set) : option flag_value :=
  match fs with
  | [] => None
  | (n, v) :: fs => if decide (n = name) then Some v else flag_lookup name fs
  end.

(** [Value.Set] of a defined flag. *)
Definition flag_assign (name : string) (v : flag_value) (fs : flag_set) : flag_set :=
  (fun '(n, w) => (n, if decide (n = name) then v else w)) <$> fs.

(** The variables the commands read their flags from. *)
Definition flag_bool (name : string) (fs : flag_set) : bool :=
  match flag_lookup name fs with Some (FlagBool b) => b | _ => false end.
Definition flag_string (name : string) (fs : flag_set) : string :=
  match flag_lookup name fs with Some (FlagString s) => s | _ => ""%string end.

(** [strconv.ParseBool]. *)
Definition ParseBool (s : string) : option bool :=
  if bool_decide (s ∈ ["1"; "t"; "T"; "true"; "TRUE"; "True"]%string) then Some true
  else if bool_decide (s ∈ ["0"; "f"; "F"; "false"; "FALSE"; "False"]%string) then Some false
  else None.

(** ** The shape of one argument *)

Inductive flag_arg : Type :=
| NotAFlag                                        (* ends the flags *)
| Terminator                                      (* [--] *)
| BadSyntax
| FlagArg (name : string) (value : option string).

(** Split at the first [=]. *)
Fixpoint split_equals (cs : list ascii) : list ascii * option (list ascii) :=
  match cs with
  | [] => ([], None)
  | c :: cs =>
      if decide (c = "="%char) then ([], Some cs)
      else let '(name, value) := split_equals cs in (c :: name, value)
  end.

Definition flag_name (cs : list ascii) : flag_arg :=
  match cs with
  | [] => BadSyntax
  | c :: _ =>
      if decide (c = "-"%char \/ c = "="%char) then BadSyntax
      else
        let '(name, value) := split_equals cs in
        FlagArg (String.string_of_list_ascii name) (String.string_of_list_ascii <$> value)
  end.

Definition classify (s : string) : flag_arg :=
  match String.list_ascii_of_string s with
  | c :: d :: cs =>
      if decide (c = "-"%char) then
        if decide (d = "-"%char) then
          match cs with [] => Terminator | _ => flag_name cs end
        else flag_name (d :: cs)
      else NotAFlag
  | _ => NotAFlag
  end.

(** ** Parsing *)

Inductive parsed : Type :=
| Parsed (fs : flag_set) (args : list string)
| HelpRequested
| ParseError (err : error).

Fixpoint flag_parse (args : list string) (fs : flag_set) : parsed :=
  match args with
  | [] => Parsed fs []
  | s :: rest =>
      match classify s with
      | NotAFlag => Parsed fs (s :: rest)
      | Terminator => Parsed fs rest
      | BadSyntax => ParseError (Errorf "bad flag syntax: %s" [FStr s])
      | FlagArg name value =>
          match flag_lookup name fs with
          | None =>
              if decide (name = "help"%string \/ name = "h"%string) then HelpRequested
              else ParseError (Errorf "flag provided but not defined: -%s" [FStr name])
          | Some (FlagBool _) =>
              match value with
              | None => flag_parse rest (flag_assign name (FlagBool true) fs)
              | Some v =>
                  match ParseBool v with
                  | Some b => flag_parse rest (flag_assign name (FlagBool b) fs)
                  | None => ParseError (Errorf "invalid boolean value %q for -%s: parse error"
                                          [FStr v; FStr name])
                  end
              end
          | Some (FlagString _) =>
              match value with
              | Some v => flag_parse rest (flag_assign name (FlagString v) fs)
              | None =>
                  match rest with
                  | v :: rest => flag_parse rest (flag_assign name (FlagString v) fs)
                  | [] => ParseError (Errorf "flag needs an argument: -%s" [FStr name])
                  end
              end
          end
      end
  end.

(** ** Printing a command line *)

Definition flag_print (v : flag_value) : string :=
  match v with
  | FlagBool b => if b then "true" else "false"
  | FlagString s => s
  end.

(** [-name=value] *)
Definition flag_format (setting : string * flag_value) : string :=
  String.append "-" (String.append setting.1 (String.append "=" (flag_print setting.2))).

(** A name that can be given to a flag. *)
Definition plain_name (n : string) : bool :=
  match String.list_ascii_of_string n with
  | [] => false
  | c :: _ => bool_decide (c <> "-"%char) && bool_decide ("="%char ∉ String.list_ascii_of_string n)
  end.

Definition same_kind (v w : flag_value) : bool :=
  match v, w with
  | FlagBool _, FlagBool _ | FlagString _, FlagString _ => true
  | _, _ => false
  end.

(** The flag is defined, and holds values of this kind. *)
Definition accepts (fs : flag_set) (setting : string * flag_value) : bool :=
  plain_name setting.1
  && match flag_lookup setting.1 fs with Some w => same_kind w setting.2 | None => false end.

Definition flag_apply (fs : flag_set) (setting : string * flag_value) : flag_set :=
  flag_assign setting.1 setting.2 fs.

Lemma split_equals_app name value :
  "="%char ∉ name -> split_equals (name ++ "="%char :: value) = (name, Some value).
Proof.
  induction name as [|c name IH]; intros Hn; simpl; [done|].
  rewrite not_elem_of_cons in Hn. destruct Hn as [Hc Hn].
  rewrite decide_False by congruence. by rewrite IH.
Qed.

Lemma classify_format n v :
  plain_name n = true -> classify (flag_format (n, v)) = FlagArg n (Some (flag_print v)).
Proof.
  unfold plain_name, classify, flag_format. simpl. rewrite !list_ascii_app. intros Hn.
  destruct (String.list_ascii_of_string n) as [|c cs] eqn:E; [done|].
  apply andb_true_iff in Hn as [Hc%bool_decide_eq_true Heq%bool_decide_eq_true].
  simpl. rewrite (decide_False (P := c = "-"%char)) by done. unfold flag_name.
  rewrite decide_False by (intros [->| ->]; set_solver). simpl.
  rewrite decide_False by set_solver. rewrite split_equals_app by set_solver.
  simpl. rewrite String.string_of_list_ascii_of_string. f_equal.
  by rewrite <- (String.string_of_list_ascii_of_string n), E.
Qed.

Lemma flag_lookup_assign n m v fs :
  flag_lookup n (flag_assign m v fs)
  = if decide (n = m) then (fun _ => v) <$> flag_lookup n fs else flag_lookup n fs.
Proof.
  induction fs as [|[k w] fs IH]; simpl; [by case_decide|].
  destruct (decide (k = n)) as [->|Hk].
  - by destruct (decide (n = m)).
  - apply IH.
Qed.

Lemma accepts_apply fs s s' : accepts fs s = true -> accepts fs s' = true ->
  accepts (flag_apply fs s) s' = true.
Proof.
  destruct s as [n v], s' as [n' v']. unfold accepts, flag_apply. simpl.
  rewrite flag_lookup_assign. intros Hs Hs'.
  destruct (decide (n' = n)) as [->|]; [|done].
  destruct (flag_lookup n fs) as [w|]; simpl in *; bool_facts; [|done].
  apply andb_true_iff. split; [done|]. by destruct w, v, v'.
Qed.

Lemma flag_parse_format s rest fs :
  accepts fs s = true ->
  flag_parse (flag_format s :: rest) fs = flag_parse rest (flag_apply fs s).
Proof.
  destruct s as [n v]. unfold accepts, flag_apply. simpl. intros [Hn Hv]%andb_true_iff.
  rewrite classify_format by done.
  destruct (flag_lookup n fs) as [[b|w]|]; [destruct v as [b'|w']|destruct v as [b'|w']|];
    try done. by destruct b'.
Qed.

(** Parsing a printed command line assigns the settings from left to right. *)
Lemma flag_parse_settings settings fs :
  Forall (fun s => accepts fs s = true) settings ->
  flag_parse (flag_format <$> settings) fs = Parsed (foldl flag_apply fs settings) [].
Proof.
  revert fs. induction settings as [|s settings IH]; intros fs Hs; [done|].
  apply Forall_cons in Hs as [Hs Hall]. cbn [fmap list_fmap foldl].
  rewrite flag_parse_format by done. apply IH.
  eapply Forall_impl; [exact Hall|]. intros s'. by apply accepts_apply.
Qed.

Lemma split_equals_none cs : "="%char ∉ cs -> split_equals cs = (cs, None).
Proof.
  induction cs as [|c cs IH]; intros Hn; simpl; [done|].
  rewrite not_elem_of_cons in Hn. destruct Hn as [Hc Hn].
  rewrite decide_False by congruence. by rewrite IH.
Qed.

(** A string flag also takes the next argument as its value. *)
Lemma flag_parse_separate n v w rest fs :
  plain_name n = true ->
  flag_lookup n fs = Some (FlagString w) ->
  flag_parse (String.append "-" n :: v :: rest) fs
  = flag_parse rest (flag_assign n (FlagString v) fs).
Proof.
  intros Hn Hl. simpl.
  assert (classify (String.append "-" n) = FlagArg n None) as ->; [|by rewrite Hl].
  unfold plain_name, classify in *. rewrite list_ascii_app. simpl.
  destruct (String.list_ascii_of_string n) as [|c cs] eqn:E; [done|].
  bool_facts. simpl. rewrite (decide_False (P := c = "-"%char)) by done. simpl.
  rewrite decide_False by (intros [->| ->]; set_solver). simpl.
  rewrite decide_False by set_solver. rewrite split_equals_none by set_solver. simpl.
  f_equal.
  by rewrite <- (String.string_of_list_ascii_of_string n), E.
Qed.
