(* ===== verification/Auth.v ===== *)
(** * Package [auth]: shared-secret authentication (src/internal/auth)

    Tags, the three-message handshake as two programs, and the datagram tags
    of the udp transport. *)

From S2P Require Import Prelude GoLib Sha256 Prog Net.

Definition NonceSize : nat := 32.
Definition TagSize : nat := Size.

Definition labelClient : string := "gtun/v1/client".
Definition labelServer : string := "gtun/v1/server".

Definition ErrAuthFailed : error := Sentinel "auth: authentication failed".

(** [Channel]: the transcript of the handshake nonces. *)
Abbreviation Channel := bytes (only parsing).

Section auth.
Context `{M : Mac}.

(** [hmac.New], then one [Write] of the label and one of each part. *)
Definition Sign (token label : string) (parts : list bytes) : bytes :=
  mac (bytes_of_string token) (bytes_of_string label ++ concat parts).

(** [hmac.Equal] compares in constant time; its value is equality. *)
Definition Verify (token label : string) (tag : bytes) (parts : list bytes) : bool :=
  bool_decide (tag = Sign token label parts).

Definition DeriveKey (token purpose : string) : bytes :=
  Sign token (String.append "gtun/v1/key/" purpose) [].

Definition transcript (clientNonce serverNonce : bytes) : Channel :=
  clientNonce ++ serverNonce.

Definition ClientHandshake (rw : conn) (token : string) : prog netE (result Channel) :=
  let! clientNonce := call (RandRead NonceSize) or Wrapf "auth: generate nonce: %w" [];
  let! _ := call (Write rw clientNonce) or Wrapf "auth: send nonce: %w" [];
  let! reply := call (ReadFull rw (NonceSize + TagSize)) or
    Wrapf "auth: read server proof: %w" [];
  let serverNonce := take NonceSize reply in
  let serverTag := drop NonceSize reply in
  if negb (Verify token labelServer serverTag [clientNonce; serverNonce])
  then Ret (Err ErrAuthFailed)
  else
  let! _ := call (Write rw (Sign token labelClient [clientNonce; serverNonce])) or
    Wrapf "auth: send client proof: %w" [];
  Ret (Ok (transcript clientNonce serverNonce)).

Definition ServerHandshake (rw : conn) (token : string) : prog netE (result Channel) :=
  let! clientNonce := call (ReadFull rw NonceSize) or Wrapf "auth: read client nonce: %w" [];
  let! serverNonce := call (RandRead NonceSize) or Wrapf "auth: generate nonce: %w" [];
  let reply := serverNonce ++ Sign token labelServer [clientNonce; serverNonce] in
  let! _ := call (Write rw reply) or Wrapf "auth: send server proof: %w" [];
  let! clientTag := call (ReadFull rw TagSize) or Wrapf "auth: read client proof: %w" [];
  if negb (Verify token labelClient clientTag [clientNonce; serverNonce])
  then Ret (Err ErrAuthFailed)
  else Ret (Ok (transcript clientNonce serverNonce)).

(** ** Datagrams (datagram.go) *)

Definition DatagramOverhead : nat := 16.

Inductive Direction : Type := ClientToServer | ServerToClient.

(** [byte(dir)]: the constants are [iota + 1]. *)
Definition direction_byte (dir : Direction) : byte :=
  match dir with ClientToServer => Byte.x01 | ServerToClient => Byte.x02 end.

Definition labelDatagram : string := "gtun/v1/udp".

Definition datagramTag (token : string) (dir : Direction) (payload : bytes) : bytes :=
  take DatagramOverhead (Sign token labelDatagram [[direction_byte dir]; payload]).

Definition SealDatagram (token : string) (dir : Direction) (payload : bytes) : bytes :=
  datagramTag token dir payload ++ payload.

Definition OpenDatagram (token : string) (dir : Direction) (pkt : bytes) : option bytes :=
  if decide (length pkt < DatagramOverhead) then None
  else
    let tag := take DatagramOverhead pkt in
    let payload := drop DatagramOverhead pkt in
    if bool_decide (tag = datagramTag token dir payload) then Some payload else None.

End auth.

#[export] Instance Direction_eq_decision : EqDecision Direction.
Proof. solve_decision. Defined.

Section auth_lemmas.
Context `{M : Mac}.

Lemma length_Sign token label parts : length (Sign token label parts) = TagSize.
Proof. apply length_mac. Qed.

Lemma Verify_spec token label tag parts :
  Verify token label tag parts = true <-> tag = Sign token label parts.
Proof. apply bool_decide_eq_true. Qed.

Lemma Verify_Sign token label parts : Verify token label (Sign token label parts) parts = true.
Proof. by apply Verify_spec. Qed.

Lemma length_transcript cn sn :
  length cn = NonceSize -> length sn = NonceSize -> length (transcript cn sn) = 64.
Proof. intros H1 H2. unfold transcript. by rewrite length_app, H1, H2. Qed.

(** ** The handshake *)

(** The trace of a completed server handshake. *)
Definition server_accept_trace (rw : conn) (token : string) (cn sn : bytes) : list event :=
  [ ERead rw NonceSize (Ok cn);
    ERand NonceSize (Ok sn);
    EWrite rw (sn ++ Sign token labelServer [cn; sn]) (Ok tt);
    ERead rw TagSize (Ok (Sign token labelClient [cn; sn])) ].

Definition client_accept_trace (rw : conn) (token : string) (cn sn : bytes) : list event :=
  [ ERand NonceSize (Ok cn);
    EWrite rw cn (Ok tt);
    ERead rw (NonceSize + TagSize) (Ok (sn ++ Sign token labelServer [cn; sn]));
    EWrite rw (Sign token labelClient [cn; sn]) (Ok tt) ].

Lemma ServerHandshake_ok rw token tr ch :
  runs (ServerHandshake rw token) tr (Ok ch)
  <-> exists cn sn, length cn = NonceSize /\ length sn = NonceSize
        /\ tr = server_accept_trace rw token cn sn /\ ch = transcript cn sn.
Proof.
  split.
  - unfold ServerHandshake. intros H. net_runs H.
    apply negb_false_iff, Verify_spec in E. subst. by repeat eexists.
  - intros (cn & sn & Hcn & Hsn & -> & ->). unfold ServerHandshake.
    do 4 (exec_step; [try done|]); [apply length_Sign|]. simpl. by rewrite Verify_Sign.
Qed.

Lemma ClientHandshake_ok rw token tr ch :
  runs (ClientHandshake rw token) tr (Ok ch)
  <-> exists cn sn, length cn = NonceSize /\ length sn = NonceSize
        /\ tr = client_accept_trace rw token cn sn /\ ch = transcript cn sn.
Proof.
  split.
  - unfold ClientHandshake. intros H. net_runs H.
    apply negb_false_iff, Verify_spec in E. rename a1 into reply.
    exists a, (take NonceSize reply).
    split_and!; [done|rewrite length_take, Hc1; unfold TagSize, NonceSize; lia| |done].
    unfold client_accept_trace. by rewrite <-E, take_drop.
  - intros (cn & sn & Hcn & Hsn & -> & ->). unfold ClientHandshake.
    do 3 (exec_step; [try done|]); [simpl; by rewrite length_app, Hsn, length_Sign|].
    cbv beta iota zeta. rewrite take_app_length', drop_app_length', Verify_Sign by done.
    simpl. exec_step; done.
Qed.

(** The two ways a handshake fails: the peer's proof is wrong, or an operation
    failed, whose error is wrapped. *)
Definition io_failure (e : error) : Prop := exists m inner, e = Wrapf m [] inner.

(** C11: Every run of the server's handshake is one of three: it accepts, and
    then it read a nonce, answered with a fresh nonce and its own proof and
    read exactly the client's proof for these nonces; it returns
    [ErrAuthFailed], and then it read a full tag that is not that proof; or
    an operation failed.  The channel it returns is the 64-byte transcript. *)
Theorem server_handshake_outcomes rw token tr r :
  runs (ServerHandshake rw token) tr r ->
  (exists cn sn, r = Ok (transcript cn sn) /\ length (transcript cn sn) = 64
     /\ tr = server_accept_trace rw token cn sn)
  \/ (exists cn sn tag, r = Err ErrAuthFailed
     /\ tag <> Sign token labelClient [cn; sn]
     /\ tr = [ ERead rw NonceSize (Ok cn); ERand NonceSize (Ok sn);
               EWrite rw (sn ++ Sign token labelServer [cn; sn]) (Ok tt);
               ERead rw TagSize (Ok tag) ])
  \/ (exists e, r = Err e /\ io_failure e).
Proof.
  destruct r as [ch|e].
  - intros (cn & sn & ? & ? & -> & ->)%ServerHandshake_ok. left.
    exists cn, sn. by rewrite length_transcript.
  - intros H. unfold ServerHandshake in H. net_runs H.
    all: try (right; right; eexists; split; [done|by eexists _, _]).
    right; left. apply negb_true_iff in E.
    do 3 eexists. split_and!; [done| |done].
    intros Heq%Verify_spec. congruence.
Qed.

(** C12: The client proves nothing to a server that has not proved itself: in
    any run, against any peer, each write is either the fresh nonce or,
    after a reply carrying the server's proof for this nonce was read, the
    client's proof. *)
Theorem client_reveals_proof_last rw token tr r w b wr :
  runs (ClientHandshake rw token) tr r ->
  EWrite w b wr ∈ tr ->
  (exists cn, b = cn /\ ERand NonceSize (Ok cn) ∈ tr)
  \/ (exists cn sn, b = Sign token labelClient [cn; sn]
       /\ tr = [ ERand NonceSize (Ok cn); EWrite rw cn (Ok tt);
                 ERead rw (NonceSize + TagSize) (Ok (sn ++ Sign token labelServer [cn; sn]));
                 EWrite rw b wr ]).
Proof.
  intros H Hin. unfold ClientHandshake in H. net_runs H;
    rewrite ?elem_of_cons, ?elem_of_nil in Hin; destruct_or! Hin; simplify_eq.
  all: try (left; eexists; split; [done|]; set_solver).
  all: apply negb_false_iff, Verify_spec in E; right; eexists _, (take NonceSize _);
    (split; [done|]); rewrite <-E, take_drop; reflexivity.
Qed.

(** C13: Over a working connection the two programs run to completion against
    each other: both accept, with the same transcript of the two nonces, and
    no byte is left over in either direction. *)
Theorem handshake_completes token cn sn :
  length cn = NonceSize -> length sn = NonceSize ->
  duplex 12 (mkEndpoint (ClientHandshake 0 token) cn) (mkEndpoint (ServerHandshake 1 token) sn)
    [] []
  = (mkEndpoint (Ret (Ok (transcript cn sn))) [], mkEndpoint (Ret (Ok (transcript cn sn))) [],
     [], []).
Proof.
  intros Hcn Hsn. pose proof (length_Sign token labelServer [cn; sn]) as HS.
  pose proof (length_Sign token labelClient [cn; sn]) as HC.
  assert (TagSize = 32) as HT by done. unfold NonceSize in *.
  unfold ClientHandshake, ServerHandshake, NonceSize.
  do 6 duplex_step. rewrite Verify_Sign.
  do 2 duplex_step. rewrite Verify_Sign. by duplex_step.
Qed.

(** C14: A peer with another key is refused on both sides.  When the two tokens
    give different proofs for the session's nonces, a client returns
    [ErrAuthFailed] without sending anything but its nonce, and the server is
    left waiting for a client proof: it has not accepted.  And a server that
    does read the proof another token gives returns [ErrAuthFailed].  The
    condition is on the proofs, not on the tokens: HMAC pads its key with
    zeros, so that tokens that differ only in trailing zero bytes are the same
    key. *)
Theorem handshake_wrong_token token token' cn sn :
  length cn = NonceSize -> length sn = NonceSize ->
  (Sign token' labelServer [cn; sn] <> Sign token labelServer [cn; sn] ->
   exists waiting,
     duplex 12 (mkEndpoint (ClientHandshake 0 token) cn)
       (mkEndpoint (ServerHandshake 1 token') sn) [] []
     = (mkEndpoint (Ret (Err ErrAuthFailed)) [], mkEndpoint waiting [], [], [])
     /\ forall k, waiting <> Ret k)
  /\ (Sign token' labelClient [cn; sn] <> Sign token labelClient [cn; sn] ->
   forall rw rest r,
     runs (ServerHandshake rw token) (ERead rw NonceSize (Ok cn) :: ERand NonceSize (Ok sn) :: rest) r ->
     ERead rw TagSize (Ok (Sign token' labelClient [cn; sn])) ∈ rest -> r = Err ErrAuthFailed).
Proof.
  intros Hcn Hsn. split.
  - intros Hne. pose proof (length_Sign token' labelServer [cn; sn]) as HS.
    assert (TagSize = 32) as HT by done. unfold NonceSize in *.
    unfold ClientHandshake, ServerHandshake, NonceSize.
    assert (Verify token labelServer (Sign token' labelServer [cn; sn]) [cn; sn] = false) as HV.
    { apply bool_decide_eq_false. done. }
    do 6 duplex_step. rewrite HV. duplex_step. by eexists.
  - intros Hne rw rest r Hr Ht. unfold ServerHandshake in Hr.
    remember (_ :: _ :: rest) as tr eqn:Htr. net_runs Hr; in_trace Ht; try done.
    exfalso. by apply negb_false_iff, Verify_spec in E.
Qed.

(** ** Datagrams *)

Lemma length_datagramTag token dir payload :
  length (datagramTag token dir payload) = DatagramOverhead.
Proof. unfold datagramTag. rewrite length_take, length_Sign. reflexivity. Qed.

Lemma length_SealDatagram token dir payload :
  length (SealDatagram token dir payload) = DatagramOverhead + length payload.
Proof. unfold SealDatagram. by rewrite length_app, length_datagramTag. Qed.

Lemma OpenDatagram_Some token dir pkt payload :
  OpenDatagram token dir pkt = Some payload <-> pkt = SealDatagram token dir payload.
Proof.
  unfold OpenDatagram. split.
  - case_decide; [done|]. case_bool_decide as Ht; [|done]. intros [= <-].
    unfold SealDatagram. by rewrite <-Ht, take_drop.
  - intros ->. pose proof (length_SealDatagram token dir payload).
    rewrite decide_False by lia. unfold SealDatagram.
    rewrite take_app_length', drop_app_length' by (by rewrite length_datagramTag).
    by rewrite bool_decide_eq_true_2.
Qed.

(** [OpenDatagram] inverts [SealDatagram] exactly: with the same token and
    direction it returns a payload precisely for the packet that sealing this
    payload produces, which is [DatagramOverhead] bytes longer; every other
    packet, in particular every shorter one, is refused. *)
Theorem open_seal_datagram token dir pkt payload :
  (OpenDatagram token dir pkt = Some payload <-> pkt = SealDatagram token dir payload)
  /\ length (SealDatagram token dir payload) = DatagramOverhead + length payload.
Proof. split; [apply OpenDatagram_Some|apply length_SealDatagram]. Qed.

(** A datagram sealed for one direction opens in another only if the two
    truncated tags of the same payload collide, although the two tagged
    messages differ: a datagram cannot be reflected to its sender. *)
Theorem reflected_datagram token dir dir' payload q :
  dir <> dir' ->
  OpenDatagram token dir' (SealDatagram token dir payload) = Some q ->
  q = payload
  /\ datagramTag token dir payload = datagramTag token dir' payload
  /\ direction_byte dir :: payload <> direction_byte dir' :: payload.
Proof.
  intros Hdir Hopen%OpenDatagram_Some. unfold SealDatagram in Hopen.
  apply app_split_eq in Hopen as [Ht ->]; [|by rewrite !length_datagramTag].
  split_and!; [done|done|]. destruct dir, dir'; done.
Qed.

End auth_lemmas.

(** ** Witnesses *)

Definition nonce_a : bytes := replicate NonceSize Byte.x0a.
Definition nonce_b : bytes := replicate NonceSize Byte.x0b.

Lemma server_handshake_outcomes_witness :
  runs (ServerHandshake 1 "0123456789abcdef")
    (server_accept_trace 1 "0123456789abcdef" nonce_a nonce_b) (Ok (transcript nonce_a nonce_b))
  /\ exists cn sn, transcript nonce_a nonce_b = transcript cn sn /\ length (transcript cn sn) = 64.
Proof.
  assert (H : runs (ServerHandshake 1 "0123456789abcdef")
    (server_accept_trace 1 "0123456789abcdef" nonce_a nonce_b) (Ok (transcript nonce_a nonce_b))).
  { apply ServerHandshake_ok. exists nonce_a, nonce_b. done. }
  split; [exact H|].
  destruct (server_handshake_outcomes _ _ _ _ H)
    as [(cn & sn & E & L & _)|[(cn & sn & tag & E & _)|(e & E & _)]]; try discriminate E.
  exists cn, sn. split; [exact (f_equal (fun r => match r with Ok c => c | Err _ => [] end) E)|exact L].
Defined.

Lemma client_reveals_proof_last_witness :
  let tr := client_accept_trace 0 "0123456789abcdef" nonce_a nonce_b in
  runs (ClientHandshake 0 "0123456789abcdef") tr (Ok (transcript nonce_a nonce_b))
  /\ ((exists cn, nonce_a = cn /\ ERand NonceSize (Ok cn) ∈ tr)
      \/ exists cn sn, nonce_a = Sign "0123456789abcdef" labelClient [cn; sn]).
Proof.
  intros tr.
  assert (H : runs (ClientHandshake 0 "0123456789abcdef") tr (Ok (transcript nonce_a nonce_b))).
  { apply ClientHandshake_ok. exists nonce_a, nonce_b. done. }
  split; [exact H|].
  assert (Hin : EWrite 0 nonce_a (Ok tt) ∈ tr) by (apply list_elem_of_further, list_elem_of_here).
  destruct (client_reveals_proof_last _ _ _ _ _ _ _ H Hin) as [Hl|(cn & sn & Hb & _)];
    [by left|right; by exists cn, sn].
Defined.

Lemma handshake_completes_witness :
  exists ends, ends = duplex 12 (mkEndpoint (ClientHandshake 0 "0123456789abcdef") nonce_a)
      (mkEndpoint (ServerHandshake 1 "0123456789abcdef") nonce_b) [] []
  /\ ends = (mkEndpoint (Ret (Ok (transcript nonce_a nonce_b))) [],
             mkEndpoint (Ret (Ok (transcript nonce_a nonce_b))) [], [], []).
Proof.
  eexists. split; [reflexivity|]. apply (handshake_completes "0123456789abcdef"); reflexivity.
Defined.

Lemma handshake_wrong_token_witness :
  exists waiting,
    duplex 12 (mkEndpoint (ClientHandshake 0 "0123456789abcdef") nonce_a)
      (mkEndpoint (ServerHandshake 1 "fedcba9876543210") nonce_b) [] []
    = (mkEndpoint (Ret (Err ErrAuthFailed)) [], mkEndpoint waiting [], [], [])
    /\ forall k, waiting <> Ret k.
Proof.
  destruct (handshake_wrong_token "0123456789abcdef" "fedcba9876543210" nonce_a nonce_b
    eq_refl eq_refl) as [H _]. apply H.
  apply (bool_decide_eq_false (Sign "fedcba9876543210" labelServer [nonce_a; nonce_b]
    = Sign "0123456789abcdef" labelServer [nonce_a; nonce_b])).
  vm_compute. reflexivity.
Defined.

(** The same key, by the padding of HMAC. *)
Example padded_token_same_key :
  Sign "0123456789abcdef" labelServer [nonce_a; nonce_b]
  = Sign (String.append "0123456789abcdef" (String Ascii.zero EmptyString)) labelServer [nonce_a; nonce_b].
Proof. vm_compute. reflexivity. Qed.
