(* ===== verification/Control.v ===== *)
(** * Package [control]: the message that announces the transport
      (src/internal/control/control.go)

    [Send] and [Receive] over the authenticated control channel, with the
    real wire format: a 16-bit length, the JSON body, the tag. *)

From S2P Require Import Prelude GoLib Json JsonFuel Proto Config Sha256 Prog Net Auth.

Definition maxBodySize : nat := 4096.
Definition labelConfig : string := "gtun/v1/config".

(** [control.Config]; the KCP pointer is nil or points to parameters. *)
Record CConfig : Type := mkCConfig {
  Protocol : Name;
  Port : string;
  CKCP : option KCP;
}.

#[export] Instance CConfig_eq_decision : EqDecision CConfig.
Proof. solve_decision. Defined.

Definition zero_CConfig : CConfig := mkCConfig "" "" None.

Definition Equal (c o : CConfig) : bool :=
  if bool_decide (Protocol c <> Protocol o) || bool_decide (Port c <> Port o) then false
  else if negb (eqb (match CKCP c with None => true | Some _ => false end)
                    (match CKCP o with None => true | Some _ => false end)) then false
  else match CKCP c, CKCP o with
       | None, _ => true
       | Some k, Some k' => bool_decide (k = k')
       | Some _, None => false   (* excluded by the test above *)
       end.

(** ** JSON *)

Definition CConfig_fields : list (field CConfig) := [
  string_field "protocol" Protocol (fun s '(mkCConfig _ b c) => mkCConfig s b c);
  string_field "port" Port (fun s '(mkCConfig a _ c) => mkCConfig a s c);
  ("kcp"%string, fun v c =>
     (fun k => mkCConfig (Protocol c) (Port c) k) <$> dec_pointer KCP_fields zero_KCP v (CKCP c))
].

Definition KCP_json (k : KCP) : jvalue :=
  JObj [ (chars "NoDelay", JNum (itoa_chars (NoDelay k)));
         (chars "Interval", JNum (itoa_chars (Interval k)));
         (chars "Resend", JNum (itoa_chars (Resend k)));
         (chars "NoCongestion", JNum (itoa_chars (NoCongestion k)));
         (chars "SndWnd", JNum (itoa_chars (SndWnd k)));
         (chars "RcvWnd", JNum (itoa_chars (RcvWnd k)));
         (chars "DataShards", JNum (itoa_chars (DataShards k)));
         (chars "ParityShards", JNum (itoa_chars (ParityShards k))) ].

(** [kcp] has [omitempty]: a nil pointer is left out. *)
Definition CConfig_json (c : CConfig) : jvalue :=
  JObj ([ (chars "protocol", JStr (chars (Protocol c)));
          (chars "port", JStr (chars (Port c))) ]
        ++ match CKCP c with Some k => [(chars "kcp", KCP_json k)] | None => [] end).

(** [json.Marshal(cfg)], which cannot fail for this type. *)
Definition marshal (c : CConfig) : bytes := bytes_of_text (print (CConfig_json c)).

Section control.
Context `{M : Mac}.

(** The frame [Send] writes. *)
Definition frame (token : string) (channel body : bytes) : bytes :=
  put_uint16 (uint16 (Z.of_nat (length body))) ++ body
  ++ Sign token labelConfig [channel; body].

Definition Send (w : conn) (token : string) (channel : bytes) (cfg : CConfig)
    : prog netE (result unit) :=
  let body := marshal cfg in
  if decide (maxBodySize < length body) then
    Ret (Err (Errorf "control: config too large (%d bytes)" [FInt (Z.of_nat (length body))]))
  else
  let! _ := call (Write w (frame token channel body)) or Wrapf "control: send config: %w" [];
  Ret (Ok tt).

(** The checks [Receive] makes on an authenticated body. *)
Definition decode_config (body : bytes) : result CConfig :=
  try! cfg := unmarshal_into CConfig_fields body zero_CConfig
    or Wrapf "control: decode config: %w" [];
  try! _ := Parse (Protocol cfg) or Wrapf "control: %w" [];
  match CKCP cfg with
  | Some k =>
      match KCP_Validate k with
      | Some err => Err (Wrapf "control: %w" [] err)
      | None => Ok cfg
      end
  | None => Ok cfg
  end.

Definition Receive (r : conn) (token : string) (channel : bytes) : prog netE (result CConfig) :=
  let! header := call (ReadFull r 2) or Wrapf "control: read header: %w" [];
  let size := Z.to_nat (get_uint16 header) in
  if decide (maxBodySize < size) then
    Ret (Err (Errorf "control: message too large (%d bytes)" [FInt (Z.of_nat size)]))
  else
  let! buf := call (ReadFull r (size + TagSize)) or Wrapf "control: read message: %w" [];
  let body := take size buf in
  let tag := drop size buf in
  if negb (Verify token labelConfig tag [channel; body]) then Ret (Err ErrAuthFailed)
  else Ret (decode_config body).

End control.

(** ** Decoding what was encoded *)

(** What a transport announcement satisfies. *)
Record valid_announce (c : CConfig) : Prop := {
  va_protocol : Protocol c ∈ supported;
  va_port : valid_port (Port c);
  va_kcp : forall k, CKCP c = Some k -> valid_KCP k;
}.

(** Go integers fit their width. *)
Definition int64_KCP (k : KCP) : Prop :=
  int64 (NoDelay k) /\ int64 (Interval k) /\ int64 (Resend k) /\ int64 (NoCongestion k)
  /\ int64 (SndWnd k) /\ int64 (RcvWnd k) /\ int64 (DataShards k) /\ int64 (ParityShards k).

Lemma dec_members_cons {A} (fields : list (field A)) key v kvs a set :
  find_field fields key = Some set ->
  dec_members fields ((key, v) :: kvs) a
  = match set v a with Some a' => dec_members fields kvs a' | None => None end.
Proof. intros H. simpl. by rewrite H. Qed.

Lemma dec_int_itoa z old : int64 z -> dec_int (JNum (itoa_chars z)) old = Some z.
Proof. intros Hz. unfold dec_int. by rewrite atoi_itoa_chars. Qed.

Lemma dec_string_chars s old : dec_string (JStr (chars s)) old = Some s.
Proof. unfold dec_string. by rewrite chars_string_of. Qed.

Lemma dec_int_member (fields : list (field KCP)) key get put z kvs k :
  find_field fields key = Some (fun v k => (fun n => put n k) <$> dec_int v (get k)) ->
  int64 z ->
  dec_members fields ((key, JNum (itoa_chars z)) :: kvs) k = dec_members fields kvs (put z k).
Proof. intros Hf Hz. rewrite (dec_members_cons _ _ _ _ _ _ Hf), dec_int_itoa by done. done. Qed.

Lemma dec_string_member {A} (fields : list (field A)) key get put s kvs a :
  find_field fields key = Some (fun v a => (fun s => put s a) <$> dec_string v (get a)) ->
  dec_members fields ((key, JStr (chars s)) :: kvs) a = dec_members fields kvs (put s a).
Proof. intros Hf. rewrite (dec_members_cons _ _ _ _ _ _ Hf), dec_string_chars. done. Qed.

Lemma dec_KCP_json k old :
  int64_KCP k -> dec_struct KCP_fields (KCP_json k) old = Some k.
Proof.
  intros (?&?&?&?&?&?&?&?). destruct old as [o1 o2 o3 o4 o5 o6 o7 o8], k as [a b c d e f g h].
  unfold KCP_json, dec_struct.
  cbn [NoDelay Interval Resend NoCongestion SndWnd RcvWnd DataShards ParityShards] in *.
  do 8 (erewrite dec_int_member; [|reflexivity|done]). reflexivity.
Qed.

Lemma dec_pointer_KCP k old :
  int64_KCP k -> dec_pointer KCP_fields zero_KCP (KCP_json k) old = Some (Some k).
Proof.
  intros Hk. transitivity (Some <$> dec_struct KCP_fields (KCP_json k) (default zero_KCP old));
    [reflexivity|]. by rewrite dec_KCP_json.
Qed.

Lemma dec_CConfig_json c :
  (forall k, CKCP c = Some k -> int64_KCP k) ->
  dec_struct CConfig_fields (CConfig_json c) zero_CConfig = Some c.
Proof.
  intros Hk. destruct c as [p q [k|]]; unfold CConfig_json, dec_struct;
    cbn [Protocol Port CKCP app];
    do 2 (erewrite dec_string_member; [|reflexivity]); [|reflexivity].
  erewrite (dec_members_cons _ _ _ _ _ (fun v c => (fun k => mkCConfig (Protocol c) (Port c) k)
    <$> dec_pointer KCP_fields zero_KCP v (CKCP c))) by reflexivity.
  cbv beta. rewrite dec_pointer_KCP by by apply Hk. reflexivity.
Qed.

(** Every text of a valid announcement is ASCII. *)
Lemma ascii_text_forallb t :
  forallb (fun c => bool_decide (char_code c < 128)%Z) t = true -> ascii_text t.
Proof.
  rewrite forallb_forall. intros H. apply Forall_forall. intros c Hc%list_elem_of_In.
  apply H in Hc. by apply bool_decide_eq_true in Hc.
Qed.

Lemma supported_ascii p : p ∈ supported -> ascii_text (chars p).
Proof.
  intros Hp. apply ascii_text_forallb. revert p Hp. apply supported_forallb.
  vm_compute. reflexivity.
Qed.

Lemma digit_ascii c d : digit_val c = Some d -> (char_code c < 128)%Z.
Proof. unfold digit_val, char_code. case_bool_decide; [lia|done]. Qed.

Lemma digits_ascii acc cs n : digits_val acc cs = Some n -> ascii_text cs.
Proof.
  revert acc. induction cs as [|c cs IH]; intros acc; [constructor|]. simpl.
  destruct (digit_val c) eqn:E; [|done]. intros H. constructor; [by eapply digit_ascii|by eapply IH].
Qed.

Lemma Atoi_ascii s n : Atoi s = Ok n -> ascii_text (chars s).
Proof.
  unfold Atoi, atoi_chars, chars. destruct (String.list_ascii_of_string s) as [|c cs]; [done|].
  unfold split_sign. repeat case_bool_decide; subst.
  all: destruct (digits_val 0 _) eqn:E; try (repeat case_match; done).
  all: apply digits_ascii in E; try done; intros _; constructor; done.
Qed.

Lemma printable_KCP k : int64_KCP k -> printable (KCP_json k).
Proof.
  intros (?&?&?&?&?&?&?&?). apply printable_obj. intros key v Hin.
  repeat (apply elem_of_cons in Hin as [[= -> ->]|Hin];
    [split; [by apply ascii_text_forallb|by apply printable_num]|]).
  by apply elem_of_nil in Hin.
Qed.

Lemma printable_CConfig c :
  valid_announce c -> (forall k, CKCP c = Some k -> int64_KCP k) -> printable (CConfig_json c).
Proof.
  intros [Hp%supported_ascii (n & Hn%Atoi_ascii & _) _] Hk.
  apply printable_obj. intros key v Hin.
  apply elem_of_app in Hin as [Hin|Hin].
  - repeat (apply elem_of_cons in Hin as [[= -> ->]|Hin];
      [split; [by apply ascii_text_forallb|by apply printable_str]|]).
    by apply elem_of_nil in Hin.
  - destruct (CKCP c) as [k|]; [|by apply elem_of_nil in Hin].
    apply elem_of_cons in Hin as [[= -> ->]|Hin]; [|by apply elem_of_nil in Hin].
    split; [by apply ascii_text_forallb|]. by apply printable_KCP, Hk.
Qed.

(** Decoding the body of a valid announcement gives it back. *)
Lemma decode_marshal c :
  valid_announce c -> (forall k, CKCP c = Some k -> int64_KCP k) ->
  length (marshal c) <= maxBodySize ->
  decode_config (marshal c) = Ok c.
Proof.
  intros Hv Hk Hlen. unfold decode_config, unmarshal_into, marshal in *.
  rewrite text_of_bytes_of_text. rewrite length_bytes_of_text in Hlen.
  rewrite unmarshal_print; [|by apply printable_CConfig|unfold maxBodySize, maxNestingDepth in *; lia].
  cbv beta iota. rewrite dec_CConfig_json by done. cbn [of_option].
  rewrite (Parse_supported _ (va_protocol c Hv)).
  destruct (CKCP c) as [k|] eqn:Ek; [|done].
  by rewrite (proj2 (KCP_Validate_none k) (va_kcp c Hv k Ek)).
Qed.

Lemma decode_config_valid body c :
  decode_config body = Ok c ->
  Protocol c ∈ supported /\ forall k, CKCP c = Some k -> valid_KCP k.
Proof.
  unfold decode_config. intros (cfg & _ & (p & [-> Hp]%Parse_ok & H)%try_ok)%try_ok.
  destruct (CKCP cfg) as [k|] eqn:Ek.
  - destruct (KCP_Validate k) eqn:Hk; [done|]. injection H as <-. split; [done|].
    rewrite Ek. intros k' [= <-]. by apply KCP_Validate_none.
  - injection H as <-. by rewrite Ek.
Qed.

(** [Config.Equal] decides equality of two announcements, comparing the KCP
    parameters behind the pointers. *)
Lemma Equal_spec c o : Equal c o = true <-> c = o.
Proof.
  unfold Equal. split.
  - destruct (bool_decide (Protocol c <> Protocol o)) eqn:Ep; [done|].
    destruct (bool_decide (Port c <> Port o)) eqn:Eq; [done|].
    apply bool_decide_eq_false, dec_stable in Ep, Eq.
    destruct c as [p q [k|]], o as [p' q' [k'|]]; simpl in *; subst; try done.
    by intros ->%bool_decide_eq_true.
  - intros ->. rewrite !bool_decide_eq_false_2 by naive_solver.
    destruct (CKCP o); simpl; [by apply bool_decide_eq_true|done].
Qed.

(** ** The wire format *)

Section control_lemmas.
Context `{M : Mac}.

Lemma header_length n :
  n <= maxBodySize -> Z.to_nat (get_uint16 (put_uint16 (uint16 (Z.of_nat n)))) = n.
Proof.
  unfold maxBodySize, uint16. intros Hn.
  rewrite Z.mod_small, get_put_uint16 by lia. lia.
Qed.

Lemma Receive_ok r token channel tr c :
  runs (Receive r token channel) tr (Ok c)
  <-> exists header body,
        length header = 2 /\ Z.to_nat (get_uint16 header) = length body
        /\ length body <= maxBodySize
        /\ tr = [ ERead r 2 (Ok header);
                  ERead r (length body + TagSize)
                    (Ok (body ++ Sign token labelConfig [channel; body])) ]
        /\ decode_config body = Ok c
        /\ Protocol c ∈ supported /\ (forall k, CKCP c = Some k -> valid_KCP k).
Proof.
  unfold Receive. split.
  - intros H. net_runs H.
    apply negb_false_iff, Verify_spec in E. rename a into header, a0 into buf.
    set (size := Z.to_nat (get_uint16 header)) in *.
    assert (length (take size buf) = size) as Hlen by (rewrite length_take; lia).
    exists header, (take size buf). rewrite Hlen. symmetry in E0.
    apply decode_config_valid in E0 as Hvalid. destruct Hvalid.
    split_and!; try done; [lia|]. by rewrite <-E, take_drop.
  - intros (header & body & Hh & Hn & Hmax & -> & Hd & _).
    exec_step; [done|]. cbv beta iota zeta. rewrite Hn, decide_False by lia.
    exec_step; [simpl; by rewrite length_app, length_Sign|]. cbv beta iota zeta.
    rewrite take_app_length, drop_app_length, Verify_Sign. simpl. by rewrite Hd.
Qed.

(** C16: A run of [Receive] returns a configuration exactly when it read a
    two-byte length of at most [maxBodySize], then a body of that length
    followed by the tag of this token, channel and body, and the body decodes
    to the configuration; what it returns names a supported protocol and has
    usable KCP parameters. *)
Theorem Receive_accepts r token channel tr c :
  runs (Receive r token channel) tr (Ok c)
  <-> exists header body,
        length header = 2 /\ Z.to_nat (get_uint16 header) = length body
        /\ length body <= maxBodySize
        /\ tr = [ ERead r 2 (Ok header);
                  ERead r (length body + TagSize)
                    (Ok (body ++ Sign token labelConfig [channel; body])) ]
        /\ decode_config body = Ok c
        /\ Protocol c ∈ supported /\ (forall k, CKCP c = Some k -> valid_KCP k).
Proof. apply Receive_ok. Qed.

(** [Send] refuses a body longer than [maxBodySize] without writing
    anything; otherwise its only operation is one write of the frame, whose
    16-bit length field is the length of the body (no truncation), followed
    by the body and its tag. *)
Theorem Send_frame w token channel cfg tr r :
  runs (Send w token channel cfg) tr r ->
  (maxBodySize < length (marshal cfg) /\ tr = [] /\ is_ok r = false)
  \/ (length (marshal cfg) <= maxBodySize
      /\ exists hdr wr, tr = [EWrite w (hdr ++ marshal cfg
                                 ++ Sign token labelConfig [channel; marshal cfg]) wr]
         /\ length hdr = 2 /\ Z.to_nat (get_uint16 hdr) = length (marshal cfg)
         /\ is_ok r = is_ok wr).
Proof.
  unfold Send. case_decide as Hlen; intros H; net_runs H; [by left|..].
  all: right; split; [lia|].
  all: exists (put_uint16 (uint16 (Z.of_nat (length (marshal cfg))))); eexists.
  all: split_and!; [reflexivity|done|apply header_length; lia|done].
Qed.

(** C17: Over a working connection [Receive] returns exactly the configuration
    [Send] was given, for every valid announcement of 64-bit parameters whose
    body fits, under the same token and channel, and no byte is left over. *)
Theorem send_receive_roundtrip token channel cfg :
  valid_announce cfg -> (forall k, CKCP cfg = Some k -> int64_KCP k) ->
  length (marshal cfg) <= maxBodySize ->
  duplex 4 (mkEndpoint (Send 0 token channel cfg) []) (mkEndpoint (Receive 1 token channel) [])
    [] []
  = (mkEndpoint (Ret (Ok tt)) [], mkEndpoint (Ret (Ok cfg)) [], [], []).
Proof.
  intros Hv Hk Hlen. pose proof (length_Sign token labelConfig [channel; marshal cfg]) as HS.
  unfold Send, Receive. rewrite decide_False by lia. unfold frame.
  pose proof (header_length _ Hlen) as Hn. revert Hn.
  generalize (eq_refl : length (put_uint16 (uint16 (Z.of_nat (length (marshal cfg))))) = 2).
  generalize (put_uint16 (uint16 (Z.of_nat (length (marshal cfg))))). intros hdr Hhdr Hn.
  do 2 duplex_step. rewrite Hn, decide_False by lia. duplex_step.
  rewrite Verify_Sign, decode_marshal by done.
  by duplex_step.
Qed.

End control_lemmas.

(** ** Witnesses *)

Definition announce_utcpmux : CConfig := mkCConfig UTCPMux "8081" (Some DefaultKCP).

Lemma send_receive_roundtrip_witness :
  valid_announce announce_utcpmux
  /\ length (marshal announce_utcpmux) <= maxBodySize
  /\ duplex 4 (mkEndpoint (Send 0 "0123456789abcdef" nonce_a announce_utcpmux) [])
       (mkEndpoint (Receive 1 "0123456789abcdef" nonce_a) []) [] []
     = (mkEndpoint (Ret (Ok tt)) [], mkEndpoint (Ret (Ok announce_utcpmux)) [], [], []).
Proof.
  assert (Hv : valid_announce announce_utcpmux).
  { split; simpl.
    - apply Parse_err_none. reflexivity.
    - exists 8081%Z. split; [reflexivity|lia].
    - intros k [= <-]. by apply KCP_Validate_none. }
  assert (Hi : forall k, CKCP announce_utcpmux = Some k -> int64_KCP k).
  { intros k [= <-]. repeat split; vm_compute; discriminate. }
  assert (Hl : length (marshal announce_utcpmux) <= maxBodySize).
  { apply Nat.leb_le. vm_compute. reflexivity. }
  split; [exact Hv|]. split; [exact Hl|].
  exact (send_receive_roundtrip "0123456789abcdef" nonce_a announce_utcpmux Hv Hi Hl).
Defined.
