(* ===== verification/Reconnect.v ===== *)
(** * Package [client]: the reconnection loops (src/internal/client/client.go,
      runner.go)

    [Run], [runStatic] and [supervise] over the operations they are made of:
    one control connection, one run of the transport, the runner, the timer
    and the context.  The loops are infinite, so the programs have fuel: one
    unit per iteration; [None] is a program that is still looping. *)

From S2P Require Import Prelude GoLib Proto Config Control Prog.

Local Open Scope Z_scope.

Definition minBackoff : Z := 3 * Second.
Definition maxBackoff : Z := 60 * Second.

Inductive clientE : Type -> Type :=
| RunControl : clientE (bool * option error)     (* runControl *)
| CtxErr : clientE bool                          (* ctx.Err() != nil *)
| NewTimer (d : Z) : clientE unit
| SelectTimer : clientE bool                     (* the timer fired before ctx.Done() *)
| StopTimer : clientE unit
| Apply (s : CConfig) : clientE (option error)   (* r.apply *)
| AwaitDone : clientE unit                       (* <-ctx.Done() *)
| StopRunner : clientE unit                      (* r.stop *)
| TransportRun : clientE (option error).         (* tr.Run *)

Inductive client_event : Type :=
| ERunControl (r : bool * option error)
| ECtxErr (b : bool)
| ENewTimer (d : Z)
| ESelectTimer (fired : bool)
| EStopTimer
| EApply (s : CConfig) (r : option error)
| EAwaitDone
| EStopRunner
| ETransportRun (r : option error).

#[export] Instance client_Effect : Effect clientE client_event := {|
  observe := fun X (e : clientE X) =>
    match e in clientE X return X -> client_event with
    | RunControl => ERunControl
    | CtxErr => ECtxErr
    | NewTimer d => fun _ => ENewTimer d
    | SelectTimer => ESelectTimer
    | StopTimer => fun _ => EStopTimer
    | Apply s => EApply s
    | AwaitDone => fun _ => EAwaitDone
    | StopRunner => fun _ => EStopRunner
    | TransportRun => ETransportRun
    end;
  contract := fun _ _ _ => True;
|}.

(** [sleep], with its deferred [t.Stop]. *)
Definition sleep (d : Z) : prog clientE bool :=
  run! call (NewTimer d);
  do! fired := call SelectTimer;
  run! call StopTimer;
  Ret fired.

Lemma sleep_runs d tr ok :
  runs (sleep d) tr ok <-> tr = [ENewTimer d; ESelectTimer ok; EStopTimer].
Proof.
  unfold sleep. split.
  - intros H. inv_runs H. by subst.
  - intros ->. exists tt, [ESelectTimer ok; EStopTimer]. split_and!; [done..|].
    exists ok, [EStopTimer]. split_and!; [done..|]. by exists tt, [].
Qed.

(** [min(2*backoff, maxBackoff)] *)
Definition double (backoff : Z) : Z := Z.min (int64_wrap (2 * backoff)) maxBackoff.

(** The loop of [Run]. *)
Fixpoint run_loop (fuel : nat) (backoff : Z) : prog clientE (option (option error)) :=
  match fuel with
  | O => Ret None
  | S fuel =>
      do! (established, _) := call RunControl;
      do! ctx_done := call CtxErr;
      if (ctx_done : bool) then Ret (Some None)
      else
        let backoff := if (established : bool) then minBackoff else backoff in
        do! slept := sleep backoff;
        if negb (slept : bool) then Ret (Some None) else run_loop fuel (double backoff)
  end.

(** The settings of static mode: no KCP parameters. *)
Definition static_settings (cfg : Config.Client) : CConfig :=
  mkCConfig (ClientProtocol cfg) (ClientDataPort cfg) None.

Definition runStatic (cfg : Config.Client) : prog clientE (option error) :=
  do! applied := call (Apply (static_settings cfg));
  match applied with
  | Some err => Ret (Some err)
  | None => run! call AwaitDone; Ret None
  end.

(** [Run], with its deferred [r.stop]. *)
Definition Run (fuel : nat) (cfg : Config.Client) : prog clientE (option (option error)) :=
  do! res := (if decide (ClientProtocol cfg <> ""%string)
              then (do! err := runStatic cfg; Ret (Some err))
              else run_loop fuel minBackoff);
  match res with
  | Some err => run! call StopRunner; Ret (Some err)
  | None => Ret None
  end.

Fixpoint supervise_loop (fuel : nat) (backoff : Z) : prog clientE (option unit) :=
  match fuel with
  | O => Ret None
  | S fuel =>
      do! _ := call TransportRun;
      do! ctx_done := call CtxErr;
      if (ctx_done : bool) then Ret (Some tt)
      else
        do! slept := sleep backoff;
        if negb (slept : bool) then Ret (Some tt) else supervise_loop fuel (double backoff)
  end.
Definition supervise (fuel : nat) : prog clientE (option unit) := supervise_loop fuel minBackoff.

(** ** What the loops do *)

(** One iteration: what it ran, whether that was an accepted connection, and
    how it ended. *)
Record attempt : Type := mkAttempt {
  work : client_event;
  established : bool;
  ctx_done : bool;
  slept : bool;
}.

(** The wait after [k] failures in a row. *)
Definition backoff_after (k : nat) : Z := Z.min (minBackoff * 2 ^ Z.of_nat k) maxBackoff.

(** What a wait shows. *)
Definition sleeps (d : Z) (ok : bool) : list client_event :=
  [ENewTimer d; ESelectTimer ok; EStopTimer].

(** What is seen of the attempts after [k] failures in a row. *)
Fixpoint expected (k : nat) (attempts : list attempt) : list client_event :=
  match attempts with
  | [] => []
  | a :: attempts =>
      let k := if established a then 0%nat else k in
      work a :: ECtxErr (ctx_done a)
      :: (if ctx_done a then [] else sleeps (backoff_after k) (slept a))
      ++ expected (S k) attempts
  end.

(** The attempts of a loop: all but the last one go on; the last one ends the
    loop iff the loop has ended. *)
Definition goes_on (a : attempt) : Prop := ctx_done a = false /\ slept a = true.
Definition loop_shape (ended : bool) (attempts : list attempt) : Prop :=
  if ended then exists pre a, attempts = pre ++ [a] /\ Forall goes_on pre /\ ~ goes_on a
  else Forall goes_on attempts.

Lemma backoff_after_range k : minBackoff <= backoff_after k <= maxBackoff.
Proof.
  unfold backoff_after, minBackoff, maxBackoff, Second.
  assert (1 <= 2 ^ Z.of_nat k) by (apply (Z.pow_le_mono_r 2 0); lia). lia.
Qed.

Lemma double_backoff_after k : double (backoff_after k) = backoff_after (S k).
Proof.
  pose proof (backoff_after_range k) as Hr. unfold double, minBackoff, maxBackoff, Second in *.
  rewrite int64_wrap_id by (unfold int64, min_int64, max_int64; lia).
  unfold backoff_after, minBackoff, maxBackoff, Second in *.
  rewrite Nat2Z.inj_succ, Z.pow_succ_r by lia. lia.
Qed.

Lemma shape_cons ended a attempts :
  goes_on a -> loop_shape ended attempts -> loop_shape ended (a :: attempts).
Proof.
  intros Ha. destruct ended; simpl; [|by constructor].
  intros (pre & b & -> & Hpre & Hb). exists (a :: pre), b. split_and!; [done|by constructor|done].
Qed.

Lemma shape_last a : ~ goes_on a -> loop_shape true [a].
Proof. intros Ha. exists [], a. by split_and!. Qed.

(** Both loops are made of attempts. *)
Definition loops {A} (is_work : client_event -> bool -> Prop) (r : option A) (fuel k : nat)
    (tr : list client_event) : Prop :=
  exists attempts, tr = expected k attempts
    /\ loop_shape (match r with Some _ => true | None => false end) attempts
    /\ Forall (fun a => is_work (work a) (established a)) attempts
    /\ (r = None -> length attempts = fuel).

Lemma loops_step {A} (is_work : client_event -> bool -> Prop) (r : option A) fuel k w est tr :
  is_work w est ->
  (let k := if est then 0%nat else k in
   exists c tr', tr = w :: ECtxErr c :: tr'
     /\ if c then r <> None /\ tr' = []
        else exists s tr'', tr' = sleeps (backoff_after k) s ++ tr''
          /\ if s then loops is_work r fuel (S k) tr'' else r <> None /\ tr'' = []) ->
  loops is_work r (S fuel) k tr.
Proof.
  intros Hw (c & tr' & -> & Hc).
  assert (forall s, r <> None -> ~ goes_on (mkAttempt w est c s) ->
    loop_shape (match r with Some _ => true | None => false end) [mkAttempt w est c s]) as Hend.
  { intros s Hr Hg. destruct r; [by apply shape_last|done]. }
  destruct c.
  - destruct Hc as [Hr ->]. exists [mkAttempt w est true false]. split_and!; [done| |by constructor|done].
    apply Hend; [done|]. by intros [? _].
  - destruct Hc as (s & tr'' & -> & Hs). destruct s.
    + destruct Hs as (attempts & -> & Hsh & Hall & Hlen).
      exists (mkAttempt w est false true :: attempts).
      split_and!; [done|by apply shape_cons|by constructor|]. intros Hr. simpl. by rewrite Hlen.
    + destruct Hs as [Hr ->]. exists [mkAttempt w est false false].
      split_and!; [done| |by constructor|done]. apply Hend; [done|]. by intros [_ ?].
Qed.

Lemma loops_start {A} is_work (r : option A) k : r = None -> loops is_work r 0 k [].
Proof. intros ->. exists []. split_and!; [done|simpl; constructor|constructor|done]. Qed.

Definition control_work (w : client_event) (est : bool) : Prop :=
  exists err, w = ERunControl (est, err).
Definition transport_work (w : client_event) (est : bool) : Prop :=
  est = false /\ exists err, w = ETransportRun err.

Lemma run_loop_result fuel backoff tr r :
  runs (run_loop fuel backoff) tr r -> r = None \/ r = Some None.
Proof.
  revert backoff tr. induction fuel as [|fuel IH]; intros backoff tr; cbn [run_loop].
  - intros [_ ->]. by left.
  - intros ([est err] & tr1 & _ & _ & c & tr2 & _ & _ & H). cbn [bind call] in H.
    destruct c; [destruct H as [_ ->]; by right|].
    apply runs_bind in H as (t1 & tr3 & s & _ & _ & H). destruct s; cbn [negb] in H; [exact (IH _ _ H)|].
    destruct H as [_ ->]. by right.
Qed.

Lemma run_loop_runs fuel k tr r :
  runs (run_loop fuel (backoff_after k)) tr r -> loops control_work r fuel k tr.
Proof.
  revert k tr. induction fuel as [|fuel IH]; intros k tr; cbn [run_loop].
  { intros [-> ->]. by apply loops_start. }
  intros ([est err] & tr1 & _ & -> & c & tr2 & _ & -> & H). cbn [bind call] in H.
  eapply (loops_step _ _ _ _ _ est); [by exists err|]. exists c, tr2. split; [done|].
  replace (if est then minBackoff else backoff_after k)
    with (backoff_after (if est then 0%nat else k)) in H by (by destruct est).
  destruct c.
  - by destruct H as [-> ->].
  - apply runs_bind in H as (t1 & tr3 & s & -> & ->%sleep_runs & H). exists s, tr3.
    split; [done|]. destruct s; cbn [negb] in H.
    + rewrite double_backoff_after in H. by apply IH.
    + by destruct H as [-> ->].
Qed.

Lemma supervise_loop_runs fuel k tr r :
  runs (supervise_loop fuel (backoff_after k)) tr r -> loops transport_work r fuel k tr.
Proof.
  revert k tr. induction fuel as [|fuel IH]; intros k tr; cbn [supervise_loop].
  { intros [-> ->]. by apply loops_start. }
  intros (err & tr1 & _ & -> & c & tr2 & _ & -> & H). cbn [bind call] in H.
  eapply (loops_step _ _ _ _ _ false); [by split; [|exists err]|]. exists c, tr2. split; [done|].
  destruct c.
  - by destruct H as [-> ->].
  - apply runs_bind in H as (t1 & tr3 & s & -> & ->%sleep_runs & H). exists s, tr3.
    split; [done|]. destruct s; cbn [negb] in H.
    + rewrite double_backoff_after in H. by apply IH.
    + by destruct H as [-> ->].
Qed.

(** C25: [Run] and [supervise]: in static mode [Run] applies the configured
    settings, never opens a control connection, and waits for the context;
    otherwise it opens control connections one after the other.  After [k]
    failures in a row it waits min(3s * 2^k, 60s), an accepted connection
    resetting [k], with no overflow; it ends exactly when it finds the context
    done, with no error, and it ends in no other way.  However it ends, stopping the
    runner is the last thing it does.  [supervise] restarts the transport on
    the same schedule, never reset. *)
Theorem run_reconnects fuel cfg tr :
  (forall r, runs (Run fuel cfg) tr r ->
     (ClientProtocol cfg <> ""%string ->
        (exists err, r = Some (Some err)
          /\ tr = [EApply (static_settings cfg) (Some err); EStopRunner])
        \/ (r = Some None /\ tr = [EApply (static_settings cfg) None; EAwaitDone; EStopRunner]))
     /\ (ClientProtocol cfg = ""%string ->
        exists tr', loops control_work r fuel 0 tr'
          /\ ((r = None /\ tr = tr') \/ (r = Some None /\ tr = tr' ++ [EStopRunner]))))
  /\ (forall r, runs (supervise fuel) tr r -> loops transport_work r fuel 0 tr)
  /\ forall k, minBackoff <= backoff_after k <= maxBackoff.
Proof.
  split_and!; [|intros r; apply (supervise_loop_runs fuel 0)|apply backoff_after_range].
  intros r. unfold Run. intros (t1 & t2 & res & -> & Hres & H)%runs_bind.
  case_decide as Hp; split; intros Hq; try done.
  - apply runs_bind in Hres as (t3 & t4 & err & -> & Hs & [-> ->]). inv_runs H. subst r.
    unfold runStatic in Hs. destruct Hs as (e & tr0 & _ & -> & Hs). destruct e as [e|].
    + destruct Hs as [-> ->]. left. by exists e.
    + inv_runs Hs. right. by subst.
  - pose proof (run_loop_result _ _ _ _ Hres) as Hr.
    apply (run_loop_runs fuel 0) in Hres as Hl. exists t1.
    destruct res as [err|].
    + inv_runs H. subst r. destruct Hr as [|[= ->]]; [done|]. split; [done|]. by right.
    + destruct H as [-> ->]. rewrite app_nil_r. split; [done|]. by left.
Qed.
