(* ===== verification/Cmd.v ===== *)
(** * The commands and the log (src/cmd, src/internal/logging)

    What the three programs do from their arguments to their exit code:
    parsing the flags, loading the configuration, checking it or running. *)

From S2P Require Import Prelude GoLib Json JsonFuel Sha256 Proto Config Prog Net GoFlag.

Local Open Scope Z_scope.

(** ** What a process does *)

Inductive procE : Type -> Type :=
| Println (line : string) : procE unit                 (* on the standard output *)
| Eprintln (prefix : string) (err : error) : procE unit
| Usage (err : option error) : procE unit              (* by package flag *)
| SetDefaultLogger (level : Z) : procE unit
| OpenFile (path : string) : procE (result bytes)
| NotifyContext : procE unit
| StopNotify : procE unit
| RunServer (cfg : Config.Server) : procE (option error)
| RunClient (cfg : Config.Client) : procE (option error)
| RunGenerate (certPath keyPath : string) : procE (option error).

Inductive proc_event : Type :=
| EPrintln (line : string)
| EEprintln (prefix : string) (err : error)
| EUsage (err : option error)
| ESetDefaultLogger (level : Z)
| EOpenFile (path : string) (r : result bytes)
| ENotifyContext
| EStopNotify
| ERunServer (cfg : Config.Server) (r : option error)
| ERunClient (cfg : Config.Client) (r : option error)
| ERunGenerate (certPath keyPath : string) (r : option error).

#[export] Instance proc_Effect : Effect procE proc_event := {|
  observe := fun X (e : procE X) =>
    match e in procE X return X -> proc_event with
    | Println l => fun _ => EPrintln l
    | Eprintln p err => fun _ => EEprintln p err
    | Usage err => fun _ => EUsage err
    | SetDefaultLogger l => fun _ => ESetDefaultLogger l
    | OpenFile p => EOpenFile p
    | NotifyContext => fun _ => ENotifyContext
    | StopNotify => fun _ => EStopNotify
    | RunServer c => ERunServer c
    | RunClient c => ERunClient c
    | RunGenerate c k => ERunGenerate c k
    end;
  contract := fun _ _ _ => True;
|}.

(** ** Package [logging] *)

(** [slog.LevelInfo] and [slog.LevelDebug]. *)
Definition LevelInfo : Z := 0.
Definition LevelDebug : Z := -4.

Definition Init (debug : bool) : prog procE unit :=
  let level := if debug then LevelDebug else LevelInfo in
  call (SetDefaultLogger level).

(** ** The mains *)

(** [flag.Parse] on the command line, which exits on an error; then [k]. *)
Definition with_flags (defaults : flag_set) (args : list string)
    (k : flag_set -> prog procE Z) : prog procE Z :=
  match flag_parse args defaults with
  | Parsed fs _ => k fs
  | HelpRequested => run! call (Usage None); Ret 0
  | ParseError err => run! call (Usage (Some err)); Ret 2
  end.

(** [main] around [run]: print the error and exit with 1, or exit with 0. *)
Definition exit_with (prefix : string) (run : prog procE (option error)) : prog procE Z :=
  do! err := run;
  match err with
  | Some err => run! call (Eprintln prefix err); Ret 1
  | None => Ret 0
  end.

(** The flags of the client and the server. *)
Definition run_flags (default_path : string) : flag_set :=
  [("config", FlagString default_path); ("debug", FlagBool false);
   ("check", FlagBool false); ("version", FlagBool false)]%string.

Section run.
Context {Cfg : Type}.
Context (load : (string -> result bytes) -> string -> result Cfg).
Context (start : Cfg -> procE (option error)).

(** [run] after [flag.Parse]. *)
Definition run_body (version : string) (fs : flag_set) : prog procE (option error) :=
  if flag_bool "version" fs then run! call (Println version); Ret None
  else
    run! Init (flag_bool "debug" fs);
    do! data := call (OpenFile (flag_string "config" fs));
    match load (fun _ => data) (flag_string "config" fs) with
    | Err err => Ret (Some err)
    | Ok cfg =>
        if flag_bool "check" fs then run! call (Println "configuration is valid"); Ret None
        else
          run! call NotifyContext;
          do! err := call (start cfg);
          run! call StopNotify;
          Ret err
    end.
End run.

Definition server_main (version : string) (args : list string) : prog procE Z :=
  with_flags (run_flags "server_config.json") args (fun fs =>
    exit_with "g-tun-server:" (run_body LoadServer RunServer version fs)).

Definition client_main (version : string) (args : list string) : prog procE Z :=
  with_flags (run_flags "client_config.json") args (fun fs =>
    exit_with "g-tun-client:" (run_body LoadClient RunClient version fs)).

Definition gencert_main (args : list string) : prog procE Z :=
  with_flags [("cert", FlagString "cert.pem"); ("key", FlagString "key.pem")]%string args (fun fs =>
    do! err := call (RunGenerate (flag_string "cert" fs) (flag_string "key" fs));
    match err with
    | Some err => run! call (Eprintln "g-tun-gencert:" err); Ret 1
    | None =>
        run! call (Println (String.append "wrote " (String.append (flag_string "cert" fs)
                     (String.append " and " (flag_string "key" fs)))));
        Ret 0
    end).

(** ** What they do *)

(** The command line that sets every flag of the client or the server. *)
Definition command_line (path : string) (debug check version : bool) : list string :=
  flag_format <$> [("config", FlagString path); ("debug", FlagBool debug);
                   ("check", FlagBool check); ("version", FlagBool version)]%string.

(** The values these flags then have. *)
Definition run_values (path : string) (debug check version : bool) : flag_set :=
  [("config", FlagString path); ("debug", FlagBool debug);
   ("check", FlagBool check); ("version", FlagBool version)]%string.

Lemma command_line_values default_path path debug check version :
  flag_parse (command_line path debug check version) (run_flags default_path)
  = Parsed (run_values path debug check version) [].
Proof. unfold command_line. rewrite flag_parse_settings by by repeat constructor. reflexivity. Qed.

(** The flags of both commands are read back exactly from a command line
    that spells them out, whatever the path is (empty, or itself looking like
    a flag), whatever the default path of the command. *)
Theorem command_line_roundtrip default_path path debug check version :
  exists fs, flag_parse (command_line path debug check version) (run_flags default_path) = Parsed fs []
    /\ flag_string "config" fs = path /\ flag_bool "debug" fs = debug
    /\ flag_bool "check" fs = check /\ flag_bool "version" fs = version.
Proof. rewrite command_line_values. eexists. by split_and!. Qed.

(** What a command makes of its command line: an error of the flags is reported
    with the usage and exits with 2, asking for help shows the usage and exits
    with 0, and only then does anything else happen, which exits with 0 or 1. *)
Definition parses (defaults : flag_set) (args : list string) (code : Z) (tr : list proc_event) : Prop :=
  match flag_parse args defaults with
  | ParseError err => code = 2 /\ tr = [EUsage (Some err)]
  | HelpRequested => code = 0 /\ tr = [EUsage None]
  | Parsed _ _ => code = 0 \/ code = 1
  end.

(** What a started command shows. *)
Definition starts (e : proc_event) : bool :=
  match e with ERunServer _ _ | ERunClient _ _ | ENotifyContext => true | _ => false end.

Section outcomes.
Context {Cfg : Type}.
Context (load : (string -> result bytes) -> string -> result Cfg).
Context (start : Cfg -> procE (option error)).

(** Where [run] got to. *)
Inductive reached (fs : flag_set) (version : string) : option error -> list proc_event -> Prop :=
| AtVersion : flag_bool "version" fs = true ->
    reached fs version None [EPrintln version]
| AtLoad level data err : flag_bool "version" fs = false ->
    load (fun _ => data) (flag_string "config" fs) = Err err ->
    reached fs version (Some err)
      [ESetDefaultLogger level; EOpenFile (flag_string "config" fs) data]
| AtCheck level data cfg : flag_bool "version" fs = false -> flag_bool "check" fs = true ->
    load (fun _ => data) (flag_string "config" fs) = Ok cfg ->
    reached fs version None
      [ESetDefaultLogger level; EOpenFile (flag_string "config" fs) data;
       EPrintln "configuration is valid"]
| AtRun level data cfg res : flag_bool "version" fs = false -> flag_bool "check" fs = false ->
    load (fun _ => data) (flag_string "config" fs) = Ok cfg ->
    reached fs version res
      [ESetDefaultLogger level; EOpenFile (flag_string "config" fs) data;
       ENotifyContext; observe (start cfg) res; EStopNotify].

Lemma run_body_reached version fs tr res :
  runs (run_body load start version fs) tr res -> reached fs version res tr.
Proof.
  unfold run_body, Init. intros H. destruct (flag_bool "version" fs) eqn:Ev.
  - inv_runs H. cbn in *. subst. by constructor.
  - do 2 inv_run_step H. destruct (load _ _) as [cfg|err] eqn:El.
    + destruct (flag_bool "check" fs) eqn:Ec; inv_runs H; subst.
      * by econstructor.
      * by econstructor.
    + inv_runs H. subst. by econstructor.
Qed.

(** The whole of [main]. *)
Lemma main_reached version default_path prefix args tr code :
  runs (with_flags (run_flags default_path) args (fun fs =>
          exit_with prefix (run_body load start version fs))) tr code ->
  (exists fs rest tr' res, flag_parse args (run_flags default_path) = Parsed fs rest
     /\ reached fs version res tr'
     /\ match res with
        | None => code = 0 /\ tr = tr'
        | Some err => code = 1 /\ tr = tr' ++ [EEprintln prefix err]
        end)
  \/ (flag_parse args (run_flags default_path) = HelpRequested /\ code = 0 /\ tr = [EUsage None])
  \/ (exists err, flag_parse args (run_flags default_path) = ParseError err
      /\ code = 2 /\ tr = [EUsage (Some err)]).
Proof.
  unfold with_flags, exit_with. destruct (flag_parse _ _) as [fs rest| |err]; intros H.
  - inv_run_step H. apply run_body_reached in Hrun. left.
    exists fs, rest, tr0, a. split; [done|]. split; [done|].
    destruct a; inv_runs H; by rewrite ?app_nil_r.
  - inv_runs H. auto.
  - inv_runs H. eauto 10.
Qed.


Lemma check_reached path debug version res tr :
  reached (run_values path debug true false) version res tr ->
  exists level data, (res = None <-> exists cfg, load (fun _ => data) path = Ok cfg)
    /\ tr = [ESetDefaultLogger level; EOpenFile path data]
             ++ match res with None => [EPrintln "configuration is valid"] | Some _ => [] end.
Proof.
  intros Hr. inversion Hr as [Hv|level data err _ Hl|level data cfg _ _ Hl|? ? ? ? _ Hc]; subst;
    try done; change (flag_string "config" _) with path in *.
  - exists level, data. split; [|done]. split; [done|]. intros [cfg Hcfg]. congruence.
  - exists level, data. split; [|done]. split; [by exists cfg|done].
Qed.

Lemma check_main default_path version prefix path debug tr code :
  runs (with_flags (run_flags default_path) (command_line path debug true false) (fun fs =>
          exit_with prefix (run_body load start version fs))) tr code ->
  exists level data, (code = 0 \/ code = 1)
    /\ (code = 0 <-> exists cfg, load (fun _ => data) path = Ok cfg)
    /\ exists last, tr = [ESetDefaultLogger level; EOpenFile path data; last]
        /\ (last = EPrintln "configuration is valid" \/ exists err, last = EEprintln prefix err).
Proof.
  intros [(fs & rest & tr' & res & Hp & Hr & Hres)|[(Hp & _)|(err & Hp & _)]]%main_reached;
    rewrite command_line_values in Hp; simplify_eq.
  apply check_reached in Hr as (level & data & Hiff & ->). exists level, data.
  destruct res as [err|]; destruct Hres as [-> ->].
  - split; [by right|]. split; [|eexists; split; [done|right; by eexists]].
    split; [done|]. by intros ?%Hiff.
  - split; [by left|]. split; [|eexists; split; [done|by left]]. naive_solver.
Qed.

Lemma main_started version default_path prefix args tr code :
  runs (with_flags (run_flags default_path) args (fun fs =>
          exit_with prefix (run_body load start version fs))) tr code ->
  parses (run_flags default_path) args code tr
  /\ ((forall e, e ∈ tr -> starts e = false)
      \/ exists level path data cfg r suffix, load (fun _ => data) path = Ok cfg
           /\ tr = [ESetDefaultLogger level; EOpenFile path data; ENotifyContext;
                    observe (start cfg) r; EStopNotify] ++ suffix
           /\ (code = 0 <-> r = None) /\ forall e, e ∈ suffix -> starts e = false).
Proof.
  unfold parses.
  intros [(fs & rest & tr' & res & -> & Hr & Hres)|[(-> & -> & ->)|(err & -> & -> & ->)]]%main_reached.
  2, 3: split; [done|left; intros ev; rewrite list_elem_of_singleton; by intros ->].
  assert (Hcode : (code = 0 <-> res = None) /\ (code = 0 \/ code = 1)
    /\ exists suffix, tr = tr' ++ suffix /\ forall e, e ∈ suffix -> starts e = false).
  { destruct res; destruct Hres as [-> ->]; (split; [done|]; split; [auto|]).
    - eexists. split; [done|]. intros ev. rewrite list_elem_of_singleton. by intros ->.
    - exists []. split; [by rewrite app_nil_r|]. by intros e ?%elem_of_nil. }
  destruct Hcode as (Hcode & H01 & suffix & -> & Hsuf). split; [done|].
  inversion Hr; subst.
  4: right; eauto 12.
  all: left; intros ev; rewrite elem_of_app, !elem_of_cons, elem_of_nil;
    intros [He|He]; [destruct_or! He; by subst|auto].
Qed.
End outcomes.

(** [-check] validates and does nothing else: each command opens the file
    it is given, exits with 0 exactly when the file decodes to a configuration
    that satisfies the specification and with 1 otherwise, and never starts. *)
Theorem check_decides version path debug tr code :
  (runs (server_main version (command_line path debug true false)) tr code ->
     exists data, EOpenFile path data ∈ tr /\ (code = 0 \/ code = 1)
       /\ (forall e, e ∈ tr -> starts e = false)
       /\ (code = 0 <-> exists text v, data = Ok text
             /\ decode_into Server_fields text zero_Server = Ok v /\ valid_server (default_kcp v)))
  /\ (runs (client_main version (command_line path debug true false)) tr code ->
     exists data, EOpenFile path data ∈ tr /\ (code = 0 \/ code = 1)
       /\ (forall e, e ∈ tr -> starts e = false)
       /\ (code = 0 <-> exists text v, data = Ok text
             /\ decode_into Client_fields text zero_Client = Ok v
             /\ valid_client (default_cert path v))).
Proof.
  split; intros (level & data & Hcode & Hiff & last & -> & Hlast)%check_main; exists data.
  all: split; [set_solver|]; split; [done|]; split.
  1, 3: intros e; rewrite !elem_of_cons, elem_of_nil; intros He; destruct_or! He; subst;
    destruct Hlast as [->|[err ->]] || idtac; done.
  all: rewrite Hiff.
  - setoid_rewrite LoadServer_spec. naive_solver.
  - setoid_rewrite LoadClient_spec. naive_solver.
Qed.

(** C20: Whatever the arguments, a command starts only with a configuration that
    satisfies the specification, after its signal handler is installed, and
    then exits with 0 exactly when it returned no error.  A command line it
    cannot parse exits with 2, and one that asks for help with 0, and neither
    does anything but show the usage; any other exits with 0 or 1. *)
Theorem commands_start_validated version args tr code :
  (runs (server_main version args) tr code ->
     (forall cfg r, ERunServer cfg r ∈ tr ->
        valid_server cfg /\ (code = 0 <-> r = None)
        /\ exists level path text rest, tr = [ESetDefaultLogger level; EOpenFile path (Ok text);
             ENotifyContext; ERunServer cfg r; EStopNotify] ++ rest)
     /\ parses (run_flags "server_config.json") args code tr)
  /\ (runs (client_main version args) tr code ->
     (forall cfg r, ERunClient cfg r ∈ tr ->
        valid_client cfg /\ (code = 0 <-> r = None)
        /\ exists level path text rest, tr = [ESetDefaultLogger level; EOpenFile path (Ok text);
             ENotifyContext; ERunClient cfg r; EStopNotify] ++ rest)
     /\ parses (run_flags "client_config.json") args code tr).
Proof.
  split; intros [Hcode Hst]%main_started; (split; [|done]); intros cfg r Hin.
  all: destruct Hst as [Hq|(level & path & data & cfg' & r' & suffix & Hl & -> & H0 & Hq)];
    [by apply Hq in Hin|].
  all: apply elem_of_app in Hin as [Hin|Hin]; [|by apply Hq in Hin].
  all: rewrite !elem_of_cons, elem_of_nil in Hin; destruct_or! Hin; try discriminate.
  all: cbn in Hin; injection Hin as <- <-.
  - pose proof Hl as (text & v & -> & _ & _ & Hv)%LoadServer_spec. eauto 10.
  - pose proof Hl as (text & v & -> & _ & _ & Hv)%LoadClient_spec. eauto 10.
Qed.

(** ** Witnesses *)

(** A process whose configuration file has this content. *)
Definition process (content : result bytes) (X : Type) (e : procE X) (s : unit) : X * unit :=
  (match e in procE X return X with
   | Println _ | Eprintln _ _ | Usage _ | SetDefaultLogger _ | NotifyContext | StopNotify => tt
   | OpenFile _ => content
   | RunServer _ | RunClient _ | RunGenerate _ _ => None
   end, s).

Definition legacy_file : result bytes := Ok (bytes_of_text (json_text legacy_body)).
Definition check_legacy : prog procE Z :=
  server_main "dev" (command_line "/c.json" false true false).
Definition run_legacy : prog procE Z := server_main "dev" ["--config"; "/c.json"].

Lemma process_runs content (p : prog procE Z) :
  runs p (run (process content) p tt).2 (run (process content) p tt).1.1.
Proof. by apply run_runs. Qed.

Lemma check_decides_witness :
  (run (process legacy_file) check_legacy tt).1.1 = 0
  /\ exists data, EOpenFile "/c.json" data ∈ (run (process legacy_file) check_legacy tt).2.
Proof.
  split; [vm_compute; reflexivity|].
  destruct (proj1 (check_decides "dev" "/c.json" false _ _) (process_runs legacy_file check_legacy))
    as (data & Hin & _).
  exists data. exact Hin.
Defined.

Lemma commands_start_validated_witness :
  exists cfg, ERunServer cfg None ∈ (run (process legacy_file) run_legacy tt).2 /\ valid_server cfg.
Proof.
  exists (mkServer "8080" "8081" TCP "127.0.0.1:10085" test_token "" "" "" (Some DefaultKCP)).
  assert (Hin : ERunServer (mkServer "8080" "8081" TCP "127.0.0.1:10085" test_token "" "" ""
    (Some DefaultKCP)) None ∈ (run (process legacy_file) run_legacy tt).2).
  { vm_compute. do 3 apply list_elem_of_further. apply list_elem_of_here. }
  split; [exact Hin|].
  destruct (proj1 (commands_start_validated "dev" _ _ _) (process_runs legacy_file run_legacy))
    as [H _].
  exact (proj1 (H _ _ Hin)).
Defined.
