(* ===== verification/NetUtil.v ===== *)
(** * Package [netutil]: the accept loop (src/internal/netutil/accept.go)

    [AcceptLoop] as a function of what each iteration observes: the result of
    [Accept], whether the context is done, which case of the [select] fires.
    [Pipe.v] models the other half of the package. *)

From S2P Require Import Prelude GoLib.

Local Open Scope Z_scope.

Definition minAcceptDelay : Z := 5 * Millisecond.
Definition maxAcceptDelay : Z := Second.

(** [net.ErrClosed]. *)
Definition ErrClosed : string := "net.ErrClosed".

(** One iteration's observations. *)
Inductive accept_result : Type :=
| Accepted (c : nat)
| AcceptError (err : error) (ctx_done : bool) (timer_fired : bool).

(** What the loop does. *)
Inductive accept_action : Type :=
| HandleConn (c : nat)      (* go handle(conn) *)
| Wait (delay : Z).         (* select on time.After(delay) and ctx.Done() *)

(** [delay = min(max(2*delay, minAcceptDelay), maxAcceptDelay)] in int64. *)
Definition next_delay (delay : Z) : Z :=
  Z.min (Z.max (int64_wrap (2 * delay)) minAcceptDelay) maxAcceptDelay.

(** One iteration: the actions, and the next delay or [None] for [return nil]. *)
Definition accept_step (delay : Z) (r : accept_result) : list accept_action * option Z :=
  match r with
  | AcceptError err ctx_done timer_fired =>
      if ctx_done || errors_Is err ErrClosed then ([], None)
      else
        let delay := next_delay delay in
        ([Wait delay], if timer_fired then Some delay else None)
  | Accepted c => ([HandleConn c], Some 0)
  end.

(** The loop over the observations of its iterations; [Some d]: still running
    with delay [d] when they end; [None]: it has returned nil. *)
Fixpoint accept_loop (delay : Z) (rs : list accept_result) : list accept_action * option Z :=
  match rs with
  | [] => ([], Some delay)
  | r :: rs =>
      match accept_step delay r with
      | (acts, None) => (acts, None)
      | (acts, Some delay') =>
          let '(acts', final) := accept_loop delay' rs in (acts ++ acts', final)
      end
  end.

Definition AcceptLoop : list accept_result -> list accept_action * option Z := accept_loop 0.

(** ** Lemmas *)

(** The delays the loop can hold. *)
Definition delay_ok (d : Z) : Prop := d = 0 \/ minAcceptDelay <= d <= maxAcceptDelay.

Lemma next_delay_double d :
  delay_ok d -> next_delay d = Z.min (Z.max (2 * d) minAcceptDelay) maxAcceptDelay.
Proof.
  unfold delay_ok, next_delay, minAcceptDelay, maxAcceptDelay, Millisecond, Second. intros Hd.
  rewrite int64_wrap_id; [done|]. unfold int64, min_int64, max_int64. lia.
Qed.

Lemma next_delay_ok d : minAcceptDelay <= next_delay d <= maxAcceptDelay.
Proof.
  unfold next_delay, minAcceptDelay, maxAcceptDelay, Millisecond, Second. lia.
Qed.

(** The i-th delay of a streak of errors. *)
Definition streak_delay (i : nat) : Z := Z.min (minAcceptDelay * 2 ^ Z.of_nat i) maxAcceptDelay.

Lemma streak_delay_ok i : delay_ok (streak_delay i).
Proof.
  right. unfold streak_delay, minAcceptDelay, maxAcceptDelay, Millisecond, Second.
  assert (1 <= 2 ^ Z.of_nat i) by (apply (Z.pow_le_mono_r 2 0); lia). lia.
Qed.

Lemma next_delay_0 : next_delay 0 = streak_delay 0.
Proof. reflexivity. Qed.

Lemma next_delay_streak i : next_delay (streak_delay i) = streak_delay (S i).
Proof.
  rewrite next_delay_double by apply streak_delay_ok.
  unfold streak_delay. rewrite Nat2Z.inj_succ, Z.pow_succ_r by lia.
  unfold minAcceptDelay, maxAcceptDelay, Millisecond, Second.
  assert (1 <= 2 ^ Z.of_nat i) by (apply (Z.pow_le_mono_r 2 0); lia). lia.
Qed.

Definition transient (r : accept_result) : Prop :=
  match r with
  | AcceptError err ctx_done timer_fired =>
      ctx_done = false /\ errors_Is err ErrClosed = false /\ timer_fired = true
  | Accepted _ => False
  end.

Lemma accept_loop_streak i rs :
  Forall transient rs ->
  accept_loop (streak_delay i) rs
  = (map (fun j => Wait (streak_delay j)) (seq (S i) (length rs)),
     Some (streak_delay (i + length rs))).
Proof.
  intros Hrs. revert i. induction Hrs as [|r rs Hr Hrs IH]; intros i; simpl.
  - by rewrite Nat.add_0_r.
  - destruct r as [c|err d t]; [done|]. destruct Hr as (-> & Herr & ->).
    simpl. rewrite Herr. simpl. rewrite next_delay_streak, IH. simpl.
    by rewrite Nat.add_succ_r.
Qed.

(** A streak of [n] transient accept errors (context live, listener open)
    never ends the loop, and its waits back off exponentially from 5ms,
    doubling up to 1s, without any overflow of the 64-bit duration. *)
Theorem accept_backoff rs :
  Forall transient rs ->
  (AcceptLoop rs).1
  = map (fun i => Wait (Z.min (5 * Millisecond * 2 ^ Z.of_nat i) Second)) (seq 0 (length rs))
  /\ (AcceptLoop rs).2 <> None.
Proof.
  intros [|r rs' Hr Hrs]; [done|]. unfold AcceptLoop. destruct r as [c|err d t]; [done|].
  destruct Hr as (-> & Herr & ->). simpl. rewrite Herr. simpl.
  rewrite next_delay_0, accept_loop_streak by done. done.
Qed.

(** The connections of a list of observations, up to the one that returns. *)
Fixpoint served (rs : list accept_result) : list nat :=
  match rs with
  | [] => []
  | Accepted c :: rs => c :: served rs
  | AcceptError err ctx_done timer_fired :: rs =>
      if ctx_done || errors_Is err ErrClosed || negb timer_fired then [] else served rs
  end.

Definition handled (acts : list accept_action) : list nat :=
  omap (fun a => match a with HandleConn c => Some c | Wait _ => None end) acts.

Lemma accept_loop_handled d rs : handled (accept_loop d rs).1 = served rs.
Proof.
  revert d. induction rs as [|r rs IH]; intros d; [done|]. destruct r as [c|err cd t]; simpl.
  - specialize (IH 0). destruct (accept_loop 0 rs). simpl in *. by rewrite IH.
  - destruct (cd || errors_Is err ErrClosed); simpl; [done|].
    destruct t; simpl; [|done]. specialize (IH (next_delay d)).
    destruct (accept_loop (next_delay d) rs). done.
Qed.

(** One more iteration of a loop that is still running. *)
Lemma accept_loop_snoc d rs r :
  accept_loop d (rs ++ [r])
  = match accept_loop d rs with
    | (acts, Some d') => let '(acts', final) := accept_step d' r in (acts ++ acts', final)
    | (acts, None) => (acts, None)
    end.
Proof.
  revert d. induction rs as [|r' rs IH]; intros d; simpl.
  - destruct (accept_step d r) as [acts [d'|]]; by rewrite ?app_nil_r.
  - destruct (accept_step d r') as [acts [d'|]]; [|done]. rewrite IH.
    destruct (accept_loop d' rs) as [acts' [d''|]]; [|done].
    destruct (accept_step d'' r). by rewrite (assoc_L (++)).
Qed.

(** The errors since the last connection that was accepted. *)
Definition streak (rs : list accept_result) : nat :=
  foldl (fun k r => match r with Accepted _ => O | AcceptError _ _ _ => S k end) O rs.

(** The delay a running loop holds: that of the last error of the streak. *)
Lemma accept_loop_delay rs d :
  (AcceptLoop rs).2 = Some d -> d = match streak rs with O => 0 | S k => streak_delay k end.
Proof.
  unfold AcceptLoop. revert d. induction rs as [|r rs IH] using rev_ind; intros d; [by intros [= <-]|].
  rewrite accept_loop_snoc. unfold streak. rewrite foldl_app. fold (streak rs). simpl.
  destruct (accept_loop 0 rs) as [acts [d0|]]; [|done]. specialize (IH _ eq_refl).
  destruct r as [c|err cd t]; simpl; [by intros [= <-]|].
  destruct (cd || errors_Is err ErrClosed); [done|]. destruct t; [|done]. intros [= <-]. subst d0.
  destruct (streak rs); [apply next_delay_0|apply next_delay_streak].
Qed.

(** What makes an iteration return. *)
Definition ends (r : accept_result) : bool :=
  match r with
  | Accepted _ => false
  | AcceptError err ctx_done timer_fired => ctx_done || errors_Is err ErrClosed || negb timer_fired
  end.

Lemma accept_loop_returned d rs :
  (accept_loop d rs).2 = None <-> exists r, r ∈ rs /\ ends r = true.
Proof.
  revert d. induction rs as [|r rs IH]; intros d; simpl.
  { split; [done|]. by intros (r & ?%elem_of_nil & _). }
  destruct (accept_step d r) as [acts [d'|]] eqn:E.
  - specialize (IH d'). destruct (accept_loop d' rs) as [acts' f]. simpl in *. rewrite IH.
    assert (Hr : ends r = false).
    { destruct r as [c|err cd t]; [done|]. simpl in *.
      destruct (cd || errors_Is err ErrClosed); [done|]. by destruct t. }
    split; intros (r' & Hin & He); exists r'; (split; [|done]).
    + by apply list_elem_of_further.
    + apply elem_of_cons in Hin as [->|Hin]; [congruence|done].
  - split; [|done]. intros _. exists r. split; [by apply list_elem_of_here|].
    destruct r as [c|err cd t]; [done|]. simpl in *.
    destruct (cd || errors_Is err ErrClosed); [done|]. by destruct t.
Qed.

(** C28: Whatever [Accept] returns, every accepted connection is handed to the
    handler exactly once and in order, up to the iteration that returns.  The
    loop returns exactly when, on an error, the context is done or the
    listener is closed, or when the context ends the wait.  On every other
    error of a running loop it waits once, for 5ms times two to the number of
    errors since the last accepted connection, at most 1s: it neither spins
    nor stays slow after it has recovered. *)
Theorem accept_loop_serves_all rs :
  handled (AcceptLoop rs).1 = served rs
  /\ ((AcceptLoop rs).2 = None <->
      exists err ctx_done timer_fired, AcceptError err ctx_done timer_fired ∈ rs
        /\ (ctx_done = true \/ errors_Is err ErrClosed = true \/ timer_fired = false))
  /\ (forall err timer_fired, (AcceptLoop rs).2 <> None -> errors_Is err ErrClosed = false ->
      (AcceptLoop (rs ++ [AcceptError err false timer_fired])).1
      = (AcceptLoop rs).1 ++ [Wait (Z.min (5 * Millisecond * 2 ^ Z.of_nat (streak rs)) Second)]).
Proof.
  split; [apply accept_loop_handled|]. split.
  - unfold AcceptLoop. rewrite accept_loop_returned. split.
    + intros ([c|err cd t] & Hin & He); [done|]. exists err, cd, t. split; [done|]. simpl in He.
      destruct cd, (errors_Is err ErrClosed), t; auto.
    + intros (err & cd & t & Hin & He). exists (AcceptError err cd t). split; [done|]. simpl.
      destruct He as [->|[->| ->]]; simpl; rewrite ?orb_true_r; done.
  - intros err t Hrun Herr. pose proof (accept_loop_delay rs) as Hd. unfold AcceptLoop in *.
    rewrite accept_loop_snoc. destruct (accept_loop 0 rs) as [acts [d|]]; [|done].
    specialize (Hd d eq_refl). simpl in *. rewrite Herr. simpl. f_equal. subst d.
    destruct (streak rs); [by rewrite next_delay_0|by rewrite next_delay_streak].
Qed.

(** ** Witness *)

Definition emfile : accept_result := AcceptError (Sentinel "EMFILE") false true.

Lemma accept_backoff_witness :
  Forall transient (replicate 3 emfile)
  /\ (AcceptLoop (replicate 3 emfile)).1
     = [Wait (5 * Millisecond); Wait (10 * Millisecond); Wait (20 * Millisecond)].
Proof.
  assert (H : Forall transient (replicate 3 emfile)) by (repeat constructor).
  split; [exact H|]. destruct (accept_backoff _ H) as [E _]. rewrite E. reflexivity.
Defined.
