(* ===== verification/Pipe.v ===== *)
(** * Package [netutil]: relaying two connections (src/internal/netutil/pipe.go)

    [Pipe(a, b)] with its two [copyHalf] goroutines as a labelled transition
    system: peers send and finish, the goroutines read, write and shut down,
    the caller waits for both and closes both ends.  Theorems: no byte is
    altered, reordered or invented; with half-close on both ends nothing is
    lost; once both peers have finished the relay is never stuck before it has
    returned with both ends closed, and its steps are bounded. *)

From S2P Require Import Prelude Lts GoLib.

(** The two ends, and the two directions of the relay. *)
Inductive side : Type := EndA | EndB.
Inductive dir : Type := AB | BA.

#[export] Instance side_eq_decision : EqDecision side.
Proof. solve_decision. Defined.
#[export] Instance dir_eq_decision : EqDecision dir.
Proof. solve_decision. Defined.

Definition src (d : dir) : side := match d with AB => EndA | BA => EndB end.
Definition dst (d : dir) : side := match d with AB => EndB | BA => EndA end.

(** A connection as [Pipe] sees it: bytes received and not read yet, whether
    its peer has finished, the bytes read so far, the bytes written and
    accepted, whether its write side or all of it is closed, and whether it
    implements [closeWriter]. *)
Record endc : Type := mkEndc {
  avail : bytes;
  eof : bool;
  got : bytes;
  out : bytes;
  wshut : bool;
  shut : bool;
  hasCloseWrite : bool;
}.

(** Where a [copyHalf] is: in [src.Read], in [dst.Write] with a chunk, past the
    copy (before [CloseWrite] or [Close]), returned. *)
Inductive half : Type :=
| Reading
| Writing (chunk : bytes)
| Closing
| HalfDone.

(** Where [Pipe] is: until [<-done], between the two deferred [Close], returned. *)
Inductive caller : Type := Joining | ClosedB | Returned.

#[export] Instance caller_eq_decision : EqDecision caller.
Proof. solve_decision. Defined.

Record pipe : Type := mkPipe {
  ea : endc;
  eb : endc;
  hab : half;
  hba : half;
  failed_ab : bool;   (* the copy ended by an error, not by EOF *)
  failed_ba : bool;
  main : caller;
}.

Definition end_of (s : side) (p : pipe) : endc := match s with EndA => ea p | EndB => eb p end.
Definition half_of (d : dir) (p : pipe) : half := match d with AB => hab p | BA => hba p end.
Definition failed (d : dir) (p : pipe) : bool :=
  match d with AB => failed_ab p | BA => failed_ba p end.

Definition set_end (s : side) (e : endc) (p : pipe) : pipe :=
  let '(mkPipe ea eb hab hba fab fba m) := p in
  match s with EndA => mkPipe e eb hab hba fab fba m | EndB => mkPipe ea e hab hba fab fba m end.
Definition set_half (d : dir) (h : half) (p : pipe) : pipe :=
  let '(mkPipe ea eb hab hba fab fba m) := p in
  match d with AB => mkPipe ea eb h hba fab fba m | BA => mkPipe ea eb hab h fab fba m end.
Definition set_failed (d : dir) (p : pipe) : pipe :=
  let '(mkPipe ea eb hab hba fab fba m) := p in
  match d with AB => mkPipe ea eb hab hba true fba m | BA => mkPipe ea eb hab hba fab true m end.
Definition set_main (m : caller) (p : pipe) : pipe :=
  let '(mkPipe ea eb hab hba fab fba _) := p in mkPipe ea eb hab hba fab fba m.

Definition receive (bs : bytes) (e : endc) : endc :=
  mkEndc (avail e ++ bs) (eof e) (got e) (out e) (wshut e) (shut e) (hasCloseWrite e).
Definition finish_peer (e : endc) : endc :=
  mkEndc (avail e) true (got e) (out e) (wshut e) (shut e) (hasCloseWrite e).
Definition take_read (n : nat) (e : endc) : endc :=
  mkEndc (drop n (avail e)) (eof e) (got e ++ take n (avail e)) (out e) (wshut e) (shut e)
    (hasCloseWrite e).
Definition accept_write (bs : bytes) (e : endc) : endc :=
  mkEndc (avail e) (eof e) (got e) (out e ++ bs) (wshut e) (shut e) (hasCloseWrite e).
Definition close_write (e : endc) : endc :=
  mkEndc (avail e) (eof e) (got e) (out e) true (shut e) (hasCloseWrite e).
Definition close (e : endc) : endc :=
  mkEndc (avail e) (eof e) (got e) (out e) (wshut e) true (hasCloseWrite e).

(** The end of [copyHalf]: [dst.CloseWrite()] if [dst] has it, else [dst.Close()]. *)
Definition shutdown (e : endc) : endc := if hasCloseWrite e then close_write e else close e.

(** Nothing more can be written: the peer sees the end of the stream. *)
Definition sealed (e : endc) : bool := shut e || wshut e.

Inductive label : Type :=
| PeerSend (s : side) (bs : bytes)
| PeerFinish (s : side)
| Read (d : dir) (n : nat)     (* n bytes are read from src *)
| ReadEnd (d : dir)            (* src.Read returns EOF, or fails on a closed src *)
| ReadFail (d : dir)           (* src.Read fails *)
| WriteChunk (d : dir)         (* dst.Write accepts the chunk *)
| WriteFail (d : dir) (k : nat)   (* dst.Write accepts k bytes and fails *)
| Shutdown (d : dir)
| CloseB                       (* the deferred calls run in reverse order *)
| CloseA.

(** The steps.  A chunk has any size: [io.CopyBuffer] reads up to 32 KiB at a
    time into the pooled buffer, but leaves the copying to [src.WriteTo] or
    [dst.ReadFrom] where there is one, as on TCP connections. *)
Definition pipe_step (l : label) (p : pipe) : option pipe :=
  match l with
  | PeerSend s bs =>
      if eof (end_of s p) then None else Some (set_end s (receive bs (end_of s p)) p)
  | PeerFinish s => Some (set_end s (finish_peer (end_of s p)) p)
  | Read d n =>
      let e := end_of (src d) p in
      match half_of d p with
      | Reading =>
          if bool_decide (0 < n <= length (avail e)) && negb (shut e)
          then Some (set_half d (Writing (take n (avail e))) (set_end (src d) (take_read n e) p))
          else None
      | _ => None
      end
  | ReadEnd d =>
      let e := end_of (src d) p in
      match half_of d p with
      | Reading =>
          if shut e then Some (set_half d Closing (set_failed d p))
          else if eof e && bool_decide (avail e = []) then Some (set_half d Closing p)
          else None
      | _ => None
      end
  | ReadFail d =>
      match half_of d p with
      | Reading => Some (set_half d Closing (set_failed d p))
      | _ => None
      end
  | WriteChunk d =>
      let e := end_of (dst d) p in
      match half_of d p with
      | Writing bs =>
          if sealed e then None
          else Some (set_half d Reading (set_end (dst d) (accept_write bs e) p))
      | _ => None
      end
  | WriteFail d k =>
      let e := end_of (dst d) p in
      match half_of d p with
      | Writing bs =>
          let accepted := if sealed e then [] else take k bs in
          Some (set_half d Closing (set_failed d (set_end (dst d) (accept_write accepted e) p)))
      | _ => None
      end
  | Shutdown d =>
      match half_of d p with
      | Closing =>
          Some (set_half d HalfDone (set_end (dst d) (shutdown (end_of (dst d) p)) p))
      | _ => None
      end
  | CloseB =>
      match hab p, hba p, main p with
      | HalfDone, HalfDone, Joining => Some (set_main ClosedB (set_end EndB (close (eb p)) p))
      | _, _, _ => None
      end
  | CloseA =>
      match main p with
      | ClosedB => Some (set_main Returned (set_end EndA (close (ea p)) p))
      | _ => None
      end
  end.

Abbreviation pipe_run := (steps pipe_step).

Definition new_end (cw : bool) : endc := mkEndc [] false [] [] false false cw.

(** [Pipe(a, b)] as it starts; [cwa], [cwb]: the ends implement [CloseWrite]. *)
Definition Pipe (cwa cwb : bool) : pipe :=
  mkPipe (new_end cwa) (new_end cwb) Reading Reading false false Joining.

(** Everything the peer of an end has sent. *)
Definition arrived (e : endc) : bytes := got e ++ avail e.

(** ** Invariants *)

(** How far direction [d] has got. *)
Definition flow_inv (d : dir) (p : pipe) : Prop :=
  let s := end_of (src d) p in
  let o := out (end_of (dst d) p) in
  match half_of d p with
  | Reading => failed d p = false /\ got s = o
  | Writing bs => failed d p = false /\ got s = o ++ bs
  | _ => if failed d p then o `prefix_of` got s
         else got s = o /\ eof s = true /\ avail s = []
  end.

(** The caller closes nothing before both directions are done. *)
Definition close_inv (p : pipe) : Prop :=
  match main p with
  | Joining => True
  | ClosedB => hab p = HalfDone /\ hba p = HalfDone /\ shut (eb p) = true
  | Returned => hab p = HalfDone /\ hba p = HalfDone /\ shut (ea p) = true /\ shut (eb p) = true
  end.

(** An end with half-close is not closed before that. *)
Definition half_close_inv (p : pipe) : Prop :=
  main p = Joining -> forall s, hasCloseWrite (end_of s p) = true -> shut (end_of s p) = false.

(** The destination of a direction is sealed only by the end of the direction. *)
Definition sealed_inv (d : dir) (p : pipe) : Prop :=
  sealed (end_of (dst d) p) = true -> half_of d p = HalfDone.

(** A finished direction has shut the write side of its destination, by
    [CloseWrite] or by closing it altogether. *)
Definition done_inv (d : dir) (p : pipe) : Prop :=
  half_of d p = HalfDone ->
  let e := end_of (dst d) p in
  if hasCloseWrite e then wshut e = true else shut e = true.

Record pipe_inv (p : pipe) : Prop := {
  inv_flow : forall d, flow_inv d p;
  inv_done : forall d, done_inv d p;
  inv_close : close_inv p;
  inv_half_close : half_close_inv p;
  inv_sealed : forall d, sealed_inv d p;
}.

Lemma Pipe_inv cwa cwb : pipe_inv (Pipe cwa cwb).
Proof. split; try (intros []; by repeat split); [done|by intros _ []]. Qed.

Lemma bytes_end_spec e : eof e && bool_decide (avail e = []) = true <-> eof e = true /\ avail e = [].
Proof. by rewrite andb_true_iff, bool_decide_eq_true. Qed.

(** Take one step apart: the goal is [pipe_step l p = Some p' -> _]. *)
Ltac pipe_cases :=
  unfold pipe_step, end_of, half_of, src, dst, shutdown, sealed; simpl; repeat case_match;
  try discriminate; intros [= <-]; bool_facts; simpl in *; subst; simpl in *.

Lemma step_flow l p p' d : flow_inv d p -> pipe_step l p = Some p' -> flow_inv d p'.
Proof.
  destruct p as [ea eb hab hba fab fba m]. intros Hf.
  destruct l as [s bs|s|d' n|d'|d'|d'|d' k|d'| |]; try destruct s; try destruct d'; destruct d;
    pipe_cases; unfold flow_inv, failed in *; simpl in *.
  all: repeat case_match; simplify_eq/=; destruct_and?; try done; try congruence.
  all: repeat match goal with H : got _ = _ |- _ => rewrite H; clear H end.
  all: try done; rewrite ?app_nil_r.
  all: first [reflexivity | by apply prefix_app_r | apply prefix_app, prefix_take].
Qed.

Lemma step_close l p p' : close_inv p -> pipe_step l p = Some p' -> close_inv p'.
Proof.
  destruct p as [ea eb hab hba fab fba m]. intros Hc.
  destruct l as [s bs|s|d' n|d'|d'|d'|d' k|d'| |]; try destruct s; try destruct d';
    pipe_cases; unfold close_inv in *; simpl in *; try done.
  all: repeat case_match; destruct_and?; simplify_eq/=; try done; split_and?; done.
Qed.

Lemma step_half_close l p p' :
  close_inv p -> half_close_inv p -> pipe_step l p = Some p' -> half_close_inv p'.
Proof.
  destruct p as [ea eb hab hba fab fba m]. intros Hc Hh.
  destruct l as [s bs|s|d' n|d'|d'|d'|d' k|d'| |]; try destruct s; try destruct d';
    pipe_cases; unfold half_close_inv in *; simpl in *; try done.
  all: intros Hm s' Hs; simplify_eq; destruct s'; simpl in *; try congruence;
    first [by apply (Hh eq_refl EndA)|by apply (Hh eq_refl EndB)].
Qed.

Lemma step_sealed l p p' d :
  close_inv p -> sealed_inv d p -> pipe_step l p = Some p' -> sealed_inv d p'.
Proof.
  destruct p as [ea eb hab hba fab fba m]. intros Hc Hw.
  destruct l as [s bs|s|d' n|d'|d'|d'|d' k|d'| |]; try destruct s; try destruct d'; destruct d;
    pipe_cases; unfold sealed_inv, close_inv in *; simpl in *; try done.
  all: intros H'; try (specialize (Hw H')); simplify_eq/=; destruct_and?; done.
Qed.

Lemma step_done l p p' d : done_inv d p -> pipe_step l p = Some p' -> done_inv d p'.
Proof.
  destruct p as [ea eb hab hba fab fba m]. intros Hd.
  destruct l as [s bs|s|d' n|d'|d'|d'|d' k|d'| |]; try destruct s; try destruct d'; destruct d;
    pipe_cases; unfold done_inv in *; simpl in *; try done.
  all: intros H'; try (specialize (Hd H')); try done; repeat case_match; congruence || done.
Qed.

Lemma step_inv l p p' : pipe_inv p -> pipe_step l p = Some p' -> pipe_inv p'.
Proof.
  intros [Hf Hd Hc Hh Hw] Hs.
  split; eauto using step_flow, step_done, step_close, step_half_close, step_sealed.
Qed.

Lemma run_inv ls p p' : pipe_inv p -> pipe_run ls p = Some p' -> pipe_inv p'.
Proof. apply steps_preserve. exact step_inv. Qed.

Lemma Pipe_run_inv cwa cwb ls p : pipe_run ls (Pipe cwa cwb) = Some p -> pipe_inv p.
Proof. apply run_inv, Pipe_inv. Qed.

(** In each direction, what has been written is the beginning of what the
    source's peer sent. *)
Lemma flow_prefix p d :
  pipe_inv p -> out (end_of (dst d) p) `prefix_of` arrived (end_of (src d) p).
Proof.
  intros Hp. pose proof (inv_flow p Hp d) as Hf. unfold flow_inv in Hf.
  apply prefix_app_r.
  destruct (half_of d p); destruct_and?; repeat case_match; destruct_and?; try done.
  all: match goal with H : got _ = _ |- _ => rewrite H end.
  all: try done; by apply prefix_app_r.
Qed.

(** In every reachable state of a relay, in each direction, the bytes
    written to the destination are a prefix of the bytes the source's peer
    sent: nothing is altered, reordered, duplicated or invented. *)
Theorem pipe_integrity cwa cwb ls p d :
  pipe_run ls (Pipe cwa cwb) = Some p ->
  out (end_of (dst d) p) `prefix_of` arrived (end_of (src d) p).
Proof. intros Hp%Pipe_run_inv. by apply flow_prefix. Qed.

(** Runs in which no connection fails. *)
Definition clean (l : label) : Prop :=
  match l with ReadFail _ | WriteFail _ _ => False | _ => True end.

Definition both_half_close (p : pipe) : Prop :=
  hasCloseWrite (ea p) = true /\ hasCloseWrite (eb p) = true.

Lemma step_hasCloseWrite l p p' s :
  pipe_step l p = Some p' -> hasCloseWrite (end_of s p') = hasCloseWrite (end_of s p).
Proof.
  destruct p as [ea eb hab hba fab fba m].
  destruct l as [s' bs|s'|d' n|d'|d'|d'|d' k|d'| |]; try destruct s'; try destruct d'; destruct s;
    pipe_cases; done.
Qed.

Lemma reading_open p d :
  pipe_inv p -> hasCloseWrite (end_of (src d) p) = true -> half_of d p <> HalfDone ->
  shut (end_of (src d) p) = false.
Proof.
  intros [_ _ Hc Hh _] Hcw Hd.
  destruct (main p) eqn:Em; [by apply Hh| |];
    unfold close_inv in Hc; rewrite Em in Hc; destruct d; by destruct_and!.
Qed.

Lemma step_not_failed l p p' :
  pipe_inv p -> both_half_close p -> clean l -> pipe_step l p = Some p' ->
  (forall d, failed d p = false) -> forall d, failed d p' = false.
Proof.
  intros Hp Hcw Hl Hs Hf d. specialize (Hf d). revert Hs.
  assert (forall d', half_of d' p = Reading -> shut (end_of (src d') p) = false) as Ho.
  { intros d' Hd'. apply reading_open; [done|destruct d'; apply Hcw|congruence]. }
  pose proof (Ho AB) as HoA. pose proof (Ho BA) as HoB. clear Ho Hp Hcw.
  destruct p as [ea eb hab hba fab fba m].
  destruct l as [s' bs|s'|d' n|d'|d'|d'|d' k|d'| |]; try destruct s'; try destruct d'; destruct d;
    try done; pipe_cases; unfold failed in *; simpl in *; try done.
  all: exfalso; first [specialize (HoA eq_refl)|specialize (HoB eq_refl)]; congruence.
Qed.

Lemma clean_run_not_failed ls p p' :
  pipe_inv p -> both_half_close p -> Forall clean ls -> pipe_run ls p = Some p' ->
  (forall d, failed d p = false) -> forall d, failed d p' = false.
Proof.
  intros Hp Hcw Hls. revert p Hp Hcw. induction Hls as [|l ls Hl Hls IH]; intros p Hp Hcw; simpl.
  - by intros [= <-].
  - destruct (pipe_step l p) as [p1|] eqn:E; [|done]. intros Hr Hf.
    eapply (IH p1); eauto using step_inv, step_not_failed.
    destruct Hcw as [Ha Hb]. split.
    + change (ea p1) with (end_of EndA p1). by rewrite (step_hasCloseWrite _ _ _ EndA E).
    + change (eb p1) with (end_of EndB p1). by rewrite (step_hasCloseWrite _ _ _ EndB E).
Qed.

Lemma done_complete p d :
  pipe_inv p -> half_of d p = HalfDone -> failed d p = false ->
  out (end_of (dst d) p) = arrived (end_of (src d) p) /\ eof (end_of (src d) p) = true.
Proof.
  intros Hp Hd Hf. pose proof (inv_flow p Hp d) as H. unfold flow_inv in H.
  rewrite Hd, Hf in H. destruct H as (Hg & He & Ha). unfold arrived.
  by rewrite Ha, app_nil_r, Hg.
Qed.

Lemma returned_done p d : pipe_inv p -> main p = Returned -> half_of d p = HalfDone.
Proof.
  intros Hp Hm. pose proof (inv_close p Hp) as Hc. unfold close_inv in Hc. rewrite Hm in Hc.
  destruct d; by destruct_and!.
Qed.

(** A direction that ended without an error has delivered everything its
    source's peer sent, up to that peer's end of stream.  And when both ends
    support [CloseWrite] and no connection fails, every direction does: a
    peer that finishes first still receives all of the other's data. *)
Theorem pipe_lossless cwa cwb ls p :
  pipe_run ls (Pipe cwa cwb) = Some p ->
  (forall d, half_of d p = HalfDone -> failed d p = false ->
     out (end_of (dst d) p) = arrived (end_of (src d) p) /\ eof (end_of (src d) p) = true)
  /\ (cwa = true -> cwb = true -> Forall clean ls -> main p = Returned ->
      forall d, out (end_of (dst d) p) = arrived (end_of (src d) p)
                /\ eof (end_of (src d) p) = true).
Proof.
  intros Hr. pose proof (Pipe_run_inv _ _ _ _ Hr) as Hp. split.
  - intros d. by apply done_complete.
  - intros -> -> Hls Hm d. apply done_complete; [done|by apply returned_done|].
    eapply clean_run_not_failed; [apply Pipe_inv|by split|done|done|by intros []].
Qed.

(** ** Termination *)

(** The steps of [Pipe] and its goroutines, as opposed to the peers'. *)
Definition internal (l : label) : Prop :=
  match l with PeerSend _ _ | PeerFinish _ => False | _ => True end.

Definition half_weight (h : half) : nat :=
  match h with Reading => 3 | Writing _ => 4 | Closing => 2 | HalfDone => 1 end.
Definition caller_weight (m : caller) : nat :=
  match m with Joining => 2 | ClosedB => 1 | Returned => 0 end.

(** A bound on the internal steps left: two per byte to read. *)
Definition measure (p : pipe) : nat :=
  2 * length (avail (ea p)) + 2 * length (avail (eb p))
  + half_weight (hab p) + half_weight (hba p) + caller_weight (main p).

Lemma step_measure l p p' :
  internal l -> pipe_step l p = Some p' -> measure p' < measure p.
Proof.
  destruct p as [ea eb hab hba fab fba m]. unfold measure.
  destruct l as [s' bs|s'|d' n|d'|d'|d'|d' k|d'| |]; intros Hl; try destruct s'; try destruct d';
    try done; pipe_cases; repeat case_match; simpl; rewrite ?length_drop; lia.
Qed.

Lemma run_measure ls p p' :
  Forall internal ls -> pipe_run ls p = Some p' -> length ls + measure p' <= measure p.
Proof. apply steps_variant. exact step_measure. Qed.

(** The relay can finish without waiting for a peer: both have finished, or
    one has and neither end supports half-close. *)
Definition can_finish (p : pipe) : Prop :=
  (eof (ea p) = true /\ eof (eb p) = true)
  \/ (hasCloseWrite (ea p) = false /\ hasCloseWrite (eb p) = false
      /\ (eof (ea p) = true \/ eof (eb p) = true)).

Lemma step_can_finish l p p' : can_finish p -> pipe_step l p = Some p' -> can_finish p'.
Proof.
  destruct p as [ea eb hab hba fab fba m].
  destruct l as [s' bs|s'|d' n|d'|d'|d'|d' k|d'| |]; intros Hc; try destruct s'; try destruct d';
    pipe_cases; unfold can_finish in *; simpl in *; naive_solver congruence.
Qed.

(** What the goroutines of the relay do when nothing fails: they read what has
    arrived or its end, write it, shut the destination down, and the caller
    closes both ends. *)
Definition own (l : label) : Prop := internal l /\ clean l.

(** A copying direction can move by itself, without a failure, unless it waits
    for its source's peer. *)
Lemma direction_progress p d :
  pipe_inv p -> half_of d p <> HalfDone ->
  (exists l p', own l /\ pipe_step l p = Some p')
  \/ (half_of d p = Reading /\ eof (end_of (src d) p) = false
      /\ shut (end_of (src d) p) = false).
Proof.
  intros Hp Hd. destruct (half_of d p) as [|bs| |] eqn:E; [| | |done].
  - destruct (shut (end_of (src d) p)) eqn:Es.
    { left. exists (ReadEnd d). eexists. split; [done|]. simpl. by rewrite E, Es. }
    destruct (avail (end_of (src d) p)) as [|b bs] eqn:Ea.
    + destruct (eof (end_of (src d) p)) eqn:Ee; [|by right].
      left. exists (ReadEnd d). eexists. split; [done|]. simpl.
      rewrite E, Es, Ee, Ea. reflexivity.
    + left. exists (Read d 1). eexists. split; [done|]. simpl.
      rewrite E, Es, Ea. rewrite bool_decide_true by (simpl; lia). reflexivity.
  - left. exists (WriteChunk d). eexists. split; [done|]. simpl. rewrite E.
    destruct (sealed (end_of (dst d) p)) eqn:Hs; [|done].
    apply (inv_sealed p Hp d) in Hs. congruence.
  - left. exists (Shutdown d). eexists. split; [done|]. simpl. by rewrite E.
Qed.

(** The state of the two directions when neither can move. *)
Lemma progress p :
  pipe_inv p -> can_finish p -> main p <> Returned ->
  exists l p', own l /\ pipe_step l p = Some p'.
Proof.
  intros Hp Hc Hm.
  assert (forall d, half_of d p = HalfDone \/ (exists l p', own l /\ pipe_step l p = Some p')
    \/ (half_of d p = Reading /\ eof (end_of (src d) p) = false
        /\ shut (end_of (src d) p) = false)) as Hdir.
  { intros d. assert (half_of d p = HalfDone \/ half_of d p <> HalfDone) as [?|Hd]
      by (destruct (half_of d p); auto); [by left|right].
    by apply direction_progress. }
  destruct (Hdir AB) as [Ha|[Ha|(_&Ha&Ha')]], (Hdir BA) as [Hb|[Hb|(_&Hb&Hb')]]; try done.
  - destruct (main p) eqn:Em; [| |done]; simpl in Ha, Hb.
    + exists CloseB. eexists. split; [done|]. simpl. by rewrite Ha, Hb, Em.
    + exists CloseA. eexists. split; [done|]. simpl. by rewrite Em.
  - exfalso. pose proof (inv_done p Hp AB Ha) as H. simpl in *.
    destruct Hc as [[? ?]|(?&Hcw&?)]; [congruence|]. rewrite Hcw in H. congruence.
  - exfalso. pose proof (inv_done p Hp BA Hb) as H. simpl in *.
    destruct Hc as [[? ?]|(Hcw&?&?)]; [congruence|]. rewrite Hcw in H. congruence.
  - exfalso. simpl in *. destruct Hc as [[? ?]|(?&?&[?|?])]; congruence.
Qed.

(** A relay always ends.  From any reachable state the steps of [Pipe]
    itself, failures included, are bounded by [measure], so it never spins; and
    once both peers have finished - or only one, when neither end supports
    half-close - it is not stuck before its return: whatever has happened, it
    can take a step of its own that needs no failure and no peer, and such
    steps take it to its return, with both ends closed. *)
Theorem pipe_terminates cwa cwb ls p :
  pipe_run ls (Pipe cwa cwb) = Some p ->
  (forall ls' p', Forall internal ls' -> pipe_run ls' p = Some p' -> length ls' <= measure p)
  /\ (can_finish p ->
      (main p <> Returned -> exists l p', own l /\ pipe_step l p = Some p')
      /\ exists ls' p', Forall own ls' /\ pipe_run ls' p = Some p'
        /\ main p' = Returned /\ shut (ea p') = true /\ shut (eb p') = true).
Proof.
  intros Hp%Pipe_run_inv. split.
  - intros ls' p' Hi Hr. pose proof (run_measure ls' p p' Hi Hr). lia.
  - intros Hc. split; [by apply progress|].
    destruct (steps_reach pipe_step own (fun p => pipe_inv p /\ can_finish p)
      (fun p => main p = Returned) measure) with p as (ls' & p' & Hi & Hr & [Hp' _] & Hm);
      [|done|].
    { intros q [Hq Hcq]. destruct (decide (main q = Returned)) as [|Hm]; [by left|right].
      destruct (progress q Hq Hcq Hm) as (l & q' & Hl & Hs).
      exists l, q'. pose proof Hl as [Hi _]. eauto 10 using step_inv, step_can_finish, step_measure. }
    exists ls', p'. pose proof (inv_close p' Hp') as H. unfold close_inv in H. rewrite Hm in H.
    by destruct_and!.
Qed.

(** A step, read backwards. *)
Definition enabled (l : label) (p p' : pipe) : Prop :=
  match l with
  | PeerSend s bs => eof (end_of s p) = false /\ p' = set_end s (receive bs (end_of s p)) p
  | PeerFinish s => p' = set_end s (finish_peer (end_of s p)) p
  | Read d n =>
      half_of d p = Reading /\ 0 < n <= length (avail (end_of (src d) p))
      /\ p' = set_half d (Writing (take n (avail (end_of (src d) p))))
                (set_end (src d) (take_read n (end_of (src d) p)) p)
  | ReadEnd d | ReadFail d =>
      half_of d p = Reading
      /\ (p' = set_half d Closing p \/ p' = set_half d Closing (set_failed d p))
  | WriteChunk d => exists bs,
      half_of d p = Writing bs /\ sealed (end_of (dst d) p) = false
      /\ p' = set_half d Reading (set_end (dst d) (accept_write bs (end_of (dst d) p)) p)
  | WriteFail d k => exists bs,
      half_of d p = Writing bs
      /\ p' = set_half d Closing (set_failed d (set_end (dst d)
          (accept_write (if sealed (end_of (dst d) p) then [] else take k bs) (end_of (dst d) p)) p))
  | Shutdown d =>
      half_of d p = Closing
      /\ p' = set_half d HalfDone (set_end (dst d) (shutdown (end_of (dst d) p)) p)
  | CloseB =>
      hab p = HalfDone /\ hba p = HalfDone /\ main p = Joining
      /\ p' = set_main ClosedB (set_end EndB (close (eb p)) p)
  | CloseA => main p = ClosedB /\ p' = set_main Returned (set_end EndA (close (ea p)) p)
  end.

Lemma step_enabled l p p' : pipe_step l p = Some p' -> enabled l p p'.
Proof.
  destruct l as [s bs|s|d n|d|d|d|d k|d| |]; simpl; intros Hs.
  all: repeat case_match; simplify_eq; bool_facts; split_and?; eauto 6; lia.
Qed.

(** ** What the peer of one end sees *)

(** The event is the peer's of end [s]. *)
Definition from_peer (s : side) (l : label) : bool :=
  match l with PeerSend s' _ | PeerFinish s' => bool_decide (s' = s) | _ => false end.

(** What a step writes to the destination of direction [d]. *)
Definition written (d : dir) (l : label) (p : pipe) : bytes :=
  match l, half_of d p with
  | WriteChunk d', Writing bs => if decide (d' = d) then bs else []
  | WriteFail d' k, Writing bs =>
      if decide (d' = d) then if sealed (end_of (dst d) p) then [] else take k bs else []
  | _, _ => []
  end.

Lemma step_arrived l p p' s :
  pipe_step l p = Some p' -> from_peer s l = false ->
  arrived (end_of s p') = arrived (end_of s p) /\ eof (end_of s p') = eof (end_of s p).
Proof.
  destruct p as [ea eb hab hba fab fba m].
  destruct l as [s' bs|s'|d' n|d'|d'|d'|d' k|d'| |]; try destruct s'; try destruct d'; destruct s;
    intros Hs Hp; try discriminate Hp; revert Hs; pipe_cases; try done.
  all: split; [|done]; unfold arrived; simpl; by rewrite <- (assoc_L (++)), take_drop.
Qed.

Lemma step_written l p p' d :
  pipe_step l p = Some p' ->
  out (end_of (dst d) p') = out (end_of (dst d) p) ++ written d l p
  /\ (sealed (end_of (dst d) p) = true ->
      sealed (end_of (dst d) p') = true /\ written d l p = []).
Proof.
  destruct p as [ea eb hab hba fab fba m]. unfold written.
  destruct l as [s' bs|s'|d' n|d'|d'|d'|d' k|d'| |]; try destruct s'; try destruct d'; destruct d;
    pipe_cases; rewrite ?app_nil_r; try done; try (by repeat case_match).
  all: split; [done|]; intros Hw.
  all: repeat match goal with E : shut _ = _ |- _ => rewrite E in * end; by rewrite ?Hw, ?orb_true_r.
Qed.

(** ** Witnesses *)

(** A client sends a request and finishes; the request is relayed, the
    direction is shut down by [CloseWrite]. *)
Definition request : bytes := [Byte.x01; Byte.x02; Byte.x03].
Definition relay_request : list label :=
  [PeerSend EndA request; PeerFinish EndA; Read AB 2; WriteChunk AB; Read AB 1; WriteChunk AB;
   ReadEnd AB; Shutdown AB].

Definition after_request : pipe :=
  match pipe_run relay_request (Pipe true true) with Some p => p | None => Pipe true true end.

Lemma pipe_integrity_witness :
  pipe_run relay_request (Pipe true true) = Some after_request
  /\ out (end_of EndB after_request) `prefix_of` arrived (end_of EndA after_request).
Proof.
  split; [reflexivity|]. exact (pipe_integrity true true relay_request after_request AB eq_refl).
Defined.

Lemma pipe_lossless_witness :
  half_of AB after_request = HalfDone
  /\ out (end_of EndB after_request) = request.
Proof.
  split; [reflexivity|].
  destruct (pipe_lossless true true relay_request after_request eq_refl) as [H _].
  destruct (H AB eq_refl eq_refl) as [E _]. exact E.
Defined.

Lemma pipe_terminates_witness :
  pipe_run relay_request (Pipe true true) = Some after_request
  /\ forall ls' p', Forall internal ls' -> pipe_run ls' after_request = Some p' ->
       length ls' <= measure after_request.
Proof.
  split; [reflexivity|].
  destruct (pipe_terminates true true relay_request after_request eq_refl) as [H _]. exact H.
Defined.
