(* ===== verification/Tunnel.v ===== *)
(** * The tunnel: two relays and the stream between them

    One connection through the tunnel is the client's [Pipe(local, stream)]
    (src/internal/transport/client.go), the server's [Pipe(st, target)]
    (src/internal/transport/server.go) and the stream that joins them, a
    reliable byte stream with the wrapper the protocol gives it
    (src/internal/transport/session.go, wsconn.go).  The composition refines
    one abstract byte channel per direction, whose receiver cannot tell an
    early end from a complete one. *)

From S2P Require Import Prelude Lts GoLib Proto Pipe.

(** ** The ends of a stream *)

(** Whether the stream of a protocol implements [CloseWrite]: [quicStream]
    does, [muxStream] and [wsConn] do not, a [*net.TCPConn] does. *)
Definition stream_closeWriter (p : Name) : bool :=
  if decide (p = QUIC) then true else negb (Mux p || WebSocket p).

(** ** The composition *)

Inductive machine : Type := Client | Server.

#[export] Instance machine_eq_decision : EqDecision machine.
Proof. solve_decision. Defined.

(** The two relays.  What the stream carries is not state of its own: a byte
    written at one end and not arrived at the other is in flight. *)
Record tunnel : Type := mkTunnel { cl : pipe; sv : pipe }.

Definition pipe_at (m : machine) (t : tunnel) : pipe :=
  match m with Client => cl t | Server => sv t end.
Definition set_pipe (m : machine) (p : pipe) (t : tunnel) : tunnel :=
  match m with Client => mkTunnel p (sv t) | Server => mkTunnel (cl t) p end.

(** The relays direction [d] crosses first and last: [AB] leads from the
    application to the target, [BA] back. *)
Definition first (d : dir) : machine := match d with AB => Client | BA => Server end.
Definition last (d : dir) : machine := match d with AB => Server | BA => Client end.

Definition source (d : dir) (t : tunnel) : endc := end_of (src d) (pipe_at (first d) t).
Definition sender (d : dir) (t : tunnel) : endc := end_of (dst d) (pipe_at (first d) t).
Definition receiver (d : dir) (t : tunnel) : endc := end_of (src d) (pipe_at (last d) t).
Definition sink (d : dir) (t : tunnel) : endc := end_of (dst d) (pipe_at (last d) t).

Definition in_flight (d : dir) (t : tunnel) : bytes :=
  drop (length (arrived (receiver d t))) (out (sender d t)).

(** The end of each relay that is the stream. *)
Definition stream_side (m : machine) : side := match m with Client => EndB | Server => EndA end.

Inductive tlabel : Type :=
| On (m : machine) (l : label)     (* a step of a relay, or of the peer outside *)
| Carry (d : dir) (n : nat)        (* the stream delivers n bytes *)
| CarryEnd (d : dir).              (* the stream delivers its end, after all data *)

Definition tunnel_step (l : tlabel) (t : tunnel) : option tunnel :=
  match l with
  | On m l =>
      if from_peer (stream_side m) l then None
      else (fun p => set_pipe m p t) <$> pipe_step l (pipe_at m t)
  | Carry d n =>
      let m := last d in
      if bool_decide (0 < n <= length (in_flight d t)) then
        (fun p => set_pipe m p t)
          <$> pipe_step (PeerSend (src d) (take n (in_flight d t))) (pipe_at m t)
      else None
  | CarryEnd d =>
      let m := last d in
      if sealed (sender d t) && bool_decide (in_flight d t = []) && negb (eof (receiver d t)) then
        (fun p => set_pipe m p t) <$> pipe_step (PeerFinish (src d)) (pipe_at m t)
      else None
  end.

(** [netutil.Pipe(local, stream)] and [netutil.Pipe(st, target)]; the local
    application and the target are TCP connections. *)
Definition new_tunnel (p : Name) : tunnel :=
  mkTunnel (Pipe true (stream_closeWriter p)) (Pipe (stream_closeWriter p) true).

Abbreviation tunnel_run := (steps tunnel_step).

(** ** Invariant *)

(** What has arrived is the beginning of what was written; the end arrives
    only after everything that was written before the sender was sealed. *)
Record link_inv (d : dir) (t : tunnel) : Prop := {
  link_prefix : arrived (receiver d t) `prefix_of` out (sender d t);
  link_end : eof (receiver d t) = true ->
    sealed (sender d t) = true /\ arrived (receiver d t) = out (sender d t);
}.

Record tunnel_inv (t : tunnel) : Prop := {
  tn_pipe : forall m, pipe_inv (pipe_at m t);
  tn_link : forall d, link_inv d t;
}.

Lemma pipe_at_set m m' p t :
  pipe_at m (set_pipe m' p t) = if decide (m = m') then p else pipe_at m t.
Proof. by destruct m, m'. Qed.

Lemma in_flight_prefix d t :
  link_inv d t -> out (sender d t) = arrived (receiver d t) ++ in_flight d t.
Proof.
  intros [[k Hk] _]. unfold in_flight. rewrite Hk at 2. by rewrite drop_app_length.
Qed.

(** A step of the relay that writes to the stream, and one of the relay that
    reads from it. *)
Lemma first_link d l p t :
  link_inv d t -> pipe_step l (pipe_at (first d) t) = Some p -> link_inv d (set_pipe (first d) p t).
Proof.
  intros [Hpre Hend] Hs.
  assert (Hr : receiver d (set_pipe (first d) p t) = receiver d t) by by destruct d.
  assert (Hsd : sender d (set_pipe (first d) p t) = end_of (dst d) p) by by destruct d.
  destruct (step_written _ _ _ d Hs) as [Ho Hseal]. fold (sender d t) in Ho, Hseal.
  split; rewrite Hr, Hsd, Ho.
  - by apply prefix_app_r.
  - intros He. destruct (Hend He) as [Hsl Ha]. destruct (Hseal Hsl) as [? ->].
    by rewrite app_nil_r.
Qed.

Lemma last_link d l p t :
  link_inv d t -> from_peer (src d) l = false -> pipe_step l (pipe_at (last d) t) = Some p ->
  link_inv d (set_pipe (last d) p t).
Proof.
  intros [Hpre Hend] Hp Hs.
  assert (Hr : receiver d (set_pipe (last d) p t) = end_of (src d) p) by by destruct d.
  assert (Hsd : sender d (set_pipe (last d) p t) = sender d t) by by destruct d.
  destruct (step_arrived _ _ _ _ Hs Hp) as [Ha He]. fold (receiver d t) in Ha, He.
  by split; rewrite Hr, Hsd, Ha, ?He.
Qed.

(** What the stream delivers. *)
Lemma carry_link d n p t :
  link_inv d t -> pipe_step (PeerSend (src d) (take n (in_flight d t))) (pipe_at (last d) t) = Some p ->
  link_inv d (set_pipe (last d) p t).
Proof.
  intros Hl Hs. pose proof (in_flight_prefix _ _ Hl) as Hf. destruct Hl as [_ Hend].
  assert (Hsd : sender d (set_pipe (last d) p t) = sender d t) by by destruct d.
  cbn [pipe_step] in Hs. fold (receiver d t) in Hs.
  destruct (eof (receiver d t)) eqn:He; [done|]. injection Hs as <-.
  set (p' := set_end _ _ _) in *.
  assert (Hr : receiver d (set_pipe (last d) p' t)
               = receive (take n (in_flight d t)) (receiver d t)).
  { subst p'. destruct t as [[] []], d; done. }
  split; rewrite Hr, Hsd; unfold arrived in *; simpl; [|by rewrite He].
  rewrite Hf, (assoc_L (++)). rewrite <- (take_drop n (in_flight d t)) at 2.
  rewrite (assoc_L (++)). by apply prefix_app_r.
Qed.

Lemma carry_end_link d p t :
  link_inv d t -> sealed (sender d t) = true -> in_flight d t = [] ->
  pipe_step (PeerFinish (src d)) (pipe_at (last d) t) = Some p ->
  link_inv d (set_pipe (last d) p t).
Proof.
  intros Hl Hseal Hfl Hs. pose proof (in_flight_prefix _ _ Hl) as Hf.
  rewrite Hfl, app_nil_r in Hf.
  assert (Hsd : sender d (set_pipe (last d) p t) = sender d t) by by destruct d.
  cbn [pipe_step] in Hs. fold (receiver d t) in Hs. injection Hs as <-. set (p' := set_end _ _ _) in *.
  assert (Hr : receiver d (set_pipe (last d) p' t) = finish_peer (receiver d t)).
  { subst p'. destruct t as [[] []], d; done. }
  split; rewrite Hr, Hsd; unfold arrived in *; simpl in *; by rewrite Hf.
Qed.

(** The steps of the tunnel, as steps of its relays. *)
Lemma tunnel_step_pipe l t t' :
  tunnel_step l t = Some t' ->
  exists m l' p, pipe_step l' (pipe_at m t) = Some p /\ t' = set_pipe m p t
    /\ match l with
       | On m' l0 => m' = m /\ l0 = l' /\ from_peer (stream_side m) l0 = false
       | Carry d n => m = last d /\ l' = PeerSend (src d) (take n (in_flight d t))
           /\ 0 < n <= length (in_flight d t)
       | CarryEnd d => m = last d /\ l' = PeerFinish (src d)
           /\ sealed (sender d t) = true /\ in_flight d t = [] /\ eof (receiver d t) = false
       end.
Proof.
  destruct l as [m l|d n|d]; unfold tunnel_step.
  - destruct (from_peer _ _) eqn:Hfp; [done|]. intros (p & Hs & ->)%fmap_Some. eauto 10.
  - case_bool_decide; [|done]. intros (p & Hs & ->)%fmap_Some. eauto 10.
  - destruct (sealed _) eqn:Hse; [|done]. case_bool_decide; [|done].
    destruct (eof _) eqn:He; [done|]. intros (p & Hs & ->)%fmap_Some. eauto 10.
Qed.

Lemma other_machine d d' : d <> d' -> last d = first d'.
Proof. by destruct d, d'. Qed.

Lemma tunnel_step_inv l t t' : tunnel_inv t -> tunnel_step l t = Some t' -> tunnel_inv t'.
Proof.
  intros [Hp Hl] (m & l' & p & Hs & -> & Hc)%tunnel_step_pipe.
  split; [intros m'; rewrite pipe_at_set; case_decide; eauto using step_inv|].
  intros d'. destruct (decide (m = first d')) as [->|Hm]; [by eapply first_link|].
  assert (m = last d') as -> by by destruct m, d'.
  destruct l as [m0 l0|d n|d].
  - destruct Hc as (-> & -> & Hfp). eapply last_link; eauto. by destruct d'.
  - destruct Hc as (Hd & -> & _). assert (d' = d) as -> by by destruct d, d'.
    by eapply carry_link.
  - destruct Hc as (Hd & -> & ? & ? & _). assert (d' = d) as -> by by destruct d, d'.
    by eapply carry_end_link.
Qed.

Lemma new_tunnel_inv p : tunnel_inv (new_tunnel p).
Proof. split; [intros []; apply Pipe_inv|]. intros []; split; simpl; done. Qed.

Lemma tunnel_run_inv p ls t : tunnel_run ls (new_tunnel p) = Some t -> tunnel_inv t.
Proof. apply steps_preserve; [exact tunnel_step_inv|apply new_tunnel_inv]. Qed.

(** ** Integrity and delivery *)

(** A direction that ended without an error on either machine has delivered
    everything. *)
Lemma tunnel_complete d t :
  tunnel_inv t -> half_of d (pipe_at (last d) t) = HalfDone ->
  (forall m, failed d (pipe_at m t) = false) ->
  out (sink d t) = arrived (source d t) /\ eof (source d t) = true.
Proof.
  intros [Hp Hl] Hd Hf.
  destruct (done_complete _ _ (Hp (last d)) Hd (Hf _)) as [Ho He].
  destruct (link_end _ _ (Hl d) He) as [Hs Ha].
  destruct (done_complete _ _ (Hp (first d)) (inv_sealed _ (Hp _) d Hs) (Hf _)) as [Ho1 He1].
  split; [|exact He1]. unfold sink. rewrite Ho. unfold receiver in Ha. rewrite Ha. exact Ho1.
Qed.

Lemma tunnel_prefix d t : tunnel_inv t -> out (sink d t) `prefix_of` arrived (source d t).
Proof.
  intros [Hp Hl].
  etrans; [apply (flow_prefix _ d (Hp (last d)))|].
  etrans; [apply (link_prefix _ _ (Hl d))|]. apply (flow_prefix _ d (Hp (first d))).
Qed.

(** At any moment, in each direction, what has come out of the tunnel is a
    prefix of what went in at the other end: through both relays and whatever
    the chunks, no byte is altered, reordered, duplicated or invented. *)
Theorem tunnel_integrity p ls t d :
  tunnel_run ls (new_tunnel p) = Some t ->
  out (sink d t) `prefix_of` arrived (source d t).
Proof. intros Hi%tunnel_run_inv. by apply tunnel_prefix. Qed.

(** Runs in which no connection fails. *)
Definition tunnel_clean (l : tlabel) : Prop :=
  match l with On _ l => clean l | _ => True end.

Definition unbroken (t : tunnel) : Prop :=
  tunnel_inv t
  /\ forall m, both_half_close (pipe_at m t) /\ forall d, failed d (pipe_at m t) = false.

Lemma unbroken_step l t t' :
  tunnel_clean l -> unbroken t -> tunnel_step l t = Some t' -> unbroken t'.
Proof.
  intros Hc [Hi Hu] Hs. split; [by eapply tunnel_step_inv|].
  apply tunnel_step_pipe in Hs as (m & l' & p & Hs & -> & Hl). intros m'.
  rewrite pipe_at_set. case_decide; [subst m'|done].
  destruct (Hu m) as [[Ha Hb] Hf].
  assert (clean l') by (destruct l; destruct_and!; by subst).
  split; [|by eapply step_not_failed; eauto using tn_pipe].
  split.
  - change (ea p) with (end_of EndA p). by rewrite (step_hasCloseWrite _ _ _ EndA Hs).
  - change (eb p) with (end_of EndB p). by rewrite (step_hasCloseWrite _ _ _ EndB Hs).
Qed.

(** C18: A direction that ended without an error has delivered everything sent
    into it, up to its sender's end of stream.  When the stream supports
    half-close (tcp and quic) and no connection fails, both directions have,
    whoever finishes first, once both relays have returned. *)
Theorem tunnel_lossless p ls t :
  tunnel_run ls (new_tunnel p) = Some t ->
  (forall d, half_of d (pipe_at (last d) t) = HalfDone ->
     (forall m, failed d (pipe_at m t) = false) ->
     out (sink d t) = arrived (source d t) /\ eof (source d t) = true)
  /\ (stream_closeWriter p = true -> Forall tunnel_clean ls ->
      (forall m, main (pipe_at m t) = Returned) ->
      forall d, out (sink d t) = arrived (source d t) /\ eof (source d t) = true).
Proof.
  intros Hr. pose proof (tunnel_run_inv _ _ _ Hr) as Hi. split.
  - intros d. by apply tunnel_complete.
  - intros Hcw Hls Hm d.
    assert (unbroken t) as [_ Hu].
    { eapply (steps_invariant tunnel_step tunnel_clean); [exact unbroken_step|done| |done].
      split; [apply new_tunnel_inv|]. unfold new_tunnel. rewrite Hcw.
      intros []; split; try done; by intros []. }
    apply tunnel_complete; [done| |].
    + apply returned_done; [apply Hi|apply Hm].
    + intros m. apply Hu.
Qed.

(** ** Termination *)

Definition tunnel_internal (l : tlabel) : Prop :=
  match l with On _ l => internal l | _ => True end.

(** How much is left to do in direction [d]: a byte has to be read and
    written, carried, and read and written again. *)
Definition chunk_weight (w : nat) (h : half) : nat :=
  half_weight h + match h with Writing bs => w * length bs | _ => 0 end.
Definition flow_weight (d : dir) (t : tunnel) : nat :=
  5 * length (avail (source d t)) + chunk_weight 3 (half_of d (pipe_at (first d) t))
  + 3 * length (in_flight d t) + (if eof (receiver d t) then 0 else 1)
  + 2 * length (avail (receiver d t)) + chunk_weight 0 (half_of d (pipe_at (last d) t)).
Definition tunnel_measure (t : tunnel) : nat :=
  flow_weight AB t + flow_weight BA t
  + caller_weight (main (cl t)) + caller_weight (main (sv t)).

Lemma avail_shutdown e : avail (shutdown e) = avail e.
Proof. unfold shutdown. by destruct (hasCloseWrite e). Qed.

(** What a step of a relay does for direction [d]: [a] and [c] are the weights
    of a byte to read and of a byte to write. *)
Definition concerns (d : dir) (l : label) : nat :=
  match l with
  | Read d' _ | ReadEnd d' | ReadFail d' | WriteChunk d' | WriteFail d' _ | Shutdown d' =>
      if decide (d' = d) then 1 else 0
  | _ => 0
  end.

Lemma step_flow_weight a c l p p' d :
  c + 2 <= a -> internal l -> pipe_step l p = Some p' ->
  a * length (avail (end_of (src d) p')) + chunk_weight c (half_of d p')
    + c * length (written d l p) + concerns d l
  <= a * length (avail (end_of (src d) p)) + chunk_weight c (half_of d p).
Proof.
  intros Hac Hi Hs%step_enabled. unfold written, concerns.
  destruct p as [ea eb hab hba fab fba m].
  destruct l as [s' bs|s'|d' n|d'|d'|d'|d' k|d'| |]; try destruct s'; try destruct d'; destruct d;
    try done; simpl in Hs; open_hyps.
  all: rewrite ?avail_shutdown; try lia; try (by case_match; lia).
  all: unfold chunk_weight; simpl; repeat case_match; rewrite ?length_drop, ?length_take; simpl;
    nia.
Qed.

(** Each internal step of a relay does something for a direction or for its
    caller. *)
Lemma step_concerns l p p' :
  internal l -> pipe_step l p = Some p' ->
  caller_weight (main p') < concerns AB l + concerns BA l + caller_weight (main p).
Proof.
  intros Hi Hs%step_enabled. destruct p as [ea eb hab hba fab fba m].
  destruct l as [s' bs|s'|d' n|d'|d'|d'|d' k|d'| |]; try destruct d'; try done;
    simpl in Hs; open_hyps; lia.
Qed.

Lemma internal_from_peer l s : internal l -> from_peer s l = false.
Proof. by destruct l. Qed.

Lemma on_flow_weight m l p t d :
  internal l -> pipe_step l (pipe_at m t) = Some p ->
  flow_weight d (set_pipe m p t) + concerns d l <= flow_weight d t.
Proof.
  intros Hi Hs. unfold flow_weight, in_flight. destruct (decide (m = first d)) as [->|Hm].
  - pose proof (step_flow_weight 5 3 _ _ _ d ltac:(lia) Hi Hs) as Hw.
    destruct (step_written _ _ _ d Hs) as [Ho _].
    assert (receiver d (set_pipe (first d) p t) = receiver d t
      /\ sender d (set_pipe (first d) p t) = end_of (dst d) p
      /\ source d (set_pipe (first d) p t) = end_of (src d) p
      /\ half_of d (pipe_at (last d) (set_pipe (first d) p t)) = half_of d (pipe_at (last d) t)
      /\ pipe_at (first d) (set_pipe (first d) p t) = p) as (-> & -> & -> & -> & ->)
      by by destruct d.
    rewrite Ho, !length_drop, length_app. unfold source, sender in *. lia.
  - assert (m = last d) as -> by by destruct m, d.
    pose proof (step_flow_weight 2 0 _ _ _ d ltac:(lia) Hi Hs) as Hw.
    destruct (step_arrived _ _ _ (src d) Hs (internal_from_peer _ _ Hi)) as [Ha He].
    assert (receiver d (set_pipe (last d) p t) = end_of (src d) p
      /\ sender d (set_pipe (last d) p t) = sender d t
      /\ source d (set_pipe (last d) p t) = source d t
      /\ half_of d (pipe_at (first d) (set_pipe (last d) p t)) = half_of d (pipe_at (first d) t)
      /\ pipe_at (last d) (set_pipe (last d) p t) = p) as (-> & -> & -> & -> & ->)
      by by destruct d.
    rewrite Ha, He. unfold receiver in *. lia.
Qed.

Lemma tunnel_step_measure l t t' :
  tunnel_internal l -> tunnel_step l t = Some t' -> tunnel_measure t' < tunnel_measure t.
Proof.
  intros Hi (m & l' & p & Hs & -> & Hc)%tunnel_step_pipe. unfold tunnel_measure.
  destruct l as [m0 l0|d n|d]; simpl in Hi.
  - destruct Hc as (-> & -> & _).
    pose proof (on_flow_weight _ _ _ _ AB Hi Hs). pose proof (on_flow_weight _ _ _ _ BA Hi Hs).
    pose proof (step_concerns _ _ _ Hi Hs). destruct m; simpl in *; lia.
  - destruct Hc as (-> & -> & Hn). apply step_enabled in Hs as [_ ->].
    destruct t as [[] []], d; unfold flow_weight, in_flight, arrived, sender, receiver, source in *;
      simpl in *; rewrite ?length_drop, ?length_app, ?length_take, ?length_drop in *; lia.
  - destruct Hc as (-> & -> & _ & _ & He). apply step_enabled in Hs as ->.
    destruct t as [[] []], d; unfold flow_weight, in_flight, arrived, sender, receiver, source in *;
      simpl in *; rewrite He; lia.
Qed.

(** What the relays do when nothing fails, and what the stream carries. *)
Definition tunnel_own (l : tlabel) : Prop :=
  match l with On _ l => own l | _ => True end.

Lemma tunnel_own_internal l : tunnel_own l -> tunnel_internal l.
Proof. destruct l; [by intros [? _]|done..]. Qed.

(** The tunnel can finish without waiting for the application or the target:
    both have. *)
Definition both_finished (t : tunnel) : Prop :=
  eof (source AB t) = true /\ eof (source BA t) = true.

Definition tunnel_over (t : tunnel) : Prop := forall m, main (pipe_at m t) = Returned.

Lemma half_done_dec (h : half) : h = HalfDone \/ h <> HalfDone.
Proof. destruct h; auto. Qed.

Lemma on_progress m l p t :
  own l -> pipe_step l (pipe_at m t) = Some p ->
  exists tl t', tunnel_own tl /\ tunnel_step tl t = Some t'.
Proof.
  intros Hi Hs. exists (On m l), (set_pipe m p t). split; [done|]. simpl.
  destruct Hi. by rewrite internal_from_peer, Hs.
Qed.

(** A direction of the tunnel moves on until both its relays are done. *)
Lemma flow_progress d t :
  tunnel_inv t -> eof (source d t) = true ->
  (forall m, half_of d (pipe_at m t) = HalfDone)
  \/ exists l t', tunnel_own l /\ tunnel_step l t = Some t'.
Proof.
  intros [Hp Hl] He.
  destruct (half_done_dec (half_of d (pipe_at (first d) t))) as [Hf|Hf].
  2: { destruct (direction_progress _ _ (Hp _) Hf) as [(l & p & Hi & Hs)|(_ & Hn & _)].
       - right. by eapply on_progress.
       - unfold source in He. congruence. }
  destruct (half_done_dec (half_of d (pipe_at (last d) t))) as [Hd|Hd].
  { left. intros m. by destruct m, d. }
  destruct (direction_progress _ _ (Hp _) Hd) as [(l & p & Hi & Hs)|(_ & Hn & _)].
  { right. by eapply on_progress. }
  right. fold (receiver d t) in Hn.
  assert (Hseal : sealed (sender d t) = true).
  { pose proof (inv_done _ (Hp (first d)) d Hf) as Hdone. simpl in Hdone. unfold sealed, sender.
    destruct (hasCloseWrite _); rewrite Hdone; [apply orb_true_r|done]. }
  destruct (in_flight d t) as [|b bs] eqn:Hfl.
  - eexists (CarryEnd d), _. split; [done|]. simpl. fold (receiver d t).
    rewrite Hseal, Hfl, Hn. done.
  - eexists (Carry d 1), _. split; [done|]. simpl. fold (receiver d t).
    by rewrite Hfl, Hn.
Qed.

Lemma tunnel_progress t :
  tunnel_inv t -> both_finished t -> tunnel_over t
  \/ exists l t', tunnel_own l /\ tunnel_step l t = Some t'.
Proof.
  intros Hi [HA HB].
  destruct (flow_progress AB t Hi HA) as [DA|?]; [|by right].
  destruct (flow_progress BA t Hi HB) as [DB|?]; [|by right].
  assert (Hm : forall m, main (pipe_at m t) = Returned
    \/ exists l t', tunnel_own l /\ tunnel_step l t = Some t').
  { intros m. specialize (DA m). specialize (DB m). simpl in DA, DB.
    destruct (main (pipe_at m t)) eqn:Em; [right|right|by left].
    - eapply (on_progress m CloseB); [done|]. simpl. by rewrite DA, DB, Em.
    - eapply (on_progress m CloseA); [done|]. simpl. by rewrite Em. }
  destruct (Hm Client) as [?|?]; [|by right]. destruct (Hm Server) as [?|?]; [|by right].
  left. by intros [].
Qed.

Lemma step_eof l p p' s :
  pipe_step l p = Some p' -> eof (end_of s p) = true -> eof (end_of s p') = true.
Proof.
  intros Hs%step_enabled He. destruct p as [ea eb hab hba fab fba m].
  destruct l as [s' bs|s'|d' n|d'|d'|d'|d' k|d'| |]; try destruct s'; try destruct d'; destruct s;
    simpl in Hs; open_hyps; unfold shutdown; try done; by case_match.
Qed.

Lemma tunnel_step_finished l t t' :
  tunnel_step l t = Some t' -> both_finished t -> both_finished t'.
Proof.
  intros (m & l' & p & Hs & -> & _)%tunnel_step_pipe [HA HB].
  unfold both_finished, source. rewrite !pipe_at_set.
  split; case_decide; simplify_eq; eauto using step_eof.
Qed.

(** C19: The tunnel always comes to rest.  From any reachable state the steps
    it can take on its own, failing operations included, are bounded by
    [tunnel_measure].  Once the application and the target have finished it is
    never stuck: whatever has happened, until both relays have returned one of
    them can read what has arrived or its end, write it, shut its destination
    down or close, or the stream can carry something, with no operation
    failing; so every such run of maximal length ends with both relays returned
    and every connection closed, and there is one. *)
Theorem tunnel_terminates p ls t :
  tunnel_run ls (new_tunnel p) = Some t ->
  (forall ls' t', Forall tunnel_internal ls' -> tunnel_run ls' t = Some t' ->
     length ls' <= tunnel_measure t)
  /\ (both_finished t ->
      (forall ls' t', tunnel_run ls' t = Some t' ->
         (exists l t'', tunnel_own l /\ tunnel_step l t' = Some t'')
         \/ (tunnel_over t' /\ forall m s, shut (end_of s (pipe_at m t')) = true))
      /\ exists ls' t', Forall tunnel_own ls' /\ tunnel_run ls' t = Some t' /\ tunnel_over t').
Proof.
  intros Hi%tunnel_run_inv. split.
  { intros ls' t' Hls Hr.
    pose proof (steps_variant _ _ tunnel_measure _ _ _ tunnel_step_measure Hls Hr). lia. }
  intros Hf. split.
  - intros ls' t' Hr.
    destruct (steps_preserve tunnel_step (fun t => tunnel_inv t /\ both_finished t) ls' t t') as [Hi' Hf'];
      [intros ? ? ? [? ?] ?; eauto using tunnel_step_inv, tunnel_step_finished|done|done|].
    destruct (tunnel_progress _ Hi' Hf') as [Hover|?]; [right|by left].
    split; [done|]. intros m s.
    pose proof (inv_close _ (tn_pipe _ Hi' m)) as Hc. unfold close_inv in Hc. rewrite (Hover m) in Hc.
    destruct s; by destruct_and!.
  - destruct (steps_reach tunnel_step tunnel_own (fun t => tunnel_inv t /\ both_finished t)
      tunnel_over tunnel_measure) with t as (ls' & t' & Hls & Hr & _ & Hover); [|done|by exists ls', t'].
    intros u [Hu Hfu]. destruct (tunnel_progress u Hu Hfu) as [|(l & u' & Hl & Hs)]; [by left|].
    right. exists l, u'.
    eauto 10 using tunnel_step_inv, tunnel_step_finished, tunnel_step_measure, tunnel_own_internal.
Qed.

(** ** The abstract channel

    What the application and the target may rely on: in each direction an
    unbounded first-in first-out queue of bytes, then an end of stream.  The
    sink cannot tell why its stream ended.  In a direction that nothing broke
    the end comes after everything the source sent; but a direction is broken
    when a connection fails under it, and, without half-close, as soon as the
    other direction is over: then the end may come early. *)

Record flow : Type := mkFlow { pending : bytes; fin : bool; over : bool; broken : bool }.

Inductive flow_event : Type :=
| FSend (bs : bytes)      (* the source sends *)
| FFinish                 (* the source finishes *)
| FDeliver (bs : bytes)   (* the sink receives *)
| FEnd                    (* the sink sees the end of the stream *)
| FFail                   (* an operation on a connection fails *)
| FCut.                   (* the relay's own shutdown cuts the direction off *)

#[export] Instance flow_event_eq_decision : EqDecision flow_event.
Proof. solve_decision. Defined.

(** One direction; [cut] says whether the other one allows it to be cut. *)
Definition flow_step (cut : bool) (e : flow_event) (f : flow) : option flow :=
  match e with
  | FSend bs =>
      if fin f then None else Some (mkFlow (pending f ++ bs) (fin f) (over f) (broken f))
  | FFinish => Some (mkFlow (pending f) true (over f) (broken f))
  | FDeliver bs =>
      if negb (over f) && bool_decide (bs `prefix_of` pending f)
      then Some (mkFlow (drop (length bs) (pending f)) (fin f) (over f) (broken f)) else None
  | FEnd =>
      if negb (over f) && (broken f || (fin f && bool_decide (pending f = [])))
      then Some (mkFlow (pending f) (fin f) true (broken f)) else None
  | FFail => Some (mkFlow (pending f) (fin f) (over f) true)
  | FCut => if cut then Some (mkFlow (pending f) (fin f) (over f) true) else None
  end.

Record channel : Type := mkChannel { upward : flow; downward : flow; half_close : bool }.

Definition flow_of (d : dir) (c : channel) : flow :=
  match d with AB => upward c | BA => downward c end.
Definition set_flow (d : dir) (f : flow) (c : channel) : channel :=
  match d with
  | AB => mkChannel f (downward c) (half_close c)
  | BA => mkChannel (upward c) f (half_close c)
  end.
Definition other (d : dir) : dir := match d with AB => BA | BA => AB end.

Definition cuttable (d : dir) (c : channel) : bool :=
  negb (half_close c) && (fin (flow_of (other d) c) || broken (flow_of (other d) c)).

Definition channel_step (e : dir * flow_event) (c : channel) : option channel :=
  (fun f => set_flow e.1 f c) <$> flow_step (cuttable e.1 c) e.2 (flow_of e.1 c).

Definition new_flow : flow := mkFlow [] false false false.
Definition new_channel (half_close : bool) : channel := mkChannel new_flow new_flow half_close.

(** Nothing in the trace breaks direction [d]. *)
Definition undisturbed (d : dir) (es : list (dir * flow_event)) : Prop :=
  ((d, FFail) ∉ es) /\ ((d, FCut) ∉ es).

(** What the channel promises of an undisturbed direction. *)
Definition flow_honest (f : flow) : Prop :=
  broken f = false -> over f = true -> fin f = true /\ pending f = [].

Lemma flow_step_honest cut e f f' : flow_step cut e f = Some f' -> flow_honest f -> flow_honest f'.
Proof.
  unfold flow_honest. destruct f as [q fn ov br]. intros Hs Hf. revert Hs.
  destruct e; simpl in *; repeat case_match; intros; simplify_eq/=; try done; bool_facts;
    naive_solver.
Qed.

Lemma flow_of_set d d' f c : flow_of d (set_flow d' f c) = if decide (d = d') then f else flow_of d c.
Proof. by destruct d, d'. Qed.

Lemma channel_step_inv d e c c' :
  channel_step e c = Some c' ->
  half_close c' = half_close c
  /\ (flow_honest (flow_of d c) -> flow_honest (flow_of d c'))
  /\ (e <> (d, FFail) -> e <> (d, FCut) -> broken (flow_of d c') = broken (flow_of d c))
  /\ (half_close c = true -> e <> (d, FCut)).
Proof.
  destruct e as [d' e]. unfold channel_step. cbn [fst snd]. intros (f & Hf & ->)%fmap_Some.
  rewrite flow_of_set. split_and!.
  - by destruct d'.
  - case_decide as Hd; [subst d'|done]. by eapply flow_step_honest.
  - case_decide as Hd; [subst d'|done]. intros H1 H2. revert Hf.
    destruct e; simpl; repeat case_match; intros; simplify_eq; done.
  - intros Hh [= -> ->]. unfold cuttable in Hf. by rewrite Hh in Hf.
Qed.

(** In an undisturbed direction the end of the stream means that everything
    was delivered; and with half-close no direction is ever cut off. *)
Lemma channel_promise d es c h :
  steps channel_step es (new_channel h) = Some c ->
  (undisturbed d es -> over (flow_of d c) = true -> fin (flow_of d c) = true /\ pending (flow_of d c) = [])
  /\ (h = true -> (d, FCut) ∉ es).
Proof.
  assert (Hgen : forall c0, flow_honest (flow_of d c0) -> steps channel_step es c0 = Some c ->
    flow_honest (flow_of d c)
    /\ (undisturbed d es -> broken (flow_of d c) = broken (flow_of d c0))
    /\ (half_close c0 = true -> (d, FCut) ∉ es)).
  { induction es as [|e es IH]; intros c0 Hh; simpl.
    { intros [= ->]. split_and!; [done..|]. intros _. apply not_elem_of_nil. }
    destruct (channel_step e c0) as [c1|] eqn:E; [|done]. intros Hr.
    destruct (channel_step_inv d _ _ _ E) as (E1 & E2 & E3 & E4).
    destruct (IH c1 (E2 Hh) Hr) as (H1 & H2 & H3). split_and!; [done| |].
    - intros [[Hf ?]%not_elem_of_cons [Hc' ?]%not_elem_of_cons].
      rewrite H2 by (split; assumption). apply E3; congruence.
    - intros Hc. rewrite not_elem_of_cons. split; [|apply H3; congruence]. intros He.
      by apply E4 in Hc. }
  assert (Hnew : flow_honest (flow_of d (new_channel h))) by (by destruct d).
  intros Hr. destruct (Hgen _ Hnew Hr) as (H1 & H2 & H3). split.
  - intros Hu. apply H1. rewrite H2 by done. by destruct d.
  - intros ->. by apply H3.
Qed.

(** What a step of the tunnel shows: what the application and the target send,
    what is written to the other one, the shutdown of its connection, and what
    goes wrong on the way. *)
Definition source_events (d : dir) (l : label) : list flow_event :=
  match l with
  | PeerSend s bs => if decide (s = src d) then [FSend bs] else []
  | PeerFinish s => if decide (s = src d) then [FFinish] else []
  | _ => []
  end.
Definition sink_events (d : dir) (l : label) (p : pipe) : list flow_event :=
  match l with
  | WriteChunk d' | WriteFail d' _ => if decide (d' = d) then [FDeliver (written d l p)] else []
  | Shutdown d' => if decide (d' = d) then [FEnd] else []
  | _ => []
  end.
Definition fault_events (d : dir) (l : label) (p : pipe) : list flow_event :=
  match l with
  | ReadFail d' | WriteFail d' _ => if decide (d' = d) then [FFail] else []
  | ReadEnd d' =>         (* reading a connection that this relay has closed *)
      if decide (d' = d) then if shut (end_of (src d) p) then [FCut] else [] else []
  | _ => []
  end.
Definition flow_events (d : dir) (l : tlabel) (t : tunnel) : list flow_event :=
  match l with
  | On m l =>
      (if decide (m = first d) then source_events d l else sink_events d l (pipe_at m t))
      ++ fault_events d l (pipe_at m t)
  | _ => []
  end.
Definition tunnel_events (l : tlabel) (t : tunnel) : list (dir * flow_event) :=
  ((fun e => (AB, e)) <$> flow_events AB l t) ++ ((fun e => (BA, e)) <$> flow_events BA l t).

(** ** The tunnel refines the channel *)

Record flow_sim (d : dir) (t : tunnel) (f : flow) : Prop := {
  sim_pending : arrived (source d t) = out (sink d t) ++ pending f;
  sim_fin : fin f = eof (source d t);
  sim_over : over f = true <-> half_of d (pipe_at (last d) t) = HalfDone;
}.

(** A copy that ended by an error has broken its direction. *)
Definition broken_sim (d : dir) (t : tunnel) (f : flow) : Prop :=
  forall m, failed d (pipe_at m t) = true -> broken f = true.

(** Without half-close between the relays the ends of the stream cannot shut
    one direction alone; the connections to the application and the target
    can. *)
Definition closers (h : bool) (t : tunnel) : Prop :=
  forall m s, hasCloseWrite (end_of s (pipe_at m t)) = (if decide (s = stream_side m) then h else true).

Record channel_sim (t : tunnel) (c : channel) : Prop := {
  sim_inv : tunnel_inv t;
  sim_closers : closers (half_close c) t;
  sim_flow : forall d, flow_sim d t (flow_of d c);
  sim_broken : forall d, broken_sim d t (flow_of d c);
}.

Lemma new_channel_sim p : channel_sim (new_tunnel p) (new_channel (stream_closeWriter p)).
Proof.
  split; [apply new_tunnel_inv|by intros [] []|intros []; by split|]. by intros [] [].
Qed.

Lemma step_half l p p' d :
  pipe_step l p = Some p' ->
  match l with
  | Shutdown d' => if decide (d' = d) then half_of d p = Closing /\ half_of d p' = HalfDone
                   else half_of d p' = half_of d p
  | _ => half_of d p' = HalfDone <-> half_of d p = HalfDone
  end.
Proof.
  intros Hs%step_enabled. destruct p as [ea eb hab hba fab fba m].
  destruct l as [s' bs|s'|d' n|d'|d'|d'|d' k|d'| |]; try destruct s'; try destruct d'; destruct d;
    simpl in Hs; open_hyps; done.
Qed.

Lemma source_sim d l p t f :
  pipe_step l (pipe_at (first d) t) = Some p -> flow_sim d t f ->
  exists f', (forall cut, steps (flow_step cut) (source_events d l) f = Some f')
    /\ flow_sim d (set_pipe (first d) p t) f' /\ broken f' = broken f.
Proof.
  intros Hs [Hp Hf Ho].
  assert (Ht : forall f', arrived (end_of (src d) p) = out (sink d t) ++ pending f' ->
    fin f' = eof (end_of (src d) p) -> over f' = over f ->
    flow_sim d (set_pipe (first d) p t) f').
  { intros f' H1 H2 H3. split; [by destruct d|by destruct d|]. rewrite H3. by destruct d. }
  destruct (from_peer (src d) l) eqn:Hfp.
  - destruct l as [s bs|s| | | | | | | |]; simpl in Hfp; try done; bool_facts; subst s;
      apply step_enabled in Hs; simpl in Hs; simpl; rewrite decide_True by done; simpl.
    + destruct Hs as [He ->]. fold (source d t) in He |- *. rewrite Hf, He.
      eexists. split; [done|]. split; [|done]. apply Ht; [| |done]; unfold arrived; simpl.
      * transitivity (arrived (source d t) ++ bs); [|by rewrite Hp, (assoc_L (++))].
        unfold arrived, source. destruct t as [[] []], d; simpl; by rewrite (assoc_L (++)).
      * unfold source in *. destruct t as [[] []], d; simpl in *; by rewrite He.
    + simpl in Hs. subst p. eexists. split; [done|]. split; [|done]. apply Ht; [|by destruct t as [[] []], d|done].
      unfold arrived, source in *. by destruct t as [[] []], d.
  - assert (source_events d l = []) as ->.
    { destruct l; simpl in *; try done; rewrite decide_False; try done; by intros ->; rewrite bool_decide_true in Hfp. }
    destruct (step_arrived _ _ _ _ Hs Hfp) as [Ha He].
    exists f. split; [done|]. split; [|done]. apply Ht; [by rewrite Ha|by rewrite He|done].
Qed.

Lemma sink_sim d l p t f :
  tunnel_inv t -> tunnel_inv (set_pipe (last d) p t) ->
  pipe_step l (pipe_at (last d) t) = Some p -> flow_sim d t f -> broken_sim d t f ->
  exists f', (forall cut, steps (flow_step cut) (sink_events d l (pipe_at (last d) t)) f = Some f')
    /\ flow_sim d (set_pipe (last d) p t) f' /\ broken f' = broken f.
Proof.
  intros Hi Hi' Hs [Hp Hf Ho] Hb.
  destruct (step_written _ _ _ d Hs) as [Hw _]. fold (sink d t) in Hw.
  pose proof (step_half _ _ _ d Hs) as Hh.
  assert (Ht : forall f', arrived (source d t) = out (end_of (dst d) p) ++ pending f' ->
    fin f' = eof (source d t) -> (over f' = true <-> half_of d p = HalfDone) ->
    flow_sim d (set_pipe (last d) p t) f').
  { intros f' H1 H2 H3. split; by destruct d. }
  assert (Hsrc : source d (set_pipe (last d) p t) = source d t) by by destruct d.
  assert (Hsnk : sink d (set_pipe (last d) p t) = end_of (dst d) p) by by destruct d.
  assert (Hdel : forall bs, written d l (pipe_at (last d) t) = bs -> over f = false ->
    (half_of d p = HalfDone <-> half_of d (pipe_at (last d) t) = HalfDone) ->
    exists f', (forall cut, steps (flow_step cut) [FDeliver bs] f = Some f')
      /\ flow_sim d (set_pipe (last d) p t) f' /\ broken f' = broken f).
  { intros bs <- Hov Hhalf.
    pose proof (tunnel_prefix d _ Hi') as [k Hk]. rewrite Hsrc, Hsnk, Hw, Hp in Hk.
    rewrite <- (assoc_L (++)) in Hk. apply app_inv_head in Hk.
    simpl. rewrite Hov, Hk. simpl. rewrite bool_decide_true by by apply prefix_app_r.
    eexists. split; [done|]. split; [|done]. apply Ht; simpl.
    - by rewrite Hp, Hw, Hk, drop_app_length, (assoc_L (++)).
    - done.
    - rewrite Hhalf, <- Ho. by rewrite Hov. }
  assert (Hidle : written d l (pipe_at (last d) t) = [] ->
    (half_of d p = HalfDone <-> half_of d (pipe_at (last d) t) = HalfDone) ->
    flow_sim d (set_pipe (last d) p t) f).
  { intros Hw0 Hhalf. apply Ht; [|done|by rewrite Hhalf].
    by rewrite Hp, Hw, Hw0, app_nil_r. }
  pose proof (step_enabled _ _ _ Hs) as He.
  assert (Hov : half_of d (pipe_at (last d) t) <> HalfDone -> over f = false).
  { intros Hn. destruct (over f); [|done]. by destruct Hn, Ho; auto. }
  destruct l as [s' bs|s'|d' n|d'|d'|d'|d' k|d'| |]; simpl sink_events.
  all: try (exists f; split; [done|]; split; [by apply Hidle|done]).
  - simpl in He. destruct He as (bs & Hw1 & _). case_decide as Hd.
    + subst d'. apply Hdel; [unfold written; by rewrite Hw1, decide_True by done|apply Hov; congruence|done].
    + exists f. split; [done|]. split; [|done]. apply Hidle; [|done]. unfold written.
      destruct (half_of d _); by rewrite ?decide_False.
  - simpl in He. destruct He as (bs & Hw1 & _). case_decide as Hd.
    + subst d'. apply Hdel; [unfold written; by rewrite Hw1, decide_True by done|apply Hov; congruence|done].
    + exists f. split; [done|]. split; [|done]. apply Hidle; [|done]. unfold written.
      destruct (half_of d _); by rewrite ?decide_False.
  - case_decide as Hd.
    2: { exists f. split; [done|]. split; [|done]. apply Hidle; [done|by rewrite Hh]. }
    subst d'. destruct Hh as [Hc Hdone]. specialize (Hov ltac:(congruence)).
    simpl in Hw. unfold written in Hw. rewrite app_nil_r in Hw.
    assert (Hend : broken f || (fin f && bool_decide (pending f = [])) = true).
    { destruct (broken f) eqn:Hbr; [done|].
      assert (Hfl : forall m, failed d (pipe_at m (set_pipe (last d) p t)) = false).
      { intros m. specialize (Hb m). destruct (failed d (pipe_at m t)) eqn:Hfm;
          [by specialize (Hb eq_refl); congruence|].
        rewrite pipe_at_set. case_decide; [|done]. subst m. simpl in He. destruct He as [_ ->].
        destruct t as [[] []], d; done. }
      destruct (tunnel_complete d _ Hi') as [Hall Heof]; [by destruct d|done|].
      rewrite Hsnk, Hsrc, Hw, Hp in Hall. rewrite Hsrc in Heof. rewrite Hf, Heof.
      apply bool_decide_eq_true, (app_inv_head (out (sink d t))). by rewrite app_nil_r, <- Hall. }
    simpl. rewrite Hov, Hend. eexists. split; [done|]. split; [|done].
    apply Ht; [by rewrite Hp, Hw|done|done].
Qed.

(** A step that goes wrong in direction [d] breaks it; one that reads a
    connection which its own relay has closed does so only without half-close
    and when the other direction is over or broken. *)
Lemma fault_sim d l m p t f c :
  channel_sim t c -> pipe_step l (pipe_at m t) = Some p ->
  broken f = broken (flow_of d c) ->
  exists f', steps (flow_step (cuttable d c)) (fault_events d l (pipe_at m t)) f = Some f'
    /\ pending f' = pending f /\ fin f' = fin f /\ over f' = over f
    /\ broken_sim d (set_pipe m p t) f'.
Proof.
  intros [Hi Hcl Hfl Hbr] Hs Hbf.
  assert (Hkeep : failed d p = failed d (pipe_at m t) -> broken_sim d (set_pipe m p t) f).
  { intros Hk m'. rewrite pipe_at_set, Hbf. case_decide as Hm; [subst m'; rewrite Hk|]; apply Hbr. }
  assert (Hset : forall f', broken f' = true -> broken_sim d (set_pipe m p t) f') by by intros ? ? ?.
  pose proof (step_enabled _ _ _ Hs) as He.
  destruct l as [s bs|s|d' n|d'|d'|d'|d' k|d'| |]; cbn [fault_events]; try case_decide as Hd.
  all: try (exists f; split_and!; [done..|]; apply Hkeep; simpl in He; open_hyps;
            destruct (pipe_at m t); try destruct s; try destruct d'; destruct d; done).
  - subst d'. destruct (shut (end_of (src d) (pipe_at m t))) eqn:Hsh.
    + destruct He as [Hrd _].
      assert (Hcut : cuttable d c = true); [|by exists (mkFlow (pending f) (fin f) (over f) true);
        simpl; rewrite Hcut; split_and!; [..|apply Hset]].
      pose proof (tn_pipe _ Hi m) as Hpi.
      assert (Hcw : hasCloseWrite (end_of (src d) (pipe_at m t)) <> true).
      { intros Hcw. rewrite (reading_open _ _ Hpi Hcw) in Hsh; congruence. }
      rewrite Hcl in Hcw. case_decide as Hside; [|done].
      assert (m = first (other d)) as -> by by destruct m, d.
      assert (Hod : half_of (other d) (pipe_at (first (other d)) t) = HalfDone).
      { apply (inv_sealed _ Hpi). unfold sealed.
        replace (dst (other d)) with (src d) by by destruct d. by rewrite Hsh. }
      pose proof (inv_flow _ Hpi (other d)) as Hfi. unfold flow_inv in Hfi. rewrite Hod in Hfi.
      unfold cuttable. destruct (half_close c); [done|]. simpl.
      destruct (failed (other d) (pipe_at (first (other d)) t)) eqn:Hff.
      * rewrite (Hbr _ _ Hff). apply orb_true_r.
      * destruct Hfi as (_ & Hfi & _). rewrite (sim_fin _ _ _ (Hfl (other d))).
        unfold source. by rewrite Hfi.
    + exists f. split_and!; [done..|]. apply Hkeep. revert Hs. cbn [pipe_step].
      rewrite Hsh. repeat case_match; intros [= <-]; destruct (pipe_at m t), d; done.
  - exists (mkFlow (pending f) (fin f) (over f) true). by split_and!; [..|apply Hset].
  - exists (mkFlow (pending f) (fin f) (over f) true). by split_and!; [..|apply Hset].
Qed.

Lemma flow_sim_ext d t f f' :
  flow_sim d t f -> pending f' = pending f -> fin f' = fin f -> over f' = over f -> flow_sim d t f'.
Proof. intros [H1 H2 H3] E1 E2 E3. split; by rewrite ?E1, ?E2, ?E3. Qed.

(** The steps of a run, as events of one direction. *)
Lemma flow_step_sim d l t t' c :
  channel_sim t c -> tunnel_step l t = Some t' ->
  exists f', steps (flow_step (cuttable d c)) (flow_events d l t) (flow_of d c) = Some f'
    /\ flow_sim d t' f' /\ broken_sim d t' f'.
Proof.
  intros Hsim Hs. pose proof Hsim as [Hi _ Hfl Hbr]. pose proof (tunnel_step_inv _ _ _ Hi Hs) as Hi'.
  apply tunnel_step_pipe in Hs as (m & l' & p & Hs & -> & Hc).
  assert (flow_events d l t
          = (if decide (m = first d) then source_events d l' else sink_events d l' (pipe_at m t))
            ++ fault_events d l' (pipe_at m t)) as ->.
  { destruct l as [m0 l0|d0 n|d0]; simpl.
    - by destruct Hc as (-> & -> & _).
    - destruct Hc as (-> & -> & _). by destruct d, d0.
    - destruct Hc as (-> & -> & _). by destruct d, d0. }
  assert (exists f1, (forall cut, steps (flow_step cut)
      (if decide (m = first d) then source_events d l' else sink_events d l' (pipe_at m t))
      (flow_of d c) = Some f1)
    /\ flow_sim d (set_pipe m p t) f1 /\ broken f1 = broken (flow_of d c)) as (f1 & Hr1 & Hsim1 & Hb1).
  { case_decide as Hm; [subst m; by apply source_sim|].
    assert (m = last d) as -> by by destruct m, d. by apply sink_sim. }
  destruct (fault_sim d l' m p t f1 c Hsim Hs Hb1) as (f2 & Hr2 & E1 & E2 & E3 & Hb2).
  exists f2. split; [apply steps_app; eauto|]. split; [|done]. by eapply flow_sim_ext.
Qed.

Lemma cuttable_set d f c : cuttable d (set_flow d f c) = cuttable d c.
Proof. by destruct d. Qed.

Lemma channel_steps d es c f' :
  steps (flow_step (cuttable d c)) es (flow_of d c) = Some f' ->
  steps channel_step ((fun e => (d, e)) <$> es) c = Some (set_flow d f' c).
Proof.
  revert c. induction es as [|e es IH]; intros c; simpl.
  - intros [= <-]. by destruct c, d.
  - unfold channel_step at 1. cbn [fst snd]. destruct (flow_step _ e _) as [f1|]; [|done]. simpl. intros Hr.
    assert (Hr' : steps (flow_step (cuttable d (set_flow d f1 c))) es (flow_of d (set_flow d f1 c)) = Some f').
    { rewrite cuttable_set. by destruct d. }
    etrans; [exact (IH _ Hr')|]. by destruct d.
Qed.

(** Events of one direction do not undo what allows the other to be cut. *)
Lemma flow_steps_mono cut es f f' :
  steps (flow_step cut) es f = Some f' -> fin f || broken f = true -> fin f' || broken f' = true.
Proof.
  intros Hr Hf. revert Hf Hr. apply (steps_preserve (flow_step cut) (fun f => fin f || broken f = true)).
  intros e g g' Hg Hs. revert Hs. destruct g as [q fn ov br]; simpl in *.
  destruct e; simpl; repeat case_match; intros; simplify_eq/=; try done; apply orb_true_r.
Qed.

Lemma flow_steps_cut cut cut' es f f' :
  (cut = true -> cut' = true) ->
  steps (flow_step cut) es f = Some f' -> steps (flow_step cut') es f = Some f'.
Proof.
  intros Hcut. revert f. induction es as [|e es IH]; intros f; simpl; [done|].
  destruct (flow_step cut e f) as [f1|] eqn:E; [|done]. intros Hr.
  assert (flow_step cut' e f = Some f1) as ->; [|by apply IH].
  destruct e; simpl in *; try done. destruct cut; [by rewrite Hcut|done].
Qed.

Lemma step_closers h m l p t :
  closers h t -> pipe_step l (pipe_at m t) = Some p -> closers h (set_pipe m p t).
Proof.
  intros Hc Hs m' s. rewrite pipe_at_set. case_decide as Hm; [subst m'|apply Hc].
  rewrite (step_hasCloseWrite _ _ _ s Hs). apply Hc.
Qed.

Lemma tunnel_simulation : simulation tunnel_step channel_step tunnel_events channel_sim.
Proof.
  intros l t t' c Hsim Hs.
  destruct (flow_step_sim AB _ _ _ _ Hsim Hs) as (fa & Ha & HA & HAb).
  destruct (flow_step_sim BA _ _ _ _ Hsim Hs) as (fb & Hb & HB & HBb).
  exists (set_flow BA fb (set_flow AB fa c)). split.
  - apply steps_app. eexists. split; [by apply channel_steps|].
    apply channel_steps. revert Hb. apply flow_steps_cut. unfold cuttable. simpl.
    destruct (half_close c); [done|]. simpl. by apply (flow_steps_mono _ _ _ _ Ha).
  - destruct Hsim as [Hi Hcl _ _]. pose proof (tunnel_step_inv _ _ _ Hi Hs) as Hi'.
    split; [done| |by intros []|by intros []].
    apply tunnel_step_pipe in Hs as (m & l' & p & Hs & -> & _). by eapply step_closers.
Qed.

Lemma sealed_over d t c :
  channel_sim t c -> sealed (sink d t) = true <-> over (flow_of d c) = true.
Proof.
  intros [Hi _ Hfl _]. rewrite (sim_over _ _ _ (Hfl d)). split.
  - apply (inv_sealed _ (tn_pipe _ Hi _)).
  - intros Hd. pose proof (inv_done _ (tn_pipe _ Hi (last d)) d Hd) as H. simpl in H.
    unfold sealed, sink. destruct (hasCloseWrite _); rewrite H; [apply orb_true_r|done].
Qed.

(** C5: The tunnel implements the abstract channel: whatever the relays and the
    stream do, what the application and the target send, what is written to
    the other one and the shutdown of its connection are a run of one byte
    queue per direction, in step with the connections themselves.  The sink
    sees one kind of end; it comes early only in a direction in which an
    operation failed, or, over a stream without half-close, which the end of
    the other direction cut off.  In a direction disturbed by neither, an ended
    sink has received everything and its source had finished; and over a
    stream with half-close (tcp and quic) no direction is ever cut off. *)
Theorem tunnel_refines_channel p ls t :
  tunnel_run ls (new_tunnel p) = Some t ->
  let es := shown tunnel_step tunnel_events ls (new_tunnel p) in
  exists c, steps channel_step es (new_channel (stream_closeWriter p)) = Some c
    /\ forall d,
      arrived (source d t) = out (sink d t) ++ pending (flow_of d c)
      /\ eof (source d t) = fin (flow_of d c)
      /\ (sealed (sink d t) = true <-> over (flow_of d c) = true)
      /\ (undisturbed d es -> sealed (sink d t) = true ->
           out (sink d t) = arrived (source d t) /\ eof (source d t) = true)
      /\ (stream_closeWriter p = true -> (d, FCut) ∉ es).
Proof.
  intros Hr es.
  destruct (simulation_run tunnel_step channel_step tunnel_events channel_sim _ _ _ _
    tunnel_simulation (new_channel_sim p) Hr) as (c & Hc & Hsim).
  exists c. split; [done|]. intros d. pose proof (sim_flow _ _ Hsim d) as [Hp Hf _].
  pose proof (sealed_over d t c Hsim) as Hover.
  destruct (channel_promise d es c _ Hc) as [Hprom Hcut].
  split; [exact Hp|]. split; [by symmetry|]. split; [exact Hover|]. split; [|exact Hcut].
  intros Hu Hs. apply Hover in Hs. destruct (Hprom Hu Hs) as [Hfin Hpend].
  rewrite Hp, Hpend, app_nil_r, <- Hf. done.
Qed.

(** ** A reply that is lost *)

(** With a stream that has no [CloseWrite], the client's relay closes the
    whole stream when the application has finished its request: a reply the
    target has already sent, and the server's relay has already written to
    the stream, is lost although no connection fails. *)
Definition ping : bytes := [Byte.x01].
Definition pong : bytes := [Byte.x02].
Definition lost_reply : list tlabel :=
  [On Client (PeerSend EndA ping); On Client (PeerFinish EndA); On Client (Read AB 1);
   On Client (WriteChunk AB); Carry AB 1; On Server (Read AB 1); On Server (WriteChunk AB);
   On Server (PeerSend EndB pong); On Server (PeerFinish EndB); On Server (Read BA 1);
   On Server (WriteChunk BA);                            (* the reply is in flight *)
   On Client (ReadEnd AB); On Client (Shutdown AB);      (* closes the stream *)
   On Client (ReadEnd BA); On Client (Shutdown BA);
   On Server (ReadEnd BA); On Server (Shutdown BA);
   On Client CloseB; On Client CloseA].

Definition after_lost_reply (p : Name) : option tunnel := tunnel_run lost_reply (new_tunnel p).

(** The client's application sees a clean end of its stream, without the
    reply: nothing has failed, the direction was cut off. *)
Lemma mux_half_close_loses_reply :
  Forall tunnel_clean lost_reply
  /\ exists t, after_lost_reply TCPMux = Some t
     /\ main (cl t) = Returned /\ arrived (source BA t) = pong /\ out (sink BA t) = []
     /\ filter (fun e => e.1 = BA) (shown tunnel_step tunnel_events lost_reply (new_tunnel TCPMux))
        = [(BA, FSend pong); (BA, FFinish); (BA, FCut); (BA, FEnd)].
Proof.
  split; [by repeat constructor|]. eexists. split; [vm_compute; reflexivity|].
  split_and!; vm_compute; reflexivity.
Qed.

(** ** Witnesses *)

(** The same exchange over quic, whose streams support half-close: the reply
    arrives and both relays return. *)
Definition exchange : list tlabel :=
  take 11 lost_reply
  ++ [On Client (ReadEnd AB); On Client (Shutdown AB); CarryEnd AB; On Server (ReadEnd AB);
      On Server (Shutdown AB); Carry BA 1; On Client (Read BA 1); On Client (WriteChunk BA);
      On Server (ReadEnd BA); On Server (Shutdown BA); CarryEnd BA; On Client (ReadEnd BA);
      On Client (Shutdown BA); On Client CloseB; On Client CloseA; On Server CloseB;
      On Server CloseA].
Definition after_exchange : tunnel :=
  match tunnel_run exchange (new_tunnel QUIC) with Some t => t | None => new_tunnel QUIC end.

Lemma tunnel_integrity_witness :
  tunnel_run exchange (new_tunnel QUIC) = Some after_exchange
  /\ out (sink AB after_exchange) `prefix_of` arrived (source AB after_exchange).
Proof.
  split; [reflexivity|]. exact (tunnel_integrity QUIC exchange after_exchange AB eq_refl).
Defined.

Lemma tunnel_lossless_witness :
  (forall m, main (pipe_at m after_exchange) = Returned)
  /\ out (sink BA after_exchange) = pong /\ out (sink AB after_exchange) = ping.
Proof.
  assert (H : forall m, main (pipe_at m after_exchange) = Returned) by (intros []; reflexivity).
  split; [exact H|].
  destruct (tunnel_lossless QUIC exchange after_exchange eq_refl) as [_ Hall].
  assert (Hc : Forall tunnel_clean exchange) by (vm_compute; repeat constructor).
  split; [exact (proj1 (Hall eq_refl Hc H BA))|exact (proj1 (Hall eq_refl Hc H AB))].
Defined.

(** After both ends have finished, from the middle of the exchange. *)
Definition midway : tunnel :=
  match tunnel_run (take 11 lost_reply) (new_tunnel QUIC) with Some t => t | None => new_tunnel QUIC end.

Lemma tunnel_terminates_witness :
  both_finished midway
  /\ exists ls' t', Forall tunnel_own ls' /\ tunnel_run ls' midway = Some t' /\ tunnel_over t'.
Proof.
  assert (H : both_finished midway) by (split; reflexivity).
  split; [exact H|].
  destruct (tunnel_terminates QUIC (take 11 lost_reply) midway eq_refl) as [_ Hrun].
  destruct (Hrun H) as [_ Hex]. exact Hex.
Defined.

Lemma tunnel_refines_channel_witness :
  let es := shown tunnel_step tunnel_events exchange (new_tunnel QUIC) in
  tunnel_run exchange (new_tunnel QUIC) = Some after_exchange
  /\ undisturbed BA es /\ sealed (sink BA after_exchange) = true
  /\ out (sink BA after_exchange) = arrived (source BA after_exchange).
Proof.
  intros es. split; [reflexivity|].
  assert (Hu : undisturbed BA es).
  { split; (refine (bool_decide_eq_false_1 _ _); vm_compute; reflexivity). }
  split; [exact Hu|]. split; [reflexivity|].
  destruct (tunnel_refines_channel QUIC exchange after_exchange eq_refl) as (c & _ & Hall).
  destruct (Hall BA) as (_ & _ & _ & Hdel & _). exact (proj1 (Hdel Hu eq_refl)).
Defined.
