(* ===== verification/Session.v ===== *)
(** * Package [transport]: the session dialer (src/internal/transport/session.go)

    [sessionDialer] shares one multiplexed session between all callers of
    [Dial] and replaces it when it dies.  The methods under the mutex are
    atomic functions of the dialer's state; [Dial] is a program over them;
    any number of goroutines run it concurrently, interleaved with [Close]
    and with sessions dying on their own.  [dial_events] is what the methods
    do to sessions: the answers of [isClosed], the [close]s, the connects. *)

From S2P Require Import Prelude Lts GoLib Prog.

(** A [muxSession]: whether [isClosed] reports true, and whether the dialer has
    called [close] on it. *)
Record sess : Type := mkSess { dead : bool; released : bool }.

(** [sessionDialer], with every session it ever connected; a session is its
    index (its pointer). *)
Record dialer : Type := mkDialer {
  sessions : list sess;
  cur : option nat;
  closed : bool;
}.

Definition newSessionDialer : dialer := mkDialer [] None false.

Definition errDialerClosed : error := Sentinel "transport: dialer closed".

Definition isClosed (s : nat) (d : dialer) : bool :=
  match sessions d !! s with Some x => dead x | None => true end.

(** [sess.close()] *)
Definition close_session (s : nat) (d : dialer) : dialer :=
  mkDialer (alter (fun _ => mkSess true true) s (sessions d)) (cur d) (closed d).

Definition set_cur (c : option nat) (d : dialer) : dialer :=
  mkDialer (sessions d) c (closed d).

(** [d.cur.close(); d.cur = nil], if there is a current session. *)
Definition drop_cur (d : dialer) : dialer :=
  match cur d with
  | Some s => set_cur None (close_session s d)
  | None => d
  end.

(** The current session if it is not closed. *)
Definition live_cur (d : dialer) : option nat :=
  match cur d with
  | Some s => if isClosed s d then None else Some s
  | None => None
  end.

(** [session]: [connected] is what [d.connect] would return. *)
Definition session (connected : result unit) (d : dialer) : result nat * dialer :=
  if closed d then (Err errDialerClosed, d)
  else
    match live_cur d with
    | Some s => (Ok s, d)
    | None =>
        let d := drop_cur d in
        match connected with
        | Err e => (Err e, d)
        | Ok _ => (Ok (length (sessions d)),
                   mkDialer (sessions d ++ [mkSess false false])
                     (Some (length (sessions d))) (closed d))
        end
    end.

Definition discard (s : nat) (d : dialer) : dialer :=
  if decide (cur d = Some s) then drop_cur d else d.

(** [Close] *)
Definition Close (d : dialer) : dialer :=
  drop_cur (mkDialer (sessions d) (cur d) true).

(** ** [Dial] *)

Inductive dialE : Type -> Type :=
| Session : dialE (result nat)
| Open (s : nat) : dialE (result nat)
| Discard (s : nat) : dialE unit.

Inductive dial_event : Type :=
| ESession (r : result nat)
| EOpen (s : nat) (r : result nat)
| EDiscard (s : nat).

#[export] Instance dial_Effect : Effect dialE dial_event := {|
  observe := fun X (e : dialE X) =>
    match e in dialE X return X -> dial_event with
    | Session => ESession
    | Open s => EOpen s
    | Discard s => fun _ => EDiscard s
    end;
  contract := fun _ _ _ => True;
|}.

(** Go's [(Stream, error)]. *)
Definition dialed : Type := (option nat * option error)%type.

(** [for range n], with the error of the last failed attempt. *)
Fixpoint dial_loop (n : nat) (lastErr : option error) : prog dialE dialed :=
  match n with
  | O => Ret (None, lastErr)
  | S n =>
      do! r := call Session;
      match r with
      | Err err => Ret (None, Some err)
      | Ok s =>
          do! o := call (Open s);
          match o with
          | Ok stream => Ret (Some stream, None)
          | Err err =>
              run! call (Discard s);
              dial_loop n (Some err)
          end
      end
  end.

Definition Dial : prog dialE dialed := dial_loop 2 None.

(** ** Goroutines *)

Record system : Type := mkSystem {
  dstate : dialer;
  threads : list (prog dialE dialed);
}.

(** What the environment decides in a step: the outcome of [connect] and of
    opening a stream. *)
Record outcome : Type := mkOutcome { connects : result unit; opens : result nat }.

Inductive dial_label : Type :=
| Act (t : nat) (o : outcome)   (* goroutine t performs its next operation *)
| CloseDialer                   (* some goroutine calls Close *)
| Die (s : nat).                (* session s is closed by its peer *)

(** One operation of a goroutine on the shared state. *)
Definition act (o : outcome) (p : prog dialE dialed) (d : dialer)
    : option (prog dialE dialed * dialer) :=
  match p with
  | Ret _ => None
  | Vis e k =>
    match e in dialE X return (X -> prog dialE dialed) -> option (prog dialE dialed * dialer) with
    | Session => fun k => let '(r, d') := session (connects o) d in Some (k r, d')
    | Open _ => fun k => Some (k (opens o), d)
    | Discard s => fun k => Some (k tt, discard s d)
    end k
  end.

Definition die (s : nat) (d : dialer) : dialer :=
  mkDialer (alter (fun x => mkSess true (released x)) s (sessions d)) (cur d) (closed d).

Definition dial_step (l : dial_label) (y : system) : option system :=
  match l with
  | Act t o =>
      match threads y !! t with
      | Some p =>
          match act o p (dstate y) with
          | Some (p', d') => Some (mkSystem d' (<[t := p']> (threads y)))
          | None => None
          end
      | None => None
      end
  | CloseDialer => Some (mkSystem (Close (dstate y)) (threads y))
  | Die s => Some (mkSystem (die s (dstate y)) (threads y))
  end.

Abbreviation dial_run := (steps dial_step).

(** What a step does to the sessions: it asks one whether it is closed, with
    the answer, closes one, or connects a new one. *)
Inductive sess_event : Type :=
| Asks (s : nat) (answer : bool)
| Closes (s : nat)
| Connects (r : result unit).

Definition drop_events (d : dialer) : list sess_event :=
  match cur d with Some s => [Closes s] | None => [] end.
Definition ask_events (d : dialer) : list sess_event :=
  match cur d with Some s => [Asks s (isClosed s d)] | None => [] end.
Definition session_events (connected : result unit) (d : dialer) : list sess_event :=
  if closed d then []
  else ask_events d
       ++ match live_cur d with Some _ => [] | None => drop_events d ++ [Connects connected] end.
Definition discard_events (s : nat) (d : dialer) : list sess_event :=
  if decide (cur d = Some s) then drop_events d else [].

Definition act_events (o : outcome) (p : prog dialE dialed) (d : dialer) : list sess_event :=
  match p with
  | Ret _ => []
  | Vis e _ =>
    match e with
    | Session => session_events (connects o) d
    | Open _ => []
    | Discard s => discard_events s d
    end
  end.

Definition dial_events (l : dial_label) (y : system) : list sess_event :=
  match l with
  | Act t o => match threads y !! t with Some p => act_events o p (dstate y) | None => [] end
  | CloseDialer => drop_events (dstate y)
  | Die _ => []
  end.

(** [n] goroutines about to call [Dial] on a new dialer. *)
Definition start (n : nat) : system := mkSystem newSessionDialer (replicate n Dial).

(** ** Invariants *)

(** Every session that the dialer has not closed is the current one; a closed
    dialer has no current session. *)
Record dialer_inv (d : dialer) : Prop := {
  inv_released : forall s x, sessions d !! s = Some x -> released x = false -> cur d = Some s;
  inv_dead : forall s x, sessions d !! s = Some x -> released x = true -> dead x = true;
  inv_cur : forall s, cur d = Some s -> s < length (sessions d);
  inv_closed : closed d = true -> cur d = None;
}.

(** Looking up a session after one of them was updated. *)
Ltac sess_lookup :=
  repeat match goal with
  | H : alter _ _ _ !! _ = Some _ |- _ => rewrite list_lookup_alter in H; case_decide; subst
  | H : _ <$> _ = Some _ |- _ => apply fmap_Some in H as (? & ? & ->)
  | H : (_ ++ [_]) !! _ = Some _ |- _ =>
      apply lookup_app_Some in H as [H|[? H]];
      [|apply list_lookup_singleton_Some in H as [? <-]]
  end; simpl in *.

Lemma drop_cur_inv d : dialer_inv d -> dialer_inv (drop_cur d) /\ cur (drop_cur d) = None.
Proof.
  intros Hinv. unfold drop_cur, set_cur, close_session.
  destruct (cur d) as [s|] eqn:E; [|done]. destruct Hinv as [Hr Hd Hc Hcl].
  split; [|done]. split; simpl; try done.
  - intros s' x Hx Hrel. sess_lookup; [done|]. specialize (Hr _ _ Hx Hrel). congruence.
  - intros s' x Hx Hrel. sess_lookup; [done|]. by eapply Hd.
Qed.

Lemma session_inv connected d : dialer_inv d -> dialer_inv (session connected d).2.
Proof.
  intros Hd. unfold session. destruct (closed d) eqn:Ecl; [done|].
  destruct (live_cur d); [done|]. destruct (drop_cur_inv d Hd) as [[Hr Hde Hc Hcl] Hn].
  destruct connected as [_|e]; simpl; [|done]. split; simpl.
  - intros s x Hx Hrel. sess_lookup; [specialize (Hr _ _ Hx Hrel); congruence|].
    f_equal. lia.
  - intros s x Hx Hrel. sess_lookup; [by eapply Hde|done].
  - intros s [= <-]. rewrite length_app. simpl. lia.
  - intros H. unfold drop_cur in H. destruct (cur d); simpl in H; congruence.
Qed.

Lemma discard_inv s d : dialer_inv d -> dialer_inv (discard s d).
Proof. intros Hd. unfold discard. case_decide; [|done]. by apply drop_cur_inv. Qed.

Lemma Close_inv d : dialer_inv d -> dialer_inv (Close d).
Proof.
  intros Hd. destruct (drop_cur_inv d Hd) as [[Hr Hde Hc Hcl] Hn].
  unfold Close, drop_cur in *. simpl. destruct (cur d) eqn:E; simpl in *; split; simpl;
    try done. by rewrite <-E.
Qed.

Lemma die_inv s d : dialer_inv d -> dialer_inv (die s d).
Proof.
  intros [Hr Hd Hc Hcl]. unfold die. split; simpl; try done.
  - intros s' x Hx Hrel. sess_lookup; by eapply Hr.
  - intros s' x Hx Hrel. sess_lookup; [done|by eapply Hd].
  - intros s' Hs. rewrite length_alter. by apply Hc.
Qed.

#[export] Hint Resolve session_inv discard_inv Close_inv die_inv : gtun.

Lemma act_inv o p d p' d' : dialer_inv d -> act o p d = Some (p', d') -> dialer_inv d'.
Proof.
  intros Hd. destruct p as [a|X e k]; [done|]. destruct e; simpl.
  - pose proof (session_inv (connects o) d Hd) as H. destruct (session _ d). simpl in H.
    by intros [= <- <-].
  - by intros [= <- <-].
  - intros [= <- <-]. auto with gtun.
Qed.

Lemma step_dialer_inv l y y' :
  dialer_inv (dstate y) -> dial_step l y = Some y' -> dialer_inv (dstate y').
Proof.
  intros Hd. destruct l as [t o| |s]; simpl.
  - destruct (threads y !! t) as [p|]; [|done].
    destruct (act o p (dstate y)) as [[p' d']|] eqn:E; [|done]. intros [= <-]. simpl.
    by eapply act_inv.
  - intros [= <-]. simpl. auto with gtun.
  - intros [= <-]. simpl. auto with gtun.
Qed.

Lemma run_dialer_inv ls y y' :
  dialer_inv (dstate y) -> dial_run ls y = Some y' -> dialer_inv (dstate y').
Proof.
  apply (steps_preserve dial_step (fun y => dialer_inv (dstate y))). exact step_dialer_inv.
Qed.

Lemma newSessionDialer_inv : dialer_inv newSessionDialer.
Proof. by split. Qed.

(** Whatever the number of goroutines and the interleaving of their [Dial]
    calls with [Close] and with dying sessions, at any moment at most one
    session the dialer ever connected is still open, namely the current one;
    every other has been closed, and after [Close] every session has. *)
Theorem no_leaked_session n ls y s x :
  dial_run ls (start n) = Some y ->
  sessions (dstate y) !! s = Some x -> released x = false ->
  cur (dstate y) = Some s /\ closed (dstate y) = false.
Proof.
  intros Hr Hx Hrel.
  destruct (run_dialer_inv _ (start n) _ newSessionDialer_inv Hr) as [Hrl _ _ Hcl].
  specialize (Hrl _ _ Hx Hrel). split; [done|].
  destruct (closed (dstate y)); [|done]. specialize (Hcl eq_refl). congruence.
Qed.

(** ** One call of [Dial] *)

(** A failed attempt: the stream did not open, and its session was discarded. *)
Definition failed_attempt (s : nat) (err : error) : list dial_event :=
  [ESession (Ok s); EOpen s (Err err); EDiscard s].

(** A last attempt that ends the call with [r]. *)
Definition final_attempt (r : dialed) (tr : list dial_event) : Prop :=
  (exists err, r = (None, Some err) /\ tr = [ESession (Err err)])
  \/ (exists s stream, r = (Some stream, None) /\ tr = [ESession (Ok s); EOpen s (Ok stream)])
  \/ (exists s err, r = (None, Some err) /\ tr = failed_attempt s err).

Lemma runs_attempt n lastErr tr r :
  runs (dial_loop (S n) lastErr) tr r ->
  (final_attempt r tr /\ (forall s err, tr <> failed_attempt s err))
  \/ exists s err tr', tr = failed_attempt s err ++ tr' /\ runs (dial_loop n (Some err)) tr' r.
Proof.
  cbn [dial_loop]. intros H. inv_run_step H. inv_run_step H.
  - inv_run_step H. inv_run_step H.
    + inv_runs H. left. split; [right; left; by exists a, a0|by intros ?? [=]].
    + inv_run_step H. right. exists a, e, tr0. by destruct r0.
  - inv_runs H. left. split; [left; by exists e|by intros ?? [=]].
Qed.

(** A call of [Dial] makes at most two attempts.  It returns a stream or an
    error, never both and never neither: either its first attempt is final, or
    the first attempt got a session on which no stream opened, discarded that
    session, and the second attempt is final. *)
Theorem dial_outcomes tr r :
  runs Dial tr r ->
  (final_attempt r tr
   \/ exists s err tr', tr = failed_attempt s err ++ tr' /\ final_attempt r tr')
  /\ (is_Some r.1 <-> r.2 = None).
Proof.
  intros H. unfold Dial in H.
  assert (final_attempt r tr
   \/ exists s err tr', tr = failed_attempt s err ++ tr' /\ final_attempt r tr') as Hf.
  { apply runs_attempt in H as [[H _]|(s & err & tr1 & -> & H)]; [by left|right].
    exists s, err, tr1. split; [done|].
    apply runs_attempt in H as [[H _]|(s2 & err2 & tr2 & -> & H)]; [done|].
    cbn [dial_loop runs] in H. destruct H as [-> ->]. right; right.
    exists s2, err2. split; [done|apply app_nil_r]. }
  split; [done|].
  assert (forall tr, final_attempt r tr -> is_Some r.1 <-> r.2 = None) as Hx.
  { intros tr0 [(e & -> & _)|[(s & st & -> & _)|(s & e & -> & _)]]; simpl;
      (split; [intros [? ?]|]; by eauto). }
  destruct Hf as [Hf|(?&?&tr'&_&Hf)]; by eapply Hx.
Qed.

(** The decision of [session]: a closed dialer refuses; a live current
    session is shared without connecting; otherwise, when every session of
    the dialer is closed, the old one is dropped and [connect] is tried, its
    session becoming the current one, its error leaving no current session. *)
Theorem session_decision connected d :
  dialer_inv d ->
  match session connected d with
  | (Err e, d') =>
      (closed d = true /\ e = errDialerClosed /\ d' = d)
      \/ (closed d = false /\ connected = Err e /\ cur d' = None)
  | (Ok s, d') =>
      closed d = false /\ cur d' = Some s
      /\ ((cur d = Some s /\ isClosed s d = false /\ d' = d)
          \/ (s = length (sessions d) /\ isClosed s d' = false
              /\ forall i x, sessions d !! i = Some x -> dead x = true))
  end.
Proof.
  intros Hd. unfold session, live_cur, drop_cur.
  destruct (closed d) eqn:Ecl; [by left|].
  assert (forall c, cur d = c -> (forall s, c = Some s -> isClosed s d = true) ->
    forall i x, sessions d !! i = Some x -> dead x = true) as Hall.
  { intros c Hc Hdead i x Hx. destruct (released x) eqn:Er; [by eapply (inv_dead d Hd)|].
    pose proof (inv_released d Hd i x Hx Er) as Hcur. rewrite Hcur in Hc.
    specialize (Hdead i (eq_sym Hc)). unfold isClosed in Hdead. by rewrite Hx in Hdead. }
  destruct (cur d) as [s|] eqn:Ecur; [destruct (isClosed s d) eqn:Edead|].
  - destruct connected as [u|e]; simpl; [|right; split_and!; [done..|by destruct (cur d)]].
    rewrite length_alter. split; [done|]. split; [done|]. right. split_and!; [done| |].
    + unfold isClosed. simpl. rewrite lookup_app_r by (rewrite length_alter; lia).
      rewrite length_alter, Nat.sub_diag. done.
    + apply (Hall (Some s)); [done|]. by intros ? [= <-].
  - split; [done|]. split; [done|]. by left.
  - destruct connected as [u|e]; simpl; [|by right].
    split; [done|]. split; [done|]. right. split_and!; [done| |].
    + unfold isClosed. simpl. by rewrite lookup_app_r, Nat.sub_diag by lia.
    + by apply (Hall None).
Qed.

(** ** Concurrency *)

(** Steps in which nothing goes wrong: connecting and opening succeed, no
    session dies, the dialer is not closed. *)
Definition calm (l : dial_label) : Prop :=
  match l with
  | Act _ o => is_ok (connects o) = true /\ is_ok (opens o) = true
  | _ => False
  end.

(** What a goroutine can be doing in a calm run. *)
Definition calm_thread (p : prog dialE dialed) : Prop :=
  p = Dial
  \/ (exists n s, p = (do! o := call (Open s);
                   match o with
                   | Ok stream => Ret (Some stream, None)
                   | Err err => run! call (Discard s); dial_loop n (Some err)
                   end))
  \/ exists stream, p = Ret (Some stream, None).

Definition one_live_session (d : dialer) : Prop :=
  closed d = false
  /\ ((sessions d = [] /\ cur d = None)
      \/ (sessions d = [mkSess false false] /\ cur d = Some 0)).

Lemma calm_act o p d p' d' :
  is_ok (connects o) = true -> is_ok (opens o) = true ->
  one_live_session d -> calm_thread p -> act o p d = Some (p', d') ->
  one_live_session d' /\ calm_thread p'.
Proof.
  destruct o as [[u|] [st|]]; simpl; try done. intros _ _ (Hcl & Hd) Hp Hact.
  destruct Hp as [->|[(n & s & ->)|(stream & ->)]]; [| |done].
  - cbn in Hact. unfold session, live_cur, isClosed, drop_cur in Hact. rewrite Hcl in Hact.
    destruct Hd as [[Hs Hc]|[Hs Hc]]; rewrite Hc, Hs in Hact; injection Hact as <- <-.
    + split; [|right; left; by exists 1, 0]. split; [done|]. right. by rewrite ?Hs.
    + split; [by split; [|right]|right; left; by exists 1, 0].
  - injection Hact as <- <-. split; [by split|right; right; by exists st].
Qed.

Lemma calm_step l y y' :
  calm l -> one_live_session (dstate y) -> Forall calm_thread (threads y) ->
  dial_step l y = Some y' ->
  one_live_session (dstate y') /\ Forall calm_thread (threads y').
Proof.
  destruct l as [t o| |]; [|done..]. intros [Ho1 Ho2] Hd Ht. simpl.
  destruct (threads y !! t) as [p|] eqn:Ep; [|done].
  destruct (act o p (dstate y)) as [[p' d']|] eqn:Ea; [|done]. intros [= <-]. simpl.
  pose proof (proj1 (Forall_lookup _ _) Ht t p Ep) as Hp.
  destruct (calm_act _ _ _ _ _ Ho1 Ho2 Hd Hp Ea). split; [done|]. by apply Forall_insert.
Qed.

(** C27: Single flight: however many goroutines call [Dial] at once, and in any
    interleaving, as long as nothing fails they share one connection
    attempt, and each finished call returned a stream. *)
Theorem dial_single_flight n ls y :
  dial_run ls (start n) = Some y -> Forall calm ls ->
  length (sessions (dstate y)) <= 1
  /\ forall t r, threads y !! t = Some (Ret r) -> exists stream, r = (Some stream, None).
Proof.
  intros Hr Hls.
  assert (one_live_session (dstate y) /\ Forall calm_thread (threads y)) as [(_ & Hd) Ht].
  { assert (one_live_session (dstate (start n)) /\ Forall calm_thread (threads (start n))) as H0.
    { split; [by split; [|left]|]. apply Forall_replicate. by left. }
    revert Hr H0. generalize (start n). clear n.
    induction Hls as [|l ls Hl Hls IH]; intros y0; simpl; [by intros [= <-]|].
    destruct (dial_step l y0) as [y1|] eqn:E; [|done]. intros Hr [Hd Ht].
    eapply IH; [done|]. by eapply calm_step. }
  split.
  - destruct Hd as [[-> _]|[-> _]]; simpl; lia.
  - intros t r Hp. pose proof (proj1 (Forall_lookup _ _) Ht t _ Hp) as Hc.
    destruct Hc as [Hc|[(k & s & Hc)|(st & Hc)]]; [discriminate Hc|discriminate Hc|].
    injection Hc as ->. eauto.
Qed.

(** A goroutine that starts [Dial] on a closed dialer. *)
Definition refused_thread (p : prog dialE dialed) : Prop :=
  p = Dial \/ p = Ret (None, Some errDialerClosed).

Lemma Close_closed d : closed (Close d) = true.
Proof. unfold Close, drop_cur. simpl. by destruct (cur d). Qed.

Lemma discard_sessions s d :
  length (sessions (discard s d)) = length (sessions d) /\ closed (discard s d) = closed d.
Proof.
  unfold discard, drop_cur. case_decide; [|done].
  destruct (cur d); simpl; by rewrite ?length_alter.
Qed.

Lemma act_closed o p d p' d' :
  closed d = true -> act o p d = Some (p', d') ->
  closed d' = true /\ length (sessions d') = length (sessions d)
  /\ (refused_thread p -> refused_thread p').
Proof.
  intros Hcl Ha. assert (session (connects o) d = (Err errDialerClosed, d)) as Hs.
  { unfold session. by rewrite Hcl. }
  assert (refused_thread p -> refused_thread p') as Hp.
  { intros [->| ->]; [|done]. cbn in Ha. rewrite Hs in Ha. injection Ha as <- <-. by right. }
  destruct p as [r|X e k]; [done|]. destruct e; simpl in Ha.
  - rewrite Hs in Ha. by injection Ha as <- <-.
  - by injection Ha as <- <-.
  - injection Ha as <- <-. destruct (discard_sessions s d) as [? ->]. done.
Qed.

Lemma closed_step l y y' t :
  closed (dstate y) = true -> dial_step l y = Some y' ->
  closed (dstate y') = true /\ length (sessions (dstate y')) = length (sessions (dstate y))
  /\ (forall p, threads y !! t = Some p -> refused_thread p ->
      exists p', threads y' !! t = Some p' /\ refused_thread p').
Proof.
  intros Hcl. destruct l as [t' o| |s]; simpl.
  - destruct (threads y !! t') as [p|] eqn:Ep; [|done].
    destruct (act o p (dstate y)) as [[p' d']|] eqn:Ea; [|done]. intros [= <-]. simpl.
    destruct (act_closed _ _ _ _ _ Hcl Ea) as (H1 & H2 & H3).
    split_and!; [done..|]. intros q Hq Hr. destruct (decide (t = t')) as [->|Hne].
    + exists p'. rewrite list_lookup_insert_eq by by eapply lookup_lt_Some.
      split; [done|]. simplify_eq. auto.
    + exists q. by rewrite list_lookup_insert_ne.
  - intros [= <-]. simpl. rewrite Close_closed.
    split_and!; [done| |intros p Hp Hr; by exists p].
    unfold Close, drop_cur. simpl. by destruct (cur (dstate y)); simpl; rewrite ?length_alter.
  - intros [= <-]. simpl. rewrite length_alter. split_and!; [done..|]. intros p Hp Hr. by exists p.
Qed.

(** [Close] is final: from then on the dialer stays closed, never connects
    again, and every call of [Dial] that has not started yet can only return
    [errDialerClosed], whatever the environment does. *)
Theorem dial_after_close ls y y' t :
  closed (dstate y) = true -> threads y !! t = Some Dial -> dial_run ls y = Some y' ->
  closed (dstate y') = true /\ length (sessions (dstate y')) = length (sessions (dstate y))
  /\ (threads y' !! t = Some Dial \/ threads y' !! t = Some (Ret (None, Some errDialerClosed))).
Proof.
  intros Hcl Ht Hr.
  assert (exists p, threads y !! t = Some p /\ refused_thread p) as Hp.
  { exists Dial. split; [done|by left]. }
  clear Ht. revert y Hcl Hp Hr. induction ls as [|l ls IH]; intros y Hcl (p & Hp & Href); simpl.
  - intros [= <-]. split_and!; [done..|]. destruct Href as [->| ->]; auto.
  - destruct (dial_step l y) as [y1|] eqn:E; [|done]. intros Hr.
    destruct (closed_step l y y1 t Hcl E) as (Hcl1 & Hn & Hth).
    destruct (IH y1 Hcl1 (Hth p Hp Href) Hr) as (? & ? & ?). split_and!; [done|congruence|done].
Qed.

(** ** Witnesses *)

(** Two goroutines dial at the same time; the session dies; one redials. *)
Definition connected : outcome := mkOutcome (Ok tt) (Ok 7).
Definition two_dials : list dial_label := [Act 0 connected; Act 1 connected; Act 0 connected].
Definition after_dials : system :=
  match dial_run two_dials (start 2) with Some y => y | None => start 2 end.

Lemma no_leaked_session_witness :
  dial_run two_dials (start 2) = Some after_dials
  /\ cur (dstate after_dials) = Some 0 /\ closed (dstate after_dials) = false.
Proof.
  split; [reflexivity|].
  exact (no_leaked_session 2 two_dials after_dials 0 (mkSess false false) eq_refl eq_refl eq_refl).
Defined.

Lemma dial_outcomes_witness :
  let tr := [ESession (Ok 0); EOpen 0 (Ok 7)] in
  runs Dial tr (Some 7, None) /\
  (final_attempt (Some 7, None) tr
   \/ exists s err tr', tr = failed_attempt s err ++ tr' /\ final_attempt (Some 7, None) tr').
Proof.
  intros tr.
  assert (H : runs Dial tr (Some 7, None)).
  { exists (Ok 0), [EOpen 0 (Ok 7)]. split; [exact I|]. split; [reflexivity|].
    exists (Ok 7), []. split; [exact I|]. split; [reflexivity|]. split; reflexivity. }
  split; [exact H|]. exact (proj1 (dial_outcomes _ _ H)).
Defined.

Lemma session_decision_witness :
  dialer_inv newSessionDialer
  /\ closed newSessionDialer = false
     /\ cur (session (Ok tt) newSessionDialer).2 = Some 0.
Proof.
  split; [exact newSessionDialer_inv|].
  destruct (session_decision (Ok tt) newSessionDialer newSessionDialer_inv) as (Hc & Hs & _).
  split; [exact Hc|exact Hs].
Defined.

Lemma dial_single_flight_witness :
  Forall calm two_dials /\ length (sessions (dstate after_dials)) <= 1.
Proof.
  assert (H : Forall calm two_dials).
  { unfold two_dials. repeat (apply Forall_cons; split); try apply Forall_nil;
      repeat split; eauto. }
  split; [exact H|]. exact (proj1 (dial_single_flight 2 two_dials after_dials eq_refl H)).
Defined.
