(* ===== verification/UdpRelay.v ===== *)
(** * Package [transport]: the datagram relay (src/internal/transport/udp.go)

    [udpRelay] with its goroutines: the receive loop [run], one [pump] per
    session and the [sweep] of idle sessions.  Every critical section of the
    mutex and every socket operation is one step; goroutines interleave
    freely; the deferred [closeAll] and the stop of the [AfterFunc] are steps of
    their own.  The filters [up] and [down] are fields of the relay;
    [serveUDP] and [runUDP] supply them from package [auth]. *)

From S2P Require Import Prelude Lts GoLib Sha256 Auth.

Local Open Scope Z_scope.

Definition udpIdleTimeout : Z := 3 * Minute.
Definition udpSweepInterval : Z := Minute.
Definition maxDatagramSize : nat := Z.to_nat 65535.

(** What a read into a buffer of [maxDatagramSize] bytes leaves in it. *)
Definition received (pkt : bytes) : bytes := take maxDatagramSize pkt.
Global Arguments received : simpl never.

Lemma received_small pkt : (length pkt <= maxDatagramSize)%nat -> received pkt = pkt.
Proof. apply take_ge. Qed.

Section relay.
(** [netip.AddrPort]: a comparable value used as a map key. *)
Context {AddrPort : Type} `{Countable AddrPort}.

(** Where the pump of a session is. *)
Inductive pump_phase : Type :=
| PRead                    (* in s.upstream.Read *)
| PTouch (out : bytes)     (* before s.touch() *)
| PReply (out : bytes)     (* before the write to the listener *)
| PRemove                  (* the deferred r.remove(s), before the lock *)
| PClose                   (* after the lock, before s.upstream.Close() *)
| PDone.

(** [udpSession], whether its upstream socket is open, and its pump. *)
Record usession : Type := mkUsession {
  peer : AddrPort;
  upstream_open : bool;
  lastSeen : Z;
  pump : pump_phase;
}.

(** Where [run] is; a session is the index of its record (its pointer). *)
Inductive run_phase : Type :=
| RRead                               (* in ReadFromUDPAddrPort *)
| RTouch (s : nat) (payload : bytes)  (* before sess.touch() *)
| RForward (s : nat) (payload : bytes)
| RCloseAll (res : option error)      (* returning: the deferred closeAll *)
| RStop (res : option error)          (* then the deferred stop of the context.AfterFunc *)
| RReturned (res : option error).

Record relay : Type := mkRelay {
  table : gmap AddrPort nat;          (* r.sessions *)
  objs : list usession;               (* every session ever created *)
  loop : run_phase;
  idle : list nat;                    (* sweep's list of sockets left to close *)
  to_upstream : list (AddrPort * bytes);  (* written to the upstream socket of a peer *)
  to_peer : list (AddrPort * bytes);      (* written to a peer by the listener *)
  listening : bool;                   (* r.listener is open *)
}.

Definition new_relay : relay := mkRelay ∅ [] RRead [] [] [] true.

Definition set_pump (p : pump_phase) (s : usession) : usession :=
  mkUsession (peer s) (upstream_open s) (lastSeen s) p.
Definition touch (now : Z) (s : usession) : usession :=
  mkUsession (peer s) (upstream_open s) now (pump s).
Definition close_upstream (s : usession) : usession :=
  mkUsession (peer s) false (lastSeen s) (pump s).

Definition set_loop (l : run_phase) (r : relay) : relay :=
  mkRelay (table r) (objs r) l (idle r) (to_upstream r) (to_peer r) (listening r).
Definition upd_obj (f : usession -> usession) (s : nat) (r : relay) : relay :=
  mkRelay (table r) (alter f s (objs r)) (loop r) (idle r) (to_upstream r) (to_peer r) (listening r).
Definition set_table (t : gmap AddrPort nat) (r : relay) : relay :=
  mkRelay t (objs r) (loop r) (idle r) (to_upstream r) (to_peer r) (listening r).
Definition set_idle (l : list nat) (r : relay) : relay :=
  mkRelay (table r) (objs r) (loop r) l (to_upstream r) (to_peer r) (listening r).
Definition log_upstream (p : AddrPort) (b : bytes) (r : relay) : relay :=
  mkRelay (table r) (objs r) (loop r) (idle r) (to_upstream r ++ [(p, b)]) (to_peer r)
    (listening r).
Definition log_peer (p : AddrPort) (b : bytes) (r : relay) : relay :=
  mkRelay (table r) (objs r) (loop r) (idle r) (to_upstream r) (to_peer r ++ [(p, b)])
    (listening r).
Definition close_listener (r : relay) : relay :=
  mkRelay (table r) (objs r) (loop r) (idle r) (to_upstream r) (to_peer r) false.

(** [session]: look the peer up, or dial and start a pump, under the mutex. *)
Definition usession_for (p : AddrPort) (dialed : result unit) (now : Z) (r : relay)
    : result nat * relay :=
  match table r !! p with
  | Some s => (Ok s, r)
  | None =>
      match dialed with
      | Err e => (Err e, r)
      | Ok _ =>
          let s := length (objs r) in
          (Ok s, mkRelay (<[p := s]> (table r)) (objs r ++ [mkUsession p true now PRead])
                   (loop r) (idle r) (to_upstream r) (to_peer r) (listening r))
      end
  end.

(** The locked part of [remove]: forget [s] unless it has been replaced. *)
Definition remove (s : nat) (x : usession) (r : relay) : relay :=
  if decide (table r !! peer x = Some s) then set_table (delete (peer x) (table r)) r else r.

(** The sessions [sweep] expires: in the table, not seen since [cutoff]. *)
Definition expired (cutoff : Z) (r : relay) (s : nat) : bool :=
  match objs r !! s with Some x => bool_decide (lastSeen x < cutoff) | None => false end.
Definition sweep (now : Z) (r : relay) : relay :=
  let cutoff := now - udpIdleTimeout in
  let gone := filter (fun kv => expired cutoff r kv.2 = true) (table r) in
  set_idle (idle r ++ (map_to_list gone).*2)
    (set_table (filter (fun kv => expired cutoff r kv.2 = false) (table r)) r).

Definition closeAll (r : relay) : relay :=
  mkRelay ∅ (foldr (alter close_upstream) (objs r) (map_to_list (table r)).*2)
    (loop r) (idle r) (to_upstream r) (to_peer r) (listening r).

(** What happens next; the arguments are what the environment decides. *)
Inductive ulabel : Type :=
| Datagram (p : AddrPort) (pkt : bytes) (dialed : result unit) (now : Z)
| ReadError (err : error) (ctx_done : bool)
| Cancelled                                  (* the context.AfterFunc of run *)
| Touch (now : Z)
| Forward (ok : bool)                        (* sess.upstream.Write *)
| CloseAll
| StopAfter
| UpstreamDatagram (s : nat) (pkt : bytes)   (* pump s reads a datagram *)
| UpstreamError (s : nat)                    (* pump s fails to read *)
| PumpTouch (s : nat) (now : Z)
| Reply (s : nat) (ok : bool)                (* listener.WriteToUDPAddrPort *)
| Remove (s : nat)
| PumpClose (s : nat)
| Tick (now : Z)                             (* sweep's ticker fires *)
| SweepClose.                                (* sweep closes the next idle socket *)

Context (up down : bytes -> option bytes).

(** A step of the pump of [s], from one of its phases. *)
Definition pump_step (s : nat) (r : relay) (f : usession -> option relay) : option relay :=
  match objs r !! s with Some x => f x | None => None end.

Definition udp_step (l : ulabel) (r : relay) : option relay :=
  match l with
  | Datagram p pkt dialed now =>
      match loop r with
      | RRead =>
          if listening r then
          match up (received pkt) with
          | None => Some r                                   (* dropped *)
          | Some payload =>
              match usession_for p dialed now r with
              | (Err _, r) => Some r
              | (Ok s, r) => Some (set_loop (RTouch s payload) r)
              end
          end
          else None
      | _ => None
      end
  | ReadError err ctx_done =>
      match loop r with
      | RRead =>
          Some (set_loop (RCloseAll
            (if ctx_done || errors_Is err "net.ErrClosed" then None
             else Some (Wrapf "read datagram: %w" [] err))) r)
      | _ => None
      end
  | Cancelled =>
      match loop r with RReturned _ => None | _ => Some (close_listener r) end
  | Touch now =>
      match loop r with
      | RTouch s payload => Some (set_loop (RForward s payload) (upd_obj (touch now) s r))
      | _ => None
      end
  | Forward ok =>
      match loop r with
      | RForward s payload =>
          let r := set_loop RRead r in
          match objs r !! s with
          | Some x => Some (if ok && upstream_open x then log_upstream (peer x) payload r else r)
          | None => None
          end
      | _ => None
      end
  | CloseAll =>
      match loop r with
      | RCloseAll res => Some (set_loop (RStop res) (closeAll r))
      | _ => None
      end
  | StopAfter =>
      match loop r with
      | RStop res => Some (set_loop (RReturned res) r)
      | _ => None
      end
  | UpstreamDatagram s pkt => pump_step s r (fun x =>
      match pump x with
      | PRead => if upstream_open x then
                   match down (received pkt) with
                   | Some out => Some (upd_obj (set_pump (PTouch out)) s r)
                   | None => Some r
                   end
                 else None
      | _ => None
      end)
  | UpstreamError s => pump_step s r (fun x =>
      match pump x with PRead => Some (upd_obj (set_pump PRemove) s r) | _ => None end)
  | PumpTouch s now => pump_step s r (fun x =>
      match pump x with
      | PTouch out => Some (upd_obj (set_pump (PReply out)) s (upd_obj (touch now) s r))
      | _ => None
      end)
  | Reply s ok => pump_step s r (fun x =>
      match pump x with
      | PReply out =>
          let r := upd_obj (set_pump PRead) s r in
          Some (if ok && listening r then log_peer (peer x) out r else r)
      | _ => None
      end)
  | Remove s => pump_step s r (fun x =>
      match pump x with
      | PRemove => Some (upd_obj (set_pump PClose) s (remove s x r))
      | _ => None
      end)
  | PumpClose s => pump_step s r (fun x =>
      match pump x with
      | PClose => Some (upd_obj (set_pump PDone) s (upd_obj close_upstream s r))
      | _ => None
      end)
  | Tick now => match idle r with [] => Some (sweep now r) | _ => None end
  | SweepClose =>
      match idle r with
      | s :: rest => Some (upd_obj close_upstream s (set_idle rest r))
      | [] => None
      end
  end.

Definition udp_run : list ulabel -> relay -> option relay := steps udp_step.

(** ** The table of sessions *)

(** The state of the relay is consistent: an entry of the table is an open
    session of that peer whose pump runs; an open socket is in the table or is
    about to be closed by the sweep or by its own pump. *)
Definition live_pump (p : pump_phase) : bool :=
  match p with PClose | PDone => false | _ => true end.

Record relay_ok (r : relay) : Prop := {
  ok_table : forall p s, table r !! p = Some s ->
    exists x, objs r !! s = Some x /\ peer x = p /\ upstream_open x = true /\
              live_pump (pump x) = true /\ s ∉ idle r;
  ok_idle : forall s, s ∈ idle r -> exists x, objs r !! s = Some x;
  ok_open : forall s x, objs r !! s = Some x -> upstream_open x = true ->
    table r !! peer x = Some s \/ s ∈ idle r \/ pump x = PClose;
  ok_loop : forall s b, loop r = RTouch s b \/ loop r = RForward s b ->
    exists x, objs r !! s = Some x;
  ok_done : forall res, loop r = RStop res \/ loop r = RReturned res -> table r = ∅;
}.

Lemma new_relay_ok : relay_ok new_relay.
Proof using. clear up down. split; simpl; set_solver. Qed.

(** A step that changes neither the table, the sweep's list nor any session. *)
Lemma relay_ok_same r r' :
  table r' = table r -> objs r' = objs r -> idle r' = idle r ->
  (forall s b, loop r' = RTouch s b \/ loop r' = RForward s b ->
     exists x, objs r !! s = Some x) ->
  (forall res, loop r' = RStop res \/ loop r' = RReturned res -> table r = ∅) ->
  relay_ok r -> relay_ok r'.
Proof.
  intros Ht Ho Hi Hl Hd [Rt Ri Ro Rl Rd].
  split; rewrite ?Ht, ?Ho, ?Hi; eauto.
Qed.

(** A step that changes one session, keeping its peer. *)
Lemma relay_ok_obj r s x f :
  objs r !! s = Some x -> peer (f x) = peer x ->
  (upstream_open (f x) = true -> upstream_open x = true /\ (pump x = PClose -> pump (f x) = PClose)) ->
  (table r !! peer x = Some s ->
     upstream_open (f x) = true /\ live_pump (pump (f x)) = true) ->
  relay_ok r -> relay_ok (upd_obj f s r).
Proof.
  intros Hx Hp Hopen Htab [Rt Ri Ro Rl Rd].
  assert (Hlook : forall s' y, alter f s (objs r) !! s' = Some y ->
    (s' = s /\ y = f x) \/ (s' <> s /\ objs r !! s' = Some y)).
  { intros s' y Hy. destruct (decide (s' = s)) as [->|Hne].
    - rewrite list_lookup_alter_eq, Hx in Hy. simpl in Hy. left. by simplify_eq.
    - rewrite list_lookup_alter_ne in Hy by done. by right. }
  assert (Hsome : forall s' y, objs r !! s' = Some y ->
    exists y', alter f s (objs r) !! s' = Some y').
  { intros s' y Hy. apply lookup_lt_is_Some. rewrite length_alter. eauto using lookup_lt_Some. }
  split; simpl.
  - intros p s' Hs'. destruct (Rt _ _ Hs') as (y & Hy & <- & Ho & Hl & Hi).
    destruct (decide (s' = s)) as [->|Hne].
    + simplify_eq. exists (f x). rewrite list_lookup_alter_eq, Hx.
      destruct (Htab Hs'). by split_and!.
    + exists y. rewrite list_lookup_alter_ne by done. by split_and!.
  - intros s' Hs'. destruct (Ri _ Hs') as [y Hy]. eauto.
  - intros s' y Hy Ho. destruct (Hlook _ _ Hy) as [[-> ->]|[Hne Hy']].
    + destruct (Hopen Ho) as [Ho' Hc]. rewrite Hp. destruct (Ro _ _ Hx Ho') as [?|[?|?]]; auto.
    + eauto.
  - intros s' b Hl. destruct (Rl _ _ Hl) as [y Hy]. eauto.
  - done.
Qed.

Lemma lookup_close_all ss (l : list usession) i y :
  foldr (alter close_upstream) l ss !! i = Some y ->
  exists x, l !! i = Some x /\ peer y = peer x /\ pump y = pump x /\
            (upstream_open y = true -> upstream_open x = true /\ i ∉ ss).
Proof.
  revert y. induction ss as [|s ss IH]; simpl; intros y Hy.
  { exists y. split_and!; auto. intros; split; [done | set_solver]. }
  rewrite list_lookup_alter in Hy. case_decide as Hd.
  - subst s. destruct (foldr _ l ss !! i) as [z|] eqn:Hz; [|done]. simplify_eq/=.
    destruct (IH _ eq_refl) as (x & Hx & Hp & Hpump & _). by exists x.
  - destruct (IH _ Hy) as (x & Hx & Hp & Hpump & Ho). exists x. split_and!; auto.
    intros Hopen. destruct (Ho Hopen). split; [done | set_solver].
Qed.

Lemma close_all_some ss (l : list usession) i x :
  l !! i = Some x -> exists y, foldr (alter close_upstream) l ss !! i = Some y.
Proof.
  intros Hx. apply lookup_lt_is_Some.
  assert (length (foldr (alter close_upstream) l ss) = length l) as ->.
  { induction ss; simpl; rewrite ?length_alter; auto. }
  eauto using lookup_lt_Some.
Qed.

Lemma relay_ok_closeAll r res :
  loop r = RCloseAll res -> relay_ok r -> relay_ok (set_loop (RStop res) (closeAll r)).
Proof.
  intros Hl [Rt Ri Ro Rl Rd]. split; simpl.
  - set_solver.
  - intros s Hs. destruct (Ri _ Hs) as [x Hx]. eauto using close_all_some.
  - intros s y Hy Hopen. destruct (lookup_close_all _ _ _ _ Hy) as (x & Hx & Hp & Hpump & Ho).
    destruct (Ho Hopen) as [Ho' Hnot]. rewrite Hpump.
    destruct (Ro _ _ Hx Ho') as [Htab|[?|?]]; auto.
    destruct Hnot. apply list_elem_of_fmap. exists (peer x, s). split; [done|].
    by apply elem_of_map_to_list.
  - intros s b [?|?]; congruence.
  - done.
Qed.

Lemma relay_ok_sweep now r : relay_ok r -> relay_ok (sweep now r).
Proof.
  intros [Rt Ri Ro Rl Rd]. unfold sweep. set (cutoff := now - udpIdleTimeout).
  split; simpl.
  - intros p s Hs. apply map_lookup_filter_Some in Hs as [Hs Hkeep]. simpl in Hkeep.
    destruct (Rt _ _ Hs) as (x & Hx & Hp & Ho & Hl & Hi). exists x. split_and!; auto.
    rewrite elem_of_app. intros [?|Hin]; [done|].
    apply list_elem_of_fmap in Hin as ([p' s'] & -> & Hin).
    apply elem_of_map_to_list, map_lookup_filter_Some in Hin as [_ Hgone]. simpl in *.
    congruence.
  - intros s. rewrite elem_of_app. intros [?|Hin]; [auto|].
    apply list_elem_of_fmap in Hin as ([p' s'] & -> & Hin).
    apply elem_of_map_to_list, map_lookup_filter_Some in Hin as [Hin _]. simpl.
    destruct (Rt _ _ Hin) as (x & Hx & _). eauto.
  - intros s x Hx Ho. destruct (Ro _ _ Hx Ho) as [Htab|[?|?]]; [|set_solver|auto].
    destruct (expired cutoff r s) eqn:He.
    + right; left. apply elem_of_app. right. apply list_elem_of_fmap. exists (peer x, s).
      split; [done|]. apply elem_of_map_to_list, map_lookup_filter_Some. done.
    + left. apply map_lookup_filter_Some. done.
  - done.
  - intros res Hres. rewrite (Rd _ Hres). apply map_filter_empty.
Qed.

Lemma relay_ok_remove s x r :
  objs r !! s = Some x -> pump x = PRemove -> relay_ok r ->
  relay_ok (upd_obj (set_pump PClose) s (remove s x r)).
Proof.
  intros Hx Hpump [Rt Ri Ro Rl Rd].
  assert (Hlook : forall s' y, alter (set_pump PClose) s (objs r) !! s' = Some y ->
    exists z, objs r !! s' = Some z /\ peer y = peer z /\ upstream_open y = upstream_open z /\
      (if decide (s = s') then pump y = PClose else y = z)).
  { intros s' y. rewrite list_lookup_alter. case_decide; subst.
    - rewrite Hx. simpl. intros; simplify_eq. by exists x.
    - intros. by exists y. }
  assert (Hsome : forall s' y, objs r !! s' = Some y ->
    exists y', alter (set_pump PClose) s (objs r) !! s' = Some y').
  { intros s' y Hy. apply lookup_lt_is_Some. rewrite length_alter. eauto using lookup_lt_Some. }
  assert (Htab : forall p s', table (remove s x r) !! p = Some s' <-> table r !! p = Some s' /\ s' <> s).
  { intros p s'. unfold remove. case_decide as Hd; simpl.
    - rewrite lookup_delete_Some. split.
      + intros [Hne Hs]. split; [done|]. intros ->.
        destruct (Rt _ _ Hs) as (? & ? & ? & _). by simplify_eq.
      + intros [Hs Hne]. split; [|done]. intros <-. by simplify_eq.
    - split; [|tauto]. intros Hs. split; [done|]. intros ->.
      destruct (Rt _ _ Hs) as (? & ? & ? & _). simplify_eq. }
  assert (Hrest : objs (remove s x r) = objs r /\ loop (remove s x r) = loop r /\
                  idle (remove s x r) = idle r)
    by (unfold remove; case_decide; done).
  destruct Hrest as (Eo & El & Ei).
  split; simpl; rewrite ?Eo, ?El, ?Ei.
  - intros p s' [Hs Hne]%Htab. destruct (Rt _ _ Hs) as (y & Hy & ? & ? & ? & ?).
    exists y. rewrite list_lookup_alter_ne by done. done.
  - intros s' Hs'. destruct (Ri _ Hs'); eauto.
  - intros s' y Hy Ho. destruct (Hlook _ _ Hy) as (z & Hz & Hp & Hop & Hy').
    case_decide as Hd; [auto|]. subst y.
    destruct (Ro _ _ Hz Ho) as [Hs|?]; [|auto]. left. by apply Htab.
  - intros s' b Hl. destruct (Rl _ _ Hl); eauto.
  - intros res Hres. apply map_empty. intros p. apply eq_None_not_Some. intros [s' Hs'].
    apply Htab in Hs' as [Hs' _]. rewrite (Rd _ Hres) in Hs'. by rewrite lookup_empty in Hs'.
Qed.

Lemma relay_ok_session p dialed now r s r' payload :
  usession_for p dialed now r = (Ok s, r') -> (forall res, loop r <> RReturned res) ->
  relay_ok r -> relay_ok (set_loop (RTouch s payload) r').
Proof.
  intros Hs Hl Hok. unfold usession_for in Hs. destruct (table r !! p) as [s'|] eqn:Hp.
  { simplify_eq. destruct Hok as [Rt Ri Ro Rl Rd]. destruct (Rt _ _ Hp) as (x & Hx & _).
    apply (relay_ok_same r'); simpl; try done.
    - intros ? ? [?|?]; simplify_eq; eauto.
    - by intros ? [?|?]. }
  destruct dialed as [u|e]; simplify_eq. destruct Hok as [Rt Ri Ro Rl Rd].
  assert (Hold : forall i x, objs r !! i = Some x -> i <> length (objs r)).
  { intros i x Hx%lookup_lt_Some. lia. }
  split; simpl.
  - intros q s. rewrite lookup_insert_Some. intros [[<- <-]|[Hne Hs]].
    + exists (mkUsession p true now PRead). rewrite lookup_app_r, Nat.sub_diag by lia.
      split_and!; try done. intros Hi. destruct (Ri _ Hi) as [x Hx]. by destruct (Hold _ _ Hx).
    + destruct (Rt _ _ Hs) as (x & Hx & ?). exists x.
      rewrite lookup_app_l by eauto using lookup_lt_Some. done.
  - intros s Hs. destruct (Ri _ Hs) as [x Hx]. exists x.
    by rewrite lookup_app_l by eauto using lookup_lt_Some.
  - intros s x Hx Ho. apply lookup_app_Some in Hx as [Hx|[Hlen Hx]].
    + destruct (Ro _ _ Hx Ho) as [Ht|?]; [|auto]. left. apply lookup_insert_Some. right.
      split; [|done]. congruence.
    + apply list_lookup_singleton_Some in Hx as [Hz <-]. simpl. left.
      replace s with (length (objs r)) by lia. apply lookup_insert_eq.
  - intros s b [?|?]; simplify_eq. exists (mkUsession p true now PRead).
    by rewrite lookup_app_r, Nat.sub_diag by lia.
  - by intros ? [?|?].
Qed.

(** A step of the pump of [s] that leaves its socket alone. *)
Lemma relay_ok_pump r s x q :
  objs r !! s = Some x -> pump x <> PClose -> live_pump q = true \/ table r !! peer x <> Some s ->
  relay_ok r -> relay_ok (upd_obj (set_pump q) s r).
Proof.
  intros Hx Hp Hq Hok. eapply relay_ok_obj; simpl; try done.
  intros Ht. pose proof (ok_table _ Hok _ _ Ht) as (y & ? & ? & ? & ? & ?). simplify_eq.
  by destruct Hq.
Qed.

Lemma relay_ok_touch r s now : relay_ok r -> relay_ok (upd_obj (touch now) s r).
Proof.
  intros Hok. destruct (objs r !! s) as [x|] eqn:Hx.
  - eapply relay_ok_obj; simpl; try done. intros Ht.
    pose proof (ok_table _ Hok _ _ Ht) as (y & ? & ? & ? & ? & ?). by simplify_eq.
  - unfold upd_obj. replace (alter _ _ _) with (objs r).
    + by destruct r.
    + apply list_eq. intros i. rewrite list_lookup_alter. case_decide; subst; by rewrite ?Hx.
Qed.

Lemma relay_ok_close r s x q :
  objs r !! s = Some x -> table r !! peer x <> Some s ->
  relay_ok r -> relay_ok (upd_obj (set_pump q) s (upd_obj close_upstream s r)).
Proof.
  intros Hx Hnot Hok.
  assert (Hok' : relay_ok (upd_obj close_upstream s r)) by (eapply relay_ok_obj; simpl; done).
  eapply (relay_ok_obj _ _ (close_upstream x)); simpl; try done.
  by rewrite list_lookup_alter_eq, Hx.
Qed.

(** The sweep closes the first socket of its list. *)
Lemma relay_ok_sweep_close r s rest :
  idle r = s :: rest -> relay_ok r -> relay_ok (upd_obj close_upstream s (set_idle rest r)).
Proof.
  intros Hidle [Rt Ri Ro Rl Rd]. rewrite Hidle in *.
  assert (Hsome : forall i x, objs r !! i = Some x ->
    exists y, alter close_upstream s (objs r) !! i = Some y).
  { intros i x Hx. apply lookup_lt_is_Some. rewrite length_alter. eauto using lookup_lt_Some. }
  split; simpl.
  - intros p i Hi. destruct (Rt _ _ Hi) as (x & Hx & ? & ? & ? & Hni).
    exists x. rewrite list_lookup_alter_ne by set_solver. split_and!; try done. set_solver.
  - intros i Hi. destruct (Ri i) as [x Hx]; [set_solver|eauto].
  - intros i y. rewrite list_lookup_alter. case_decide; subst.
    + intros (x & Hx & ->)%fmap_Some. done.
    + intros Hy Ho. destruct (Ro _ _ Hy Ho) as [?|[?|?]]; [auto|set_solver|auto].
  - intros i b Hl. destruct (Rl _ _ Hl); eauto.
  - done.
Qed.

Lemma udp_step_ok l r r' : udp_step l r = Some r' -> relay_ok r -> relay_ok r'.
Proof.
  intros Hstep Hok. pose proof Hok as [Rt Ri Ro Rl Rd].
  destruct l; simpl in Hstep; unfold pump_step in Hstep; repeat (case_match; simplify_eq/=);
    try done;
    try (apply (relay_ok_same r); simpl;
         solve [done | exact Rl | exact Rd | intros ? ? [?|?]; simplify_eq; eauto
               | intros ? [?|?]; simplify_eq; eauto
               | intros; simplify_eq; eauto]).
  all: try (by destruct Hok; split).
  - eapply relay_ok_session; [eassumption|congruence|done].
  - unfold usession_for in *. by repeat case_match; simplify_eq.
  - destruct (Rl s payload) as [x Hx]; [auto|].
    apply (relay_ok_same (upd_obj (touch now) s r)); simpl; try done;
      [|by intros ? [?|?]|by apply relay_ok_touch].
    intros s' b [?|?]; simplify_eq. rewrite list_lookup_alter_eq, Hx. by eexists.
  - by apply relay_ok_closeAll.
  - eapply relay_ok_pump; eauto; congruence.
  - eapply relay_ok_pump; eauto; congruence.
  - eapply (relay_ok_pump _ _ (touch now u)); [| |by left|by apply relay_ok_touch]; simpl;
      [by rewrite list_lookup_alter_eq; simplify_option_eq|congruence].
  - cut (relay_ok (upd_obj (set_pump PRead) s r)); [by intros []; split|].
    eapply relay_ok_pump; eauto; congruence.
  - eapply relay_ok_pump; eauto; congruence.
  - by apply relay_ok_remove.
  - eapply relay_ok_close; eauto. intros Ht.
    apply Rt in Ht as (y & ? & ? & ? & Hl & ?). simplify_eq.
    by match goal with E : pump _ = _ |- _ => rewrite E in Hl end.
  - by apply relay_ok_sweep.
  - by apply relay_ok_sweep_close.
Qed.

Lemma udp_run_ok ls r r' : udp_run ls r = Some r' -> relay_ok r -> relay_ok r'.
Proof.
  intros Hrun Hok. refine (steps_preserve udp_step relay_ok _ _ _ _ Hok Hrun).
  eauto using udp_step_ok.
Qed.

(** ** What crosses the relay *)

Definition peer_of (r : relay) (s : nat) : option AddrPort := peer <$> objs r !! s.

Lemma peer_of_alter (f : usession -> usession) (l : list usession) i s :
  (forall x, peer (f x) = peer x) -> peer <$> alter f i l !! s = peer <$> l !! s.
Proof. intros Hf. rewrite list_lookup_alter. case_decide; subst; [|done]. destruct (l !! s); simpl; by rewrite ?Hf. Qed.

Lemma peer_of_close_all ss (l : list usession) s :
  peer <$> foldr (alter close_upstream) l ss !! s = peer <$> l !! s.
Proof. induction ss; simpl; [done|]. by rewrite peer_of_alter. Qed.

Lemma peer_stable l r r' s p : udp_step l r = Some r' -> peer_of r s = Some p -> peer_of r' s = Some p.
Proof.
  intros Hstep Hp. unfold peer_of in *.
  destruct l; simpl in Hstep; unfold pump_step, usession_for, remove in Hstep;
    repeat (case_match; simplify_eq/=); rewrite ?peer_of_close_all, ?peer_of_alter by done; try done.
  apply fmap_Some in Hp as (x & Hx & ->). by rewrite lookup_app_l, Hx by eauto using lookup_lt_Some.
Qed.

(** The datagrams the filter lets through, in the order they arrive. *)
Definition arrivals (ls : list ulabel) : list (AddrPort * bytes) :=
  omap (fun l => match l with
                 | Datagram p pkt _ _ => pair p <$> up (received pkt)
                 | _ => None
                 end) ls.

Lemma arrivals_cons l ls : arrivals (l :: ls) = arrivals [l] ++ arrivals ls.
Proof. unfold arrivals. simpl. destruct l; simpl; try done. by destruct (up _). Qed.

(** The datagram [run] is forwarding. *)
Definition in_flight (r : relay) : list (AddrPort * bytes) :=
  match loop r with
  | RTouch s b | RForward s b => match peer_of r s with Some p => [(p, b)] | None => [] end
  | _ => []
  end.

Lemma in_flight_same l r r' :
  relay_ok r -> udp_step l r = Some r' -> loop r' = loop r -> in_flight r' = in_flight r.
Proof.
  intros Hok Hstep Hl. pose proof (ok_loop _ Hok) as Rl. unfold in_flight. rewrite Hl.
  destruct (loop r) as [|s b|s b| | |]; try done;
    destruct (Rl s b) as [x Hx]; auto;
    assert (Hp : peer_of r s = Some (peer x)) by (unfold peer_of; by rewrite Hx);
    by rewrite (peer_stable _ _ _ _ _ Hstep Hp), Hp.
Qed.

Lemma usession_for_peer p dialed now r s r' :
  relay_ok r -> usession_for p dialed now r = (Ok s, r') ->
  peer_of r' s = Some p /\ to_upstream r' = to_upstream r /\ loop r' = loop r.
Proof.
  intros Hok Hs. unfold usession_for in Hs. destruct (table r !! p) as [s'|] eqn:Hp.
  - simplify_eq. destruct (ok_table _ Hok _ _ Hp) as (x & Hx & <- & _).
    unfold peer_of. by rewrite Hx.
  - destruct dialed as [u|e]; simplify_eq. unfold peer_of. simpl.
    by rewrite lookup_app_r, Nat.sub_diag by lia.
Qed.

Lemma udp_step_forwards l r r' :
  relay_ok r -> udp_step l r = Some r' ->
  to_upstream r' ++ in_flight r' `sublist_of` to_upstream r ++ in_flight r ++ arrivals [l].
Proof.
  intros Hok Hstep.
  assert (Hsame : loop r' = loop r -> to_upstream r' = to_upstream r ->
    to_upstream r' ++ in_flight r' `sublist_of` to_upstream r ++ in_flight r ++ arrivals [l]).
  { intros Hl ->. rewrite (in_flight_same _ _ _ Hok Hstep Hl), (assoc_L (++)).
    apply sublist_inserts_r. done. }
  assert (Hnone : in_flight r' = [] -> to_upstream r' = to_upstream r ->
    to_upstream r' ++ in_flight r' `sublist_of` to_upstream r ++ in_flight r ++ arrivals [l]).
  { intros -> ->. rewrite app_nil_r. by apply sublist_inserts_r. }
  pose proof (ok_loop _ Hok) as Rl. pose proof (fun s p => peer_stable _ _ _ s p Hstep) as Hps.
  destruct l; simpl in Hstep; unfold pump_step in Hstep; repeat (case_match; simplify_eq/=);
    try (by apply Hsame); try (by apply Hnone).
  - match goal with E : usession_for _ _ _ _ = _ |- _ =>
      destruct (usession_for_peer _ _ _ _ _ _ Hok E) as (Hp & Ht & Hl) end.
    unfold in_flight. simpl. unfold peer_of in *. simpl. rewrite Hp, Ht.
    apply sublist_app; [done|]. by apply sublist_inserts_l.
  - match goal with E : usession_for _ _ _ _ = _ |- _ => unfold usession_for in E end.
    by apply Hsame; repeat case_match; simplify_eq.
  - destruct (Rl s payload) as [x Hx]; [auto|]. rewrite app_nil_r. apply sublist_app; [done|].
    assert (Hp : peer_of r s = Some (peer x)) by (unfold peer_of; by rewrite Hx).
    assert (Hin : in_flight r = [(peer x, payload)]).
    { unfold in_flight. match goal with E : loop r = _ |- _ => rewrite E end. by rewrite Hp. }
    rewrite Hin. unfold in_flight. simpl. by rewrite (Hps _ _ Hp).
  - rewrite !app_nil_r. apply sublist_app; [done|]. unfold in_flight, peer_of.
    match goal with E : loop r = _ |- _ => rewrite E end.
    by match goal with E : objs r !! s = _ |- _ => rewrite E end.
  - by apply Hsame; unfold remove; case_decide.
Qed.

Lemma udp_run_forwards ls r r' :
  relay_ok r -> udp_run ls r = Some r' ->
  to_upstream r' ++ in_flight r' `sublist_of` to_upstream r ++ in_flight r ++ arrivals ls.
Proof.
  revert r. induction ls as [|l ls IH]; intros r Hok Hrun; cbn in Hrun.
  { simplify_eq. change (arrivals []) with (@nil (AddrPort * bytes)). by rewrite app_nil_r. }
  destruct (udp_step l r) as [r1|] eqn:Hs; [|done].
  etrans; [by apply (IH r1); eauto using udp_step_ok|].
  rewrite (arrivals_cons l ls).
  rewrite !(assoc_L (++)). apply sublist_app; [|done]. rewrite <- (assoc_L (++)).
  by apply udp_step_forwards.
Qed.

(** Where a reply comes from: the session of its peer, through the filter. *)
Definition reply_from (ls : list ulabel) (r : relay) (p : AddrPort) (out : bytes) : Prop :=
  exists s pkt, UpstreamDatagram s pkt ∈ ls /\ down (received pkt) = Some out /\
                peer_of r s = Some p.

Record replies_ok (ls : list ulabel) (r : relay) : Prop := {
  rep_sent : forall p out, (p, out) ∈ to_peer r -> reply_from ls r p out;
  rep_pump : forall s x out, objs r !! s = Some x -> pump x = PTouch out \/ pump x = PReply out ->
    reply_from ls r (peer x) out;
}.

Lemma reply_from_step ls r l r' p out :
  udp_step l r = Some r' -> reply_from ls r p out -> reply_from (ls ++ [l]) r' p out.
Proof.
  intros Hstep (s & pkt & Hin & Hd & Hp). exists s, pkt. split_and!; [set_solver|done|].
  eauto using peer_stable.
Qed.

(** A pump with a reply in hand had it before the step, or the step read it. *)
Lemma pump_reply_step l r r' s x' out :
  udp_step l r = Some r' -> objs r' !! s = Some x' -> pump x' = PTouch out \/ pump x' = PReply out ->
  (exists x, objs r !! s = Some x /\ peer x = peer x' /\ (pump x = PTouch out \/ pump x = PReply out)) \/
  (exists pkt, l = UpstreamDatagram s pkt /\ down (received pkt) = Some out /\
               peer_of r s = Some (peer x')).
Proof.
  intros Hstep Hx' Hp.
  destruct l; simpl in Hstep; unfold pump_step, usession_for, remove in Hstep;
    repeat (case_match; simplify_eq/=); try (by left; eauto).
  all: try (rewrite !list_lookup_alter in Hx'; repeat case_decide; subst;
            try (by left; eauto); simplify_option_eq; unfold peer_of;
            repeat match goal with E : objs _ !! _ = Some _ |- _ => rewrite E; clear E end;
            destruct Hp; simplify_eq/=; first [by left; eauto 10 | by right; eauto 10]).
  - apply lookup_app_Some in Hx' as [?|[_ Hx']]; [by left; eauto|].
    apply list_lookup_singleton_Some in Hx' as [_ <-]. by destruct Hp.
  - apply lookup_close_all in Hx' as (x & Hx & -> & Hpump & _). rewrite Hpump in Hp. left; eauto.
Qed.

Lemma udp_step_replies ls l r r' :
  udp_step l r = Some r' -> replies_ok ls r -> replies_ok (ls ++ [l]) r'.
Proof.
  intros Hstep [Hs Hp]. split.
  - intros p out Hin. assert ((p, out) ∈ to_peer r \/ exists s x, objs r !! s = Some x /\
      pump x = PReply out /\ peer x = p) as [?|(s & x & Hx & Hpx & <-)].
    { destruct l; simpl in Hstep; unfold pump_step, usession_for, remove in Hstep;
        repeat (case_match; simplify_eq/=); auto.
      apply elem_of_app in Hin as [?|Hin]; [auto|]. apply list_elem_of_singleton in Hin.
      simplify_eq. right. eauto 10. }
    + eauto using reply_from_step.
    + eapply reply_from_step; eauto.
  - intros s x out Hx Hpx.
    destruct (pump_reply_step _ _ _ _ _ _ Hstep Hx Hpx) as [(y & Hy & <- & Hpy)|(pkt & -> & Hd & Hpo)].
    + eapply reply_from_step; eauto.
    + exists s, pkt. split_and!; [set_solver|done|eauto using peer_stable].
Qed.

Lemma udp_run_replies ls pre r r' :
  udp_run ls r = Some r' -> replies_ok pre r -> replies_ok (pre ++ ls) r'.
Proof.
  revert pre r. induction ls as [|l ls IH]; simpl; intros pre r Hrun Hok.
  { simplify_eq. by rewrite app_nil_r. }
  destruct (udp_step l r) as [r1|] eqn:Hs; [|done].
  change (l :: ls) with ([l] ++ ls). rewrite (assoc_L (++)). eauto using udp_step_replies.
Qed.

(** The steps that take the entry of a session out of the table: its own
    [remove], the sweep when the session is idle, and [closeAll]. *)
Definition forgets (l : ulabel) (r : relay) (s : nat) : bool :=
  match l with
  | Remove s' => bool_decide (s' = s)
  | Tick now => expired (now - udpIdleTimeout) r s
  | CloseAll => true
  | _ => false
  end.

Lemma udp_step_forgets l r r' p s :
  relay_ok r -> udp_step l r = Some r' -> table r !! p = Some s ->
  table r' !! p = if forgets l r s then None else Some s.
Proof.
  intros Hok Hstep Hp. destruct (ok_table _ Hok _ _ Hp) as (x & Hx & Hpx & _).
  destruct l; simpl in Hstep; unfold pump_step, usession_for in Hstep;
    repeat (case_match; simplify_eq/=); try done.
  - rewrite lookup_insert_ne; [done|congruence].
  - case_bool_decide; simplify_eq. unfold remove. rewrite decide_True by done. simpl.
    apply lookup_delete_eq.
  - case_bool_decide; [done|]. unfold remove. case_decide; simpl; [|done].
    rewrite lookup_delete_ne; [done|congruence].
  - rewrite map_lookup_filter, Hp. simpl.
    match goal with E : expired _ _ _ = _ |- _ => by rewrite E end.
  - rewrite map_lookup_filter, Hp. simpl.
    match goal with E : expired _ _ _ = _ |- _ => by rewrite E end.
Qed.

(** C29: The relay's table and sockets are consistent after every sequence of
    steps ([relay_ok]): an entry of the table is the open session of that peer,
    and an open upstream socket is in the table or about to be closed by the
    sweep or by its pump.  Hence, once [run] has returned and those pending
    closes are done, no upstream socket is left open. *)
Theorem relay_no_leak ls r :
  udp_run ls new_relay = Some r ->
  relay_ok r /\
  (forall res, loop r = RReturned res -> idle r = [] ->
     Forall (fun x => pump x <> PClose) (objs r) ->
     Forall (fun x => upstream_open x = false) (objs r)).
Proof.
  intros Hrun. assert (Hok : relay_ok r) by eauto using udp_run_ok, new_relay_ok.
  split; [done|]. intros res Hres Hidle Hp. rewrite Forall_lookup in *. intros s x Hx.
  destruct (upstream_open x) eqn:Ho; [|done].
  destruct (ok_open _ Hok _ _ Hx Ho) as [Ht|[Hi|Hc]].
  - rewrite (ok_done _ Hok _ (or_intror Hres)) in Ht. by rewrite lookup_empty in Ht.
  - rewrite Hidle in Hi. by apply not_elem_of_nil in Hi.
  - by destruct (Hp _ _ Hx).
Qed.

(** A session stays in the table until its own [remove], its expiry (not
    seen for [udpIdleTimeout]) or [closeAll]; in particular the [remove] of a
    session that has been replaced never forgets the newer one, and no
    datagram opens a second session for a peer that has one. *)
Theorem relay_entry_lifetime ls l r r' p s :
  udp_run ls new_relay = Some r -> udp_step l r = Some r' -> table r !! p = Some s ->
  table r' !! p = if forgets l r s then None else Some s.
Proof. intros Hrun. apply udp_step_forgets. eauto using udp_run_ok, new_relay_ok. Qed.

(** C30: The relay forwards, in order and at most once each, only datagrams its
    [up] filter lets through, on the session of the peer that sent them; and
    every datagram it writes to a peer is one that arrived on a session of
    that same peer and passed the [down] filter: peers do not see each other's
    traffic. *)
Theorem relay_isolation ls r :
  udp_run ls new_relay = Some r ->
  to_upstream r `sublist_of` arrivals ls /\
  forall p out, (p, out) ∈ to_peer r ->
    exists s pkt x, UpstreamDatagram s pkt ∈ ls /\ down (received pkt) = Some out /\
                    objs r !! s = Some x /\ peer x = p.
Proof.
  intros Hrun. split.
  - pose proof (udp_run_forwards _ _ _ new_relay_ok Hrun) as Hsub. simpl in Hsub.
    etrans; [|exact Hsub]. by apply sublist_inserts_r.
  - intros p out Hin. assert (Hrep : replies_ok [] new_relay) by (split; set_solver).
    destruct (rep_sent _ _ (udp_run_replies _ _ _ _ Hrun Hrep) _ _ Hin) as (s & pkt & Hl & Hd & Hp).
    apply fmap_Some in Hp as (x & Hx & ->). by exists s, pkt, x.
Qed.

(** A relay that has returned does not close its listener any more. *)
Lemma returned_listening ls r r' res :
  loop r = RReturned res -> udp_run ls r = Some r' ->
  loop r' = RReturned res /\ listening r' = listening r.
Proof.
  revert r. induction ls as [|l ls IH]; simpl; intros r Hl Hrun; [by simplify_eq|].
  destruct (udp_step l r) as [r1|] eqn:Hs; [|done].
  assert (loop r1 = RReturned res /\ listening r1 = listening r) as [Hl1 <-].
  { destruct l; simpl in Hs; unfold pump_step, remove in Hs; rewrite ?Hl in Hs;
      repeat (case_match; simplify_eq/=); try done. }
  eauto.
Qed.

(** C40: When [run] stops because reading the listening socket failed while its
    context is live, it returns the error but leaves the socket open, whatever
    the other goroutines do afterwards: the deferred call only unregisters the
    [context.AfterFunc] that would have closed it.  (When the context is
    cancelled first, the socket is closed and the result is nil.) *)
Theorem relay_error_leaves_listener_open r err ls r1 r2 :
  loop r = RRead -> listening r = true -> errors_Is err "net.ErrClosed" = false ->
  udp_run [ReadError err false; CloseAll; StopAfter] r = Some r1 -> udp_run ls r1 = Some r2 ->
  loop r2 = RReturned (Some (Wrapf "read datagram: %w" [] err)) /\ listening r2 = true.
Proof.
  intros Hl Hlis He Hrun Hrun2. simpl in Hrun. rewrite Hl, He in Hrun. simpl in Hrun. simplify_eq.
  edestruct returned_listening as [-> ->]; [|exact Hrun2|]; done.
Qed.

End relay.

(** ** The two relays of the tunnel *)

Section tunnel.
Context `{M : Mac} {AddrPort : Type} `{Countable AddrPort}.

(** The filters [serveUDP] and [runUDP] install; [None] drops the datagram. *)
Definition serveUDP_up (token : string) (pkt : bytes) : option bytes :=
  OpenDatagram token ClientToServer pkt.
Definition serveUDP_down (token : string) (pkt : bytes) : option bytes :=
  Some (SealDatagram token ServerToClient pkt).
Definition runUDP_up (token : string) (pkt : bytes) : option bytes :=
  Some (SealDatagram token ClientToServer pkt).
Definition runUDP_down (token : string) (pkt : bytes) : option bytes :=
  OpenDatagram token ServerToClient pkt.

Definition serveUDP (token : string) := @udp_run AddrPort _ _ (serveUDP_up token) (serveUDP_down token).
Definition runUDP (token : string) := @udp_run AddrPort _ _ (runUDP_up token) (runUDP_down token).

(** The operations of a relay whose peer [p] sends [pkt]: the session is
    looked up or opened, touched, and the filtered payload written. *)
Definition deliver (p : AddrPort) (pkt : bytes) (now : Z) : list ulabel :=
  [Datagram p pkt (Ok tt) now; Touch now; Forward true].

(** The operations when the socket of session [s] receives [pkt]. *)
Definition answer (s : nat) (pkt : bytes) (now : Z) : list (@ulabel AddrPort) :=
  [UpstreamDatagram s pkt; PumpTouch s now; Reply s true].

Lemma udp_deliver up down (r : @relay AddrPort _ _) p pkt payload now :
  relay_ok r -> loop r = RRead -> listening r = true -> up (received pkt) = Some payload ->
  exists r' s, udp_run up down (deliver p pkt now) r = Some r'
    /\ to_upstream r' = to_upstream r ++ [(p, payload)] /\ to_peer r' = to_peer r
    /\ loop r' = RRead /\ listening r' = true /\ table r' !! p = Some s.
Proof.
  intros Hok Hl Hlis Hup. unfold deliver, udp_run. cbn [steps].
  unfold udp_step at 1. rewrite Hl, Hlis, Hup.
  assert (exists s r1 x, usession_for p (Ok tt) now r = (Ok s, r1) /\ objs r1 !! s = Some x /\
    peer x = p /\ upstream_open x = true /\ to_upstream r1 = to_upstream r /\
    to_peer r1 = to_peer r /\ listening r1 = true /\ table r1 !! p = Some s)
    as (s & r1 & x & -> & Hx & <- & Ho & Ht & Htp & Hlis1 & Htab).
  { unfold usession_for. destruct (table r !! p) as [s|] eqn:Hp.
    - destruct (ok_table _ Hok _ _ Hp) as (x & Hx & Hpx & Ho & _).
      exists s, r, x. by split_and!.
    - eexists _, _, (mkUsession p true now PRead). split; [done|]. simpl.
      split_and!; try done; [by rewrite lookup_app_r, Nat.sub_diag by lia|apply lookup_insert_eq]. }
  cbn -[received]. rewrite list_lookup_alter_eq, Hx. cbn -[received]. rewrite Ho. cbn -[received].
  eexists _, s. split; [done|]. cbn. by rewrite Ht, Htp.
Qed.

Lemma udp_answer up down (r : @relay AddrPort _ _) s x pkt out now :
  objs r !! s = Some x -> pump x = PRead -> upstream_open x = true -> listening r = true ->
  down (received pkt) = Some out ->
  exists r', udp_run up down (answer s pkt now) r = Some r'
    /\ to_peer r' = to_peer r ++ [(peer x, out)] /\ to_upstream r' = to_upstream r.
Proof.
  intros Hx Hp Ho Hlis Hd. unfold answer. cbn -[received].
  unfold pump_step. rewrite Hx, Hp, Ho, Hd. cbn -[received].
  rewrite !list_lookup_alter_eq, Hx. cbn -[received].
  rewrite !list_lookup_alter_eq, Hx. cbn -[received]. rewrite Hlis.
  eexists. by split_and!.
Qed.

(** C31: The server's relay writes to the target only payloads that arrived
    sealed with the token for the client-to-server direction, and the client's
    relay hands to local peers only payloads that arrived sealed for the
    opposite one. *)
Theorem udp_relays_authentic token ls (sr cr : @relay AddrPort _ _) :
  (serveUDP token ls new_relay = Some sr -> forall p b, (p, b) ∈ to_upstream sr ->
     exists pkt dialed now, Datagram p pkt dialed now ∈ ls /\
       received pkt = SealDatagram token ClientToServer b) /\
  (runUDP token ls new_relay = Some cr -> forall p b, (p, b) ∈ to_peer cr ->
     exists s pkt, UpstreamDatagram s pkt ∈ ls /\
       received pkt = SealDatagram token ServerToClient b).
Proof.
  split.
  - intros Hrun p b Hin. pose proof (udp_run_forwards _ _ _ _ _ new_relay_ok Hrun) as Hsub.
    simpl in Hsub. assert (Hin' : (p, b) ∈ arrivals (serveUDP_up token) ls).
    { eapply elem_of_sublist; [|exact Hsub]. set_solver. }
    unfold arrivals in Hin'. apply list_elem_of_omap in Hin' as (l & Hl & Hf).
    destruct l; try done. destruct (serveUDP_up token (received pkt)) eqn:Hup; simplify_eq/=.
    apply OpenDatagram_Some in Hup. eauto.
  - intros Hrun p b Hin.
    assert (Hrep : replies_ok (runUDP_down token) [] (@new_relay AddrPort _ _)) by (split; set_solver).
    destruct (rep_sent _ _ _ (udp_run_replies _ _ _ _ _ _ Hrun Hrep) _ _ Hin)
      as (s & pkt & Hl & Hd & _). apply OpenDatagram_Some in Hd. eauto.
Qed.

(** C32: A datagram a local peer [p] sends to a running client relay is written
    to the tunnel sealed; when it reaches a running server relay from [q], the
    target gets the original payload on the session of [q].  A datagram the
    target answers on an open session [s] of the server is written back to
    the peer of [s] sealed, and the client's session that receives it hands
    the original bytes to its own peer. *)
Theorem datagram_crosses_tunnel token (cr sr : @relay AddrPort _ _) p q payload now :
  relay_ok cr -> relay_ok sr -> loop cr = RRead -> loop sr = RRead ->
  listening cr = true -> listening sr = true ->
  (DatagramOverhead + length payload <= maxDatagramSize)%nat ->
  (exists cr' sr' wire,
    runUDP token (deliver p payload now) cr = Some cr'
    /\ to_upstream cr' = to_upstream cr ++ [(p, wire)]
    /\ serveUDP token (deliver q wire now) sr = Some sr'
    /\ to_upstream sr' = to_upstream sr ++ [(q, payload)])
  /\ (forall s x c y,
    objs sr !! s = Some x -> pump x = PRead -> upstream_open x = true ->
    objs cr !! c = Some y -> pump y = PRead -> upstream_open y = true ->
    exists sr' cr' wire,
      serveUDP token (answer s payload now) sr = Some sr'
      /\ to_peer sr' = to_peer sr ++ [(peer x, wire)]
      /\ runUDP token (answer c wire now) cr = Some cr'
      /\ to_peer cr' = to_peer cr ++ [(peer y, payload)]).
Proof.
  intros Hc Hs Hlc Hls Hoc Hos Hlen.
  assert (Hpay : received payload = payload) by (apply received_small; lia).
  assert (Hwire : forall dir, received (SealDatagram token dir payload) = SealDatagram token dir payload).
  { intros dir. apply received_small. by rewrite length_SealDatagram. }
  split.
  - destruct (udp_deliver (runUDP_up token) (runUDP_down token) cr p payload
      (SealDatagram token ClientToServer payload) now) as (cr' & ? & Hcr & Hct & _); try done.
    { unfold runUDP_up. by rewrite Hpay. }
    destruct (udp_deliver (serveUDP_up token) (serveUDP_down token) sr q
      (SealDatagram token ClientToServer payload) payload now) as (sr' & ? & Hsr & Hst & _); try done.
    { unfold serveUDP_up. rewrite Hwire. by apply OpenDatagram_Some. }
    by exists cr', sr', (SealDatagram token ClientToServer payload).
  - intros s x c y Hx Hxp Hxo Hy Hyp Hyo.
    destruct (udp_answer (serveUDP_up token) (serveUDP_down token) sr s x payload
      (SealDatagram token ServerToClient payload) now) as (sr' & Hsr & Hst & _); try done.
    { unfold serveUDP_down. by rewrite Hpay. }
    destruct (udp_answer (runUDP_up token) (runUDP_down token) cr c y
      (SealDatagram token ServerToClient payload) payload now) as (cr' & Hcr & Hct & _); try done.
    { unfold runUDP_down. rewrite Hwire. by apply OpenDatagram_Some. }
    by exists sr', cr', (SealDatagram token ServerToClient payload).
Qed.

End tunnel.

(** ** Witnesses *)

(** A relay of peers named by numbers, with filters that let everything
    through: a datagram arrives from peer 5 and is forwarded, the target
    answers. *)
Definition query : bytes := [Byte.x71; Byte.x72].
Definition query_labels : list (@ulabel nat) :=
  deliver 5%nat query 100 ++ answer 0%nat query 200.
Definition after_query : @relay nat _ _ :=
  match udp_run Some Some query_labels new_relay with Some r => r | None => new_relay end.

Lemma relay_no_leak_witness :
  udp_run Some Some query_labels new_relay = Some after_query /\ relay_ok after_query.
Proof.
  assert (H : udp_run Some Some query_labels new_relay = Some after_query)
    by (vm_compute; reflexivity).
  split; [exact H|]. exact (proj1 (relay_no_leak _ _ _ _ H)).
Defined.

Lemma relay_entry_lifetime_witness :
  table after_query !! 5%nat = Some 0%nat
  /\ exists r', udp_step Some Some (Tick (500 * Minute)) after_query = Some r'
     /\ table r' !! 5%nat = None.
Proof.
  assert (H : udp_run Some Some query_labels new_relay = Some after_query)
    by (vm_compute; reflexivity).
  assert (Ht : table after_query !! 5%nat = Some 0%nat) by (vm_compute; reflexivity).
  assert (Hs : udp_step Some Some (Tick (500 * Minute)) after_query
    = Some (sweep (500 * Minute) after_query)) by (vm_compute; reflexivity).
  split; [exact Ht|]. exists (sweep (500 * Minute) after_query). split; [exact Hs|].
  rewrite (relay_entry_lifetime _ _ _ _ _ _ _ _ H Hs Ht). vm_compute. reflexivity.
Defined.

Lemma relay_isolation_witness :
  udp_run Some Some query_labels new_relay = Some after_query
  /\ to_upstream after_query `sublist_of` arrivals Some query_labels.
Proof.
  assert (H : udp_run Some Some query_labels new_relay = Some after_query)
    by (vm_compute; reflexivity).
  split; [exact H|]. exact (proj1 (relay_isolation _ _ _ _ H)).
Defined.

Lemma relay_error_leaves_listener_open_witness :
  exists r1, udp_run (serveUDP_up "t") (serveUDP_down "t")
      [ReadError (Sentinel "ECONNRESET") false; CloseAll; StopAfter] (@new_relay nat _ _) = Some r1
  /\ listening r1 = true.
Proof.
  eexists. split; [reflexivity|].
  exact (proj2 (relay_error_leaves_listener_open (serveUDP_up "t") (serveUDP_down "t")
    (@new_relay nat _ _) (Sentinel "ECONNRESET") [] _ _ eq_refl eq_refl eq_refl eq_refl eq_refl)).
Defined.

Lemma datagram_crosses_tunnel_witness :
  exists cr' sr' wire,
    runUDP "0123456789abcdef" (deliver 3%nat query 100) (@new_relay nat _ _) = Some cr'
    /\ to_upstream cr' = [(3%nat, wire)]
    /\ serveUDP "0123456789abcdef" (deliver 5%nat wire 100) (@new_relay nat _ _) = Some sr'
    /\ to_upstream sr' = [(5%nat, query)].
Proof.
  refine (proj1 (datagram_crosses_tunnel "0123456789abcdef" new_relay new_relay 3%nat 5%nat query 100
    new_relay_ok new_relay_ok eq_refl eq_refl eq_refl eq_refl _)).
  apply Nat.leb_le. vm_compute. reflexivity.
Defined.
