(* ===== verification/TlsUtil.v ===== *)
(** * Package [tlsutil]: the pinned certificate (src/internal/tlsutil/tlsutil.go)

    The TLS configurations of the two ends and the generation of the
    certificate.  Files are a finite map from paths to contents and modes;
    the X.509, ECDSA and PEM routines are arguments. *)

From S2P Require Import Prelude GoLib.

Local Open Scope Z_scope.

(** [tls.VersionTLS13]. *)
Definition VersionTLS13 : Z := 772.

Definition ErrCertificateMismatch : error :=
  Sentinel "tlsutil: server certificate does not match the pinned certificate".

(** ** The file system *)

Record file : Type := mkFile { content : bytes; mode : Z }.
Abbreviation files := (gmap string file).

(** [os.WriteFile]: an existing file is truncated and keeps its mode; a new
    one is created with [perm] less the bits of [umask].  [writable] is the
    answer of the operating system. *)
Definition WriteFile (writable : string -> option error) (umask : Z) (name : string) (data : bytes)
    (perm : Z) (fs : files) : option error * files :=
  match writable name with
  | Some err => (Some err, fs)
  | None =>
      let m := match fs !! name with Some f => mode f | None => Z.ldiff perm umask end in
      (None, <[name := mkFile data m]> fs)
  end.

Definition ReadFile (fs : files) (name : string) : result bytes :=
  match fs !! name with
  | Some f => Ok (content f)
  | None => Err (Sentinel "os.ErrNotExist")
  end.

Section tlsutil.
(** A key pair, and the standard library's cryptography: each call may fail. *)
Context {KeyPair : Type} (LoadX509KeyPair : string -> string -> result KeyPair).
Context (pem_Decode : bytes -> option (string * bytes)).
Context (pem_Encode : string -> bytes -> bytes).

(** [tls.Config]: the fields set here.  [VerifyConnection] gets the raw
    certificates the peer presented. *)
Record tls_Config : Type := mkTlsConfig {
  MinVersion : Z;
  Certificates : list KeyPair;
  NextProtos : list string;
  InsecureSkipVerify : bool;
  VerifyConnection : option (list bytes -> option error);
}.

Definition ServerConfig (certPath keyPath : string) (nextProtos : list string)
    : result tls_Config :=
  try! cert := LoadX509KeyPair certPath keyPath or Wrapf "load TLS key pair: %w" [];
  Ok (mkTlsConfig VersionTLS13 [cert] nextProtos false None).

(** The closure [VerifyConnection] of [PinnedClientConfig]. *)
Definition verify_pinned (pinned : bytes) (peerCertificates : list bytes) : option error :=
  match peerCertificates with
  | [] => Some ErrCertificateMismatch
  | raw :: _ => if bool_decide (raw = pinned) then None else Some ErrCertificateMismatch
  end.

Definition PinnedClientConfig (fs : files) (certPath : string) (nextProtos : list string)
    : result tls_Config :=
  try! data := ReadFile fs certPath or Wrapf "read pinned certificate: %w" [];
  match pem_Decode data with
  | Some (typ, pinned) =>
      if decide (typ = "CERTIFICATE"%string)
      then Ok (mkTlsConfig VersionTLS13 [] nextProtos true (Some (verify_pinned pinned)))
      else Err (Errorf "pinned certificate %s: no PEM certificate found" [FStr certPath])
  | None => Err (Errorf "pinned certificate %s: no PEM certificate found" [FStr certPath])
  end.

(** [GenerateSelfSigned]; the results of the four cryptographic calls are
    arguments. *)
Definition GenerateSelfSigned (genKey serial : result unit) (der keyDER : result bytes)
    (writable : string -> option error) (umask : Z) (certPath keyPath : string) (fs : files)
    : option error * files :=
  match genKey with Err err => (Some (Wrapf "generate key: %w" [] err), fs) | Ok _ =>
  match serial with Err err => (Some (Wrapf "generate serial number: %w" [] err), fs) | Ok _ =>
  match der with Err err => (Some (Wrapf "create certificate: %w" [] err), fs) | Ok der =>
  match keyDER with Err err => (Some (Wrapf "marshal key: %w" [] err), fs) | Ok keyDER =>
  match WriteFile writable umask keyPath (pem_Encode "EC PRIVATE KEY" keyDER) 384 fs with
  | (Some err, fs) => (Some (Wrapf "write key: %w" [] err), fs)
  | (None, fs) =>
  match WriteFile writable umask certPath (pem_Encode "CERTIFICATE" der) 420 fs with
  | (Some err, fs) => (Some (Wrapf "write certificate: %w" [] err), fs)
  | (None, fs) => (None, fs)
  end end end end end end.

(** ** Pinning *)

(** The client's configuration skips the chain verification but accepts a
    connection exactly when the first certificate the server presents is the
    one stored in the PEM file, byte for byte; TLS 1.3 is required at both
    ends, and the server's end offers the loaded certificate. *)
Theorem pinned_certificate fs certPath keyPath nextProtos :
  (forall cfg, PinnedClientConfig fs certPath nextProtos = Ok cfg ->
     MinVersion cfg = VersionTLS13 /\ NextProtos cfg = nextProtos /\
     exists data pinned verify, ReadFile fs certPath = Ok data
       /\ pem_Decode data = Some ("CERTIFICATE"%string, pinned)
       /\ VerifyConnection cfg = Some verify
       /\ forall certs, verify certs = None <-> exists rest, certs = pinned :: rest)
  /\ (forall cfg, ServerConfig certPath keyPath nextProtos = Ok cfg ->
     MinVersion cfg = VersionTLS13 /\ NextProtos cfg = nextProtos /\
     exists cert, LoadX509KeyPair certPath keyPath = Ok cert /\ Certificates cfg = [cert]).
Proof.
  split; intros cfg.
  - unfold PinnedClientConfig. destruct (ReadFile fs certPath) as [data|e] eqn:Hr; [|done].
    simpl. destruct (pem_Decode data) as [[typ pinned]|] eqn:Hp; [|done].
    case_decide; [|done]. intros [= <-]. subst. simpl. split_and!; [done..|].
    eexists data, pinned, _. split_and!; [done..|]. intros certs. unfold verify_pinned.
    destruct certs as [|raw rest]; [naive_solver|]. case_bool_decide; naive_solver.
  - unfold ServerConfig. destruct (LoadX509KeyPair certPath keyPath) as [cert|e]; [|done].
    intros [= <-]. simpl. eauto.
Qed.

(** C39: After [GenerateSelfSigned] succeeds with two distinct paths, the
    certificate file decodes to the generated certificate, which a client
    loading that file pins; the key file has mode 0600 less the umask if it
    did not exist, but keeps its previous mode if it did: running the
    generator over a world-readable key file leaves the new private key
    world-readable. *)
Theorem generate_then_pin genKey serial der keyDER writable umask certPath keyPath fs fs' :
  (forall typ b, pem_Decode (pem_Encode typ b) = Some (typ, b)) ->
  certPath <> keyPath ->
  GenerateSelfSigned genKey serial der keyDER writable umask certPath keyPath fs = (None, fs') ->
  (exists d cfg, der = Ok d /\ PinnedClientConfig fs' certPath [] = Ok cfg
     /\ VerifyConnection cfg = Some (verify_pinned d))
  /\ exists f, fs' !! keyPath = Some f
     /\ mode f = match fs !! keyPath with Some f0 => mode f0 | None => Z.ldiff 384 umask end.
Proof.
  intros Hpem Hne. unfold GenerateSelfSigned, WriteFile.
  destruct genKey, serial, der as [d|], keyDER as [kd|]; try done.
  destruct (writable keyPath); [done|]. destruct (writable certPath); [done|].
  intros [= <-]. split.
  - exists d. unfold PinnedClientConfig, ReadFile. rewrite lookup_insert_eq. simpl.
    rewrite Hpem, decide_True by done. by eexists.
  - rewrite lookup_insert_ne, lookup_insert_eq by done. by eexists.
Qed.

End tlsutil.

(** ** Witness *)

(** A stand-in for the PEM codec: each byte of the type after a 1, then a 0,
    then the contents. *)
Definition toy_pem_Encode (typ : string) (b : bytes) : bytes :=
  concat ((fun c => [Byte.x01; c]) <$> bytes_of_string typ) ++ Byte.x00 :: b.
Fixpoint toy_pem_type (b : bytes) : option (bytes * bytes) :=
  match b with
  | Byte.x01 :: c :: b =>
      match toy_pem_type b with Some (t, b) => Some (c :: t, b) | None => None end
  | Byte.x00 :: b => Some ([], b)
  | _ => None
  end.
Definition toy_pem_Decode (b : bytes) : option (string * bytes) :=
  match toy_pem_type b with Some (t, b) => Some (string_of_bytes t, b) | None => None end.

Lemma toy_pem_roundtrip typ b : toy_pem_Decode (toy_pem_Encode typ b) = Some (typ, b).
Proof.
  assert (H : forall t, toy_pem_type (concat ((fun c => [Byte.x01; c]) <$> t) ++ Byte.x00 :: b)
    = Some (t, b)) by (intros t; induction t as [|c t IH]; [done|]; cbn in IH |- *; by rewrite IH).
  unfold toy_pem_Decode, toy_pem_Encode. rewrite H. by autorewrite with gtun.
Qed.

(** The generator run over an existing world-readable key file (mode 0644). *)
Definition old_key : files := {[ "key.pem"%string := mkFile [] 420 ]}.
Definition generated : option error * files :=
  GenerateSelfSigned toy_pem_Encode (Ok tt) (Ok tt) (Ok [Byte.x30]) (Ok [Byte.x31])
    (fun _ => None) 18 "cert.pem" "key.pem" old_key.

Lemma generate_then_pin_witness :
  generated = (None, generated.2)
  /\ exists f, generated.2 !! "key.pem"%string = Some f /\ mode f = 420.
Proof.
  assert (H : generated = (None, generated.2)) by reflexivity.
  split; [exact H|].
  assert (Hne : "cert.pem"%string <> "key.pem"%string) by discriminate.
  destruct (generate_then_pin (KeyPair := unit) toy_pem_Decode toy_pem_Encode _ _ _ _ _ _ _ _ _ _
    toy_pem_roundtrip Hne H) as [_ (f & Hf & Hm)].
  exists f. split; [exact Hf|]. rewrite Hm. reflexivity.
Defined.
