(* ===== verification/Transport.v ===== *)
(** * Package [transport]: options and the client side
      (src/internal/transport/transport.go, client.go, session.go, kcp.go,
      quic.go, stealth.go)

    The options and constructors of both ends, the handshake wrapper, the
    carriers a client dials and the streams it opens on them.  [Session.v]
    models the session dialer these operations are plugged into. *)

From S2P Require Import Prelude GoLib Sha256 Proto Config Prog Net Auth TlsUtil.

Local Open Scope Z_scope.

Definition handshakeTimeout : Z := 10 * Second.
Definition dialTimeout : Z := 10 * Second.
Definition keepAlive : Z := 15 * Second.
Definition quicALPN : string := "h3".
Definition quicStreamMarker : byte := Byte.x01.
Definition stealthUser : string := "gtun".
Definition stealthProtocolLevel : Z := 3.
Definition stealthDialTimeout : Z := 2 * handshakeTimeout.

Record ServerOptions : Type := mkServerOptions {
  so_Protocol : Name;
  so_ListenAddr : string;
  so_Target : string;
  so_Token : string;
  so_CertPath : string;
  so_KeyPath : string;
  so_KCP : KCP;
  so_StealthHandshake : string;
}.

(** [*x509.CertPool]: nil, or the PEM bundle it was loaded from. *)
Record ClientOptions : Type := mkClientOptions {
  co_Protocol : Name;
  co_ServerAddr : string;
  co_ListenAddr : string;
  co_Token : string;
  co_CertPath : string;
  co_KCP : KCP;
  co_StealthSNI : string;
  co_StealthRootCAs : option bytes;
}.

Definition alpn (p : Name) : list string := if decide (p = QUIC) then [quicALPN] else [].

Definition muxConfig : smux_Config := {|
  KeepAliveInterval := 10 * Second;
  KeepAliveTimeout := 30 * Second;
  MaxFrameSize := 32 * 1024;
  MaxReceiveBuffer := 4 * 1024 * 1024;
  MaxStreamBuffer := 64 * 1024;
|}.

Definition quicConfig : quic_Config := {|
  KeepAlivePeriod := 10 * Second;
  MaxIdleTimeout := 5 * Minute;
  MaxIncomingStreams := 10000;
|}.

Section transport.
Context `{M : Mac} {KeyPair : Type}.
Context (LoadX509KeyPair : string -> string -> result KeyPair).
Context (pem_Decode : bytes -> option (string * bytes)).

(** [server] and [client]: the options and [*tls.Config]. *)
Record server : Type := mkServer { s_opts : ServerOptions; s_tls : option (@tls_Config KeyPair) }.
Record client : Type := mkClient { c_opts : ClientOptions; c_tls : option (@tls_Config KeyPair) }.

Definition NewServer (o : ServerOptions) : result server :=
  try! _ := Parse (so_Protocol o) or id;
  try! _ := (if decide (so_Protocol o = Stealth) then
               try! _ := SplitHostPort (so_StealthHandshake o) or
                 Wrapf "stealth handshake server must be host:port: %w" [];
               Ok tt
             else Ok tt) or id;
  if TLS (so_Protocol o) then
    try! tls := ServerConfig LoadX509KeyPair (so_CertPath o) (so_KeyPath o) (alpn (so_Protocol o))
      or id;
    Ok (mkServer o (Some tls))
  else Ok (mkServer o None).

Definition NewClient (fs : files) (o : ClientOptions) : result client :=
  try! _ := Parse (co_Protocol o) or id;
  if bool_decide (co_Protocol o = Stealth) && bool_decide (co_StealthSNI o = ""%string) then
    Err (Errorf "stealth requires a server name (SNI)" [])
  else if TLS (co_Protocol o) then
    try! tls := PinnedClientConfig pem_Decode fs (co_CertPath o) (alpn (co_Protocol o)) or id;
    Ok (mkClient o (Some tls))
  else Ok (mkClient o None).

(** [if err := p; err != nil { return err }; k] *)
Definition then_err {A} (p : prog netE (result A)) (k : prog netE (result unit))
    : prog netE (result unit) :=
  do! r := p;
  match r with Ok _ => k | Err err => Ret (Err err) end.

(** [handshake]: run [fn] on [c] under the handshake timeout. *)
Definition handshake {A} (c : nat) (fn : prog netE (result A)) : prog netE (result unit) :=
  then_err (call (SetDeadline c (DeadlineIn handshakeTimeout)))
    (then_err fn
      (call (SetDeadline c NoDeadline))).

Definition serverHandshake (c : nat) (token : string) : prog netE (result unit) :=
  handshake c (ServerHandshake c token).
Definition clientHandshake (c : nat) (token : string) : prog netE (result unit) :=
  handshake c (ClientHandshake c token).

(** ** KCP (kcp.go) *)

(** The cipher of a KCP socket is identified by its key. *)
Definition kcpBlockCrypt (token : string) : prog netE (result bytes) :=
  let key := DeriveKey token "kcp" in
  let! _ := call (NewBlockCrypt key) or Wrapf "create KCP cipher: %w" [];
  Ret (Ok key).

Definition tuneKCP (c : nat) (k : KCP) : prog netE unit :=
  call (TuneKCP c (NoDelay k) (Interval k) (Resend k) (NoCongestion k) (SndWnd k) (RcvWnd k)).

(** ** Streams (session.go) *)

(** [quicStream.Close] tears down both directions, [CloseWrite] one. *)
Definition quicStream_Close (st : nat) : prog netE unit :=
  run! call (CancelRead st); call (Close st).
Definition quicStream_CloseWrite (st : nat) : prog netE unit := call (Close st).

Definition smuxSession_open (sess : nat) : prog netE (result nat) := call (OpenStream sess).

Definition quicSession_open (sess : nat) : prog netE (result nat) :=
  let! st := call (OpenStream sess) or id;
  do! w := call (Write st [quicStreamMarker]);
  match w with
  | Err err => run! call (CancelRead st); run! call (Close st); Ret (Err err)
  | Ok _ => Ret (Ok st)
  end.

(** ** The client's carriers (client.go, stealth.go) *)

(** [chromeHandshake]: the TLS handshake inside the stealth one. *)
Definition VersionTLS12 : Z := 771.
Definition chromeHandshake (c : client) : utls_Config := {|
  utls_ServerName := co_StealthSNI (c_opts c);
  utls_RootCAs := co_StealthRootCAs (c_opts c);
  utls_MinVersion := VersionTLS12;
  utls_Hello := HelloChrome_Auto;
|}.

Definition stealth_client (c : client) : shadowtls_ClientConfig := {|
  scc_Version := stealthProtocolLevel;
  scc_Password := co_Token (c_opts c);
  scc_StrictMode := true;
  scc_TLSHandshake := chromeHandshake c;
|}.

Definition dialStealth (c : client) : prog netE (result nat) :=
  let o := c_opts c in
  let! raw := call (Dial (AddrTCP (co_ServerAddr o) dialTimeout keepAlive)) or Wrapf "dial tcp: %w" [];
  do! cl := call (ShadowTLSClient (stealth_client c));
  match cl with
  | Err err => run! call (Close raw); Ret (Err (Wrapf "create stealth client: %w" [] err))
  | Ok _ =>
      run! call (SetDeadline raw (DeadlineIn stealthDialTimeout));
      do! r := call (ShadowTLSHandshake raw (stealth_client c));
      match r with
      | Err err => run! call (Close raw); Ret (Err (Wrapf "stealth handshake: %w" [] err))
      | Ok conn => run! call (SetDeadline raw NoDeadline); Ret (Ok conn)
      end
  end.

(** [url.URL.Redacted] of a URL with a scheme, a host and a path only. *)
Definition url_String (scheme host path : string) : string :=
  String.append scheme (String.append "://" (String.append host path)).

Definition dialCarrier (c : client) : prog netE (result nat) :=
  let o := c_opts c in
  if WebSocket (co_Protocol o) then
    let scheme := if TLS (co_Protocol o) then "wss"%string else "ws"%string in
    let path := String.append "/" (co_Protocol o) in
    let u := AddrWebSocket scheme (co_ServerAddr o) path
               (match c_tls c with Some _ => true | None => false end) dialTimeout in
    let! ws := call (Dial u) or Wrapf "dial %s: %w" [FStr (url_String scheme (co_ServerAddr o) path)];
    Ret (Ok ws)
  else if decide (co_Protocol o = Stealth) then dialStealth c
  else if decide (co_Protocol o = UTCPMux) then
    let! key := kcpBlockCrypt (co_Token o) or id;
    let k := co_KCP o in
    let! sess := call (Dial (AddrKCP (co_ServerAddr o) key (DataShards k) (ParityShards k))) or
      Wrapf "dial kcp: %w" [];
    run! tuneKCP sess k;
    Ret (Ok sess)
  else
    let! conn := call (Dial (AddrTCP (co_ServerAddr o) dialTimeout keepAlive)) or Wrapf "dial tcp: %w" [];
    Ret (Ok conn).

Definition dialAuthenticated (c : client) : prog netE (result nat) :=
  let! conn := dialCarrier c or id;
  do! h := clientHandshake conn (co_Token (c_opts c));
  match h with
  | Err err => run! call (Close conn); Ret (Err (Wrapf "authenticate: %w" [] err))
  | Ok _ => Ret (Ok conn)
  end.

Definition connectMux (c : client) : prog netE (result nat) :=
  let! conn := dialAuthenticated c or id;
  do! sess := call (SmuxClient conn muxConfig);
  match sess with
  | Err err => run! call (Close conn); Ret (Err (Wrapf "start smux session: %w" [] err))
  | Ok sess => Ret (Ok sess)
  end.

Definition connectQUIC (c : client) : prog netE (result nat) :=
  let o := c_opts c in
  let! conn := call (DialQUIC (AddrQUIC (co_ServerAddr o) quicConfig)) or Wrapf "dial quic: %w" [];
  do! raw := call (OpenStream conn);
  match raw with
  | Err err => run! call (CloseWithError conn); Ret (Err (Wrapf "open auth stream: %w" [] err))
  | Ok authStream =>
      do! h := clientHandshake authStream (co_Token o);
      match h with
      | Err err => run! call (CloseWithError conn); Ret (Err (Wrapf "authenticate: %w" [] err))
      | Ok _ => run! quicStream_Close authStream; Ret (Ok conn)
      end
  end.

(** [newDialer]: how a stream is obtained. *)
Inductive dialer_kind : Type :=
| SessionDialer (connect : prog netE (result nat)) (open : nat -> prog netE (result nat))
| DialerFunc (dial : prog netE (result nat)).

Definition newDialer (c : client) : dialer_kind :=
  if decide (co_Protocol (c_opts c) = QUIC) then SessionDialer (connectQUIC c) quicSession_open
  else if Mux (co_Protocol (c_opts c)) then SessionDialer (connectMux c) smuxSession_open
  else DialerFunc (dialAuthenticated c).

(** ** The client (client.go, udp.go) *)

(** The handler of the local accept loop; [dial] is [dialer.Dial]. *)
Definition handleLocal (dial : prog netE (result nat)) (local : nat) : prog netE unit :=
  run! call (WithTimeout (dialTimeout + handshakeTimeout));
  do! stream := dial;
  run! call CancelTimeout;
  match stream with
  | Err _ => call (Close local)
  | Ok stream => call (PipeConns local stream)
  end.

(** [dialUDPFunc] resolves the address once; the function it returns is given
    by the address.  [listenUDP] opens the socket of a relay. *)
Definition dialUDPFunc (addr : string) : prog netE (result string) :=
  let! _ := call (ResolveUDP addr) or Wrapf "resolve %s: %w" [FStr addr];
  Ret (Ok addr).
Definition listenUDP (addr : string) : prog netE (result nat) :=
  let! pc := call (Listen (ListenUDP addr)) or Wrapf "listen: %w" [];
  Ret (Ok pc).

Definition runUDP (c : client) : prog netE (result unit) :=
  let o := c_opts c in
  let! dial := dialUDPFunc (co_ServerAddr o) or id;
  let! conn := listenUDP (co_ListenAddr o) or id;
  call (RunUDPRelay conn dial).

(** [Run]; [DialerClose] is the deferred [dialer.Close]. *)
Definition client_Run (c : client) : prog netE (result unit) :=
  let o := c_opts c in
  if decide (co_Protocol o = UDP) then runUDP c
  else
    do! ln := call (Listen (ListenTCP (co_ListenAddr o) keepAlive));
    match ln with
    | Err err => run! call DialerClose; Ret (Err (Wrapf "listen: %w" [] err))
    | Ok ln =>
        run! call (AfterFuncClose ln);
        run! call (AcceptLoopOn ln HandleLocal);
        run! call (StopAfterFunc ln);
        run! call DialerClose;
        Ret (Ok tt)
    end.

End transport.

(** ** The handshake wrapper *)

Section lemmas.
Context `{M : Mac} {KeyPair : Type}.

Lemma then_err_ok {A} (p : prog netE (result A)) k tr u :
  runs (then_err p k) tr (Ok u)
  <-> exists tr1 tr2 a, tr = tr1 ++ tr2 /\ runs p tr1 (Ok a) /\ runs k tr2 (Ok u).
Proof.
  unfold then_err. rewrite runs_bind. split.
  - intros (t1 & t2 & [a|e] & -> & Hp & Hk); [eauto 10|]. by destruct Hk as [_ [=]].
  - intros (t1 & t2 & a & -> & Hp & Hk). exists t1, t2, (Ok a). eauto.
Qed.

(** The trace of a completed handshake on [c]: [tr] between the deadlines. *)
Definition timed (c : nat) (tr : list event) : list event :=
  EDeadline c (DeadlineIn handshakeTimeout) (Ok tt) :: tr ++ [EDeadline c NoDeadline (Ok tt)].

Lemma handshake_ok {A} c (fn : prog netE (result A)) tr u :
  runs (handshake c fn) tr (Ok u) <-> exists tr' a, runs fn tr' (Ok a) /\ tr = timed c tr'.
Proof.
  unfold handshake, timed. rewrite then_err_ok. destruct u. split.
  - intros (t1 & t2 & [] & -> & [_ ->]%runs_call & Hk).
    apply then_err_ok in Hk as (t3 & t4 & a & -> & Hfn & [_ ->]%runs_call). eauto.
  - intros (tr' & a & Hfn & ->). eexists [_], _, tt. split; [reflexivity|].
    split; [by apply runs_call|]. apply then_err_ok. eexists _, _, a. split; [reflexivity|].
    split; [done|]. by apply runs_call.
Qed.

Lemma serverHandshake_ok c token tr u :
  runs (serverHandshake c token) tr (Ok u) <->
  exists cn sn, length cn = NonceSize /\ length sn = NonceSize
    /\ tr = timed c (server_accept_trace c token cn sn).
Proof.
  unfold serverHandshake. rewrite handshake_ok. setoid_rewrite ServerHandshake_ok. naive_solver.
Qed.

Lemma clientHandshake_ok c token tr u :
  runs (clientHandshake c token) tr (Ok u) <->
  exists cn sn, length cn = NonceSize /\ length sn = NonceSize
    /\ tr = timed c (client_accept_trace c token cn sn).
Proof.
  unfold clientHandshake. rewrite handshake_ok. setoid_rewrite ClientHandshake_ok. naive_solver.
Qed.

(** ** What the client's dialling does with its connections *)

(** [x] was closed, or the connection the stealth handshake made of it. *)
Definition released (tr : list event) (x : nat) : Prop :=
  EClose x ∈ tr \/ exists cfg y, EShadowHandshake x cfg (Ok y) ∈ tr /\ EClose y ∈ tr.

(** [conn] is [x], or was made of it by the stealth handshake. *)
Definition carries (tr : list event) (x conn : nat) : Prop :=
  conn = x \/ exists cfg, EShadowHandshake x cfg (Ok conn) ∈ tr.

Lemma handshake_conversation {A} c (fn : prog netE (result A)) :
  emits conversation fn -> emits conversation (handshake c fn).
Proof.
  intros Hfn. unfold handshake, then_err. emits_all.
Qed.

Lemma ClientHandshake_conversation c token : emits conversation (ClientHandshake c token).
Proof. unfold ClientHandshake. emits_all. Qed.

Lemma clientHandshake_conversation c token : emits conversation (clientHandshake c token).
Proof. apply handshake_conversation, ClientHandshake_conversation. Qed.

Lemma ServerHandshake_conversation c token : emits conversation (ServerHandshake c token).
Proof. unfold ServerHandshake. emits_all. Qed.

Lemma serverHandshake_conversation c token : emits conversation (serverHandshake c token).
Proof. apply handshake_conversation, ServerHandshake_conversation. Qed.

#[local] Hint Resolve clientHandshake_conversation : gtun.

Lemma not_conversation {A} (p : prog netE A) tr a e :
  emits conversation p -> runs p tr a -> conversation e = false -> e ∉ tr.
Proof.
  intros Hp Hr He Hin. pose proof (Hp _ _ Hr) as Hall. rewrite Forall_forall in Hall.
  specialize (Hall _ Hin). by rewrite He in Hall.
Qed.

Lemma dialCarrier_conns (c : @client KeyPair) tr r :
  runs (dialCarrier c) tr r ->
  forall a x, EDial a (Ok x) ∈ tr ->
    match r with Ok conn => carries tr x conn | Err _ => released tr x end.
Proof.
  unfold dialCarrier, dialStealth, kcpBlockCrypt, tuneKCP. intros H a x.
  net_runs_all; intros Hin; in_trace Hin; unfold carries, released.
  all: first [ by left | by left; find_in_trace | right; eexists; find_in_trace ].
Qed.

Lemma released_app_l tr1 tr2 x : released tr1 x -> released (tr1 ++ tr2) x.
Proof. unfold released. set_solver. Qed.

Lemma released_carries tr1 tr2 x conn :
  carries tr1 x conn -> EClose conn ∈ tr2 -> released (tr1 ++ tr2) x.
Proof. unfold released, carries. set_solver. Qed.

Lemma dialAuthenticated_conns (c : @client KeyPair) tr r :
  runs (dialAuthenticated c) tr r ->
  forall a x, EDial a (Ok x) ∈ tr ->
    match r with Ok conn => carries tr x conn | Err _ => released tr x end.
Proof.
  unfold dialAuthenticated. intros H a x.
  apply runs_bind in H as (t1 & t2 & [conn|e] & -> & Hcar & H).
  2: { destruct H as [-> ->]. rewrite app_nil_r. exact (dialCarrier_conns _ _ _ Hcar a x). }
  apply runs_bind in H as (t3 & t4 & h & -> & Hhs & H).
  rewrite !elem_of_app. intros [Hd|[Hd|Hd]].
  - pose proof (dialCarrier_conns _ _ _ Hcar _ _ Hd) as Hc. simpl in Hc.
    destruct h; inv_runs H; simplify_eq.
    + unfold carries in *. set_solver.
    + eapply released_carries; [done|]. cbn. find_in_trace.
  - by eapply not_conversation in Hd; eauto with gtun.
  - destruct h; inv_runs H; cbn in Hd; in_trace Hd.
Qed.

(** The address [dialCarrier] dials, by protocol. *)
Definition carrier_address (o : ClientOptions) (tls : bool) : address :=
  if WebSocket (co_Protocol o) then
    AddrWebSocket (if TLS (co_Protocol o) then "wss" else "ws") (co_ServerAddr o)
      (String.append "/" (co_Protocol o)) tls dialTimeout
  else if decide (co_Protocol o = UTCPMux) then
    AddrKCP (co_ServerAddr o) (DeriveKey (co_Token o) "kcp")
      (DataShards (co_KCP o)) (ParityShards (co_KCP o))
  else AddrTCP (co_ServerAddr o) dialTimeout keepAlive.

Lemma dialCarrier_address (c : @client KeyPair) tr r a x :
  runs (dialCarrier c) tr r -> EDial a x ∈ tr ->
  a = carrier_address (c_opts c) (match c_tls c with Some _ => true | None => false end).
Proof.
  intros H Hin. unfold dialCarrier, dialStealth, kcpBlockCrypt, tuneKCP, carrier_address in *.
  assert (Hne : UTCPMux <> Stealth) by done.
  net_runs_all; in_trace Hin; try done; repeat case_decide; congruence.
Qed.

Definition client_authenticated (c : @client KeyPair) (conn : nat) (tr : list event) : Prop :=
  exists cn sn, length cn = NonceSize /\ length sn = NonceSize
    /\ tr = timed conn (client_accept_trace conn (co_Token (c_opts c)) cn sn).

Lemma dialAuthenticated_ok (c : @client KeyPair) tr conn :
  runs (dialAuthenticated c) tr (Ok conn) ->
  exists pre hs, tr = pre ++ hs /\ runs (dialCarrier c) pre (Ok conn)
    /\ client_authenticated c conn hs.
Proof.
  unfold dialAuthenticated. intros (t1 & t2 & [x|e] & -> & Hcar & H)%runs_bind;
    [|by destruct H as [_ [=]]].
  apply runs_bind in H as (t3 & t4 & [u|e] & -> & Hhs & H).
  - destruct H as [-> [= ->]]. exists t1, t3. rewrite app_nil_r. split_and!; [done..|].
    by apply clientHandshake_ok in Hhs.
  - inv_runs H. done.
Qed.

Lemma connectMux_ok (c : @client KeyPair) tr s :
  runs (connectMux c) tr (Ok s) ->
  exists pre hs conn, tr = pre ++ hs ++ [ESmuxClient conn muxConfig (Ok s)]
    /\ runs (dialCarrier c) pre (Ok conn) /\ client_authenticated c conn hs.
Proof.
  unfold connectMux. intros (t1 & t2 & [x|e] & -> & Hd & H)%runs_bind; [|by destruct H as [_ [=]]].
  apply dialAuthenticated_ok in Hd as (pre & hs & -> & ? & ?). inv_runs H; simplify_eq.
  exists pre, hs, x. by rewrite <- (assoc_L (++)).
Qed.

Lemma connectQUIC_ok (c : @client KeyPair) tr s :
  runs (connectQUIC c) tr (Ok s) ->
  exists hs st, client_authenticated c st hs
    /\ tr = [EDialQUIC (AddrQUIC (co_ServerAddr (c_opts c)) quicConfig) (Ok s);
             EOpen s (Ok st)] ++ hs ++ [ECancelRead st; EClose st].
Proof.
  unfold connectQUIC. intros H. inv_runs H; simplify_eq.
  apply clientHandshake_ok in Hrun as (cn & sn & ? & ? & ->).
  unfold quicStream_Close in Hrun0. inv_runs Hrun0. eexists _, _. split; [by exists cn, sn|].
  by rewrite ?app_nil_r.
Qed.

(** A stream connection, smux session or QUIC connection the client obtains
    has completed the authentication handshake under its deadline, on the very
    connection it is carried by and before anything else is sent on it; and
    the address it dials is the one its protocol names: for the WebSocket
    protocols the path is the protocol and TLS is used exactly for the wss
    ones, for utcpmux the KCP cipher key is derived from the token. *)
Theorem client_connections_authenticated (c : @client KeyPair) tr :
  (forall conn, runs (dialAuthenticated c) tr (Ok conn) ->
     exists pre hs, tr = pre ++ hs /\ runs (dialCarrier c) pre (Ok conn)
       /\ client_authenticated c conn hs)
  /\ (forall s, runs (connectMux c) tr (Ok s) ->
     exists pre hs conn, tr = pre ++ hs ++ [ESmuxClient conn muxConfig (Ok s)]
       /\ runs (dialCarrier c) pre (Ok conn) /\ client_authenticated c conn hs)
  /\ (forall s, runs (connectQUIC c) tr (Ok s) ->
     exists hs st, client_authenticated c st hs
       /\ tr = [EDialQUIC (AddrQUIC (co_ServerAddr (c_opts c)) quicConfig) (Ok s);
                EOpen s (Ok st)] ++ hs ++ [ECancelRead st; EClose st])
  /\ (forall r a x, runs (dialCarrier c) tr r -> EDial a x ∈ tr ->
     a = carrier_address (c_opts c) (match c_tls c with Some _ => true | None => false end)).
Proof.
  split_and!; eauto using dialAuthenticated_ok, connectMux_ok, connectQUIC_ok, dialCarrier_address.
Qed.

(** C37: Dialling never leaks: when dialling a stream connection or starting a
    smux session or QUIC connection fails at any point, every connection
    opened on the way has been closed. *)
Theorem client_dial_no_leak (c : @client KeyPair) tr err :
  (runs (dialAuthenticated c) tr (Err err) \/ runs (connectMux c) tr (Err err) ->
     forall a x, EDial a (Ok x) ∈ tr -> released tr x)
  /\ (runs (connectQUIC c) tr (Err err) ->
     forall a x, EDialQUIC a (Ok x) ∈ tr -> ECloseWithError x ∈ tr).
Proof.
  split.
  - intros [H|H] a x Hin.
    { by apply (dialAuthenticated_conns _ _ _ H) in Hin. }
    unfold connectMux in H. apply runs_bind in H as (t1 & t2 & [conn|e] & -> & Hd & H).
    + assert (EDial a (Ok x) ∈ t1 /\ EClose conn ∈ t2) as [Hin1 Hcl].
      { inv_runs H; cbn in *; simplify_eq; in_trace Hin; try done. split; [done|find_in_trace]. }
      exact (released_carries _ _ _ _ (dialAuthenticated_conns _ _ _ Hd _ _ Hin1) Hcl).
    + destruct H as [-> _]. rewrite app_nil_r in Hin |- *.
      by apply (dialAuthenticated_conns _ _ _ Hd) in Hin.
  - unfold connectQUIC. intros H a x Hin. inv_runs H; cbn [observe net_Effect net_observe app] in *; simplify_eq; in_trace Hin.
    + find_in_trace.
    + by destruct (not_conversation _ _ _ (EDialQUIC a (Ok x))
        (clientHandshake_conversation _ _) Hrun).
    + find_in_trace.
Qed.

End lemmas.
