(* ===== verification/Dialer.v ===== *)
(** * Package [transport]: the session dialer at work
      (src/internal/transport/session.go, client.go)

    [Session.v] is the abstract dialer: its methods are atomic functions of a
    state.  Here are the methods as the code has them, programs over any
    [muxSession] whose fields are only touched under the mutex, the two
    implementations of [muxSession], and the client's goroutines: one per
    local connection, and the one that closes the dialer.  Every interleaving
    of their single operations is a run of the abstract dialer that makes the
    same calls on the same sessions, and what they relay to has
    authenticated. *)

From S2P Require Import Session.
From S2P Require Import Prelude Lts GoLib Sha256 Proto Config Prog Net Auth TlsUtil Monitor Transport.

(** ** The interfaces *)

(** [muxSession]. *)
Class muxSession (T : Type) : Type := {
  mux_id : T -> nat;   (* the smux session or QUIC connection *)
  open : T -> prog netE (result nat);
  isClosed : T -> prog netE bool;
  close : T -> prog netE unit;
}.

(** [EPipe] is what hands a connection to the relay. *)
Definition no_pipe (e : event) : Prop := match e with EPipe _ _ => False | _ => True end.

(** Sessions are counted: starting [s] is 1, closing it is -1. *)
Definition counts (o : option nat) (s : nat) : Z := if decide (o = Some s) then 1 else 0.
Definition balance (s : nat) (e : event) : Z :=
  match e with
  | ESmuxClient _ _ (Ok s') | EDialQUIC _ (Ok s') => counts (Some s') s
  | ESmuxClose s' | ECloseWithError s' => - counts (Some s') s
  | _ => 0
  end.

(** Neither. *)
Definition quiet (e : event) : Prop := no_pipe e /\ forall s, balance s e = 0%Z.

(** What the dialer relies on: opening asks the session for a stream, and
    closes it again when it fails; asking and closing do nothing else. *)
Class muxSession_laws (T : Type) `{muxSession T} : Prop := {
  open_asks x : match open x with Ret _ => False | Vis _ _ => True end;
  open_only x : only quiet (open x);
  open_ok x tr st : runs (open x) tr (Ok st) -> EOpen (mux_id x) (Ok st) ∈ tr;
  open_fails x tr err st :
    runs (open x) tr (Err err) -> EOpen (mux_id x) (Ok st) ∈ tr -> EClose st ∈ tr;
  isClosed_only x : only (fun e => exists b, e = EIsClosed (mux_id x) b) (isClosed x);
  close_only x : only (fun e => e = ESmuxClose (mux_id x) \/ e = ECloseWithError (mux_id x)) (close x);
  close_once x s tr u : runs (close x) tr u -> total (balance s) tr = Z.opp (counts (Some (mux_id x)) s);
}.

Record smuxSession : Type := mkSmuxSession { smux : nat }.
Record quicSession : Type := mkQuicSession { quic : nat }.

#[export] Instance smuxSession_mux : muxSession smuxSession := {|
  mux_id := smux;
  open s := smuxSession_open (smux s);
  isClosed s := call (IsClosed (smux s));
  close s := call (SmuxClose (smux s));
|}.

#[export] Instance quicSession_mux : muxSession quicSession := {|
  mux_id := quic;
  open s := quicSession_open (quic s);
  isClosed s := call (IsClosed (quic s));
  close s := call (CloseWithError (quic s));
|}.

#[export] Instance smuxSession_mux_laws : muxSession_laws smuxSession.
Proof.
  split; intros x.
  - done.
  - by apply only_call.
  - by intros tr st [_ ->]%runs_call; constructor.
  - by intros tr err st [_ ->]%runs_call; rewrite list_elem_of_singleton.
  - apply only_call. eauto.
  - apply only_call. auto.
  - intros s tr u [_ ->]%runs_call. cbn. lia.
Qed.

#[export] Instance quicSession_mux_laws : muxSession_laws quicSession.
Proof.
  split; intros x; cbn [open isClosed close mux_id quicSession_mux].
  - done.
  - unfold quicSession_open. only_all.
  - unfold quicSession_open. intros tr st H. net_runs H; find_in_trace.
  - unfold quicSession_open. intros tr err st H. net_runs H; intros Hin; in_trace Hin; find_in_trace.
  - apply only_call. eauto.
  - apply only_call. auto.
  - intros s tr u [_ ->]%runs_call. cbn. lia.
Qed.

(** How a client gets a new session: [c.connectMux], [c.connectQUIC].  The
    connection has authenticated before the session exists. *)
Section connector.
Context `{M : Mac} {KeyPair : Type}.

Definition connect_proof (c : @client KeyPair) (tr : list event) : Prop :=
  exists conn pre hs post, tr = pre ++ hs ++ post /\ client_authenticated c conn hs.

Class connector (c : @client KeyPair) (T : Type) `{!muxSession T} : Type := {
  connect : prog netE (result T);
  connect_proves tr x : runs connect tr (Ok x) -> connect_proof c tr;
  connect_only : only no_pipe connect;
  connect_once s tr r : runs connect tr r ->
    total (balance s) tr = match r with Ok x => counts (Some (mux_id x)) s | Err _ => 0%Z end;
}.

Definition wrap {A B} (f : A -> B) (p : prog netE (result A)) : prog netE (result B) :=
  let! x := p or id; Ret (Ok (f x)).

Lemma runs_wrap_result {A B} (f : A -> B) p tr r :
  runs (wrap f p) tr r
  <-> exists r', runs p tr r' /\ r = match r' with Ok x => Ok (f x) | Err e => Err e end.
Proof using.
  clear. unfold wrap. rewrite runs_bind. split.
  - intros (t1 & t2 & r' & -> & Hp & Hr). exists r'. destruct r'; destruct Hr as [-> ->];
      by rewrite app_nil_r.
  - intros (r' & Hp & ->). exists tr, [], r'. rewrite app_nil_r. by destruct r'.
Qed.

Lemma clientHandshake_quiet conn token : only quiet (clientHandshake conn token).
Proof.
  unfold clientHandshake, handshake, then_err, ClientHandshake. only_all.
Qed.

#[local] Hint Resolve clientHandshake_quiet : gtun.

Lemma dialAuthenticated_quiet (c : @client KeyPair) : only quiet (dialAuthenticated c).
Proof.
  unfold dialAuthenticated, dialCarrier, dialStealth, kcpBlockCrypt, tuneKCP.
  only_all.
Qed.

Lemma quiet_no_pipe {A} (p : prog netE A) : only quiet p -> only no_pipe p.
Proof. apply only_weaken. by intros e []. Qed.

Lemma quiet_total {A} (p : prog netE A) s tr a :
  only quiet p -> runs p tr a -> total (balance s) tr = 0%Z.
Proof.
  intros Hp Hr. apply total_free. eapply Forall_impl; [by eapply only_emits|]. by intros e [].
Qed.

#[local] Hint Resolve dialAuthenticated_quiet quiet_no_pipe : gtun.

#[export] Program Instance smux_connector (c : @client KeyPair) : connector c smuxSession :=
  {| connect := wrap mkSmuxSession (connectMux c) |}.
Next Obligation.
  intros c tr x ([s|e] & Hr & [=->])%runs_wrap_result. apply connectMux_ok in Hr as (pre & hs & conn & -> & _ & Ha).
  exists conn, pre, hs, [ESmuxClient conn muxConfig (Ok s)]. done.
Qed.
Next Obligation.
  intros c. unfold wrap, connectMux. only_all.
Qed.
Next Obligation.
  intros c s tr r. rewrite runs_wrap_result.
  unfold connectMux. intros (r' & (t1 & t2 & d & -> & Hd & H)%runs_bind & ->).
  rewrite total_app, (quiet_total _ _ _ _ (dialAuthenticated_quiet c) Hd).
  destruct d; inv_runs H; subst; cbn; lia.
Qed.

#[export] Program Instance quic_connector (c : @client KeyPair) : connector c quicSession :=
  {| connect := wrap mkQuicSession (connectQUIC c) |}.
Next Obligation.
  intros c tr x ([s|e] & Hr & [=->])%runs_wrap_result. apply connectQUIC_ok in Hr as (hs & st & Ha & ->).
  by eexists st, _, hs, _.
Qed.
Next Obligation.
  intros c. unfold wrap, connectQUIC, quicStream_Close. only_all.
Qed.
Next Obligation.
  intros c s tr r. rewrite runs_wrap_result. unfold connectQUIC, quicStream_Close.
  intros (r' & H & ->). inv_runs H; subst; cbn [observe net_Effect net_observe app];
    try (inv_runs Hrun0; subst); rewrite ?total_cons, ?total_app, ?(quiet_total _ _ _ _ (clientHandshake_quiet _ _) Hrun);
    cbn; lia.
Qed.

End connector.
Arguments connect {_ _} _ {_ _ _}.
Arguments connect_proves {_ _} _ {_ _ _} _ _ _.
Arguments connect_only {_ _} _ {_ _ _}.
Arguments connect_once {_ _} _ {_ _ _} _ _ _ _.

(** ** [sessionDialer] *)

Section dialer.
Context {T : Type} `{!muxSession T}.
Context (connect : prog netE (result T)).

(** A [muxSession] variable: a pointer, compared by address. *)
Record muxPtr : Type := mkPtr { addr : nat; pointee : T }.

(** The fields under the mutex; [allocated] counts the sessions connected so
    far, whose addresses are all different. *)
Record sessionDialer : Type := mkSessionDialer {
  cur : option muxPtr;
  closed : bool;
  allocated : nat;
}.

Definition newSessionDialer : sessionDialer := mkSessionDialer None false 0.

(** [if d.cur != nil { d.cur.close(); d.cur = nil }] *)
Definition drop_cur (d : sessionDialer) : prog netE sessionDialer :=
  match cur d with
  | Some s => run! close (pointee s); Ret (mkSessionDialer None (closed d) (allocated d))
  | None => Ret d
  end.

(** [d.cur != nil && !d.cur.isClosed()] *)
Definition cur_alive (d : sessionDialer) : prog netE (option muxPtr) :=
  match cur d with
  | Some s => do! b := isClosed (pointee s); Ret (if (b : bool) then None else Some s)
  | None => Ret None
  end.

(** [session], [discard] and [Close] between [Lock] and [Unlock]. *)
Definition session (d : sessionDialer) : prog netE (result muxPtr * sessionDialer) :=
  if closed d then Ret (Err Session.errDialerClosed, d)
  else
    do! alive := cur_alive d;
    match alive with
    | Some s => Ret (Ok s, d)
    | None =>
        do! d := drop_cur d;
        do! sess := connect;
        match sess with
        | Err err => Ret (Err err, d)
        | Ok x =>
            let s := mkPtr (allocated d) x in
            Ret (Ok s, mkSessionDialer (Some s) (closed d) (S (allocated d)))
        end
    end.

Definition discard (sess : muxPtr) (d : sessionDialer) : prog netE (unit * sessionDialer) :=
  do! d := (if decide (addr <$> cur d = Some (addr sess)) then drop_cur d else Ret d);
  Ret (tt, d).

Definition Close (d : sessionDialer) : prog netE (unit * sessionDialer) :=
  do! d := drop_cur (mkSessionDialer (cur d) true (allocated d));
  Ret (tt, d).

(** [Dial]: [for range n] with the error of the last failed attempt. *)
Abbreviation proc A := (prog (syncE sessionDialer) A).

Definition after_open (loop : error -> proc dialed) (sess : muxPtr) (opened : result nat)
    : proc dialed :=
  match opened with
  | Ok stream => Ret (Some stream, None)
  | Err err => run! call (Sync (discard sess)); loop err
  end.

Fixpoint dial_loop (n : nat) (lastErr : option error) : proc dialed :=
  match n with
  | O => Ret (None, lastErr)
  | S n =>
      do! r := call (Sync session);
      match r with
      | Err err => Ret (None, Some err)
      | Ok sess =>
          do! opened := lift (open (pointee sess));
          after_open (fun err => dial_loop n (Some err)) sess opened
      end
  end.

Definition Dial : proc dialed := dial_loop 2 None.

(** The handler of a local connection in [client.Run], and the deferred
    [dialer.Close]. *)
Definition relay_or_close (local : nat) (r : dialed) : proc unit :=
  match r with
  | (_, Some _) => call (Net (Net.Close local))
  | (Some stream, None) => call (Net (PipeConns local stream))
  | (None, None) => Ret tt   (* Dial returns a stream or an error *)
  end.
Definition serve_local (local : nat) (r : dialed) : proc unit :=
  run! call (Net CancelTimeout); relay_or_close local r.

Definition handle (local : nat) : proc unit :=
  run! call (Net (WithTimeout (dialTimeout + handshakeTimeout)));
  do! r := Dial;
  serve_local local r.
Definition closer : proc unit := call (Sync Close).

(** The goroutines of a client with the local connections [locals]. *)
Definition goroutines (locals : list nat) : list (proc unit) := (handle <$> locals) ++ [closer].

(** ** The abstract dialer *)

(** [a] is the abstract state of [d]; a session the dialer has not found
    closed counts as alive. *)
Record represents (d : sessionDialer) (a : Session.dialer) : Prop := {
  rep_closed : Session.closed a = closed d;
  rep_cur : Session.cur a = addr <$> cur d;
  rep_allocated : length (Session.sessions a) = allocated d;
  rep_alive : forall s, cur d = Some s -> Session.sessions a !! addr s = Some (mkSess false false);
}.

(** [xs] are the sessions connected so far, by address. *)
Record tracks (xs : list T) (d : sessionDialer) : Prop := {
  tr_allocated : length xs = allocated d;
  tr_cur : forall s, cur d = Some s -> xs !! addr s = Some (pointee s);
}.

(** What the abstract dialer does to a session, and the operations that do it:
    asking, closing and connecting, each once and with the same outcome. *)
Definition block (l : sess_event * list event) (xs xs' : list T) : Prop :=
  match l.1 with
  | Asks s b => xs' = xs /\ exists x, xs !! s = Some x /\ runs (isClosed x) l.2 b
  | Closes s => xs' = xs /\ exists x, xs !! s = Some x /\ runs (close x) l.2 tt
  | Connects (Ok _) => exists x, xs' = xs ++ [x] /\ runs connect l.2 (Ok x)
  | Connects (Err e) => xs' = xs /\ runs connect l.2 (Err e)
  end.

(** The events [tr] carry out [os]. *)
Definition carries_out (os : list sess_event) (tr : list event) (xs xs' : list T) : Prop :=
  exists bs, execution block bs xs xs' /\ bs.*1 = os /\ concat bs.*2 = tr.

Lemma carries_nothing xs : carries_out [] [] xs xs.
Proof. exists []. split_and!; [constructor|done|done]. Qed.

Lemma carries_one o tr xs xs' : block (o, tr) xs xs' -> carries_out [o] tr xs xs'.
Proof.
  intros H. exists [(o, tr)]. split_and!; [by apply execution_one|done|]. simpl. by rewrite app_nil_r.
Qed.

Lemma carries_app os1 os2 tr1 tr2 xs xs1 xs2 :
  carries_out os1 tr1 xs xs1 -> carries_out os2 tr2 xs1 xs2 ->
  carries_out (os1 ++ os2) (tr1 ++ tr2) xs xs2.
Proof.
  intros (bs1 & H1 & <- & <-) (bs2 & H2 & <- & <-). exists (bs1 ++ bs2).
  split_and!; [by eapply execution_app|by rewrite fmap_app|by rewrite fmap_app, concat_app].
Qed.

(** [s] is the session a block [tr] of events connected. *)
Definition connected_in (tr : list event) (s : muxPtr) : Prop :=
  exists pre tr0 post, tr = pre ++ tr0 ++ post /\ runs connect tr0 (Ok (pointee s)).

(** The current session may have died: only its address matters. *)
Lemma drop_cur_represents xs d a tr d' :
  Session.closed a = closed d -> Session.cur a = addr <$> cur d ->
  length (Session.sessions a) = allocated d -> tracks xs d -> runs (drop_cur d) tr d' ->
  represents d' (Session.drop_cur a) /\ cur d' = None /\ tracks xs d'
  /\ carries_out (drop_events a) tr xs xs.
Proof.
  intros Hcl Hc Hl [Ht Htc]. unfold drop_cur, Session.drop_cur, drop_events. rewrite Hc.
  destruct (cur d) as [s|] eqn:E; simpl.
  - intros (t1 & t2 & [] & -> & Hclose & [-> ->])%runs_bind. rewrite app_nil_r. split_and!.
    + split; simpl; [done..| |done]. by rewrite length_alter.
    + done.
    + by split.
    + apply carries_one. split; [done|]. eauto.
  - intros [-> ->]. split_and!; [by split; rewrite ?E|done|by split; rewrite ?E|apply carries_nothing].
Qed.

(** A session the dialer finds closed has died; the abstract dialer is told
    so when it is found out. *)
Lemma cur_alive_represents xs d a tr alive :
  represents d a -> tracks xs d -> runs (cur_alive d) tr alive ->
  exists a1, (a1 = a \/ exists s, a1 = die s a)
    /\ Session.closed a1 = closed d /\ Session.cur a1 = addr <$> cur d
    /\ length (Session.sessions a1) = allocated d
    /\ carries_out (ask_events a1) tr xs xs
    /\ match alive with
       | Some s => cur d = Some s /\ a1 = a /\ live_cur a1 = Some (addr s)
       | None => live_cur a1 = None
       end.
Proof.
  intros [Hcl Hc Hl Hal] [Ht Htc]. unfold cur_alive, ask_events, live_cur, Session.isClosed.
  destruct (cur d) as [s|] eqn:Ecur.
  - specialize (Hal _ eq_refl). specialize (Htc _ eq_refl).
    intros (t1 & t2 & b & -> & Hb & [-> ->])%runs_bind. rewrite app_nil_r.
    destruct b; simpl in *.
    + exists (die (addr s) a). unfold die. simpl. rewrite length_alter, Hc. simpl.
      rewrite list_lookup_alter, decide_True, Hal by done. simpl.
      split_and!; [eauto|done..| |done]. apply carries_one. split; [done|]. eauto.
    + exists a. rewrite Hc. simpl. rewrite Hal. simpl.
      split_and!; [by left|done..| |done|done|done]. apply carries_one. split; [done|]. eauto.
  - intros [-> ->]. exists a. rewrite Hc. simpl.
    split_and!; [by left|done..|apply carries_nothing|done].
Qed.

Lemma session_represents xs d a tr r d' :
  represents d a -> tracks xs d -> runs (session d) tr (r, d') ->
  exists a1 res xs', (a1 = a \/ exists s, a1 = die s a)
    /\ Session.session res a1 = ((match r with Ok s => Ok (addr s) | Err e => Err e end),
                                 (Session.session res a1).2)
    /\ represents d' (Session.session res a1).2
    /\ tracks xs' d' /\ carries_out (session_events res a1) tr xs xs'
    /\ (forall s, r = Ok s -> cur d' = Some s)
    /\ (forall s, cur d' = Some s -> cur d = Some s \/ connected_in tr s).
Proof.
  intros Hrep Htr. pose proof (rep_closed _ _ Hrep) as Hcl. unfold session.
  destruct (closed d) eqn:Ecl.
  { intros [-> [= -> ->]]. exists a, (Ok tt), xs. unfold Session.session, session_events. rewrite Hcl.
    split_and!; eauto using carries_nothing; done. }
  intros (t1 & t2 & alive & -> & Halive & H)%runs_bind.
  destruct (cur_alive_represents _ _ _ _ _ Hrep Htr Halive)
    as (a1 & Ha1 & Hcl1 & Hc1 & Hl1 & Hask & Hlive). rewrite Ecl in Hcl1.
  unfold Session.session, session_events. destruct alive as [s|].
  { destruct H as [-> [= -> ->]], Hlive as (Hs & -> & Hlive). exists a, (Ok tt), xs.
    rewrite Hcl1, Hlive, !app_nil_r. split_and!; [by left|done..|congruence|eauto]. }
  apply runs_bind in H as (t3 & t4 & d1 & -> & Hd & H). rewrite <- Ecl in Hcl1.
  destruct (drop_cur_represents _ _ _ _ _ Hcl1 Hc1 Hl1 Htr Hd)
    as ([Hcl2 Hc2 Hl2 Hal2] & Hcur & [Ht2 Htc2] & Hdrop). rewrite Ecl in Hcl1.
  apply runs_bind in H as (t5 & t6 & res & -> & Hcon & H).
  exists a1, (match res with Ok _ => Ok tt | Err e => Err e end).
  rewrite Hcl1, Hlive. destruct res as [x|err]; destruct H as [-> [= -> ->]]; simpl.
  - exists (xs ++ [x]). rewrite Hl2, app_nil_r. split_and!; [done|done| | | |congruence|].
    + split; simpl; [done|done|by rewrite length_app, Hl2, Nat.add_comm|].
      intros s [= <-]. simpl. by rewrite lookup_app_r, Hl2, Nat.sub_diag by lia.
    + split; simpl; [by rewrite length_app, Ht2, Nat.add_comm|]. intros s [= <-]. simpl.
      by rewrite lookup_app_r, Ht2, Nat.sub_diag by lia.
    + eapply carries_app; [done|]. eapply carries_app; [done|]. apply carries_one. by exists x.
    + intros s [= <-]. right. exists (t1 ++ t3), t5, []. split; [|done].
      by rewrite app_nil_r, (assoc_L (++)).
  - exists xs. rewrite app_nil_r. split_and!; [done|done|by split|by split| |done|].
    + eapply carries_app; [done|]. eapply carries_app; [done|]. by apply carries_one.
    + intros s Hs. congruence.
Qed.

Lemma discard_represents xs s d a tr u d' :
  represents d a -> tracks xs d -> runs (discard s d) tr (u, d') ->
  represents d' (Session.discard (addr s) a) /\ tracks xs d'
  /\ carries_out (discard_events (addr s) a) tr xs xs /\ (forall s, cur d' = Some s -> cur d = Some s).
Proof.
  intros Hrep Htr. pose proof Hrep as [Hcl Hcur Hl _]. unfold discard, Session.discard, discard_events.
  intros (t1 & t2 & d1 & -> & Hd & [-> [= -> ->]])%runs_bind. rewrite app_nil_r.
  rewrite <- Hcur in Hd. case_decide.
  - destruct (drop_cur_represents _ _ _ _ _ Hcl Hcur Hl Htr Hd) as (H1 & H2 & H3 & H4).
    split_and!; [done..|congruence].
  - destruct Hd as [-> ->]. split_and!; [done..|apply carries_nothing|done].
Qed.

Lemma Close_represents xs d a tr u d' :
  represents d a -> tracks xs d -> runs (Close d) tr (u, d') ->
  represents d' (Session.Close a) /\ cur d' = None /\ tracks xs d'
  /\ carries_out (drop_events a) tr xs xs.
Proof.
  intros [Hcl Hc Hl Hal] [Ht Htc]. unfold Close.
  intros (t1 & t2 & d1 & -> & Hd & [-> [= -> ->]])%runs_bind. rewrite app_nil_r.
  by apply (drop_cur_represents xs _ (Session.mkDialer (Session.sessions a) (Session.cur a) true))
    in Hd; [|..|split].
Qed.

End dialer.

(** ** Every interleaving is one of the abstract dialer *)

Section system.
Context {T : Type} `{!muxSession T, !muxSession_laws T}.
Context (connect : prog netE (result T)).
Context (locals : list nat).

Abbreviation goroutine := (prog (syncE (@sessionDialer T)) unit).
Abbreviation history := (list (nat * list event)).

(** [s] came out of [connect], in a block of the history. *)
Definition made (als : history) (s : @muxPtr T) : Prop :=
  exists t tr, (t, tr) ∈ als /\ connected_in connect tr s.

(** [st] was opened by goroutine [t] on a session that came out of [connect]. *)
Definition opened (als : history) (t st : nat) : Prop :=
  exists s, made als s /\ EOpen (mux_id (pointee s)) (Ok st) ∈ shows t als.

(** What [Dial] returns: a stream it opened, or an error. *)
Definition dialed_ok (als : history) (t : nat) (r : dialed) : Prop :=
  (exists err, r = (None, Some err)) \/ exists st, r = (Some st, None) /\ opened als t st.

(** Where goroutine [t] is, in the code and in the abstract system. *)
Inductive doing (als : history) (t : nat) : goroutine -> prog dialE dialed -> Prop :=
| doing_start local : locals !! t = Some local -> doing als t (handle connect local) Session.Dial
| doing_dial local n lastErr :
    locals !! t = Some local ->
    doing als t (do! r := dial_loop connect (S n) lastErr; serve_local local r)
      (Session.dial_loop (S n) lastErr)
| doing_open local n (s : @muxPtr T) q tr :
    locals !! t = Some local -> made als s ->
    match q with Ret _ => False | Vis _ _ => True end -> only no_pipe q ->
    (forall tr' r, runs q tr' r -> runs (open (pointee s)) (tr ++ tr') r) ->
    (exists pre, shows t als = pre ++ tr) ->
    doing als t
      (do! r := (do! o := lift q;
                 after_open (fun err => dial_loop connect n (Some err)) s o); serve_local local r)
      (do! o := call (Open (addr s));
       match o with
       | Ok stream => Ret (Some stream, None)
       | Err err => run! call (Discard (addr s)); Session.dial_loop n (Some err)
       end)
| doing_discard local n (s : @muxPtr T) err :
    locals !! t = Some local ->
    doing als t
      (do! r := (run! call (Sync (discard s)); dial_loop connect n (Some err)); serve_local local r)
      (run! call (Discard (addr s)); Session.dial_loop n (Some err))
| doing_serve local r :
    locals !! t = Some local -> dialed_ok als t r -> doing als t (serve_local local r) (Ret r)
| doing_relay local r :
    locals !! t = Some local -> dialed_ok als t r ->
    doing als t (relay_or_close local r) (Ret r)
| doing_done r : doing als t (Ret tt) (Ret r)
| doing_close : locals !! t = None -> doing als t closer Session.Dial
| doing_closed : locals !! t = None -> doing als t (Ret tt) Session.Dial.

Lemma made_snoc als l s : made als s -> made (als ++ [l]) s.
Proof. unfold made. intros (t & tr & Hin & ?). exists t, tr. set_solver. Qed.

Lemma opened_snoc als u tr t st : opened als t st -> opened (als ++ [(u, tr)]) t st.
Proof.
  intros (s & Hm & Hin). exists s. split; [by apply made_snoc|]. rewrite shows_snoc. set_solver.
Qed.

Lemma dialed_ok_snoc als u tr t r : dialed_ok als t r -> dialed_ok (als ++ [(u, tr)]) t r.
Proof. intros [?|(st & ? & ?%(opened_snoc _ u tr))]; [by left|right; eauto]. Qed.

Lemma doing_other als t u tr g p : t <> u -> doing als t g p -> doing (als ++ [(u, tr)]) t g p.
Proof.
  intros Hne. destruct 1 as [| | local n s q tr0 ? ? ? ? ? Hpre | | | | | |];
    try by (econstructor; eauto using dialed_ok_snoc).
  eapply doing_open; eauto using made_snoc. rewrite shows_snoc, decide_False by done.
  by rewrite app_nil_r.
Qed.

(** A failed opening, and the last attempt of all. *)
Lemma doing_failed als t local n err :
  locals !! t = Some local ->
  doing als t (do! r := dial_loop connect n (Some err); serve_local local r)
    (Session.dial_loop n (Some err)).
Proof.
  intros Hl. destruct n as [|n]; [|by constructor]. simpl.
  apply (doing_serve als t local (None, Some err)); [done|]. left. eauto.
Qed.

(** The abstract dialer follows a goroutine that performs an operation or a
    section: it may have to be told that a session has died, and then takes
    the same step or none, doing [os] to the sessions. *)
Definition follows (p p' : prog dialE dialed) (a a' : Session.dialer) (os : list sess_event) : Prop :=
  exists a1, (a1 = a \/ exists s, a1 = die s a)
    /\ ((p' = p /\ a' = a1 /\ os = [])
        \/ (p' = p /\ a' = Session.Close a1 /\ os = drop_events a1)
        \/ exists o, act o p a1 = Some (p', a') /\ os = act_events o p a1).

(** [ins] is what the goroutine showed inside a section. *)
Definition progress (als : history) t tr ins g' d' p a xs : Prop :=
  exists p' a' os xs', follows p p' a a' os /\ represents d' a'
    /\ tracks xs' d' /\ carries_out connect os ins xs xs'
    /\ doing (als ++ [(t, tr)]) t g' p'
    /\ (forall s, cur d' = Some s -> made (als ++ [(t, tr)]) s).

(** What the step of a goroutine preserves is kept by a step of its own. *)
Lemma progress_idle als t tr g' d p p' a xs o :
  represents d a -> tracks xs d -> (forall s, cur d = Some s -> made als s) ->
  (p' = p \/ (act o p a = Some (p', a) /\ act_events o p a = [])) -> doing (als ++ [(t, tr)]) t g' p' ->
  progress als t tr [] g' d p a xs.
Proof.
  intros Hrep Htr Hmade Hp Hd. exists p', a, [], xs.
  split_and!; [|done|done|apply carries_nothing|done|eauto using made_snoc].
  exists a. split; [by left|]. destruct Hp as [->|[Hp He]]; [by left|right; right; eauto].
Qed.

Lemma connected_made als t tr s : connected_in connect tr s -> made (als ++ [(t, tr)]) s.
Proof. intros H. exists t, tr. split; [set_solver|done]. Qed.

Lemma dial_progress als t local n lastErr d a xs p0 tr g' d' :
  locals !! t = Some local -> represents d a -> tracks xs d -> (forall s, cur d = Some s -> made als s) ->
  enters (do! r := dial_loop connect (S n) lastErr; serve_local local r) d p0 -> runs p0 tr (g', d') ->
  progress als t tr tr g' d' (Session.dial_loop (S n) lastErr) a xs.
Proof.
  intros Hl Hrep Htr Hmade -> Hr.
  apply runs_bind in Hr as (t1 & t2 & [r d1] & -> & Hs & [-> [= -> ->]]). rewrite app_nil_r.
  destruct (session_represents connect _ _ _ _ _ _ Hrep Htr Hs)
    as (a1 & res & xs' & Ha1 & Heq & Hrep' & Htr' & Hout & Hok & Hcur).
  assert (forall s, cur d1 = Some s -> made (als ++ [(t, t1)]) s) as Hmade'.
  { intros s [Hc|Hc]%Hcur; [eauto using made_snoc|by apply connected_made]. }
  pose (o := mkOutcome res (Ok 0)).
  assert (act o (Session.dial_loop (S n) lastErr) a1 = Some
    (match r with
     | Ok s => do! o := call (Open (addr s));
         match o with
         | Ok stream => Ret (Some stream, None)
         | Err err => run! call (Discard (addr s)); Session.dial_loop n (Some err)
         end
     | Err err => Ret (None, Some err)
     end, (Session.session res a1).2)) as Hact.
  { cbn. rewrite Heq. by destruct r. }
  eexists _, _, _, xs'.
  split_and!; [exists a1; split; [exact Ha1|right; right; exists o; split; [exact Hact|reflexivity]]
              |done|done|exact Hout| |done].
  destruct r as [s|err]; cbn [bind call fst].
  - eapply (doing_open _ _ local n s (open (pointee s)) []);
      [done|by apply Hmade', Hok|apply open_asks|apply quiet_no_pipe, open_only|done|].
    exists (shows t (als ++ [(t, t1)])). by rewrite app_nil_r.
  - apply (doing_serve _ _ local (None, Some err)); [done|]. left. eauto.
Qed.

Lemma open_progress als t local n (s : @muxPtr T) q tr0 d a xs ev g' :
  locals !! t = Some local -> made als s ->
  match q with Ret _ => False | Vis _ _ => True end -> only no_pipe q ->
  (forall tr' r, runs q tr' r -> runs (open (pointee s)) (tr0 ++ tr') r) ->
  (exists pre, shows t als = pre ++ tr0) ->
  represents d a -> tracks xs d -> (forall s, cur d = Some s -> made als s) ->
  outside (do! r := (do! o := lift q;
           after_open (fun err => dial_loop connect n (Some err)) s o); serve_local local r) ev g' ->
  progress als t [ev] [] g' d
    (do! o := call (Open (addr s));
     match o with
     | Ok stream => Ret (Some stream, None)
     | Err err => run! call (Discard (addr s)); Session.dial_loop n (Some err)
     end) a xs.
Proof.
  intros Hl Hm Hq Hno Hrun [pre Hpre] Hrep Htr Hmade.
  destruct q as [|X e k]; [done|].
  intros (x & Hc & -> & ->).
  destruct (Hno x Hc) as [_ Hno'].
  assert (forall tr' r, runs (k x) tr' r -> runs (open (pointee s)) ((tr0 ++ [observe e x]) ++ tr') r)
    as Hrun'.
  { intros tr' r Hr. rewrite <- (assoc_L (++)). apply Hrun. exists x, tr'. done. }
  assert (shows t (als ++ [(t, [observe e x])]) = pre ++ tr0 ++ [observe e x]) as Hshows.
  { rewrite shows_snoc, decide_True, Hpre by done. by rewrite (assoc_L (++)). }
  destruct (k x) as [o|Y e' k'] eqn:Ek.
  - pose (oc := mkOutcome (Ok tt) o).
    destruct o as [st|err]; cbn [lift bind after_open].
    + eapply (progress_idle _ _ _ _ _ _ _ _ _ oc); [done|done|done|by right|].
      apply (doing_serve _ _ local (Some st, None)); [done|]. right. exists st. split; [done|].
      exists s. split; [by apply made_snoc|]. rewrite Hshows.
      pose proof (open_ok _ _ _ (Hrun' [] _ (conj eq_refl eq_refl))) as Hin.
      rewrite app_nil_r in Hin. set_solver.
    + eapply (progress_idle _ _ _ _ _ _ _ _ _ oc); [done|done|done|by right|].
      by apply (doing_discard _ _ local n s err).
  - eapply (progress_idle _ _ _ _ _ _ _ _ _ (mkOutcome (Ok tt) (Ok 0))); [done|done|done|by left|].
    rewrite <- Ek. eapply doing_open; eauto using made_snoc.
    + by rewrite Ek.
    + by rewrite Ek.
    + intros tr' r Hr. rewrite Ek in Hr. by apply Hrun'.
Qed.

(** An operation outside the sections does nothing to the sessions... *)
Lemma outside_progress als t g p d a xs ev g' :
  doing als t g p -> represents d a -> tracks xs d -> (forall s, cur d = Some s -> made als s) ->
  outside g ev g' -> progress als t [ev] [] g' d p a xs.
Proof.
  intros Hd Hrep Htr Hmade Ho. destruct Hd as
    [local Hl|local n le Hl|local n s q tr0 Hl Hm Hq Hno Hrun Hpre|local n s err Hl|local r Hl Hok
    |local r Hl Hok|r|Hl|Hl]; try done.
  - destruct Ho as ([] & _ & _ & ->).
    eapply (progress_idle _ _ _ _ _ _ _ _ _ (mkOutcome (Ok tt) (Ok 0))); [done|done|done|by left|].
    by apply doing_dial.
  - by eapply open_progress.
  - destruct Ho as ([] & _ & _ & ->).
    eapply (progress_idle _ _ _ _ _ _ _ _ _ (mkOutcome (Ok tt) (Ok 0))); [done|done|done|by left|].
    apply doing_relay; [done|by apply dialed_ok_snoc].
  - assert (g' = Ret tt) as ->.
    { destruct Hok as [(err & ->)|(st & -> & _)]; by destruct Ho as ([] & _ & _ & ->). }
    eapply (progress_idle _ _ _ _ _ _ _ _ _ (mkOutcome (Ok tt) (Ok 0))); [done|done|done|by left|].
    apply doing_done.
Qed.

(** ... and a section does to them what the method of the abstract dialer does. *)
Lemma section_progress als t g p d a xs p0 tr g' d' :
  doing als t g p -> represents d a -> tracks xs d -> (forall s, cur d = Some s -> made als s) ->
  enters g d p0 -> runs p0 tr (g', d') -> progress als t tr tr g' d' p a xs.
Proof.
  intros Hd Hrep Htr Hmade He Hr. destruct Hd as
    [local Hl|local n le Hl|local n s q tr0 Hl Hm Hq Hno Hrun Hpre|local n s err Hl|local r Hl Hok
    |local r Hl Hok|r|Hl|Hl]; try done.
  - by eapply dial_progress.
  - by destruct q.
  - rewrite He in Hr. apply runs_bind in Hr as (t1 & t2 & [u d1] & -> & Hs & [-> [= -> ->]]).
    rewrite app_nil_r. destruct (discard_represents connect _ _ _ _ _ _ _ Hrep Htr Hs)
      as (Hrep' & Htr' & Hout & Hcur).
    exists (Session.dial_loop n (Some err)), (Session.discard (addr s) a), (discard_events (addr s) a), xs.
    split_and!; [|done|done|done|by apply doing_failed|eauto using made_snoc].
    exists a. split; [by left|]. right; right. by exists (mkOutcome (Ok tt) (Ok 0)).
  - by destruct Hok as [(err & ->)|(st & -> & _)].
  - rewrite He in Hr. apply runs_bind in Hr as (t1 & t2 & [u d1] & -> & Hs & [-> [= -> ->]]).
    rewrite app_nil_r. destruct (Close_represents connect _ _ _ _ _ _ Hrep Htr Hs)
      as (Hrep' & Hcur & Htr' & Hout).
    exists Session.Dial, (Session.Close a), (drop_events a), xs.
    split_and!; [|done|done|done|destruct u; by apply doing_closed|intros s Hs'; congruence].
    exists a. split; [by left|]. right; left. done.
Qed.

(** The relation between an atomic execution and the abstract system. *)
Definition related (als : history) (xs : list T) (c : @sessionDialer T * list goroutine)
    (y : Session.system) : Prop :=
  represents c.1 (dstate y) /\ tracks xs c.1 /\ (forall s, cur c.1 = Some s -> made als s)
  /\ length (threads y) = length c.2
  /\ forall t g, c.2 !! t = Some g -> exists p, threads y !! t = Some p /\ doing als t g p.

Lemma follows_run p p' a a' os ts t :
  ts !! t = Some p -> follows p p' a a' os ->
  exists ls, dial_run ls (Session.mkSystem a ts) = Some (Session.mkSystem a' (<[t := p']> ts))
    /\ shown dial_step dial_events ls (Session.mkSystem a ts) = os.
Proof.
  intros Ht (a1 & Ha1 & Hp).
  assert (exists ls, dial_run ls (Session.mkSystem a ts) = Some (Session.mkSystem a1 ts)
    /\ shown dial_step dial_events ls (Session.mkSystem a ts) = []) as (ls1 & H1 & E1).
  { destruct Ha1 as [->|[s ->]]; [by exists []|by exists [Die s]]. }
  assert (exists ls, dial_run ls (Session.mkSystem a1 ts) = Some (Session.mkSystem a' (<[t := p']> ts))
    /\ shown dial_step dial_events ls (Session.mkSystem a1 ts) = os) as (ls2 & H2 & E2).
  { destruct Hp as [(-> & -> & ->)|[(-> & -> & ->)|(o & Ho & ->)]].
    - exists []. by rewrite list_insert_id.
    - exists [CloseDialer]. rewrite list_insert_id by done. split; [done|]. simpl. apply app_nil_r.
    - exists [Act t o]. simpl. rewrite Ht, Ho. split; [done|]. apply app_nil_r. }
  exists (ls1 ++ ls2). split; [apply steps_app; eauto|].
  by rewrite (shown_app _ _ _ _ _ _ H1), E1, E2.
Qed.

(** A step of a goroutine, followed. *)
Lemma related_step als xs t tr ins g g' s s' ps y :
  related als xs (s, ps) y -> ps !! t = Some g ->
  (forall p a, doing als t g p -> represents s a -> tracks xs s -> (forall p, cur s = Some p -> made als p) ->
     progress als t tr ins g' s' p a xs) ->
  exists ls y' xs', dial_run ls y = Some y'
    /\ related (als ++ [(t, tr)]) xs' (s', <[t := g']> ps) y'
    /\ carries_out connect (shown dial_step dial_events ls y) ins xs xs'.
Proof.
  intros (Hrep & Htr & Hmade & Hlen & Hth) Hg Hprog. simpl in *.
  destruct (Hth _ _ Hg) as (p & Hp & Hd).
  destruct (Hprog _ _ Hd Hrep Htr Hmade) as (p' & a' & os & xs' & Hf & Hr' & Htr' & Hout & Hd' & Hm').
  destruct y as [a ts]. simpl in *.
  destruct (follows_run _ _ _ _ _ ts t Hp Hf) as (ls & Hls & Hos).
  exists ls, (Session.mkSystem a' (<[t := p']> ts)), xs'. split; [done|]. split; [|by rewrite Hos].
  split_and!; simpl; [done|done|done|by rewrite !length_insert|].
  intros t0 g0 Hg0. destruct (decide (t0 = t)) as [->|Hne].
  - rewrite list_lookup_insert_eq in Hg0 by by eapply lookup_lt_Some. simplify_eq.
    exists p'. rewrite list_lookup_insert_eq by by eapply lookup_lt_Some. done.
  - rewrite list_lookup_insert_ne in Hg0 by done. destruct (Hth _ _ Hg0) as (p1 & Hp1 & Hd1).
    exists p1. rewrite list_lookup_insert_ne by done. split; [done|]. by apply doing_other.
Qed.

Definition initial : @sessionDialer T * list goroutine := (newSessionDialer, goroutines connect locals).

Lemma initial_related : related [] [] initial (Session.start (S (length locals))).
Proof.
  split_and!.
  - by split.
  - by split.
  - done.
  - simpl. unfold goroutines. rewrite length_replicate, length_app, length_fmap. simpl. lia.
  - intros t g Hg. exists Session.Dial. unfold initial, goroutines in Hg. cbn [snd] in Hg. split.
    + apply lookup_replicate. split; [done|]. apply lookup_lt_Some in Hg.
      rewrite length_app, length_fmap in Hg. simpl in Hg. lia.
    + apply lookup_app_Some in Hg as [Hg|[Hle Hg]].
      * apply list_lookup_fmap_Some in Hg as (local & -> & Hl). by apply doing_start.
      * apply list_lookup_singleton_Some in Hg as [_ <-]. apply doing_close.
        apply lookup_ge_None. by rewrite length_fmap in Hle.
Qed.

Lemma atomic_related als ins c :
  acting als ins initial c ->
  exists ls y xs, dial_run ls (Session.start (S (length locals))) = Some y /\ related als xs c y
    /\ carries_out connect (shown dial_step dial_events ls (Session.start (S (length locals)))) ins [] xs.
Proof.
  remember initial as c0 eqn:E0. intros Hact.
  assert (Hfoll : forall als als' ls y xs ls' y' xs' ins1 ins2 c',
    dial_run ls (Session.start (S (length locals))) = Some y ->
    carries_out connect (shown dial_step dial_events ls (Session.start (S (length locals)))) ins1 [] xs ->
    dial_run ls' y = Some y' /\ related (als ++ als') xs' c' y'
      /\ carries_out connect (shown dial_step dial_events ls' y) ins2 xs xs' ->
    exists ls y xs, dial_run ls (Session.start (S (length locals))) = Some y /\ related (als ++ als') xs c' y
      /\ carries_out connect (shown dial_step dial_events ls (Session.start (S (length locals))))
           (ins1 ++ ins2) [] xs).
  { intros als0 als' ls y xs ls' y' xs' ins1 ins2 c' Hr Hc (Hr' & Hrel & Hc').
    exists (ls ++ ls'), y', xs'. split; [apply steps_app; eauto|]. split; [done|].
    rewrite (shown_app _ _ _ _ _ _ Hr). by eapply carries_app. }
  induction Hact as [c|als ins c t g ev g' s ps _ IH Hg Ho|als ins c t g p0 tr g' s s' ps _ IH Hg He Hr]; subst.
  - exists [], (Session.start (S (length locals))), []. split; [done|]. split; [apply initial_related|].
    apply carries_nothing.
  - destruct (IH eq_refl) as (ls & y & xs & Hrun & Hrel & Hc).
    destruct (related_step _ _ t [ev] [] g g' s s ps y Hrel Hg) as (ls' & y' & xs' & H').
    { intros p a ????. by apply outside_progress with g. }
    rewrite <- (app_nil_r ins). by eapply Hfoll.
  - destruct (IH eq_refl) as (ls & y & xs & Hrun & Hrel & Hc).
    destruct (related_step _ _ t tr tr g g' s s' ps y Hrel Hg) as (ls' & y' & xs' & H').
    { intros p a ????. by apply section_progress with g s p0. }
    by eapply Hfoll.
Qed.

(** The fine-grained system of the client's goroutines. *)
Definition client_system : Monitor.system (@sessionDialer T) unit :=
  mkSystem (Free newSessionDialer) (goroutines connect locals).

Lemma doing_ended als t g p local :
  doing als t g p -> g = Ret tt -> locals !! t = Some local -> exists r, p = Ret r.
Proof.
  intros Hd Hg Hl. destruct Hd as [| | ? ? ? q | | ? r | ? r | r | |]; try (by eauto); try discriminate;
    [by destruct q|congruence].
Qed.

(** C7: The methods of [sessionDialer] refine the atomic dialer of
    [Session.v]: whatever the interleaving of the single operations of the
    goroutines that serve local connections and of the one that closes the
    dialer, with any answers of the network and of the sessions, there is a
    run of the abstract dialer, with one caller of [Dial] per goroutine, that
    does the same.  What the goroutines show while they hold the mutex is, in
    order and up to the section that is going on, exactly what carries out
    the actions of the abstract run: for each session it asks, [isClosed] on
    that session with the same answer, for each one it closes, [close] on it,
    for each one it connects, [connect], and nothing else.  Its state is the
    fields under the mutex, or, while a goroutine holds it, the fields it
    found when it took it; a goroutine that has ended has a call that has
    returned. *)
Theorem dialer_refines ls y :
  execution step ls client_system y ->
  exists ls' a d tr xs, dial_run ls' (Session.start (S (length locals))) = Some a
    /\ represents d (dstate a) /\ tracks xs d
    /\ carries_out connect
         (shown dial_step dial_events ls' (Session.start (S (length locals)))) tr [] xs
    /\ match mu y with
       | Free d' => d' = d /\ inside ls = tr
       | Held t p => exists tr', within (d, procs y) t p tr' /\ inside ls = tr ++ tr'
       end
    /\ forall t local, locals !! t = Some local -> procs y !! t = Some (Ret tt) ->
         exists r, threads a !! t = Some (Ret r).
Proof.
  intros (als & ins & [d gs] & Hx & [Hps Hmu])%atomicity.
  destruct (atomic_related _ _ _ Hx) as (ls' & a & xs & Hr & (Hrep & Htr & _ & _ & Hth) & Hout).
  simpl in *. subst gs.
  exists ls', a, d, ins, xs. split_and!; [done|done|done|done| |].
  - unfold inside. destruct (mu y); [destruct Hmu as (-> & -> & _); done|].
    destruct Hmu as (tr & ? & -> & _). by exists tr.
  - intros t local Hl Hg. destruct (Hth _ _ Hg) as (p & Hp & Hd). rewrite Hp.
    destruct (doing_ended _ _ _ _ _ Hd eq_refl Hl) as [r ->]. eauto.
Qed.

Lemma doing_quiet als t g p d p0 :
  only no_pipe connect -> doing als t g p -> enters g d p0 -> only no_pipe p0.
Proof.
  intros Hq Hd He.
  assert (forall d, only no_pipe (drop_cur (T := T) d)) as Hdrop.
  { intros d0. unfold drop_cur. destruct (cur d0); [|done]. apply only_bind; [|done].
    eapply only_weaken; [|apply close_only]. by intros ev [->| ->]. }
  assert (forall A B (f : A -> prog netE B) p, only no_pipe p -> (forall a, only no_pipe (f a)) ->
    only no_pipe (bind f p)) as Hbind by (intros; by apply only_bind).
  destruct Hd as [local Hl|local n le Hl|local n s q tr0 Hl Hm Hn|local n s err Hl|local r Hl Hok
    |local r Hl Hok|r|Hl|Hl].
  - done.
  - rewrite He. apply Hbind; [|done]. unfold session. destruct (closed d); [done|].
    apply Hbind.
    + unfold cur_alive. destruct (cur d); [|done]. apply Hbind; [|done].
      eapply only_weaken; [|apply isClosed_only]. by intros ev [b ->].
    + intros [s|]; [done|]. apply Hbind; [done|]. intros d1. apply Hbind; [done|]. by intros [].
  - by destruct q.
  - rewrite He. apply Hbind; [|done]. unfold discard. apply Hbind; [|done]. by case_decide.
  - done.
  - by destruct Hok as [(err & ->)|(st & -> & _)].
  - done.
  - rewrite He. apply Hbind; [|done]. unfold Close. by apply Hbind.
  - done.
Qed.

Lemma relayed_stream_opened ls y y' t local st :
  only no_pipe connect -> execution step ls client_system y ->
  step (Shows t (EPipe local st)) y y' ->
  locals !! t = Some local
  /\ exists u pre tr0 post x, events_of u ls = pre ++ tr0 ++ post /\ runs connect tr0 (Ok x)
       /\ EOpen (mux_id x) (Ok st) ∈ events_of t ls.
Proof.
  intros Hq (als & ins & [d gs] & Hx & Hred)%atomicity Hstep.
  destruct (atomic_related _ _ _ Hx) as (ls' & a & xs & Hr & (Hrep & _ & _ & _ & Hth) & _). simpl in *.
  assert (forall u, exists rest, events_of u ls = shows u als ++ rest) as Hev.
  { destruct Hred as [_ Hmu]. intros u. destruct (mu y).
    - exists []. rewrite app_nil_r. by destruct Hmu as (_ & _ & ->).
    - destruct Hmu as (tr & _ & _ & ->). eauto. }
  destruct (shows_next _ _ _ _ _ _ _ _ Hred Hstep)
    as [(g & g' & Hg & Ho)|(p & p' & tr & _ & Hp & g & p0 & Hg & He & _ & Hon)].
  - simpl in Hg. destruct (Hth _ _ Hg) as (p & Hp & Hd).
    destruct Hd as [local0 Hl|local0 n le Hl|local0 n s q tr0 Hl Hm Hn Hno|local0 n s err Hl
      |local0 r Hl Hok|local0 r Hl Hok|r|Hl|Hl]; try done;
      try (by destruct Ho as ([] & _ & [=] & _)).
    + destruct q as [|X e k]; [done|]. destruct Ho as (x & Hc & Heq & _).
      destruct (Hno x Hc) as [Hn1 _]. by rewrite <- Heq in Hn1.
    + destruct Hok as [(err & ->)|(st' & -> & s & (u & tr0 & Hin & pre & tr1 & post & -> & Hr1) & Hop)];
        destruct Ho as ([] & _ & Heq & _); [done|]. injection Heq as -> ->. split; [done|].
      destruct (shows_block _ _ _ Hin) as (pre0 & post0 & Hblock).
      destruct (Hev u) as [rest Hu]. destruct (Hev t) as [rest' Ht].
      exists u, (pre0 ++ pre), tr1, (post ++ post0 ++ rest), (pointee s). split_and!; [|done|].
      * by rewrite Hu, Hblock, <- !(assoc_L (++)).
      * rewrite Ht. apply elem_of_app. by left.
  - simpl in Hg. destruct (Hth _ _ Hg) as (q & _ & Hd).
    pose proof (Hon _ (doing_quiet _ _ _ _ _ _ Hq Hd He)) as Hquiet.
    by destruct (performs_only _ _ _ _ Hp Hquiet).
Qed.

End system.

(** A client whose protocol has no sessions ([dialerFunc]): the goroutines
    share nothing, so one handler at a time is the general case. *)
Lemma dialed_stream_authenticated `{M : Mac} {KeyPair : Type} (c : @client KeyPair)
    dial local tr u l st :
  newDialer c = DialerFunc dial -> runs (handleLocal dial local) tr u -> EPipe l st ∈ tr ->
  l = local /\ exists pre, tr = pre ++ [EPipe local st] /\ connect_proof c pre.
Proof.
  unfold newDialer. repeat case_match; try done. intros [= <-].
  unfold handleLocal. intros (? & ? & _ & -> & Hbody)%runs_vis_bind Hin. cbn [bind] in Hbody.
  apply runs_bind in Hbody as (t1 & t2 & r & -> & Hd & Hrest).
  cbn [observe net_Effect net_observe] in Hin |- *. apply elem_of_cons in Hin as [?|Hin]; [done|].
  pose proof (only_emits _ _ (quiet_no_pipe _ (dialAuthenticated_quiet c)) _ _ Hd) as Hno.
  rewrite Forall_forall in Hno. apply elem_of_app in Hin as [Hin|Hin]; [by apply Hno in Hin|].
  destruct r as [conn|err]; inv_runs Hrest; cbn in Hin; in_trace Hin.
  split; [done|]. apply dialAuthenticated_ok in Hd as (pre & hs & -> & _ & Ha).
  eexists ([EWithTimeout (dialTimeout + handshakeTimeout)] ++ (pre ++ hs) ++ [ECancelTimeout]).
  split; [by rewrite <- !(assoc_L (++))|].
  exists conn, ([EWithTimeout (dialTimeout + handshakeTimeout)] ++ pre), hs, [ECancelTimeout].
  by rewrite <- !(assoc_L (++)).
Qed.

(** C2: What a client relays to is authenticated.  With smux or QUIC sessions,
    in every interleaving of its goroutines, a local connection is handed to
    the relay together with a stream only if before that some goroutine
    connected a session, with a complete client handshake on the connection
    that carries it, and this goroutine opened the stream on that session;
    with the other protocols, only if the stream is a connection that
    completed the handshake.  In both cases it is the local connection the
    goroutine was started for. *)
Theorem relayed_streams_authenticated `{M : Mac} {KeyPair T : Type} `{!muxSession T, !muxSession_laws T}
    (c : @client KeyPair) `{!connector c T} :
  (forall locals ls y y' t local st,
     execution step ls (client_system (connect c) locals) y ->
     step (Shows t (EPipe local st)) y y' ->
     locals !! t = Some local
     /\ exists u pre tr0 post x, events_of u ls = pre ++ tr0 ++ post
          /\ runs (connect c) tr0 (Ok x) /\ connect_proof c tr0
          /\ EOpen (mux_id x) (Ok st) ∈ events_of t ls)
  /\ (forall dial local tr u l st,
     newDialer c = DialerFunc dial -> runs (handleLocal dial local) tr u -> EPipe l st ∈ tr ->
     l = local /\ exists pre, tr = pre ++ [EPipe local st] /\ connect_proof c pre).
Proof.
  split; [|by apply dialed_stream_authenticated].
  intros locals ls y y' t local st Hx Hstep.
  destruct (relayed_stream_opened _ _ _ _ _ _ _ _ (connect_only c) Hx Hstep)
    as (Hl & u & pre & tr0 & post & x & Hu & Hr & Hin).
  split; [done|]. exists u, pre, tr0, post, x. eauto using connect_proves.
Qed.

(** ** Witnesses *)

(** One local connection on a tcpmux client: the goroutine connects a session
    on connection 5, opens stream 11 on it and relays. *)
Definition mux_client : @client unit :=
  mkClient (mkClientOptions TCPMux "198.51.100.7:8081" ":1080" "0123456789abcdef" "" DefaultKCP "" None)
    None.
Definition connect_trace : list event :=
  [EDial (AddrTCP "198.51.100.7:8081" dialTimeout keepAlive) (Ok 5)]
  ++ timed 5 (client_accept_trace 5 "0123456789abcdef" nonce_a nonce_b)
  ++ [ESmuxClient 5 muxConfig (Ok 9)].

Lemma connect_runs : runs (connect (T := smuxSession) mux_client) connect_trace (Ok (mkSmuxSession 9)).
Proof.
  unfold connect, smux_connector, wrap, connectMux, dialAuthenticated, connect_trace.
  apply runs_bind. eexists _, [], (Ok 9). rewrite app_nil_r. split; [reflexivity|]. split; [|done].
  apply runs_bind. rewrite (assoc_L (++)). eexists _, _, (Ok 5). split; [reflexivity|]. split.
  - apply runs_bind. eexists _, _, (Ok 5). split; [reflexivity|]. split.
    + unfold dialCarrier. by exists (Ok 5), [].
    + apply runs_bind. eexists _, [], (Ok tt). rewrite app_nil_r. split; [reflexivity|]. split; [|done].
      apply clientHandshake_ok. by exists nonce_a, nonce_b.
  - exists (Ok 9), []. done.
Qed.

Definition demo_start := client_system (connect (T := smuxSession) mux_client) [3].
Definition demo_labels : list label :=
  [Shows 0 (EWithTimeout (dialTimeout + handshakeTimeout))]
  ++ ([Locks 0] ++ (Shows 0 <$> connect_trace) ++ [Unlocks 0])
  ++ [Shows 0 (EOpen 9 (Ok 11)); Shows 0 ECancelTimeout].

Lemma demo_execution :
  exists y, execution step demo_labels demo_start y
    /\ (exists d, mu y = Free d /\ cur d = Some (mkPtr 0 (mkSmuxSession 9)))
    /\ procs y !! 1 = Some closer
    /\ exists y', step (Shows 0 (EPipe 3 11)) y y'.
Proof.
  pose (s := mkPtr 0 (mkSmuxSession 9)). unfold demo_start, client_system.
  eexists. split_and!.
  - eapply execution_app; [|eapply execution_app].
    + apply execution_one. eapply step_outside; [done|]. by exists tt.
    + eapply (section_runs 0 _ _ _ _ connect_trace _ (mkSessionDialer (Some s) false 1)); [done|done|].
      apply runs_bind. exists connect_trace, [], (Ok s, mkSessionDialer (Some s) false 1).
      rewrite app_nil_r. split; [done|]. split; [|done]. unfold session, cur_alive, drop_cur.
      cbn [closed cur newSessionDialer bind]. apply runs_bind. eexists connect_trace, [], _. rewrite app_nil_r. split; [done|].
      split; [exact connect_runs|done].
    + eapply execution_cons; [eapply step_outside; [done|]; by exists (Ok 11)|].
      apply execution_one. eapply step_outside; [done|]. by exists tt.
  - by eexists.
  - done.
  - eexists. eapply step_outside; [done|]. by exists tt.
Qed.

Lemma dialer_refines_witness :
  exists y, execution step demo_labels demo_start y
    /\ inside demo_labels = connect_trace
    /\ exists ls' a xs, dial_run ls' (Session.start 2) = Some a /\ Session.cur (dstate a) = Some 0
         /\ carries_out (connect (T := smuxSession) mux_client)
              (shown dial_step dial_events ls' (Session.start 2)) connect_trace [] xs.
Proof.
  destruct demo_execution as (y & Hx & (d0 & Hmu & Hc) & _). exists y. split; [exact Hx|].
  assert (Hin : inside demo_labels = connect_trace) by reflexivity. split; [exact Hin|].
  destruct (dialer_refines _ _ _ _ Hx) as (ls' & a & d & tr & xs & Hr & Hrep & _ & Hout & Hd & _).
  exists ls', a, xs. split; [exact Hr|]. rewrite Hmu in Hd. destruct Hd as [Hd Htr].
  split; [by rewrite (rep_cur _ _ Hrep), <- Hd, Hc|]. rewrite <- Hin, Htr. exact Hout.
Defined.

Lemma relayed_streams_authenticated_witness :
  exists y y', execution step demo_labels demo_start y /\ step (Shows 0 (EPipe 3 11)) y y'
    /\ exists u pre tr0 post, events_of u demo_labels = pre ++ tr0 ++ post
         /\ connect_proof mux_client tr0.
Proof.
  destruct demo_execution as (y & Hx & _ & _ & y' & Hs). exists y, y'. split; [exact Hx|].
  split; [exact Hs|].
  destruct (proj1 (relayed_streams_authenticated mux_client) _ _ _ _ _ _ _ Hx Hs)
    as (_ & u & pre & tr0 & post & x & Hu & _ & Hp & _).
  exists u, pre, tr0, post. split; [exact Hu|exact Hp].
Defined.
