(* ===== verification/SessionCount.v ===== *)
(** * No session is leaked, none is closed twice
      (src/internal/transport/session.go, client.go)

    The smux sessions and QUIC connections of a client, counted in what its
    goroutines show: starting one counts 1, closing it -1.  Each section of
    the dialer leaves the balance where the state says it is: on the current
    session.  [Dialer.v] has the goroutines, [Monitor.accounts] the argument
    that counts over every interleaving. *)

From S2P Require Import Prelude Lts GoLib Sha256 Proto Prog Net Auth Monitor Transport Dialer.

Local Open Scope Z_scope.

Section count.
Context {T : Type} `{!muxSession T, !muxSession_laws T}.
Context (connect : prog netE (result T)).

(** The connector starts the session it returns, and leaves none open when it
    fails. *)
Context (Hconnect : forall s tr r, runs connect tr r ->
  total (balance s) tr = match r with Ok x => counts (Some (mux_id x)) s | Err _ => 0 end).

Implicit Types d : @sessionDialer T.

(** The current session is the one that is open: 1 for it, 0 for all others. *)
Definition worth (s : nat) d : Z := counts ((fun p => mux_id (pointee p)) <$> cur d) s.

(** The state that [Close] leaves. *)
Definition shut d : Prop := closed d = true /\ cur d = None.

Lemma worth_none s d : cur d = None -> worth s d = 0.
Proof using. unfold worth. by intros ->. Qed.

(** What the sections of the dialer do. *)
Definition kept (s : nat) d (tr : list event) d' : Prop :=
  total (balance s) tr = worth s d' - worth s d /\ (shut d -> shut d').

Lemma drop_cur_counts s d tr d' :
  runs (drop_cur d) tr d' ->
  cur d' = None /\ closed d' = closed d /\ total (balance s) tr = - worth s d.
Proof using muxSession_laws0.
  unfold drop_cur, worth. destruct (cur d) as [p|] eqn:E.
  - intros (t1 & t2 & u & -> & Hc & [-> ->])%runs_bind. rewrite app_nil_r.
    split_and!; [done..|]. by eapply close_once.
  - intros [-> ->]. by rewrite E.
Qed.

Lemma cur_alive_counts s d tr o :
  runs (cur_alive d) tr o -> total (balance s) tr = 0 /\ forall p, o = Some p -> cur d = Some p.
Proof using muxSession_laws0.
  unfold cur_alive. destruct (cur d) as [p|]; [|by intros [-> ->]].
  intros (t1 & t2 & b & -> & Hb & [-> ->])%runs_bind. rewrite app_nil_r. split.
  - apply total_free. eapply Forall_impl; [exact (only_emits _ _ (isClosed_only _) _ _ Hb)|].
    by intros e [b' ->].
  - by destruct b; intros p' [= ->].
Qed.

Lemma session_kept s d tr r d' : runs (session connect d) tr (r, d') -> kept s d tr d'.
Proof using muxSession_laws0 Hconnect.
  unfold session, kept, shut. destruct (closed d) eqn:Ecl.
  { intros [-> [= -> ->]]. split; [cbn [total foldr]; lia|by rewrite Ecl]. }
  intros (t1 & t2 & alive & -> & [Ha _]%(cur_alive_counts s) & H)%runs_bind. rewrite total_app, Ha.
  destruct alive as [p|].
  { destruct H as [-> [= -> ->]]. split; [cbn [total foldr]; lia|by rewrite Ecl]. }
  apply runs_bind in H as (t3 & t4 & d1 & -> & Hd & H).
  apply (drop_cur_counts s) in Hd as (Hcur & Hcl & Hd).
  apply runs_bind in H as (t5 & t6 & res & -> & Hc%(Hconnect s) & H). rewrite !total_app, Hd, Hc.
  destruct res as [x|err]; destruct H as [-> [= -> ->]]; (split; [|naive_solver]).
  - change (worth s (mkSessionDialer _ _ _)) with (counts (Some (mux_id x)) s). cbn [total foldr]. lia.
  - rewrite (worth_none _ _ Hcur). cbn [total foldr]. lia.
Qed.

Lemma discard_kept s p d tr u d' : runs (discard p d) tr (u, d') -> kept s d tr d'.
Proof using muxSession_laws0.
  unfold discard, kept, shut. intros (t1 & t2 & d1 & -> & H & [-> [= -> ->]])%runs_bind.
  rewrite app_nil_r. case_decide.
  - apply (drop_cur_counts s) in H as (Hcur & Hcl & ->). split; [|naive_solver].
    rewrite (worth_none _ _ Hcur). lia.
  - destruct H as [-> ->]. split; [cbn [total foldr]; lia|done].
Qed.

Lemma Close_kept s d tr u d' : runs (Close d) tr (u, d') -> kept s d tr d' /\ shut d'.
Proof using muxSession_laws0.
  unfold Close, kept, shut. intros (t1 & t2 & d1 & -> & H & [-> [= -> ->]])%runs_bind.
  rewrite app_nil_r. apply (drop_cur_counts s) in H as (Hcur & Hcl & ->).
  split; [|done]. split; [|done]. rewrite (worth_none _ _ Hcur).
  change (worth s (mkSessionDialer (cur d) true (allocated d))) with (worth s d). lia.
Qed.

(** Outside their sections the goroutines start and close no session. *)
Abbreviation accountable s := (conforms (fun ev => balance s ev = 0) (kept s)).

Lemma dial_loop_accountable s n e : accountable s (dial_loop connect n e).
Proof using muxSession_laws0 Hconnect.
  revert e. induction n as [|n IH]; intros e; cbn [dial_loop]; [done|].
  split; [by apply session_kept|]. intros [p|err]; [|done].
  apply (conforms_bind _ _ (after_open _ p) (lift (open (pointee p)))).
  - apply conforms_lift. eapply only_weaken; [|apply open_only]. by intros ev [].
  - intros [st|err]; [done|]. unfold after_open. split; [by apply discard_kept|]. intros ?. apply IH.
Qed.

Lemma goroutines_accountable s locals : Forall (accountable s) (goroutines connect locals).
Proof using muxSession_laws0 Hconnect.
  unfold goroutines. apply Forall_app. split.
  - apply Forall_fmap, Forall_true. intros local x _. split; [done|].
    apply (conforms_bind _ _ (serve_local local) (Dial connect)); [exact (dial_loop_accountable s 2 None)|].
    intros [[st|] [err|]] u Hu; (split; [done|]); done.
  - apply Forall_singleton. split; [|done]. intros d tr u d' Hr. exact (proj1 (Close_kept s _ _ _ _ Hr)).
Qed.

(** The balance at every moment, and when the dialer has been closed. *)
Lemma counted s locals ls y d :
  execution step ls (client_system connect locals) y -> mu y = Free d ->
  total (balance s) (trace_of ls) = worth s d.
Proof using muxSession_laws0 Hconnect.
  intros Hx Hd.
  pose proof (accounts _ (worth s) (kept s) _ _ _ _ (fun _ _ _ Hk => proj1 Hk)
    (goroutines_accountable s locals) Hx) as [_ Hm].
  rewrite Hd in Hm. rewrite Hm, (worth_none s newSessionDialer) by done. lia.
Qed.

Lemma atomic_shut s als locals d gs :
  execution astep als (initial connect locals) (d, gs) ->
  Forall (accountable s) gs /\ (gs !! length locals = Some closer \/ shut d).
Proof using muxSession_laws0 Hconnect.
  remember (initial connect locals) as a0 eqn:E0. remember (d, gs) as a1 eqn:E1.
  intros Hx. revert d gs E1. induction Hx as [|als [t tr] a0 [d1 gs1] a2 _ IH Hstep]; intros d gs ->.
  - injection E0 as -> ->. split; [apply goroutines_accountable|]. left.
    unfold goroutines. rewrite lookup_app_r by (by rewrite length_fmap). by rewrite length_fmap, Nat.sub_diag.
  - destruct (IH E0 _ _ eq_refl) as [Hall Hcl].
    destruct (conforms_astep _ _ _ _ _ _ _ _ Hstep Hall) as [Hall' Hk]. split; [done|].
    inversion Hstep as [? g ? ? g' ? ? Hg Hact]; subst.
    destruct Hcl as [Hcl|Hs].
    + destruct (decide (t = length locals)) as [->|Hne]; [|left; by rewrite list_lookup_insert_ne].
      right. rewrite Hg in Hcl. injection Hcl as ->.
      destruct Hact as [(ev & _ & [] & _)|(p & -> & Hr)].
      apply runs_bind in Hr as (t1 & t2 & [u d2] & -> & Hr & [_ [= -> ->]]).
      by apply (Close_kept s) in Hr as [_ ?].
    + right. destruct Hk as [->|[_ Hk]]; auto.
Qed.

Lemma closed_shut locals ls y d :
  execution step ls (client_system connect locals) y -> mu y = Free d ->
  procs y !! length locals = Some (Ret tt) -> shut d.
Proof using muxSession_laws0 Hconnect.
  intros (als & ins & [d' gs] & Hx%acting_execution & [Hps Hmu])%atomicity Hd Hl. rewrite Hd in Hmu.
  destruct Hmu as [<- _]. simpl in *. subst gs.
  destruct (atomic_shut 0 _ _ _ _ Hx) as [_ [Hc|Hs]]; [by rewrite Hl in Hc|done].
Qed.

End count.

(** C8: The client leaks no session and closes none twice: whatever the
    interleaving of the goroutines that serve local connections and of the one
    that closes the dialer, and whatever the network answers, whenever the
    mutex is free the smux sessions and QUIC connections that were started
    and not closed since are the current one, or none: each session's starts
    less its closings are 1 for the current one and 0 for every other.  Once
    the closing goroutine has ended the dialer is shut, no session is current,
    and every session that was started, then or later, has been closed exactly
    as often. *)
Theorem sessions_accounted `{M : Mac} {KeyPair T : Type} `{!muxSession T, !muxSession_laws T}
    (c : @client KeyPair) `{!connector c T} locals ls y d :
  execution step ls (client_system (connect c) locals) y -> mu y = Free d ->
  (forall s, total (balance s) (trace_of ls) = worth s d)
  /\ (procs y !! length locals = Some (Ret tt) ->
      cur d = None /\ forall s, total (balance s) (trace_of ls) = 0).
Proof.
  intros Hx Hd. pose proof (fun s => counted _ (connect_once c) s _ _ _ _ Hx Hd) as Hc.
  split; [exact Hc|]. intros Hl.
  destruct (closed_shut _ (connect_once c) _ _ _ _ Hx Hd Hl) as [_ Hcur]. split; [done|].
  intros s. rewrite Hc. by apply worth_none.
Qed.

(** ** Witness *)

(** The client of [demo_execution], then its dialer is closed. *)
Definition shut_labels : list label :=
  demo_labels ++ ([Locks 1] ++ (Shows 1 <$> [ESmuxClose 9]) ++ [Unlocks 1]).

Lemma sessions_accounted_witness :
  (exists y d, execution step demo_labels demo_start y /\ mu y = Free d
     /\ total (balance 9) (trace_of demo_labels) = 1 /\ cur d <> None)
  /\ exists y d, execution step shut_labels demo_start y /\ mu y = Free d
     /\ procs y !! 1%nat = Some (Ret tt) /\ total (balance 9) (trace_of shut_labels) = 0 /\ cur d = None.
Proof.
  destruct demo_execution as (y & Hx & (d & Hmu & Hc) & Hg & _). split.
  - exists y, d. split; [exact Hx|]. split; [exact Hmu|].
    rewrite (proj1 (sessions_accounted mux_client _ _ _ _ Hx Hmu)). unfold worth. rewrite Hc.
    split; [reflexivity|discriminate].
  - destruct y as [m ps]. simpl in Hmu, Hg. subst m.
    assert (Hx2 : execution step shut_labels demo_start
      (mkSystem (Free (mkSessionDialer None true (allocated d))) (<[1%nat := Ret tt]> ps))).
    { eapply execution_app; [exact Hx|]. eapply section_runs; [exact Hg|reflexivity|].
      unfold Close, drop_cur. cbn [cur]. rewrite Hc. exists tt, []. split; [exact I|].
      split; [reflexivity|]. split; reflexivity. }
    eexists _, _. split; [exact Hx2|]. split; [reflexivity|].
    assert (Hl : <[1%nat := Ret tt]> ps !! 1%nat = Some (Ret tt)).
    { apply list_lookup_insert_eq. by eapply lookup_lt_Some. }
    split; [exact Hl|].
    destruct (proj2 (sessions_accounted mux_client _ _ _ _ Hx2 eq_refl) Hl) as [Hcur Hz].
    split; [apply Hz|exact Hcur].
Defined.
