(* ===== verification/Serve.v ===== *)
(** * Package [transport]: the server side
      (src/internal/transport/server.go, stealth.go, udp.go)

    What the server does with every accepted connection and stream, and the
    dispatch of [Serve].  The loops that accept streams take the number of
    iterations to unfold as fuel: [None] is a loop still running after that
    many streams, [Some tt] a function that has returned (its deferred calls
    included). *)

From S2P Require Import Prelude GoLib Sha256 Proto Config Prog Net Auth TlsUtil Transport.

Local Open Scope Z_scope.

Section serve.
Context `{M : Mac} {KeyPair : Type}.
Implicit Types s : @server KeyPair.

(** [close] is the [Close] of the stream: one call on connections and smux
    streams, [quicStream_Close] on QUIC streams. *)
Definition handleStream s (st : nat) (close : prog netE unit) : prog netE unit :=
  do! target := call (Dial (AddrTCP (so_Target (s_opts s)) dialTimeout keepAlive));
  match target with
  | Err _ => close
  | Ok target => call (PipeConns st target)
  end.

Definition handleQUICStream s (st : nat) : prog netE unit :=
  do! marker := call (ReadFull st 1);
  match marker with
  | Ok m => if bool_decide (m = [quicStreamMarker]) then handleStream s st (quicStream_Close st)
            else quicStream_Close st
  | Err _ => quicStream_Close st
  end.

(** [for { st, err := sess.AcceptStream(); if err != nil { return }; go ... }] *)
Fixpoint acceptStreams (fuel : nat) (sess : nat) (spawn : nat -> goroutine)
    : prog netE (option unit) :=
  match fuel with
  | O => Ret None
  | S fuel =>
      do! st := call (AcceptStream sess);
      match st with
      | Err _ => Ret (Some tt)
      | Ok st => run! call (Go (spawn st)); acceptStreams fuel sess spawn
      end
  end.

(** Deferred calls, made once the body has returned. *)
Definition deferred (fin : option unit) (p : prog netE unit) : prog netE (option unit) :=
  match fin with
  | None => Ret None
  | Some _ => run! p; Ret (Some tt)
  end.

(** The part of [handleConn] after [defer context.AfterFunc(...)()]. *)
Definition handleConn_body s (fuel conn : nat) : prog netE (option unit) :=
  do! h := serverHandshake conn (so_Token (s_opts s));
  match h with
  | Err _ => run! call (Close conn); Ret (Some tt)
  | Ok _ =>
      if negb (Mux (so_Protocol (s_opts s))) then run! handleStream s conn (call (Close conn)); Ret (Some tt)
      else
        do! sess := call (SmuxServer conn muxConfig);
        match sess with
        | Err _ => run! call (Close conn); Ret (Some tt)
        | Ok sess =>
            do! fin := acceptStreams fuel sess GoHandleStream;
            deferred fin (call (SmuxClose sess))
        end
  end.

Definition handleConn s (fuel conn : nat) : prog netE (option unit) :=
  run! call (AfterFuncClose conn);
  do! fin := handleConn_body s fuel conn;
  deferred fin (call (StopAfterFunc conn)).

Definition serveQUICConn_body s (fuel conn : nat) : prog netE (option unit) :=
  run! call (WithTimeout handshakeTimeout);
  do! raw := call (AcceptStream conn);
  run! call CancelTimeout;
  match raw with
  | Err _ => Ret (Some tt)
  | Ok authStream =>
      do! h := serverHandshake authStream (so_Token (s_opts s));
      match h with
      | Err _ => Ret (Some tt)
      | Ok _ => run! quicStream_Close authStream; acceptStreams fuel conn GoHandleQUICStream
      end
  end.

Definition serveQUICConn s (fuel conn : nat) : prog netE (option unit) :=
  do! fin := serveQUICConn_body s fuel conn;
  deferred fin (call (CloseWithError conn)).

(** The body of each goroutine the server starts for a stream. *)
Definition goroutine_body s (fuel : nat) (g : goroutine) : prog netE unit :=
  match g with
  | GoHandleStream st => handleStream s st (call (Close st))
  | GoHandleQUICStream st => handleQUICStream s st
  | GoServeQUICConn c => run! serveQUICConn s fuel c; Ret tt
  end.

(** ** Listening *)

(** [defer context.AfterFunc(ctx, ln.Close)(); AcceptLoop(ctx, ln, h)] *)
Definition accept_on (ln : nat) (h : handler) : prog netE (result unit) :=
  run! call (AfterFuncClose ln);
  run! call (AcceptLoopOn ln h);
  run! call (StopAfterFunc ln);
  Ret (Ok tt).

Definition serveTCP s : prog netE (result unit) :=
  let! ln := call (Listen (ListenTCP (so_ListenAddr (s_opts s)) keepAlive)) or Wrapf "listen: %w" [];
  accept_on ln HandleTCP.

(** The server reads the request for the websocket under [ReadHeaderTimeout],
    and is closed when the context is done; [http.ErrServerClosed] is the
    normal end. *)
Definition serveWebSocket s : prog netE (result unit) :=
  do! srv := call NewHTTPServer;
  run! call (AfterFuncClose srv);
  do! err := call (ServeHTTP srv (TLS (so_Protocol (s_opts s))) (so_ListenAddr (s_opts s))
                     (String.append "/" (so_Protocol (s_opts s))) handshakeTimeout);
  run! call (StopAfterFunc srv);
  match err with
  | Err err => if errors_Is err "http.ErrServerClosed" then Ret (Ok tt) else Ret (Err err)
  | Ok _ => Ret (Ok tt)
  end.

Definition serveKCP s : prog netE (result unit) :=
  let! key := kcpBlockCrypt (so_Token (s_opts s)) or id;
  let k := so_KCP (s_opts s) in
  let! ln := call (Listen (ListenKCP (so_ListenAddr (s_opts s)) key (DataShards k) (ParityShards k)))
    or Wrapf "listen: %w" [];
  accept_on ln HandleKCP.

Fixpoint acceptQUIC (fuel : nat) (ln : nat) : prog netE (option (result unit)) :=
  match fuel with
  | O => Ret None
  | S fuel =>
      do! conn := call (AcceptQUIC ln);
      match conn with
      | Err err =>
          do! ctx_done := call CtxDone;
          if ctx_done : bool then Ret (Some (Ok tt))
          else Ret (Some (Err (Wrapf "accept: %w" [] err)))
      | Ok conn => run! call (Go (GoServeQUICConn conn)); acceptQUIC fuel ln
      end
  end.

Definition serveQUIC s (fuel : nat) : prog netE (option (result unit)) :=
  do! ln := call (Listen (ListenQUIC (so_ListenAddr (s_opts s)) quicConfig));
  match ln with
  | Err err => Ret (Some (Err (Wrapf "listen: %w" [] err)))
  | Ok ln =>
      do! r := acceptQUIC fuel ln;
      match r with
      | None => Ret None
      | Some r => run! call (Close ln); Ret (Some r)
      end
  end.

(** [serveUDP] (udp.go): [UdpRelay.serveUDP] is the relay it runs. *)
Definition server_UDP s : prog netE (result unit) :=
  let! dial := dialUDPFunc (so_Target (s_opts s)) or id;
  let! conn := listenUDP (so_ListenAddr (s_opts s)) or id;
  call (RunUDPRelay conn dial).

Definition stealth_service s : shadowtls_ServiceConfig := {|
  ssc_Version := stealthProtocolLevel;
  ssc_Users := [(stealthUser, so_Token (s_opts s))];
  ssc_HandshakeServer := so_StealthHandshake (s_opts s);
  ssc_StrictMode := true;
|}.

Definition serveStealth s : prog netE (result unit) :=
  let! _ := call (NewShadowTLSService (stealth_service s)) or
    Wrapf "create stealth service: %w" [];
  let! ln := call (Listen (ListenTCP (so_ListenAddr (s_opts s)) keepAlive)) or Wrapf "listen: %w" [];
  accept_on ln HandleStealth.

(** [stealthHandler.NewConnectionEx]: serve the connection, then tell the
    service, unless its callback is nil. *)
Definition NewConnectionEx s (fuel conn : nat) (onClose : option (prog netE unit))
    : prog netE (option unit) :=
  do! fin := handleConn s fuel conn;
  deferred fin (match onClose with Some f => f | None => Ret tt end).

(** The handlers of the accept loops; [service] is what the ShadowTLS service
    does with a connection: call its handler on the authenticated one, or
    relay it to the real site, or fail. *)
Definition connection_handler s (fuel : nat)
    (service : nat -> prog netE (result (option (nat * option (prog netE unit)))))
    (h : handler) (conn : nat) : prog netE (option unit) :=
  match h with
  | HandleKCP => run! tuneKCP conn (so_KCP (s_opts s)); handleConn s fuel conn
  | HandleStealth =>
      do! r := service conn;
      match r with
      | Ok (Some (c, onClose)) => NewConnectionEx s fuel c onClose
      | Ok None => Ret (Some tt)
      | Err _ => run! call (Close conn); Ret (Some tt)
      end
  | _ => handleConn s fuel conn
  end.

(** The HTTP handler of [serveWebSocket]; [ws] is the result of [Upgrade]. *)
Definition websocket_handler s (fuel : nat) (ws : result nat) : prog netE (option unit) :=
  match ws with
  | Err _ => Ret (Some tt)
  | Ok ws => handleConn s fuel ws
  end.

Definition finished (p : prog netE (result unit)) : prog netE (option (result unit)) :=
  do! r := p; Ret (Some r).

Definition unsupported (p : Name) : error := Errorf "transport: unsupported protocol %q" [FStr p].

(** The [switch] of [Serve]. *)
Definition Serve s (fuel : nat) : prog netE (option (result unit)) :=
  let p := so_Protocol (s_opts s) in
  if bool_decide (p ∈ [TCP; TCPMux]) then finished (serveTCP s)
  else if bool_decide (p ∈ [WS; WSS; WSMux; WSSMux]) then finished (serveWebSocket s)
  else if decide (p = UTCPMux) then finished (serveKCP s)
  else if decide (p = QUIC) then serveQUIC s fuel
  else if decide (p = UDP) then finished (server_UDP s)
  else if decide (p = Stealth) then finished (serveStealth s)
  else Ret (Some (Err (unsupported p))).

End serve.

Section lemmas.
Context `{M : Mac} {KeyPair : Type}.
Implicit Types s : @server KeyPair.

(** Reaching the target, or starting to serve streams. *)
Definition service (e : event) : bool :=
  match e with
  | EDial _ _ | EPipe _ _ | ESmuxServer _ _ _ | EGo _ => true
  | _ => false
  end.

Lemma conversation_no_service e : conversation e = true -> service e = false.
Proof. by destruct e. Qed.

(** The trace of a server handshake that accepted the peer. *)
Definition proof_of_token s (conn : nat) (tr : list event) : Prop :=
  exists cn sn, length cn = NonceSize /\ length sn = NonceSize
    /\ tr = timed conn (server_accept_trace conn (so_Token (s_opts s)) cn sn).

Lemma serverHandshake_service s conn tr r e :
  runs (serverHandshake conn (so_Token (s_opts s))) tr r -> e ∈ tr -> service e = false.
Proof.
  intros Hr Hin. pose proof (serverHandshake_conversation _ _ _ _ Hr) as Hall.
  rewrite Forall_forall in Hall. by apply conversation_no_service, Is_true_true, Hall.
Qed.

Lemma acceptStreams_runs fuel sess spawn tr fin :
  runs (acceptStreams fuel sess spawn) tr fin ->
  exists sts, (length sts <= fuel)%nat
    /\ match fin with
       | None => length sts = fuel
           /\ tr = concat ((fun st => [EAccept sess (Ok st); EGo (spawn st)]) <$> sts)
       | Some _ => exists err,
           tr = concat ((fun st => [EAccept sess (Ok st); EGo (spawn st)]) <$> sts)
                ++ [EAccept sess (Err err)]
       end.
Proof.
  revert tr. induction fuel as [|fuel IH]; intros tr H.
  { destruct H as [-> ->]. by exists []. }
  cbn [acceptStreams] in H. apply runs_vis_bind in H as (r & t & _ & -> & H).
  destruct r as [st|err].
  - apply runs_vis_bind in H as (r & t' & _ & -> & H). apply IH in H as (sts & Hle & Hsts).
    exists (st :: sts). split; [simpl; lia|].
    destruct fin; [destruct Hsts as (err & ->); by exists err|].
    destruct Hsts as [<- ->]. done.
  - destruct H as [-> ->]. exists []. split; [simpl; lia|]. by exists err.
Qed.

Lemma handleConn_body_service s fuel conn tr fin e :
  runs (handleConn_body s fuel conn) tr fin -> e ∈ tr -> service e = true ->
  exists hs rest, tr = hs ++ rest /\ proof_of_token s conn hs.
Proof.
  unfold handleConn_body. intros (t1 & t2 & [u|err] & -> & Hhs & H)%runs_bind Hin He.
  - apply serverHandshake_ok in Hhs. by exists t1, t2.
  - apply elem_of_app in Hin as [Hin|Hin].
    + by rewrite (serverHandshake_service _ _ _ _ _ Hhs Hin) in He.
    + inv_runs H. cbn in Hin. in_trace Hin; done.
Qed.

Lemma deferred_runs fin (p : prog netE unit) tr fin' :
  runs (deferred fin p) tr fin' ->
  match fin with
  | None => tr = [] /\ fin' = None
  | Some _ => fin' = Some tt /\ runs p tr tt
  end.
Proof.
  destruct fin; simpl; [|done]. intros (t1 & t2 & [] & -> & Hp & -> & ->)%runs_bind.
  by rewrite app_nil_r.
Qed.

(** C3: Nothing is done for a peer before it has proved knowledge of the token:
    if handling a connection ever reaches the target, relays, starts a smux
    session or a goroutine, its trace begins with a complete handshake on that
    connection, under the deadline, whose last read is the client's correct
    proof for a nonce the server drew.  For QUIC the handshake is on the first
    stream of the connection. *)
Theorem no_service_before_proof s fuel conn tr fin e :
  service e = true -> e ∈ tr ->
  (runs (handleConn s fuel conn) tr fin ->
     exists hs rest, tr = EAfterFunc conn :: hs ++ rest /\ proof_of_token s conn hs)
  /\ (runs (serveQUICConn s fuel conn) tr fin ->
     exists st hs rest, tr = [EWithTimeout handshakeTimeout; EAccept conn (Ok st); ECancelTimeout]
             ++ hs ++ [ECancelRead st; EClose st] ++ rest
       /\ proof_of_token s st hs).
Proof.
  intros He Hin. split.
  - unfold handleConn. intros (r & t & _ & -> & H)%runs_vis_bind.
    cbn [bind] in H. apply runs_bind in H as (t1 & t2 & fin1 & -> & Hbody & Hdef).
    cbn [observe net_Effect net_observe] in Hin |- *.
    assert (He1 : e ∈ t1).
    { apply deferred_runs in Hdef. apply elem_of_cons in Hin as [->|Hin]; [done|].
      apply elem_of_app in Hin as [?|Hin]; [done|]. exfalso. destruct fin1.
      - destruct Hdef as [_ [_ ->]%runs_call]. cbn in Hin. in_trace Hin; done.
      - destruct Hdef as [-> _]. in_trace Hin. }
    destruct (handleConn_body_service _ _ _ _ _ _ Hbody He1 He) as (hs & rest & -> & Hp).
    exists hs, (rest ++ t2). by rewrite <- (assoc_L (++)).
  - unfold serveQUICConn, serveQUICConn_body.
    intros (t0 & t3 & fin1 & -> & Hbody & Hdef)%runs_bind. apply deferred_runs in Hdef.
    assert (He3 : e ∉ t3).
    { intros Hin3. destruct fin1.
      - destruct Hdef as [_ [_ ->]%runs_call]. cbn in Hin3. in_trace Hin3; done.
      - destruct Hdef as [-> _]. in_trace Hin3. }
    apply elem_of_app in Hin as [Hin|?]; [|done].
    apply runs_vis_bind in Hbody as (? & ? & _ & -> & H).
    apply runs_vis_bind in H as (r & ? & _ & -> & H).
    apply runs_vis_bind in H as (? & t & _ & -> & H).
    cbn [bind observe net_Effect net_observe] in Hin, H |- *.
    do 3 (apply elem_of_cons in Hin as [->|Hin]; [done|]).
    destruct r as [st|err]; [|destruct H as [-> _]; in_trace Hin].
    apply runs_bind in H as (t1 & t2 & [u|err] & -> & Hhs & H).
    + apply serverHandshake_ok in Hhs. unfold quicStream_Close in H. inv_runs H.
      inv_runs Hrun. exists st, t1, (tr0 ++ t3). split; [|done].
      cbn. by rewrite <- !(assoc_L (++)).
    + destruct H as [-> _]. rewrite app_nil_r in Hin.
      by rewrite (serverHandshake_service _ _ _ _ _ Hhs Hin) in He.
Qed.

Lemma handleStream_runs s st close tr :
  runs (handleStream s st close) tr tt ->
  (exists target, tr = [EDial (AddrTCP (so_Target (s_opts s)) dialTimeout keepAlive) (Ok target); EPipe st target])
  \/ (exists err tr', tr = EDial (AddrTCP (so_Target (s_opts s)) dialTimeout keepAlive) (Err err) :: tr'
      /\ runs close tr' tt).
Proof.
  unfold handleStream. intros ([target|err] & t & _ & -> & H)%runs_vis_bind; cbn [bind] in H; [|eauto].
  apply runs_call in H as [_ ->]. cbn. eauto.
Qed.

(** Every stream of an authenticated session is served by its own
    goroutine, in the order of acceptance, until accepting fails; such a
    goroutine dials the configured target and either relays the stream to it
    or, when dialling fails, closes the stream.  A QUIC stream is relayed only
    if its first byte is the marker the client's [quicSession.open] writes;
    any other first byte, or none, closes both directions without dialling. *)
Theorem streams_served s fuel sess spawn tr :
  (forall fin, runs (acceptStreams fuel sess spawn) tr fin ->
     exists sts tail, (length sts <= fuel)%nat
       /\ tr = concat ((fun st => [EAccept sess (Ok st); EGo (spawn st)]) <$> sts) ++ tail
       /\ match fin with
          | None => length sts = fuel /\ tail = []
          | Some _ => exists err, tail = [EAccept sess (Err err)]
          end)
  /\ (forall st close, runs (handleStream s st close) tr tt ->
     (exists target, tr = [EDial (AddrTCP (so_Target (s_opts s)) dialTimeout keepAlive) (Ok target); EPipe st target])
     \/ (exists err tr', tr = EDial (AddrTCP (so_Target (s_opts s)) dialTimeout keepAlive) (Err err) :: tr'
         /\ runs close tr' tt))
  /\ (forall st, runs (handleQUICStream s st) tr tt ->
     (exists rest, tr = ERead st 1 (Ok [quicStreamMarker]) :: rest /\ runs (handleStream s st (quicStream_Close st)) rest tt)
     \/ (exists r, r <> Ok [quicStreamMarker] /\ tr = [ERead st 1 r; ECancelRead st; EClose st])).
Proof.
  split_and!.
  - intros fin (sts & Hle & Hfin)%acceptStreams_runs. exists sts. destruct fin.
    + destruct Hfin as (err & ->). eexists. split_and!; eauto.
    + destruct Hfin as [Hl ->]. exists []. by rewrite app_nil_r.
  - intros st close. apply handleStream_runs.
  - unfold handleQUICStream, quicStream_Close. intros st (r & t & _ & -> & H)%runs_vis_bind.
    cbn [bind observe net_Effect net_observe] in H |- *. destruct r as [m|err].
    + case_bool_decide as Hm; [subst; eauto|]. right. exists (Ok m). split; [congruence|].
      inv_runs H. done.
    + right. exists (Err err). split; [done|]. inv_runs H. done.
Qed.

(** What becomes of the connection of a [handleConn] that has returned. *)
Definition disposed (tr : list event) (conn : nat) : Prop :=
  EClose conn ∈ tr \/ (exists target, EPipe conn target ∈ tr)
  \/ (exists cfg sess, ESmuxServer conn cfg (Ok sess) ∈ tr /\ ESmuxClose sess ∈ tr).

Lemma disposed_app_r tr1 tr2 conn : disposed tr2 conn -> disposed (tr1 ++ tr2) conn.
Proof. unfold disposed. set_solver. Qed.
Lemma disposed_app_l tr1 tr2 conn : disposed tr1 conn -> disposed (tr1 ++ tr2) conn.
Proof. unfold disposed. set_solver. Qed.

Lemma handleConn_body_disposed s fuel conn tr u :
  runs (handleConn_body s fuel conn) tr (Some u) -> disposed tr conn.
Proof.
  unfold handleConn_body. intros (t1 & t2 & h & -> & Hhs & H)%runs_bind. apply disposed_app_r.
  destruct h as [u'|err]; [|inv_runs H; left; cbn; find_in_trace].
  destruct (Mux _); simpl negb in H; cbv iota in H.
  - apply runs_vis_bind in H as (r & t & _ & -> & H). cbn [bind] in H.
    destruct r as [sess|err]; [|inv_runs H; left; cbn; find_in_trace].
    apply runs_bind in H as (t3 & t4 & fin & -> & _ & H). apply deferred_runs in H.
    destruct fin; [|by destruct H as [_ [=]]]. destruct H as [_ [_ ->]%runs_call].
    right; right. exists muxConfig, sess. cbn. find_in_trace.
  - apply runs_bind in H as (t3 & t4 & [] & -> & Hst & H). apply disposed_app_l.
    apply handleStream_runs in Hst as [(target & ->)|(err & tr' & -> & [_ ->]%runs_call)].
    + right; left. exists target. find_in_trace.
    + left. find_in_trace.
Qed.

(** C36: Cleaning up: when [handleConn] returns, its connection has been closed,
    or handed to [Pipe], or its smux session closed, and only then is the
    cancellation callback that would close it unregistered; while it has not
    returned the callback stays registered.  A QUIC connection is always
    closed when its handler returns. *)
Theorem handler_releases_connection s fuel conn tr fin :
  (runs (handleConn s fuel conn) tr fin ->
     exists body, runs (handleConn_body s fuel conn) body fin
       /\ tr = EAfterFunc conn :: body ++ (match fin with Some _ => [EStopAfterFunc conn] | None => [] end)
       /\ (fin <> None -> disposed body conn))
  /\ (runs (serveQUICConn s fuel conn) tr fin -> fin <> None ->
     exists body, tr = body ++ [ECloseWithError conn]).
Proof.
  split.
  - unfold handleConn. intros (r & t & _ & -> & H)%runs_vis_bind. cbn [bind] in H.
    apply runs_bind in H as (t1 & t2 & fin1 & -> & Hbody & Hdef). apply deferred_runs in Hdef.
    exists t1. destruct fin1 as [[]|].
    + destruct Hdef as [-> [_ ->]%runs_call]. split_and!; [done..|].
      intros _. eauto using handleConn_body_disposed.
    + by destruct Hdef as [-> ->].
  - unfold serveQUICConn. intros (t1 & t2 & fin1 & -> & Hbody & Hdef)%runs_bind Hfin.
    apply deferred_runs in Hdef. destruct fin1.
    + destruct Hdef as [_ [_ ->]%runs_call]. by exists t1.
    + by destruct Hdef as [_ ->].
Qed.

(** ** The two ends speak the same carrier *)

(** What is listened on or dialled, up to host and port. *)
Inductive endpoint_kind : Type :=
| KindTCP
| KindHTTP (tls : bool) (path : string)
| KindKCP (key : bytes) (dataShards parityShards : Z)
| KindQUIC (cfg : quic_Config)
| KindUDP
| KindMismatch.   (* a scheme that contradicts the TLS configuration *)

(** The carrier of a protocol. *)
Definition kind_of (p : Name) (token : string) (k : KCP) : endpoint_kind :=
  if WebSocket p then KindHTTP (TLS p) (String.append "/" p)
  else if decide (p = UTCPMux) then
    KindKCP (DeriveKey token "kcp") (DataShards k) (ParityShards k)
  else if decide (p = QUIC) then KindQUIC quicConfig
  else if decide (p = UDP) then KindUDP
  else KindTCP.

Definition served_kind (e : event) : option endpoint_kind :=
  match e with
  | EListen (ListenTCP _ _) _ => Some KindTCP
  | EListen (ListenUDP _) _ => Some KindUDP
  | EListen (ListenKCP _ key ds ps) _ => Some (KindKCP key ds ps)
  | EListen (ListenQUIC _ cfg) _ => Some (KindQUIC cfg)
  | EServeHTTP _ tls _ pattern _ _ => Some (KindHTTP tls pattern)
  | _ => None
  end.

Definition dialed_kind (e : event) : option endpoint_kind :=
  match e with
  | EUDPRelay _ _ _ => Some KindUDP       (* datagrams to the server, from one socket per peer *)
  | EDial a _ | EDialQUIC a _ =>
      Some match a with
           | AddrTCP _ _ _ => KindTCP
           | AddrWebSocket scheme _ path tls _ =>
               if decide (scheme = (if tls then "wss" else "ws")%string)
               then KindHTTP tls path else KindMismatch
           | AddrKCP _ key ds ps => KindKCP key ds ps
           | AddrQUIC _ cfg => KindQUIC cfg
           end
  | _ => None
  end.

Definition of_kind (kind_of_event : event -> option endpoint_kind) (k : endpoint_kind)
    (e : event) : Prop :=
  match kind_of_event e with Some k' => k' = k | None => True end.

(** The only key [kcpBlockCrypt] yields is the one derived from the token. *)
Lemma kcpBlockCrypt_emits {A} P (f : result bytes -> prog netE A) token :
  (forall r, P (EBlockCrypt (DeriveKey token "kcp") r)) ->
  (forall err, emits P (f (Err err))) -> emits P (f (Ok (DeriveKey token "kcp"))) ->
  emits P (bind f (kcpBlockCrypt token)).
Proof.
  intros He Herr Hok tr a (t1 & t2 & r & -> & Hr & Hf)%runs_bind.
  unfold kcpBlockCrypt in Hr. inv_runs Hr; simplify_eq; apply Forall_cons.
  - split; [apply He|by eapply Hok].
  - split; [apply He|by eapply Herr].
Qed.

Lemma acceptQUIC_kind fuel ln k : emits (of_kind served_kind k) (acceptQUIC fuel ln).
Proof. induction fuel; cbn [acceptQUIC]; emits_all. Qed.

Lemma Serve_kind s fuel :
  so_Protocol (s_opts s) ∈ supported ->
  emits (of_kind served_kind
    (kind_of (so_Protocol (s_opts s)) (so_Token (s_opts s)) (so_KCP (s_opts s)))) (Serve s fuel).
Proof.
  intros Hp. destruct s as [[p a tg tok cp kp k sh] t]. cbn [s_opts so_Protocol] in Hp.
  supported_cases Hp;
    unfold Serve, kind_of, finished, serveTCP, serveWebSocket, serveKCP, serveQUIC, server_UDP,
      dialUDPFunc, listenUDP, serveStealth, accept_on, WebSocket, TLS;
    cbn [s_opts so_Protocol so_Token so_KCP so_ListenAddr]; name_ifs;
    repeat first [ apply kcpBlockCrypt_emits; intros; try done | emits_step; try done ];
    apply acceptQUIC_kind.
Qed.

(** [Serve] recognises every supported protocol: only the last case of the
    [switch] does nothing. *)
Lemma Serve_acts s fuel tr fin :
  so_Protocol (s_opts s) ∈ supported -> runs (Serve s fuel) tr fin -> tr <> [].
Proof.
  intros Hp Hr ->. destruct s as [[p a tg tok cp kp k sh] t]. cbn [s_opts so_Protocol] in Hp. revert Hr.
  supported_cases Hp;
    unfold Serve, finished, serveTCP, serveWebSocket, serveKCP, serveQUIC, server_UDP, kcpBlockCrypt,
      dialUDPFunc, listenUDP, serveStealth;
    cbn [s_opts so_Protocol so_Token so_KCP so_ListenAddr]; name_ifs; cbn [bind call];
    by intros (x & t' & _ & [=] & _).
Qed.

Lemma clientHandshake_kind conn token k : emits (of_kind dialed_kind k) (clientHandshake conn token).
Proof.
  eapply emits_weaken; [|apply clientHandshake_conversation]. by intros [].
Qed.

(** A client [NewClient] returned has a TLS configuration iff it needs one. *)
Lemma NewClient_tls pem_Decode fs o (c : @client KeyPair) :
  NewClient pem_Decode fs o = Ok c ->
  c_opts c = o /\ co_Protocol o ∈ supported
  /\ match c_tls c with Some _ => true | None => false end = TLS (co_Protocol o).
Proof.
  unfold NewClient. destruct (Parse (co_Protocol o)) as [n|e] eqn:Hp; [|done].
  apply Parse_ok in Hp as [-> Hp]. destruct (_ && _); [done|].
  destruct (TLS (co_Protocol o)); [|by intros [= <-]].
  destruct (PinnedClientConfig _ _ _ _); [|done]. by intros [= <-].
Qed.

Lemma dialCarrier_kind (c : @client KeyPair) :
  co_Protocol (c_opts c) ∈ supported -> co_Protocol (c_opts c) ∉ [QUIC; UDP] ->
  match c_tls c with Some _ => true | None => false end = TLS (co_Protocol (c_opts c)) ->
  emits (of_kind dialed_kind
    (kind_of (co_Protocol (c_opts c)) (co_Token (c_opts c)) (co_KCP (c_opts c)))) (dialCarrier c).
Proof.
  intros Hp Hn Ht tr r Hr. apply Forall_forall. intros e Hin. unfold of_kind.
  assert (Hemits : emits (fun e => match e with EDialQUIC _ _ | EUDPRelay _ _ _ => False | _ => True end)
    (dialCarrier c)) by (unfold dialCarrier, dialStealth, kcpBlockCrypt, tuneKCP; emits_all).
  pose proof (proj1 (Forall_forall _ _) (Hemits _ _ Hr) _ Hin) as He.
  destruct e; try done; cbn [dialed_kind].
  apply (dialCarrier_address _ _ _ _ _ Hr) in Hin. rewrite Hin, Ht. unfold carrier_address.
  clear Hin Ht Hr He. generalize dependent (co_Protocol (c_opts c)). intros p Hp Hn.
  supported_cases Hp; try (exfalso; set_solver);
    unfold kind_of, WebSocket, TLS; name_ifs; try done.
Qed.

(** A trace of a client reaching the server: of the relay it runs for udp, of
    dialling a stream or connecting a session for the other protocols. *)
Definition client_connects (c : @client KeyPair) (tr : list event) : Prop :=
  if decide (co_Protocol (c_opts c) = UDP) then exists r, runs (client_Run c) tr r
  else
    match newDialer c with
    | SessionDialer connect _ => exists r, runs connect tr r
    | DialerFunc dial => exists r, runs dial tr r
    end.

Lemma client_connects_kind pem_Decode fs o (c : @client KeyPair) tr :
  NewClient pem_Decode fs o = Ok c -> client_connects c tr ->
  Forall (of_kind dialed_kind (kind_of (co_Protocol o) (co_Token o) (co_KCP o))) tr.
Proof.
  intros (<- & Hp & Ht)%NewClient_tls. unfold client_connects.
  set (k := kind_of _ _ _). case_decide as Hudp.
  { assert (Hk : k = KindUDP) by (unfold k; by rewrite Hudp). rewrite Hk. intros [r Hr]. revert Hr.
    apply (fun p => p : emits _ _).
    unfold client_Run. rewrite decide_True by done. unfold runUDP, dialUDPFunc, listenUDP. emits_all. }
  unfold newDialer. case_decide as Hq.
  - assert (Hk : k = KindQUIC quicConfig) by (unfold k; by rewrite Hq). intros [r Hr]. revert Hr.
    apply (fun p => p : emits _ _). unfold connectQUIC, quicStream_Close.
    emits_all; apply clientHandshake_kind.
  - assert (Hda : emits (of_kind dialed_kind k) (dialAuthenticated c)).
    { unfold dialAuthenticated. emits_all.
      - apply dialCarrier_kind; [done| |done]. set_solver.
      - apply clientHandshake_kind. }
    destruct (Mux _); intros [r Hr]; [|by eapply Hda]. revert Hr.
    apply (fun p => p : emits _ _). unfold connectMux. emits_all.
Qed.

(** The two ends of the stealth transport: the same version of ShadowTLS, in
    strict mode at both ends, the client's password being that of a user of
    the service; and a client that was constructed names a site to imitate. *)
Lemma stealth_ends_agree pem_Decode fs s o (c : @client KeyPair) :
  NewClient pem_Decode fs o = Ok c -> co_Protocol o = Stealth -> so_Token (s_opts s) = co_Token o ->
  ssc_Version (stealth_service s) = scc_Version (stealth_client c)
  /\ (exists name, (name, scc_Password (stealth_client c)) ∈ ssc_Users (stealth_service s))
  /\ ssc_StrictMode (stealth_service s) = true /\ scc_StrictMode (stealth_client c) = true
  /\ utls_ServerName (scc_TLSHandshake (stealth_client c)) <> ""%string.
Proof.
  intros Hc Hp Ht. pose proof (NewClient_tls _ _ _ _ Hc) as (Ho & _ & _).
  unfold stealth_service, stealth_client, chromeHandshake. cbn. rewrite Ho, Ht.
  split_and!; [done|eexists; by constructor|done|done|].
  intros Hn. unfold NewClient in Hc. destruct (Parse (co_Protocol o)); [|done].
  by rewrite !bool_decide_true in Hc.
Qed.

(** C24: Given the same protocol, token and KCP parameters, everything the
    server listens on and everything the client dials to reach it is the same
    carrier, for every supported protocol: TCP with TCP, HTTP with the same
    path and TLS at both ends or neither, KCP with the same cipher key and
    error correction, QUIC with the same configuration, and for udp the
    datagrams of a relay with a UDP socket.  [Serve] recognises every
    supported protocol. *)
Theorem ends_agree pem_Decode fs s o (c : @client KeyPair) fuel tr_s tr_c fin :
  NewClient pem_Decode fs o = Ok c ->
  so_Protocol (s_opts s) = co_Protocol o -> so_Token (s_opts s) = co_Token o ->
  so_KCP (s_opts s) = co_KCP o ->
  runs (Serve s fuel) tr_s fin -> client_connects c tr_c ->
  tr_s <> []
  /\ forall e1 e2 k1 k2, e1 ∈ tr_s -> served_kind e1 = Some k1 -> e2 ∈ tr_c -> dialed_kind e2 = Some k2 ->
     k1 = k2 /\ k1 = kind_of (co_Protocol o) (co_Token o) (co_KCP o).
Proof.
  intros Hc Hp Ht Hk Hs Hr. pose proof (NewClient_tls _ _ _ _ Hc) as (_ & Hsup & _).
  split; [eapply Serve_acts; [|exact Hs]; by rewrite Hp|]. intros e1 e2 k1 k2 Hin1 Hk1 Hin2 Hk2.
  assert (Hse : emits (of_kind served_kind (kind_of (co_Protocol o) (co_Token o) (co_KCP o)))
    (Serve s fuel)) by (rewrite <- Hp, <- Ht, <- Hk; apply Serve_kind; by rewrite Hp).
  pose proof (Hse _ _ Hs) as Hs1. pose proof (client_connects_kind _ _ _ _ _ Hc Hr) as Hc1.
  rewrite Forall_forall in Hs1, Hc1. specialize (Hs1 _ Hin1). specialize (Hc1 _ Hin2).
  unfold of_kind in *. rewrite Hk1 in Hs1. rewrite Hk2 in Hc1. split; congruence.
Qed.

End lemmas.

(** ** Witnesses *)

Definition tcp_server : @server unit :=
  mkServer (mkServerOptions TCP ":8081" "127.0.0.1:9000" "0123456789abcdef" "" "" DefaultKCP "")
    None.
Definition tcp_client_options : ClientOptions :=
  mkClientOptions TCP "198.51.100.7:8081" ":1080" "0123456789abcdef" "" DefaultKCP "" None.
Definition tcp_client : @client unit := mkClient tcp_client_options None.
Definition refused : error := Sentinel "ECONNREFUSED".

(** A connection that authenticates and is relayed to the target. *)
Definition relayed_trace : list event :=
  EAfterFunc 1 :: timed 1 (server_accept_trace 1 "0123456789abcdef" nonce_a nonce_b)
  ++ [EDial (AddrTCP "127.0.0.1:9000" dialTimeout keepAlive) (Ok 9%nat); EPipe 1 9] ++ [EStopAfterFunc 1].

Lemma relayed_runs : runs (handleConn tcp_server 0 1) relayed_trace (Some tt).
Proof.
  unfold handleConn. apply runs_vis_bind. exists tt. eexists. split; [exact I|].
  split; [reflexivity|]. cbn [bind]. apply runs_bind.
  exists (timed 1 (server_accept_trace 1 "0123456789abcdef" nonce_a nonce_b)
    ++ [EDial (AddrTCP "127.0.0.1:9000" dialTimeout keepAlive) (Ok 9%nat); EPipe 1 9]), [EStopAfterFunc 1], (Some tt).
  split; [by rewrite <- (assoc_L (++))|]. split.
  - unfold handleConn_body. apply runs_bind. eexists _, _, (Ok tt). split; [reflexivity|].
    split; [apply serverHandshake_ok; by exists nonce_a, nonce_b|].
    cbv beta iota. replace (negb (Mux (so_Protocol (s_opts tcp_server)))) with true by reflexivity.
    unfold handleStream. exists (Ok 9%nat). eexists. split; [exact I|]. split; [reflexivity|].
    exists tt, []. split; [exact I|]. split; [reflexivity|]. split; reflexivity.
  - exists tt, []. split; [exact I|]. split; [reflexivity|]. split; reflexivity.
Qed.

Lemma no_service_before_proof_witness :
  EPipe 1 9 ∈ relayed_trace
  /\ exists hs rest, relayed_trace = EAfterFunc 1 :: hs ++ rest /\ proof_of_token tcp_server 1 hs.
Proof.
  assert (Hin : EPipe 1 9 ∈ relayed_trace) by (unfold relayed_trace; find_in_trace).
  split; [exact Hin|].
  exact (proj1 (no_service_before_proof tcp_server 0 1 relayed_trace (Some tt) (EPipe 1 9)
    eq_refl Hin) relayed_runs).
Defined.

(** A udp server and client whose sockets cannot be opened and read. *)
Definition udp_server : @server unit :=
  mkServer (mkServerOptions UDP ":8081" "127.0.0.1:9000" "0123456789abcdef" "" "" DefaultKCP "")
    None.
Definition udp_client_options : ClientOptions :=
  mkClientOptions UDP "198.51.100.7:8081" ":1080" "0123456789abcdef" "" DefaultKCP "" None.
Definition udp_client : @client unit := mkClient udp_client_options None.

Lemma ends_agree_witness :
  let e1 := EListen (ListenUDP ":8081") (Err refused) in
  let e2 := EUDPRelay 4 "198.51.100.7:8081" (Ok tt) in
  served_kind e1 = Some KindUDP /\ dialed_kind e2 = Some KindUDP
  /\ KindUDP = kind_of UDP "0123456789abcdef" DefaultKCP.
Proof.
  intros e1 e2. split; [reflexivity|]. split; [reflexivity|].
  assert (Hs : runs (Serve udp_server 0) [EResolve "127.0.0.1:9000" (Ok tt); e1]
    (Some (Err (Wrapf "listen: %w" [] refused)))).
  { unfold Serve. cbn [s_opts so_Protocol udp_server]. name_ifs.
    exists (Ok tt), [e1]. split; [exact I|]. split; [reflexivity|].
    exists (Err refused), []. split; [exact I|]. split; [reflexivity|]. split; reflexivity. }
  assert (Hr : runs (client_Run udp_client)
    [EResolve "198.51.100.7:8081" (Ok tt); EListen (ListenUDP ":1080") (Ok 4%nat); e2] (Ok tt)).
  { exists (Ok tt), [EListen (ListenUDP ":1080") (Ok 4%nat); e2]. split; [exact I|]. split; [reflexivity|].
    exists (Ok 4%nat), [e2]. split; [exact I|]. split; [reflexivity|].
    exists (Ok tt), []. split; [exact I|]. split; [reflexivity|]. split; reflexivity. }
  assert (Hn : NewClient (KeyPair := unit) (fun _ => None) ∅ udp_client_options = Ok udp_client)
    by reflexivity.
  assert (Hcon : client_connects udp_client
    [EResolve "198.51.100.7:8081" (Ok tt); EListen (ListenUDP ":1080") (Ok 4%nat); e2]) by (exists (Ok tt); exact Hr).
  destruct (ends_agree _ _ udp_server _ udp_client _ _ _ _ Hn eq_refl eq_refl eq_refl Hs Hcon) as [_ H].
  apply (H e1 e2 KindUDP KindUDP); [find_in_trace|reflexivity|find_in_trace|reflexivity].
Defined.
