(* ===== verification/Establish.v ===== *)
(** * A tunnel is established

    The client's program for a local connection, or for a new session, run
    against the server's handler of the carrier connection: both authenticate
    and arrive where they relay, or multiplex.  [reaches] is the part of a
    program before the two are connected: dialling, on the client, and
    accepting. *)

From S2P Require Import Prelude Lts GoLib Sha256 Proto Config Prog Net Auth TlsUtil Monitor Transport Serve.

(** ** Running a program up to a point *)

Fixpoint reaches {A} (p : prog netE A) (tr : list event) (q : prog netE A) : Prop :=
  match tr with
  | [] => q = p
  | ev :: tr => exists p', performs p ev p' /\ reaches p' tr q
  end.

(** The first part of a sequence, to its end or to a point inside it. *)
Lemma reaches_bind {A B} (f : A -> prog netE B) p tr a :
  runs p tr a -> reaches (bind f p) tr (f a).
Proof.
  revert tr. induction p as [a'|X e k IH]; intros tr; simpl.
  - intros [-> ->]. done.
  - intros (x & tr' & Hc & -> & Hr). exists (bind f (k x)). split; [by exists x|by apply IH].
Qed.

Lemma performs_bind {A B} (f : A -> prog netE B) p ev p' :
  performs p ev p' -> performs (bind f p) ev (bind f p').
Proof. destruct p as [a|X e k]; [done|]. intros (x & ? & ? & ->). by exists x. Qed.

Lemma reaches_under {A B} (f : A -> prog netE B) p tr q :
  reaches p tr q -> reaches (bind f p) tr (bind f q).
Proof.
  revert p. induction tr as [|ev tr IH]; intros p; simpl; [by intros ->|].
  intros (p' & Hp & Hr). exists (bind f p'). eauto using performs_bind.
Qed.

Lemma reaches_call {X B} (e : netE X) (f : X -> prog netE B) x tr q :
  contract e x -> reaches (f x) tr q -> reaches (bind f (call e)) (observe e x :: tr) q.
Proof. intros Hc Hr. exists (f x). split; [|done]. by exists x. Qed.

(** ** Both ends of an authenticated connection *)

Section establish.
Context `{M : Mac} {KeyPair : Type}.

(** The client waits: it has ended, or its next operation is not one of a
    conversation. *)
Definition waits {A} (p : prog netE A) : Prop :=
  forall ab, step_end (mkEndpoint p []) [] ab = None.

(** The rest of a program around one of its calls. *)
Definition context {A B} (C : prog netE A -> prog netE B) : Prop :=
  forall X (e : netE X) k, C (Vis e k) = Vis e (fun x => C (k x)).

(** Two handshakes under their timeouts, in two larger programs: the client
    goes on to [c'] with [m] steps of its own, the server is then past its
    handshake. *)
Lemma handshakes_then {A B} fuel m token cn sn (C : prog netE (result unit) -> prog netE A)
    (D : prog netE (result unit) -> prog netE B) (c' : prog netE A) :
  context C -> context D -> length cn = NonceSize -> length sn = NonceSize ->
  (forall fuel (b : endpoint B) ab, duplex (m + fuel) (mkEndpoint (C (Ret (Ok tt))) []) b ab []
     = duplex fuel (mkEndpoint c' []) b ab []) ->
  waits c' ->
  duplex (10 + (m + (2 + fuel))) (mkEndpoint (C (clientHandshake 0 token)) cn)
    (mkEndpoint (D (serverHandshake 1 token)) sn) [] []
  = duplex fuel (mkEndpoint c' []) (mkEndpoint (D (Ret (Ok tt))) []) [] [].
Proof using.
  unfold context. intros HC HD Hcn Hsn Hf Hc'. pose proof (length_Sign token labelServer [cn; sn]) as Hs.
  pose proof (length_Sign token labelClient [cn; sn]) as Ht.
  assert (TagSize = 32) as HT by done. unfold NonceSize in *.
  unfold clientHandshake, serverHandshake, handshake, then_err, ClientHandshake, ServerHandshake, NonceSize.
  cbn [Nat.add]. cbn [bind call].
  do 8 (unfold call; rewrite ?HC, ?HD; duplex_step). rewrite Verify_Sign. cbn [negb bind call].
  do 2 (unfold call; rewrite ?HC, ?HD; duplex_step). rewrite Hf.
  erewrite duplex_right by first [apply Hc' | solve_step]. rewrite Verify_Sign. cbn [negb bind call].
  unfold call. rewrite HD. by erewrite duplex_right by first [apply Hc' | solve_step].
Qed.

(** Two programs that have come as far as [pre_c] and [pre_s], then talk to
    each other with the random bytes [cn] and [sn] and arrive at [c'] and
    [s'], nothing being left in flight. *)
Definition meet {A B} (c : prog netE A) (pre_c : list event) (s : prog netE B) (pre_s : list event)
    (cn sn : bytes) (c' : prog netE A) (s' : prog netE B) : Prop :=
  exists p q fuel, reaches c pre_c p /\ reaches s pre_s q
    /\ duplex fuel (mkEndpoint p cn) (mkEndpoint q sn) [] []
       = (mkEndpoint c' [], mkEndpoint s' [], [], []).

(** The server is about to reach the target, and relays [conn] to it when it
    does. *)
Definition connecting (s : @server KeyPair) (conn : nat) {A} (p : prog netE A) : Prop :=
  exists k, p = Vis (Dial (AddrTCP (so_Target (s_opts s)) dialTimeout keepAlive)) k
    /\ forall t, exists k', k (Ok t) = Vis (PipeConns conn t) k'.

(** The server is about to accept a stream on [sess], and starts a goroutine
    for it when it does. *)
Definition accepting (spawn : nat -> goroutine) (sess : nat) {A} (p : prog netE A) : Prop :=
  exists k, p = Vis (AcceptStream sess) k
    /\ forall st, exists k', k (Ok st) = Vis (Go (spawn st)) k'.

Lemma reaches_app {A} (p q r : prog netE A) tr1 tr2 :
  reaches p tr1 q -> reaches q tr2 r -> reaches p (tr1 ++ tr2) r.
Proof using.
  clear. revert p. induction tr1 as [|e tr1 IH]; intros p; simpl; [by intros ->|].
  intros (p' & Hp & Hr) Hq. eauto.
Qed.

Lemma dialAuthenticated_reaches (c : @client KeyPair) pre :
  runs (dialCarrier c) pre (Ok 0) ->
  exists C, reaches (dialAuthenticated c) pre (C (clientHandshake 0 (co_Token (c_opts c))))
    /\ context C /\ C (Ret (Ok tt)) = Ret (Ok 0).
Proof using.
  intros Hr. unfold dialAuthenticated.
  eexists (bind _). split; [exact (reaches_bind _ _ _ _ Hr)|]. done.
Qed.

Lemma handleConn_reaches (s : @server KeyPair) fuel :
  exists D, reaches (handleConn s fuel 1) [EAfterFunc 1] (D (serverHandshake 1 (so_Token (s_opts s))))
    /\ context D
    /\ (Mux (so_Protocol (s_opts s)) = false -> connecting s 1 (D (Ret (Ok tt))))
    /\ (Mux (so_Protocol (s_opts s)) = true ->
         exists k, D (Ret (Ok tt)) = Vis (SmuxServer 1 muxConfig) k
           /\ forall n sess, fuel = S n -> accepting GoHandleStream sess (k (Ok sess))).
Proof using.
  eexists (fun h => bind _ (bind _ h)). split; [|split].
  - eexists. split; [by exists tt|]. reflexivity.
  - done.
  - cbn [bind]. split; intros Hm; rewrite Hm.
    + eexists. split; [reflexivity|]. intros t. by eexists.
    + eexists. split; [reflexivity|]. intros n sess ->. eexists. split; [reflexivity|].
      intros st. by eexists.
Qed.

(** The same for two programs that meet by authenticating: what the client does
    after its handshake takes [m] steps. *)
Lemma handshakes_meet {A B} m token cn sn (c : prog netE A) pre_c (s : prog netE B) pre_s C D c' :
  length cn = NonceSize -> length sn = NonceSize ->
  reaches c pre_c (C (clientHandshake 0 token)) -> context C ->
  reaches s pre_s (D (serverHandshake 1 token)) -> context D ->
  (forall fuel (b : endpoint B) ab, duplex (m + fuel) (mkEndpoint (C (Ret (Ok tt))) []) b ab []
     = duplex fuel (mkEndpoint c' []) b ab []) ->
  waits c' ->
  forall m' s', (forall ab, duplex m' (mkEndpoint c' []) (mkEndpoint (D (Ret (Ok tt))) []) ab []
                 = (mkEndpoint c' [], mkEndpoint s' [], ab, [])) ->
  meet c pre_c s pre_s cn sn c' s'.
Proof using.
  intros Hcn Hsn Hc HC Hs HD Hm Hw m' s' Hm'.
  eexists _, _, (10 + (m + (2 + m'))). split; [exact Hc|]. split; [exact Hs|].
  by rewrite (handshakes_then m' m token cn sn C D c').
Qed.

(** The client's programs around [dialAuthenticated]. *)
Lemma connectMux_reaches (c : @client KeyPair) pre p :
  reaches (dialAuthenticated c) pre p ->
  exists f k, reaches (connectMux c) pre (bind f p)
    /\ f (Ok 0) = Vis (SmuxClient 0 muxConfig) k /\ forall sess, k (Ok sess) = Ret (Ok sess).
Proof using.
  intros Hp. eexists _, _. split; [exact (reaches_under _ _ _ _ Hp)|]. split; [reflexivity|].
  by intros sess.
Qed.

Lemma handleLocal_reaches (dial : prog netE (result nat)) local pre p :
  reaches dial pre p ->
  exists f k, reaches (handleLocal dial local)
      (EWithTimeout (dialTimeout + handshakeTimeout) :: pre) (bind f p)
    /\ f (Ok 0) = Vis CancelTimeout (fun _ => Vis (PipeConns local 0) k).
Proof using.
  intros Hp. eexists _, _. split.
  - eexists. split; [by exists tt|]. exact (reaches_under _ _ _ _ Hp).
  - reflexivity.
Qed.

Lemma bind_context {A B C} (f : B -> prog netE C) (K : prog netE A -> prog netE B) :
  context K -> context (fun h => bind f (K h)).
Proof using. intros HK X e k. by rewrite HK. Qed.

(** C6: A tunnel is established: when both ends have the same protocol and
    token and the carrier connection stands, then running the client's
    program for it against the server's handler, over a working connection,
    takes both to where they serve.  Without sessions the client pipes the
    local connection into the stream and the server dials the target, and
    pipes the stream into it.  With smux both start their session, on QUIC
    the client has its connection, and the server is about to accept streams
    and will start a goroutine for each.  For a stream opened on such a session
    the goroutine dials the target and pipes, with nothing in flight: the
    marker of a QUIC stream has been read. *)
Theorem tunnel_establishes (c : @client KeyPair) (s : @server KeyPair) cn sn pre fuel :
  length cn = NonceSize -> length sn = NonceSize ->
  so_Protocol (s_opts s) = co_Protocol (c_opts c) -> so_Token (s_opts s) = co_Token (c_opts c) ->
  runs (dialCarrier c) pre (Ok 0) ->
  match newDialer c with
  | DialerFunc dial => forall local, exists kc s',
      meet (handleLocal dial local) (EWithTimeout (dialTimeout + handshakeTimeout) :: pre)
        (handleConn s fuel 1) [EAfterFunc 1] cn sn (Vis (PipeConns local 0) kc) s'
      /\ connecting s 1 s'
  | SessionDialer connect open =>
      let on_quic := bool_decide (co_Protocol (c_opts c) = QUIC) in
      (if on_quic then forall q q', exists s',
         meet connect
           [EDialQUIC (AddrQUIC (co_ServerAddr (c_opts c)) quicConfig) (Ok q); EOpen q (Ok 0)]
           (serveQUICConn s (S fuel) q')
           [EWithTimeout handshakeTimeout; EAccept q' (Ok 1); ECancelTimeout]
           cn sn (Ret (Ok q)) s'
         /\ accepting GoHandleQUICStream q' s'
       else exists kc ks,
         meet connect pre (handleConn s (S fuel) 1) [EAfterFunc 1] cn sn
           (Vis (SmuxClient 0 muxConfig) kc) (Vis (SmuxServer 1 muxConfig) ks)
         /\ forall sess, kc (Ok sess) = Ret (Ok sess) /\ accepting GoHandleStream sess (ks (Ok sess)))
      /\ forall sess, exists s',
         meet (open sess) [EOpen sess (Ok 0)]
           (goroutine_body s fuel (if on_quic then GoHandleQUICStream 1 else GoHandleStream 1)) []
           [] [] (Ret (Ok 0)) s'
         /\ connecting s 1 s'
  end.
Proof using.
  intros Hcn Hsn Hp Ht Hr. unfold newDialer. case_decide as Hq; [|destruct (Mux _) eqn:Hm].
  - rewrite bool_decide_eq_true_2 by done. cbv zeta. split.
    + intros q q'. eexists. split.
      * eapply (handshakes_meet 2 _ _ _ _ _ _ _ (fun h => bind _ h) (fun h => bind _ (bind _ h)) _ Hcn Hsn).
        -- eexists. split; [by exists (Ok q)|]. eexists. split; [by exists (Ok 0)|]. reflexivity.
        -- done.
        -- rewrite <- Ht. eexists. split; [by exists tt|]. eexists. split; [by exists (Ok 1)|].
           eexists. split; [by exists tt|]. reflexivity.
        -- done.
        -- intros n b ab. cbn [Nat.add bind quicStream_Close call]. by do 2 duplex_step.
        -- done.
        -- instantiate (2 := 2). intros ab. cbn [bind]. unfold quicStream_Close. cbn [bind call].
           do 2 duplex_step. by duplex_step.
      * eexists. split; [reflexivity|]. intros st. by eexists.
    + intros sess. eexists. split.
      * eexists _, _, 2. split; [eexists; split; [by exists (Ok 0)|reflexivity]|].
        split; [reflexivity|]. cbn [bind goroutine_body]. unfold handleQUICStream. cbn [bind call].
        do 2 duplex_step. rewrite bool_decide_eq_true_2 by done. reflexivity.
      * eexists. split; [reflexivity|]. intros t. by eexists.
  - rewrite bool_decide_eq_false_2 by done. cbv zeta. split.
    + destruct (dialAuthenticated_reaches c pre Hr) as (C & HC & HCc & HCr).
      destruct (connectMux_reaches _ _ _ HC) as (f & kc & Hf & Hf0 & Hkc).
      destruct (handleConn_reaches s (S fuel)) as (D & HD & HDc & _ & HDm).
      rewrite Hp, Hm in HDm. destruct (HDm eq_refl) as (ks & HDr & Hacc). rewrite Ht in HD.
      exists kc, ks. split; [|by eauto].
      eapply (handshakes_meet 0 _ _ _ _ _ _ _ (fun h => bind f (C h)) D _ Hcn Hsn); eauto using bind_context.
      * intros n b ab. by rewrite HCr; cbn [bind]; rewrite Hf0.
      * done.
      * instantiate (1 := 0). intros ab. by rewrite HDr.
    + intros sess. eexists. split.
      * eexists _, _, 0. split; [eexists; split; [by exists (Ok 0)|reflexivity]|].
        split; reflexivity.
      * eexists. split; [reflexivity|]. intros t. by eexists.
  - intros local. destruct (dialAuthenticated_reaches c pre Hr) as (C & HC & HCc & HCr).
    destruct (handleLocal_reaches _ local _ _ HC) as (f & kc & Hf & Hf0).
    destruct (handleConn_reaches s fuel) as (D & HD & HDc & HDs & _).
    rewrite Hp in HDs. specialize (HDs Hm). rewrite Ht in HD.
    exists kc. eexists. split; [|exact HDs].
    eapply (handshakes_meet 1 _ _ _ _ _ _ _ (fun h => bind f (C h)) D _ Hcn Hsn); eauto using bind_context.
    + intros n b ab. rewrite HCr. cbn [bind]. rewrite Hf0. cbn [Nat.add]. by duplex_step.
    + done.
    + by instantiate (1 := 0).
Qed.
End establish.

(** ** Witness *)

Lemma tunnel_establishes_witness :
  let pre := [EDial (AddrTCP "198.51.100.7:8081" dialTimeout keepAlive) (Ok 0)] in
  runs (dialCarrier tcp_client) pre (Ok 0)
  /\ exists kc s',
       meet (handleLocal (dialAuthenticated tcp_client) 7)
         (EWithTimeout (dialTimeout + handshakeTimeout) :: pre) (handleConn tcp_server 0 1) [EAfterFunc 1]
         nonce_a nonce_b (Vis (PipeConns 7 0) kc) s'
       /\ connecting tcp_server 1 s'.
Proof.
  intros pre. assert (Hr : runs (dialCarrier tcp_client) pre (Ok 0)) by by exists (Ok 0), [].
  split; [exact Hr|].
  exact (tunnel_establishes tcp_client tcp_server nonce_a nonce_b pre 0
    eq_refl eq_refl eq_refl eq_refl Hr 7).
Defined.
