(* ===== verification/Server.v ===== *)
(** * Package [server]: g-tun-server (src/internal/server/server.go)

    The control listener's handler and announcement, the options of the data
    listener, and [Run]: two goroutines report on a channel of capacity two,
    the first report cancels the other, and the errors are joined.  A run of
    [Run] is a sequence of steps of the three goroutines. *)

From S2P Require Import Prelude Lts GoLib Json JsonFuel Sha256 Proto Config Prog Net Auth Control TlsUtil Transport Serve.

Local Open Scope Z_scope.

Definition controlHandshakeTimeout : Z := 10 * Second.
Definition server_keepAlive : Z := 15 * Second.

(** The options [Run] gives the transport; [*cfg.KCP] panics on nil. *)
Definition server_options (cfg : Config.Server) : result ServerOptions :=
  match ServerKCP cfg with
  | None => Err nil_dereference
  | Some k => Ok {|
      so_Protocol := ServerProtocol cfg;
      so_ListenAddr := JoinHostPort "" (ServerDataPort cfg);
      so_Target := TargetAddress cfg;
      so_Token := ServerToken cfg;
      so_CertPath := ServerTLSCertPath cfg;
      so_KeyPath := TLSKeyPath cfg;
      so_KCP := k;
      so_StealthHandshake := StealthHandshakeServer cfg
    |}
  end.

(** What [serveControl] announces. *)
Definition announcement (cfg : Config.Server) : CConfig :=
  mkCConfig (ServerProtocol cfg) (ServerDataPort cfg)
    (if decide (ServerProtocol cfg = UTCPMux) then ServerKCP cfg else None).

Section control.
Context `{M : Mac}.

(** [handleControl] between its first statement and the deferred [Close]. *)
Definition handleControl_body (conn : nat) (token : string) (announce : CConfig)
    : prog netE unit :=
  do! r := call (SetDeadline conn (DeadlineIn controlHandshakeTimeout));
  match r with
  | Err _ => Ret tt
  | Ok _ =>
      do! h := ServerHandshake conn token;
      match h with
      | Err _ => Ret tt
      | Ok channel =>
          do! s := Send conn token channel announce;
          match s with
          | Err _ => Ret tt
          | Ok _ =>
              do! r := call (SetDeadline conn NoDeadline);
              match r with
              | Err _ => Ret tt
              | Ok _ => run! call (CopyDiscard conn); Ret tt
              end
          end
      end
  end.

Definition handleControl (conn : nat) (token : string) (announce : CConfig) : prog netE unit :=
  run! handleControl_body conn token announce; call (Close conn).

Definition serveControl (cfg : Config.Server) : prog netE (result unit) :=
  let! ln := call (Listen (ListenTCP (JoinHostPort "" (ControlPort cfg)) server_keepAlive)) or
    Wrapf "listen on control port: %w" [];
  accept_on ln HandleControl.

(** The handler of its accept loop. *)
Definition control_handler (cfg : Config.Server) (conn : nat) : prog netE unit :=
  handleControl conn (ServerToken cfg) (announcement cfg).
End control.

(** ** [Run] *)

(** A goroutine of [Run]: serving, or about to send its result, or done. *)
Inductive worker : Type :=
| NotStarted
| Serving
| Sending (res : option error)
| Finished.

(** The main goroutine: at [first := <-errs], at [cancel()], in the loop with
    [n] results still to receive, or returned. *)
Inductive main_phase : Type :=
| AwaitFirst
| Cancelling (first : option error)
| AwaitRest (n : nat) (first : option error)
| MainReturned (res : option error).

Record run_state : Type := mkRun {
  data : worker;
  control : worker;
  errs : list (option error);     (* the channel, capacity 2 *)
  cancelled : bool;
  main : main_phase;
  listeners : nat;
}.

Definition run_start (p : Name) : run_state :=
  if decide (p = Stealth) then mkRun Serving NotStarted [] false AwaitFirst 1
  else mkRun Serving Serving [] false AwaitFirst 2.

Inductive run_label : Type :=
| DataReturns (res : option error)
| DataSends
| ControlReturns (res : option error)
| ControlSends
| MainStep.

Definition worker_returns (res : option error) (w : worker) : option worker :=
  match w with Serving => Some (Sending res) | _ => None end.

(** A send blocks while the channel is full. *)
Definition worker_sends (w : worker) (ch : list (option error))
    : option (worker * list (option error)) :=
  match w with
  | Sending res => if decide (length ch < 2)%nat then Some (Finished, ch ++ [res]) else None
  | _ => None
  end.

Definition main_step (s : run_state) : option run_state :=
  match main s with
  | AwaitFirst =>
      match errs s with
      | [] => None
      | e :: rest => Some (mkRun (data s) (control s) rest (cancelled s) (Cancelling e) (listeners s))
      end
  | Cancelling first =>
      Some (mkRun (data s) (control s) (errs s) true (AwaitRest (listeners s - 1) first) (listeners s))
  | AwaitRest 0 first =>
      Some (mkRun (data s) (control s) (errs s) (cancelled s) (MainReturned first) (listeners s))
  | AwaitRest (S n) first =>
      match errs s with
      | [] => None
      | e :: rest => Some (mkRun (data s) (control s) rest (cancelled s)
                             (AwaitRest n (errors_Join first e)) (listeners s))
      end
  | MainReturned _ => None
  end.

Definition run_step (l : run_label) (s : run_state) : option run_state :=
  match l with
  | DataReturns res =>
      (fun w => mkRun w (control s) (errs s) (cancelled s) (main s) (listeners s))
        <$> worker_returns res (data s)
  | DataSends =>
      (fun '(w, ch) => mkRun w (control s) ch (cancelled s) (main s) (listeners s))
        <$> worker_sends (data s) (errs s)
  | ControlReturns res =>
      (fun w => mkRun (data s) w (errs s) (cancelled s) (main s) (listeners s))
        <$> worker_returns res (control s)
  | ControlSends =>
      (fun '(w, ch) => mkRun (data s) w ch (cancelled s) (main s) (listeners s))
        <$> worker_sends (control s) (errs s)
  | MainStep => main_step s
  end.

Abbreviation run_steps := (steps run_step).

(** [Run] up to the start of the goroutines. *)
Definition Run_data `{M : Mac} {KeyPair} (LoadX509KeyPair : string -> string -> result KeyPair)
    (cfg : Config.Server) : result (@server KeyPair) :=
  try! o := server_options cfg or id;
  NewServer LoadX509KeyPair o.

(** ** A validated configuration starts *)

Section start.
Context `{M : Mac} {KeyPair : Type} (LoadX509KeyPair : string -> string -> result KeyPair).

Lemma announcement_valid cfg : valid_server cfg -> valid_announce (announcement cfg).
Proof.
  intros []. split; simpl; [done|done|]. destruct vs_kcp as (k & Hk & Hv).
  case_decide; [|done]. intros k'. rewrite Hk. by intros [= <-].
Qed.

(** C23: For a configuration [LoadServer] accepts, [Run] never dereferences a nil
    KCP pointer and never fails on the protocol or the stealth site: the
    transport is created with exactly the configured protocol, port, target,
    token, paths, KCP parameters and stealth site, and, for a TLS protocol,
    with the key pair of the configured certificate and key; or loading that
    key pair failed.  What the control listener announces is then a valid
    announcement of this protocol and port, which carries KCP parameters
    exactly for utcpmux, namely those the data listener uses. *)
Theorem validated_server_starts cfg :
  valid_server cfg ->
  exists o, server_options cfg = Ok o
    /\ (so_Protocol o = ServerProtocol cfg
        /\ so_ListenAddr o = String.append ":" (ServerDataPort cfg)
        /\ so_Target o = TargetAddress cfg
        /\ so_Token o = ServerToken cfg
        /\ so_CertPath o = ServerTLSCertPath cfg
        /\ so_KeyPath o = TLSKeyPath cfg
        /\ ServerKCP cfg = Some (so_KCP o)
        /\ so_StealthHandshake o = StealthHandshakeServer cfg)
    /\ match Run_data LoadX509KeyPair cfg with
       | Ok s => s_opts s = o
           /\ (if TLS (ServerProtocol cfg) then
                 exists kp, LoadX509KeyPair (ServerTLSCertPath cfg) (TLSKeyPath cfg) = Ok kp
                   /\ s_tls s = Some (mkTlsConfig VersionTLS13 [kp] (alpn (ServerProtocol cfg)) false None)
               else s_tls s = None)
       | Err e => TLS (ServerProtocol cfg) = true /\
           exists e', LoadX509KeyPair (ServerTLSCertPath cfg) (TLSKeyPath cfg) = Err e'
                      /\ e = Wrapf "load TLS key pair: %w" [] e'
       end
    /\ valid_announce (announcement cfg)
    /\ announcement cfg = mkCConfig (ServerProtocol cfg) (ServerDataPort cfg)
         (if decide (ServerProtocol cfg = UTCPMux) then Some (so_KCP o) else None).
Proof.
  intros Hv. pose proof (announcement_valid _ Hv) as Ha. destruct Hv.
  destruct vs_kcp as (k & Hk & _). unfold Run_data, server_options. rewrite Hk.
  eexists. split; [done|]. split; [done|].
  split; [|split; [done|unfold announcement; simpl; by rewrite Hk]].
  unfold NewServer, id. simpl. rewrite (Parse_supported _ vs_protocol). simpl.
  assert (Hst : ServerProtocol cfg = Stealth ->
    exists hp, SplitHostPort (StealthHandshakeServer cfg) = Ok hp).
  { intros Hs. destruct (vs_stealth Hs) as (h & p & -> & _). by exists (h, p). }
  destruct (decide (ServerProtocol cfg = Stealth)) as [Hs|_].
  - destruct (Hst Hs) as ([h p] & ->). by rewrite Hs.
  - destruct (TLS (ServerProtocol cfg)) eqn:Ht; [|done].
    unfold ServerConfig. destruct (LoadX509KeyPair _ _) as [kp|e]; simpl; eauto.
Qed.
End start.

(** ** [Run] waits for both listeners *)

Definition worker_of (b : bool) (s : run_state) : worker := if b then data s else control s.
Definition returns (b : bool) (e : option error) : run_label :=
  if b then DataReturns e else ControlReturns e.
Definition sends (b : bool) : run_label := if b then DataSends else ControlSends.

(** The goroutines [Run] starts: the data listener ([true]) and, except for
    stealth, the control listener. *)
Definition started (p : Name) : list bool := if decide (p = Stealth) then [true] else [true; false].

(** The joined error of a non-empty sequence of results. *)
Definition join_all (got : list (option error)) (r : option error) : Prop :=
  exists v rest, got = v :: rest /\ r = fold_left errors_Join rest v.

Definition main_ok (m : main_phase) (cancel : bool) (total : nat) (got : list (option error)) : Prop :=
  match m with
  | AwaitFirst => got = []
  | Cancelling f => got = [f]
  | AwaitRest k f => cancel = true /\ join_all got f /\ (length got + k)%nat = total
  | MainReturned f => cancel = true /\ join_all got f /\ length got = total
  end.

(** [order]: the results sent so far, with their senders; [got]: the part the
    main goroutine has received. *)
Record run_ok (p : Name) (ls : list run_label) (s : run_state)
    (order : list (bool * option error)) (got : list (option error)) : Prop := {
  ro_split : order.*2 = got ++ errs s;
  ro_main : main_ok (main s) (cancelled s) (length (started p)) got;
  ro_nodup : NoDup order.*1;
  ro_sent : forall b e, (b, e) ∈ order -> worker_of b s = Finished /\ returns b e ∈ ls;
  ro_finished : forall b, worker_of b s = Finished -> b ∈ order.*1;
  ro_sending : forall b e, worker_of b s = Sending e -> returns b e ∈ ls;
  ro_started : forall b, worker_of b s <> NotStarted <-> b ∈ started p;
  ro_listeners : listeners s = length (started p);
}.

Lemma run_start_ok p : run_ok p [] (run_start p) [] [].
Proof.
  unfold run_start. case_decide as Hd; split; simpl; try done; try (by constructor);
    try (by intros []); try set_solver;
    unfold started; rewrite ?decide_True, ?decide_False by done; try done;
    intros []; simpl; split; try done; set_solver.
Qed.

Lemma run_ok_weaken p ls l s order got :
  run_ok p ls s order got ->
  (forall b e, (b, e) ∈ order -> worker_of b s = Finished /\ returns b e ∈ ls ++ [l])
  /\ (forall b e, worker_of b s = Sending e -> returns b e ∈ ls ++ [l]).
Proof. intros []. split; intros; rewrite elem_of_app; naive_solver. Qed.

Lemma run_ok_order p ls s order got b :
  run_ok p ls s order got -> b ∈ order.*1 -> b ∈ started p.
Proof.
  intros [] ((b' & e) & -> & Hin)%list_elem_of_fmap. simpl. apply ro_started0.
  destruct (ro_sent0 _ _ Hin) as [-> _]. done.
Qed.

Lemma run_ok_length p ls s order got :
  run_ok p ls s order got -> (length got + length (errs s) <= length (started p))%nat.
Proof.
  intros Hok. rewrite <- length_app, <- (ro_split _ _ _ _ _ Hok), length_fmap.
  rewrite <- (length_fmap fst). apply submseteq_length, NoDup_submseteq.
  - apply Hok.
  - intros b. by eapply run_ok_order.
Qed.

(** A worker that is about to send is not among the senders. *)
Lemma run_ok_room p ls s order got b e :
  run_ok p ls s order got -> worker_of b s = Sending e ->
  (length (errs s) < 2)%nat /\ b ∉ order.*1.
Proof.
  intros Hok Hb.
  assert (Hni : b ∉ order.*1).
  { intros ((b' & e') & -> & Hin)%list_elem_of_fmap. simpl in Hb.
    destruct (ro_sent _ _ _ _ _ Hok _ _ Hin). congruence. }
  split; [|done].
  assert (Hlen : (length (b :: order.*1) <= length (started p))%nat).
  { apply submseteq_length, NoDup_submseteq.
    - constructor; [done|apply Hok].
    - intros b'. rewrite elem_of_cons. intros [->|?]; [|by eapply run_ok_order].
      apply (ro_started _ _ _ _ _ Hok). by rewrite Hb. }
  assert (length (errs s) <= length order.*1)%nat.
  { rewrite length_fmap, <- (length_fmap snd), (ro_split _ _ _ _ _ Hok), length_app. lia. }
  simpl in Hlen. unfold started in Hlen. case_decide; simpl in *; lia.
Qed.

Lemma join_all_snoc got f e : join_all got f -> join_all (got ++ [e]) (errors_Join f e).
Proof.
  intros (v & rest & -> & ->). exists v, (rest ++ [e]). split; [done|].
  by rewrite fold_left_app.
Qed.

Lemma main_step_ok p ls s s' order got :
  main_step s = Some s' -> run_ok p ls s order got -> exists got', run_ok p ls s' order got'.
Proof.
  unfold main_step. intros Hs Hok. pose proof Hok as [].
  destruct (main s) as [|f|[|k] f|r] eqn:Hm; simpl in ro_main0; [| | | |done].
  - destruct (errs s) as [|e rest]; simplify_eq. exists [e]. by split.
  - simplify_eq. exists [f]. split; try done; simpl. split_and!; [done|by exists f, []|].
    rewrite ro_listeners0. unfold started. case_decide; done.
  - simplify_eq. exists got. split; try done. destruct ro_main0 as (? & ? & ?). simpl.
    split_and!; [done..|lia].
  - destruct (errs s) as [|e rest]; simplify_eq. exists (got ++ [e]). split; try done; simpl.
    + by rewrite <- (assoc_L (++)).
    + destruct ro_main0 as (? & ? & ?). split_and!; [done|by apply join_all_snoc|].
      rewrite length_app. simpl. lia.
Qed.

(** Replace one worker. *)
Definition set_worker (b : bool) (w : worker) (ch : list (option error)) (s : run_state) : run_state :=
  if b then mkRun w (control s) ch (cancelled s) (main s) (listeners s)
  else mkRun (data s) w ch (cancelled s) (main s) (listeners s).

Lemma run_step_returns b e s :
  run_step (returns b e) s
  = (fun w => set_worker b w (errs s) s) <$> worker_returns e (worker_of b s).
Proof. by destruct b. Qed.

Lemma run_step_sends b s :
  run_step (sends b) s
  = (fun '(w, ch) => set_worker b w ch s) <$> worker_sends (worker_of b s) (errs s).
Proof. by destruct b. Qed.

Lemma run_label_cases l : l = MainStep \/ exists b, l = sends b \/ exists e, l = returns b e.
Proof.
  destruct l; [right; exists true|right; exists true|right; exists false|right; exists false|];
    simpl; eauto.
Qed.

Lemma worker_of_set b b' w ch s :
  worker_of b' (set_worker b w ch s) = if decide (b = b') then w else worker_of b' s.
Proof. by destruct b, b'. Qed.

Lemma set_worker_rest b w ch s :
  errs (set_worker b w ch s) = ch /\ cancelled (set_worker b w ch s) = cancelled s
  /\ main (set_worker b w ch s) = main s /\ listeners (set_worker b w ch s) = listeners s.
Proof. by destruct b. Qed.

Lemma returns_ok p ls s order got b e s' :
  run_step (returns b e) s = Some s' -> run_ok p ls s order got ->
  run_ok p (ls ++ [returns b e]) s' order got.
Proof.
  rewrite run_step_returns. intros Hs Hok.
  destruct (run_ok_weaken _ _ (returns b e) _ _ _ Hok) as [Hsent Hsending]. destruct Hok.
  destruct (worker_of b s) eqn:Hb; simplify_eq/=.
  destruct (set_worker_rest b (Sending e) (errs s) s) as (He & Hc & Hm & Hl).
  split; rewrite ?He, ?Hc, ?Hm, ?Hl; try done.
  - intros b' e' Hin. destruct (Hsent _ _ Hin) as [Hw ?]. rewrite worker_of_set.
    case_decide; [congruence|done].
  - intros b'. rewrite worker_of_set. case_decide; [done|]. apply ro_finished0.
  - intros b' e'. rewrite worker_of_set. case_decide; [|apply Hsending].
    intros [= <-]. subst. set_solver.
  - intros b'. rewrite worker_of_set. case_decide; [|apply ro_started0].
    subst b'. rewrite <- ro_started0. by rewrite Hb.
Qed.

Lemma sends_ok p ls s order got b s' :
  run_step (sends b) s = Some s' -> run_ok p ls s order got ->
  exists order', run_ok p (ls ++ [sends b]) s' order' got.
Proof.
  rewrite run_step_sends. intros Hs Hok.
  destruct (worker_of b s) as [| |e|] eqn:Hb; try done. simpl in Hs.
  destruct (run_ok_room _ _ _ _ _ _ _ Hok Hb) as [Hroom Hni].
  rewrite decide_True in Hs by done. simplify_eq/=.
  destruct (run_ok_weaken _ _ (sends b) _ _ _ Hok) as [Hsent Hsending].
  exists (order ++ [(b, e)]). destruct Hok.
  destruct (set_worker_rest b Finished (errs s ++ [e]) s) as (He & Hc & Hm & Hl).
  split; rewrite ?He, ?Hc, ?Hm, ?Hl; try done.
  - rewrite fmap_app, ro_split0. simpl. by rewrite (assoc_L (++)).
  - rewrite fmap_app. simpl. apply NoDup_app. split_and!; [done|set_solver|].
    apply NoDup_singleton.
  - intros b' e'. rewrite elem_of_app, list_elem_of_singleton, worker_of_set.
    intros [Hin|[= -> ->]].
    + destruct (Hsent _ _ Hin). case_decide; done.
    + rewrite decide_True by done. auto.
  - intros b'. rewrite worker_of_set, fmap_app, elem_of_app. case_decide; [subst; set_solver|].
    intros. left. auto.
  - intros b' e'. rewrite worker_of_set. case_decide; [done|apply Hsending].
  - intros b'. rewrite worker_of_set. case_decide; [|apply ro_started0].
    subst b'. rewrite <- ro_started0. by rewrite Hb.
Qed.

Lemma run_step_ok p ls l s s' order got :
  run_step l s = Some s' -> run_ok p ls s order got ->
  exists order' got', run_ok p (ls ++ [l]) s' order' got'.
Proof.
  intros Hs Hok. destruct (run_label_cases l) as [->|(b & [->|(e & ->)])].
  - destruct (main_step_ok _ _ _ _ _ _ Hs Hok) as (got' & Hok'). exists order, got'.
    destruct (run_ok_weaken _ _ MainStep _ _ _ Hok'). destruct Hok'. by split.
  - destruct (sends_ok _ _ _ _ _ _ _ Hs Hok). eauto.
  - eauto using returns_ok.
Qed.

Lemma run_steps_ok p ls pre s s' order got :
  run_steps ls s = Some s' -> run_ok p pre s order got ->
  exists order' got', run_ok p (pre ++ ls) s' order' got'.
Proof.
  revert pre s order got. induction ls as [|l ls IH]; simpl; intros pre s order got Hs Hok.
  { simplify_eq. rewrite app_nil_r. eauto. }
  destruct (run_step l s) as [s1|] eqn:Hl; [|done].
  destruct (run_step_ok _ _ _ _ _ _ _ Hl Hok) as (o1 & g1 & Hok1).
  change (l :: ls) with ([l] ++ ls). rewrite (assoc_L (++)). eauto.
Qed.

(** C35: [Run] returns only after every listener it started has returned, and
    after cancelling the context once the first one did; its result is the
    join of all their results in the order they were reported.  No listener
    ever blocks on the error channel, and [Run] is never stuck while the
    listeners have all finished. *)
Theorem run_waits_for_listeners p ls s :
  run_steps ls (run_start p) = Some s ->
  (forall r, main s = MainReturned r ->
     cancelled s = true
     /\ exists order, order.*1 ≡ₚ started p /\ join_all order.*2 r
          /\ forall b e, (b, e) ∈ order -> worker_of b s = Finished /\ returns b e ∈ ls)
  /\ (forall b e, worker_of b s = Sending e -> is_Some (run_step (sends b) s))
  /\ ((forall b, b ∈ started p -> worker_of b s = Finished) ->
      (exists r, main s = MainReturned r) \/ is_Some (run_step MainStep s)).
Proof.
  intros Hrun. destruct (run_steps_ok _ _ [] _ _ _ _ Hrun (run_start_ok p)) as (order & got & Hok).
  pose proof (run_ok_length _ _ _ _ _ Hok) as Hlen. pose proof Hok as [].
  assert (Hsub : order.*1 ⊆+ started p).
  { apply NoDup_submseteq; [done|]. intros b. by eapply run_ok_order. }
  assert (Hall : length order = (length got + length (errs s))%nat).
  { by rewrite <- (length_fmap snd), ro_split0, length_app. }
  split_and!.
  - intros r Hm. rewrite Hm in ro_main0. simpl in ro_main0.
    destruct ro_main0 as (Hc & Hj & Hl). split; [done|]. exists order.
    assert (errs s = []) as He by (apply length_zero_iff_nil; lia).
    rewrite He, app_nil_r in ro_split0. split_and!; [|by rewrite ro_split0|done].
    apply submseteq_length_Permutation; [done|]. rewrite length_fmap. lia.
  - intros b e Hb. destruct (run_ok_room _ _ _ _ _ _ _ Hok Hb) as [Hroom _].
    rewrite run_step_sends, Hb. simpl. rewrite decide_True by done. by eexists.
  - intros Hfin. assert (Hfull : (length (started p) <= length order)%nat).
    { rewrite <- (length_fmap fst order). apply submseteq_length, NoDup_submseteq.
      - unfold started. case_decide; repeat constructor; set_solver.
      - intros b Hb. auto. }
    simpl. unfold main_step. destruct (main s) as [|f|[|k] f|r]; simpl in ro_main0; eauto; right.
    + subst got. simpl in *. destruct (errs s); [|by eexists]. exfalso.
      simpl in Hall. unfold started in Hfull. case_decide; simpl in *; lia.
    + destruct ro_main0 as (_ & _ & Hk). destruct (errs s); [simpl in *; lia|by eexists].
Qed.

(** ** Witnesses *)

Definition quic_config : Config.Server :=
  Config.mkServer "8080" "8081" QUIC "127.0.0.1:9000" "0123456789abcdef" "cert.pem" "key.pem" ""
    (Some DefaultKCP).

Lemma validated_server_starts_witness :
  valid_server quic_config /\ exists o, server_options quic_config = Ok o
    /\ valid_announce (announcement quic_config).
Proof.
  assert (H : valid_server quic_config) by (apply server_validate_correct; vm_compute; reflexivity).
  split; [exact H|].
  destruct (validated_server_starts (fun _ _ => Ok tt) quic_config H) as (o & Ho & _ & _ & Ha & _).
  exists o. split; [exact Ho|exact Ha].
Defined.

(** The control listener fails first; the data listener then stops cleanly. *)
Definition bind_error : error := Wrapf "listen on control port: %w" [] (Sentinel "EADDRINUSE").
Definition failing_run : list run_label :=
  [ControlReturns (Some bind_error); ControlSends; MainStep; MainStep; DataReturns None;
   DataSends; MainStep; MainStep].
Definition after_failure : run_state :=
  match run_steps failing_run (run_start TCP) with Some s => s | None => run_start TCP end.

Lemma run_waits_for_listeners_witness :
  main after_failure = MainReturned (Some (Joined1 bind_error)) /\ cancelled after_failure = true.
Proof.
  split; [reflexivity|].
  destruct (run_waits_for_listeners TCP failing_run after_failure eq_refl) as [H _].
  exact (proj1 (H (Some (Joined1 bind_error)) eq_refl)).
Defined.
