(* ===== verification/Client.v ===== *)
(** * Package [client]: g-tun-client (src/internal/client/client.go, runner.go)

    The control connection and the runner that owns the running transport.  The runner is a transition system: [apply] and [stop]
    hold its mutex, possibly while waiting for the old transport to finish;
    the goroutines that supervise transports end on their own. *)

From S2P Require Import Prelude Lts GoLib Json JsonFuel Sha256 Proto Config Prog Net Auth Control Reconnect TlsUtil Transport Serve Server.

Local Open Scope Z_scope.

Definition controlDialTimeout : Z := 10 * Second.
Definition client_controlHandshakeTimeout : Z := 15 * Second.
Definition client_keepAlive : Z := 15 * Second.

(** ** The control connection *)

Section control.
Context `{M : Mac}.

(** [runControl] from the first [SetDeadline] to the second. *)
Definition control_session (conn : nat) (token : string) : prog netE (result CConfig) :=
  let! _ := call (SetDeadline conn (DeadlineIn client_controlHandshakeTimeout)) or id;
  let! channel := ClientHandshake conn token or Wrapf "authenticate with server: %w" [];
  let! announced := Receive conn token channel or id;
  let! _ := call (SetDeadline conn NoDeadline) or id;
  Ret (Ok announced).

(** What follows runs the network operations in any signature that has them;
    the runner's [apply], whose operations may be others, is an argument. *)
Section runControl.
Context {E : Type -> Type} `{!Embeds netE E}.
Context (cfg : Config.Client) (apply : CConfig -> prog E (option error)).

(** The statements of [runControl] between its [defer]s and its [return]s. *)
Definition runControl_body (conn : nat) : prog E (bool * option error) :=
  do! announced := translate (control_session conn (ClientToken cfg));
  match announced with
  | Err err => Ret (false, Some err)
  | Ok announced =>
      do! applied := apply announced;
      match applied with
      | Some err => Ret (false, Some err)
      | None =>
          do! copied := call (embed (CopyDiscard conn));
          match copied with
          | Err err => Ret (true, Some err)
          | Ok _ => Ret (true, Some (Errorf "server closed the control connection" []))
          end
      end
  end.

(** [runControl]: whether the server accepted the client, and the error. *)
Definition runControl : prog E (bool * option error) :=
  do! conn := call (embed (Dial (AddrTCP (ControlAddress cfg) controlDialTimeout client_keepAlive)));
  match conn with
  | Err err => Ret (false, Some err)
  | Ok conn =>
      run! call (embed (AfterFuncClose conn));
      do! res := runControl_body conn;
      run! call (embed (StopAfterFunc conn));
      run! call (embed (Close conn));
      Ret res
  end.
End runControl.
End control.

(** ** The runner (runner.go) *)

Section runner.
Context `{M : Mac} {KeyPair : Type}.
Context (pem_Decode : bytes -> option (string * bytes)).
Context (AppendCertsFromPEM : bytes -> bool).   (* x509.CertPool's method *)
Context (fs : files) (cfg : Config.Client).

Definition loadCertPool (path : string) : result bytes :=
  try! pem := ReadFile fs path or Wrapf "read stealth_ca_file: %w" [];
  if AppendCertsFromPEM pem then Ok pem
  else Err (Errorf "stealth_ca_file %s contains no certificates" [FStr path]).

(** The options [apply] builds, given the certificate pool. *)
Definition client_options (settings : CConfig) (pool : option bytes) : ClientOptions := {|
  co_Protocol := Protocol settings;
  co_ServerAddr := JoinHostPort (RemoteHost cfg) (Port settings);
  co_ListenAddr := ListenAddress cfg;
  co_Token := ClientToken cfg;
  co_CertPath := ClientTLSCertPath cfg;
  co_KCP := match CKCP settings with Some k => k | None => DefaultKCP end;
  co_StealthSNI := StealthSNI cfg;
  co_StealthRootCAs := pool
|}.

(** The part of [apply] between [stopLocked] and the start of the goroutine. *)
Definition new_transport (settings : CConfig) : result (@client KeyPair) :=
  try! pool := (if decide (StealthCAFile cfg <> ""%string)
                then (try! p := loadCertPool (StealthCAFile cfg) or id; Ok (Some p))
                else Ok None) or id;
  NewClient pem_Decode fs (client_options settings pool).

(** [running]: the transport is supervised by a goroutine until [done]. *)
Record running : Type := mkRunning {
  settings : CConfig;
  transport : @client KeyPair;
  cancelled : bool;
  done : bool;
}.

(** Who holds the mutex, waiting for the current transport to finish. *)
Inductive lock_holder : Type :=
| Unlocked
| ApplyWaits (s : CConfig)
| StopWaits.

Record runner : Type := mkRunner {
  all : list running;                       (* every transport ever started *)
  current : option nat;
  holder : lock_holder;
  parent_done : bool;                       (* r.ctx *)
  reports : list (CConfig * option error);  (* the apply calls that returned *)
}.

Definition newRunner : runner := mkRunner [] None Unlocked false [].

Definition set_cancelled (x : running) : running :=
  mkRunning (settings x) (transport x) true (done x).
Definition set_done (x : running) : running :=
  mkRunning (settings x) (transport x) (cancelled x) true.
Definition update (f : running -> running) (i : nat) (r : runner) : runner :=
  mkRunner (alter f i (all r)) (current r) (holder r) (parent_done r) (reports r).
Definition set_current (c : option nat) (r : runner) : runner :=
  mkRunner (all r) c (holder r) (parent_done r) (reports r).
Definition set_holder (h : lock_holder) (r : runner) : runner :=
  mkRunner (all r) (current r) h (parent_done r) (reports r).

(** [apply] returns and releases the mutex. *)
Definition report (s : CConfig) (res : option error) (r : runner) : runner :=
  mkRunner (all r) (current r) Unlocked (parent_done r) (reports r ++ [(s, res)]).

(** [apply] once nothing is running. *)
Definition start (s : CConfig) (r : runner) : runner :=
  match new_transport s with
  | Err err => report s (Some err) r
  | Ok tr =>
      report s None
        (mkRunner (all r ++ [mkRunning s tr false false]) (Some (length (all r)))
           (holder r) (parent_done r) (reports r))
  end.

Inductive runner_label : Type :=
| Apply (s : CConfig)      (* lock; compare; cancel the current transport *)
| ApplyResumes             (* its goroutine is done: start the new one *)
| Stop                     (* lock; cancel *)
| StopResumes
| Exit (i : nat)           (* supervise returns: close(run.done) *)
| ParentDone.              (* the context of the program is done *)

Definition current_running (r : runner) : option (nat * running) :=
  match current r with
  | Some i => (fun x => (i, x)) <$> all r !! i
  | None => None
  end.

Definition runner_step (l : runner_label) (r : runner) : option runner :=
  match l with
  | Apply s =>
      match holder r with
      | Unlocked =>
          match current_running r with
          | None => Some (start s r)
          | Some (i, x) =>
              if Equal (settings x) s && negb (done x) then Some (report s None r)
              else Some (set_holder (ApplyWaits s) (update set_cancelled i r))
          end
      | _ => None
      end
  | ApplyResumes =>
      match holder r, current_running r with
      | ApplyWaits s, Some (_, x) => if done x then Some (start s (set_current None r)) else None
      | _, _ => None
      end
  | Stop =>
      match holder r with
      | Unlocked =>
          match current_running r with
          | None => Some r
          | Some (i, _) => Some (set_holder StopWaits (update set_cancelled i r))
          end
      | _ => None
      end
  | StopResumes =>
      match holder r, current_running r with
      | StopWaits, Some (_, x) =>
          if done x then Some (set_holder Unlocked (set_current None r)) else None
      | _, _ => None
      end
  | Exit i =>
      match all r !! i with
      | Some x => if negb (done x) && (cancelled x || parent_done r)
                  then Some (update set_done i r) else None
      | None => None
      end
  | ParentDone => Some (mkRunner (all r) (current r) (holder r) true (reports r))
  end.

Definition runner_run : list runner_label -> runner -> option runner := steps runner_step.

(** Only the current transport can be running; it is cancelled exactly while
    the mutex is held to replace or stop it; it runs the options of its
    settings; and a live transport only ends after being cancelled. *)
Record runner_ok (r : runner) : Prop := {
  rn_single : forall i x, all r !! i = Some x -> done x = false -> current r = Some i;
  rn_current : forall i, current r = Some i -> exists x, all r !! i = Some x
    /\ new_transport (settings x) = Ok (transport x)
    /\ (cancelled x = true <-> holder r <> Unlocked)
    /\ (done x = true -> cancelled x = true \/ parent_done r = true);
  rn_holder : holder r <> Unlocked -> current r <> None;
}.

Lemma newRunner_ok : runner_ok newRunner.
Proof using. clear. by split. Qed.

(** Nothing is running when no transport is current. *)
Lemma all_done r : runner_ok r -> current r = None -> forall i x, all r !! i = Some x -> done x = true.
Proof using.
  intros Hok Hc i x Hx. destruct (done x) eqn:Hd; [reflexivity|].
  pose proof (rn_single _ Hok _ _ Hx Hd). congruence.
Qed.

Lemma start_ok s r :
  (forall i x, all r !! i = Some x -> done x = true) -> current r = None ->
  runner_ok (start s r).
Proof.
  intros Hdone Hc. unfold start. destruct (new_transport s) as [tr|err] eqn:Hn.
  - split; simpl; [| |congruence].
    + intros i x Hx Hd. apply lookup_app_Some in Hx as [Hx|[Hle Hx]].
      * apply Hdone in Hx. congruence.
      * apply list_lookup_singleton_Some in Hx as [? _]. f_equal. lia.
    + intros i [= <-]. exists (mkRunning s tr false false).
      rewrite lookup_app_r, Nat.sub_diag by lia. by split_and!.
  - split; simpl; rewrite ?Hc; [|congruence|congruence].
    intros i x Hx Hd. apply Hdone in Hx. congruence.
Qed.

(** Change the cancelled or done flag of one transport. *)
Lemma lookup_update f i (r : runner) j x :
  all (update f i r) !! j = Some x ->
  exists y, all r !! j = Some y /\ x = if decide (i = j) then f y else y.
Proof using.
  simpl. rewrite list_lookup_alter. case_decide; [|eauto].
  intros (y & Hy & ->)%fmap_Some. subst. eauto.
Qed.

Lemma update_lookup f i (r : runner) j y :
  all r !! j = Some y ->
  all (update f i r) !! j = Some (if decide (i = j) then f y else y).
Proof using.
  intros Hy. simpl. rewrite list_lookup_alter. case_decide; [|done]. by subst; rewrite Hy.
Qed.

Lemma current_running_Some (r : runner) i x :
  current_running r = Some (i, x) <-> current r = Some i /\ all r !! i = Some x.
Proof using.
  unfold current_running. destruct (current r) as [j|]; [|naive_solver].
  destruct (all r !! j) as [y|] eqn:Hy; naive_solver.
Qed.

(** Taking the mutex to replace or stop the current transport. *)
Lemma cancel_ok r i x h :
  current_running r = Some (i, x) -> h <> Unlocked -> runner_ok r ->
  runner_ok (set_holder h (update set_cancelled i r)).
Proof.
  intros [Ej Hy]%current_running_Some Hh [Hs Hc Hl].
  split; [| |simpl; congruence].
  - intros k z (w & Hw & ->)%lookup_update Hd. change (current r = Some k).
    apply (Hs k w Hw). by destruct (decide _).
  - intros k Hk. change (current r = Some k) in Hk. rewrite Ej in Hk. simplify_eq.
    destruct (Hc _ Ej) as (z & Hz & Hn & _ & _). simplify_eq.
    eexists. split; [by apply (update_lookup set_cancelled k)|]. rewrite decide_True by done.
    simpl. by split_and!; auto.
Qed.

Lemma exit_ok r i x :
  all r !! i = Some x -> cancelled x || parent_done r = true -> runner_ok r ->
  runner_ok (update set_done i r).
Proof.
  intros Hx Hend [Hs Hc Hl]. split; [| |done].
  - intros k z (w & Hw & ->)%lookup_update Hd. apply (Hs k w Hw).
    by destruct (decide _).
  - intros k Hk. destruct (Hc _ Hk) as (z & Hz & Hn & Hcan & Hdone).
    eexists. split; [by apply (update_lookup set_done i)|].
    destruct (decide (i = k)) as [->|]; [|by split_and!]. simplify_eq. simpl.
    split_and!; [done..|]. intros _. by apply orb_true_iff.
Qed.

(** The mutex holder resumes once the current transport is done. *)
Lemma resume_done r i x :
  current_running r = Some (i, x) -> done x = true -> runner_ok r ->
  forall j y, all r !! j = Some y -> done y = true.
Proof using.
  intros [Ek Hz]%current_running_Some Hd [Hs Hc Hl] j y Hy.
  destruct (done y) eqn:Hdy; [reflexivity|]. pose proof (Hs _ _ Hy Hdy). congruence.
Qed.

Lemma runner_step_ok l r r' : runner_step l r = Some r' -> runner_ok r -> runner_ok r'.
Proof.
  intros Hstep Hok. destruct l as [s| | | |i|]; simpl in Hstep.
  - destruct (holder r) eqn:Hh; try discriminate.
    destruct (current_running r) as [[i x]|] eqn:Hc.
    + destruct (Equal _ _ && _); simplify_eq; [|by eapply cancel_ok].
      destruct Hok as [H1 H2 H3]. rewrite Hh in *. by split.
    + simplify_eq. assert (Hn : current r = None).
      { unfold current_running in Hc. destruct (current r) as [i|] eqn:Ei; [|done].
        destruct (rn_current _ Hok _ Ei) as (x & Hx & _). by rewrite Hx in Hc. }
      apply start_ok; [by apply all_done|done].
  - destruct (holder r) eqn:Hh; try discriminate.
    destruct (current_running r) as [[i x]|] eqn:Hc; [|discriminate].
    destruct (done x) eqn:Hd; simplify_eq. apply start_ok; [|done].
    exact (resume_done _ _ _ Hc Hd Hok).
  - destruct (holder r) eqn:Hh; try discriminate.
    destruct (current_running r) as [[i x]|] eqn:Hc; simplify_eq; [by eapply cancel_ok|done].
  - destruct (holder r) eqn:Hh; try discriminate.
    destruct (current_running r) as [[i x]|] eqn:Hc; [|discriminate].
    destruct (done x) eqn:Hd; simplify_eq. pose proof (resume_done _ _ _ Hc Hd Hok) as Hall.
    split; simpl; [|congruence|congruence]. intros j y Hy Hdy. apply Hall in Hy. congruence.
  - destruct (all r !! i) as [x|] eqn:Hx; [|discriminate].
    destruct (negb (done x)); [|discriminate].
    destruct (cancelled x || parent_done r) eqn:He; [|discriminate]. simpl in Hstep. simplify_eq.
    by eapply exit_ok.
  - simplify_eq.
    destruct Hok as [H1 H2 H3]. split; simpl; [done| |done].
    intros i Hi. destruct (H2 _ Hi) as (x & Hx & Hn & Hcan & _). exists x. split_and!; auto.
Qed.

Lemma runner_run_ok ls r r' : runner_run ls r = Some r' -> runner_ok r -> runner_ok r'.
Proof.
  intros Hrun Hok. refine (steps_preserve runner_step runner_ok _ _ _ _ Hok Hrun).
  eauto using runner_step_ok.
Qed.

(** C33: At any moment of any execution at most one transport runs; it is the
    current one, made from exactly the settings that were applied, and when
    the runner has no current transport (after [stop], or after an [apply]
    that failed) none runs.  While the program's context is live, a transport
    only ends because the runner is replacing or stopping it. *)
Theorem one_transport_at_a_time ls r :
  runner_run ls newRunner = Some r ->
  (forall i j x y, all r !! i = Some x -> all r !! j = Some y ->
     done x = false -> done y = false -> i = j)
  /\ (forall i x, all r !! i = Some x -> done x = false ->
     current r = Some i /\ new_transport (settings x) = Ok (transport x))
  /\ (current r = None -> forall i x, all r !! i = Some x -> done x = true)
  /\ (parent_done r = false -> holder r = Unlocked ->
     forall i x, current r = Some i -> all r !! i = Some x -> done x = false).
Proof.
  intros Hrun. pose proof (runner_run_ok _ _ _ Hrun newRunner_ok) as Hok. pose proof Hok as [Hs Hc _].
  split_and!.
  - intros i j x y Hx Hy Hdx Hdy. pose proof (Hs _ _ Hx Hdx). pose proof (Hs _ _ Hy Hdy). congruence.
  - intros i x Hx Hd. pose proof (Hs _ _ Hx Hd) as Hi. split; [exact Hi|].
    destruct (Hc _ Hi) as (y & Hy & Hn & _). congruence.
  - intros Hn. by apply all_done.
  - intros Hp Hh i x Hi Hx. destruct (Hc _ Hi) as (y & Hy & _ & Hcan & Hend). simplify_eq.
    destruct (done x); [|reflexivity]. destruct Hend as [Hcx|]; [reflexivity| |congruence].
    by apply Hcan in Hcx.
Qed.

Lemma alter_alter (f g : running -> running) i (l : list running) :
  alter f i (alter g i l) = alter (fun x => f (g x)) i l.
Proof using.
  apply list_eq. intros j. destruct (decide (i = j)) as [->|Hne].
  - rewrite !list_lookup_alter_eq. by destruct (l !! j).
  - by rewrite !list_lookup_alter_ne.
Qed.

(** What [start] leaves: the new transport current, or nothing and the error. *)
Definition applied (s : CConfig) (r r' : runner) : Prop :=
  match new_transport s with
  | Ok tr => all r' = all r ++ [mkRunning s tr false false]
      /\ current r' = Some (length (all r)) /\ reports r' = reports r ++ [(s, None)]
  | Err err => all r' = all r /\ current r' = None /\ reports r' = reports r ++ [(s, Some err)]
  end.

Lemma start_applied s r : current r = None -> applied s r (start s r) /\ holder (start s r) = Unlocked.
Proof using.
  intros Hc. unfold applied, start. by destruct (new_transport s).
Qed.

(** C34: [apply] on a live runner.  Settings equal to those of the current
    transport change nothing, so reconnecting does not interrupt it.  Other
    settings first cancel the current transport and wait for it; when it has
    ended, [apply] goes on: the new transport becomes the current one, or,
    when it cannot be created, the error is returned and nothing runs.  With
    no current transport the new one is started at once. *)
Theorem apply_effect ls r s :
  runner_run ls newRunner = Some r -> parent_done r = false -> holder r = Unlocked ->
  match current_running r with
  | Some (i, x) =>
      if decide (settings x = s) then runner_step (Apply s) r = Some (report s None r)
      else exists r1 r2 r3,
        runner_step (Apply s) r = Some r1 /\ runner_step ApplyResumes r1 = None
        /\ runner_step (Exit i) r1 = Some r2
        /\ runner_step ApplyResumes r2 = Some r3 /\ holder r3 = Unlocked
        /\ all r2 = alter (fun x => set_done (set_cancelled x)) i (all r)
        /\ applied s r2 r3
  | None => exists r3, runner_step (Apply s) r = Some r3 /\ holder r3 = Unlocked /\ applied s r r3
  end.
Proof.
  intros Hrun Hp Hh. pose proof (runner_run_ok _ _ _ Hrun newRunner_ok) as Hok.
  destruct (current_running r) as [[i x]|] eqn:Hcur.
  - pose proof Hcur as [Hi Hx]%current_running_Some.
    assert (Hd : done x = false).
    { destruct (rn_current _ Hok _ Hi) as (y & Hy & _ & Hcan & Hend). simplify_eq.
      destruct (done x); [|reflexivity]. destruct Hend as [Hcx|]; [reflexivity| |congruence].
      by apply Hcan in Hcx. }
    simpl. rewrite Hh, Hcur, Hd. case_decide as Hs.
    + by rewrite (proj2 (Equal_spec _ _) Hs).
    + assert (Equal (settings x) s = false) as -> by (apply not_true_iff_false; by rewrite Equal_spec).
      set (r1 := set_holder (ApplyWaits s) (update set_cancelled i r)).
      assert (Hx1 : all r1 !! i = Some (set_cancelled x)).
      { unfold r1. simpl. by rewrite list_lookup_alter_eq, Hx. }
      assert (Hc1 : current_running r1 = Some (i, set_cancelled x)) by (by apply current_running_Some).
      set (r2 := update set_done i r1).
      assert (Hc2 : current_running r2 = Some (i, set_done (set_cancelled x))).
      { apply current_running_Some. split; [done|]. unfold r2. simpl.
        by rewrite list_lookup_alter_eq, list_lookup_alter_eq, Hx. }
      exists r1, r2, (start s (set_current None r2)).
      destruct (start_applied s (set_current None r2)) as [Hst Hun]; [done|].
      split_and!; try done.
      * simpl. change (holder r1) with (ApplyWaits s). by rewrite Hc1; simpl; rewrite Hd.
      * cbn [runner_step]. rewrite Hx1. simpl. by rewrite Hd.
      * cbn [runner_step]. change (holder r2) with (ApplyWaits s). by rewrite Hc2.
      * unfold r2, r1. simpl. by rewrite alter_alter.
  - assert (Hn : current r = None).
    { destruct (current r) as [i|] eqn:Ei; [|done].
      destruct (rn_current _ Hok _ Ei) as (x & Hx & _).
      by rewrite (proj2 (current_running_Some r i x)) in Hcur. }
    exists (start s r). destruct (start_applied s r Hn) as [Hst Hun].
    split_and!; [|done|done]. simpl. by rewrite Hh, Hcur.
Qed.

End runner.

(** ** The control connection, end to end *)

Section end_to_end.
Context `{M : Mac}.

(** A completed handshake inside two larger programs: the client goes on to
    read, the server sets a deadline first. *)
Lemma handshake_then {A B} fuel token cn sn d (f : result Channel -> prog netE A)
    (g : result Channel -> prog netE B) (k : result unit -> prog netE B) :
  length cn = NonceSize -> length sn = NonceSize ->
  (exists c n k, f (Ok (transcript cn sn)) = Vis (ReadFull c (S n)) k) ->
  k (Ok tt) = bind g (ServerHandshake 1 token) ->
  duplex (S (S (S (S (S (S (S (S (S fuel))))))))) (mkEndpoint (bind f (ClientHandshake 0 token)) cn)
    (mkEndpoint (Vis (SetDeadline 1 d) k) sn) [] []
  = duplex fuel (mkEndpoint (f (Ok (transcript cn sn))) [])
      (mkEndpoint (g (Ok (transcript cn sn))) []) [] [].
Proof.
  intros Hcn Hsn (c & n & k' & Hf) Hk. pose proof (length_Sign token labelServer [cn; sn]) as HS.
  pose proof (length_Sign token labelClient [cn; sn]) as HC.
  assert (TagSize = 32%nat) as HT by done. unfold NonceSize in *.
  unfold ClientHandshake, NonceSize. do 3 duplex_step. rewrite Hk.
  unfold ServerHandshake, NonceSize.
  cbn [bind call]. do 4 duplex_step. rewrite Verify_Sign. cbn [negb bind]. duplex_step.
  rewrite Hf. duplex_step. rewrite Verify_Sign. by cbn [negb bind].
Qed.

(** An announcement sent inside two larger programs. *)
Lemma announce_then {A B} fuel token channel ann (f : result CConfig -> prog netE A)
    (g : result unit -> prog netE B) :
  (length (marshal ann) <= maxBodySize)%nat -> decode_config (marshal ann) = Ok ann ->
  duplex (S (S (S fuel))) (mkEndpoint (bind f (Receive 0 token channel)) [])
    (mkEndpoint (bind g (Send 1 token channel ann)) []) [] []
  = duplex fuel (mkEndpoint (f (Ok ann)) []) (mkEndpoint (g (Ok tt)) []) [] [].
Proof.
  intros Hmax Hdec. pose proof (length_Sign token labelConfig [channel; marshal ann]) as HK.
  unfold Send, Receive. rewrite decide_False by lia. unfold frame.
  pose proof (header_length _ Hmax) as Hn. revert Hn.
  generalize (eq_refl : length (put_uint16 (uint16 (Z.of_nat (length (marshal ann))))) = 2%nat).
  generalize (put_uint16 (uint16 (Z.of_nat (length (marshal ann))))). intros hdr Hhdr Hn.
  do 2 duplex_step. rewrite Hn, decide_False by lia. duplex_step.
  rewrite Verify_Sign, Hdec. by cbn [negb bind].
Qed.

(** C15: The two control programs understand each other.  A server with a
    validated configuration and a client with the same token, over a working
    connection and whatever nonces they draw, run to the point where the
    client holds exactly the server's announcement and the server waits for
    the client to go away; no byte is left over.  The transport options the
    client then builds name the server's protocol and data port, and for
    utcpmux its KCP parameters. *)
Theorem control_end_to_end cfg o ccfg pool cn sn :
  valid_server cfg -> server_options cfg = Ok o -> ClientToken ccfg = ServerToken cfg ->
  (forall k, ServerKCP cfg = Some k -> int64_KCP k) ->
  (length (marshal (announcement cfg)) <= maxBodySize)%nat ->
  length cn = NonceSize -> length sn = NonceSize ->
  (exists waiting,
    duplex 24 (mkEndpoint (control_session 0 (ClientToken ccfg)) cn)
      (mkEndpoint (handleControl_body 1 (ServerToken cfg) (announcement cfg)) sn) [] []
    = (mkEndpoint (Ret (Ok (announcement cfg))) [],
       mkEndpoint (Vis (CopyDiscard 1) waiting) [], [], []))
  /\ (let co := client_options ccfg (announcement cfg) pool in
      co_Protocol co = so_Protocol o
      /\ co_ServerAddr co = JoinHostPort (RemoteHost ccfg) (ServerDataPort cfg)
      /\ (so_Protocol o = UTCPMux -> co_KCP co = so_KCP o)).
Proof.
  intros Hv Ho -> Hint Hmax Hcn Hsn. pose proof (announcement_valid _ Hv) as Ha. split.
  - assert (Hint' : forall k, CKCP (announcement cfg) = Some k -> int64_KCP k).
    { simpl. case_decide; [done|discriminate]. }
    unfold control_session, handleControl_body. cbn [bind call].
    duplex_step. erewrite (handshake_then 14); [|done|done|by do 3 eexists|reflexivity].
    cbv beta iota. rewrite (announce_then 11) by (try done; by apply decode_marshal).
    cbv beta iota. do 3 duplex_step. by eexists.
  - unfold server_options in Ho. destruct (ServerKCP cfg) as [k|] eqn:Hk; [|discriminate].
    injection Ho as <-. simpl. split_and!; [done|done|]. intros ->.
    by rewrite decide_True, Hk by done.
Qed.

Lemma control_session_ok conn token tr ann :
  runs (control_session conn token) tr (Ok ann) ->
  exists cn sn tr2, length cn = NonceSize /\ length sn = NonceSize
    /\ runs (Receive conn token (transcript cn sn)) tr2 (Ok ann)
    /\ tr = EDeadline conn (DeadlineIn client_controlHandshakeTimeout) (Ok tt)
            :: client_accept_trace conn token cn sn ++ tr2 ++ [EDeadline conn NoDeadline (Ok tt)].
Proof.
  unfold control_session. intros H. inv_runs H; simplify_eq.
  apply ClientHandshake_ok in Hrun as (cn & sn & ? & ? & -> & ->).
  exists cn, sn. eexists. split_and!; [done..|eassumption|].
  repeat match goal with u : unit |- _ => destruct u end. reflexivity.
Qed.

Lemma runControl_body_established cfg (apply : CConfig -> option error) conn tr err :
  runs (runControl_body cfg (fun c => Ret (apply c)) conn) tr (true, err) ->
  exists cn sn body ann tr1 tr2,
    length cn = NonceSize /\ length sn = NonceSize
    /\ tr = tr1 ++ client_accept_trace conn (ClientToken cfg) cn sn ++ tr2
    /\ ERead conn (length body + TagSize)
         (Ok (body ++ Sign (ClientToken cfg) labelConfig [transcript cn sn; body])) ∈ tr2
    /\ decode_config body = Ok ann /\ apply ann = None.
Proof.
  unfold runControl_body. intros (t1 & t2 & [ann|e] & -> & Hs & H)%runs_bind;
    [|by destruct H as [_ [=]]].
  apply runs_translate, control_session_ok in Hs as (cn & sn & t3 & Hcn & Hsn & Hrecv & ->).
  apply Receive_ok in Hrecv as (header & body & _ & _ & _ & -> & Hdec & _).
  cbn [bind] in H. destruct (apply ann) as [e|] eqn:Ha; [by destruct H as [_ [=]]|].
  exists cn, sn, body, ann, [EDeadline conn (DeadlineIn client_controlHandshakeTimeout) (Ok tt)].
  eexists. split_and!; [done|done| | |done|done].
  - cbn [app]. by rewrite <- !(assoc_L (++)).
  - find_in_trace.
Qed.

Lemma runControl_body_fails cfg (apply : CConfig -> option error) conn tr est err :
  runs (runControl_body cfg (fun c => Ret (apply c)) conn) tr (est, err) ->
  err <> None /\ Forall (fun e => match e with EDial _ _ => False | _ => True end) tr.
Proof.
  intros H. split.
  - unfold runControl_body in H. apply runs_bind in H as (t1 & t2 & [ann|e] & -> & _ & H);
      [|by destruct H as [_ [= -> ->]]].
    cbn [bind] in H. destruct (apply ann); [by destruct H as [_ [= -> ->]]|].
    apply runs_vis_bind in H as ([|] & t & _ & -> & H); by destruct H as [_ [= -> ->]].
  - revert H. apply (fun p => p : emits _ _). unfold runControl_body, control_session.
    emits_step; [apply emits_translate|]; emits_all.
    + eapply emits_weaken; [|apply ClientHandshake_conversation]. by intros [].
    + unfold Receive. emits_all.
Qed.

(** C38: [runControl] reports an established connection only if the server
    proved itself, and sent, under the channel of this very handshake and
    this token, an announcement that [apply] accepted; it always returns an
    error for the caller to log, and whatever happens the last thing it does
    is close the connection it dialled. *)
Theorem control_connection_outcomes cfg (apply : CConfig -> option error) tr established err :
  runs (runControl cfg (fun c => Ret (apply c))) tr (established, err) ->
  err <> None
  /\ (forall a x, EDial a (Ok x) ∈ tr -> last tr = Some (EClose x))
  /\ (established = true -> exists conn cn sn body ann tr1 tr2,
        length cn = NonceSize /\ length sn = NonceSize
        /\ tr = tr1 ++ client_accept_trace conn (ClientToken cfg) cn sn ++ tr2
        /\ ERead conn (length body + TagSize)
             (Ok (body ++ Sign (ClientToken cfg) labelConfig [transcript cn sn; body])) ∈ tr2
        /\ decode_config body = Ok ann /\ apply ann = None).
Proof.
  unfold runControl, embed, embeds_refl. intros (r & t & _ & -> & H)%runs_vis_bind.
  cbn [bind observe net_Effect net_observe] in H |- *.
  destruct r as [conn|e]; [|destruct H as [-> [= -> ->]]; split_and!; try done;
    intros a x Hin; in_trace Hin].
  apply runs_vis_bind in H as (r & t1 & _ & -> & H).
  cbn [bind observe net_Effect net_observe] in H |- *.
  apply runs_bind in H as (t2 & t3 & [est er] & -> & Hbody & H). inv_runs H; simplify_eq.
  cbn [observe net_Effect net_observe app].
  destruct (runControl_body_fails _ _ _ _ _ _ Hbody) as [Herr Hnd]. rewrite Forall_forall in Hnd.
  split_and!; [done| |].
  - intros a x Hin. assert (x = conn) as ->.
    { in_trace Hin; [done|]. by apply Hnd in Hin. }
    change [EStopAfterFunc conn; EClose conn] with ([EStopAfterFunc conn] ++ [EClose conn]).
    rewrite (assoc_L (++)), !app_comm_cons. apply last_snoc.
  - intros ->. apply runControl_body_established in Hbody
      as (cn & sn & body & ann & tr1 & tr2 & Hcn & Hsn & -> & Hin & Hd & Ha).
    eexists conn, cn, sn, body, ann, (_ :: _ :: tr1), (tr2 ++ _).
    split_and!; [done|done| | |done|done].
    + cbn [app]. by rewrite <- !(assoc_L (++)).
    + apply elem_of_app. by left.
Qed.

End end_to_end.

(** ** Static mode *)

Section static.
Context `{M : Mac}.

Definition tuned_server : Config.Server :=
  Config.mkServer "8080" "8081" UTCPMux "127.0.0.1:9000" "0123456789abcdef" "" "" ""
    (Some (mkKCP 1 20 2 1 4096 4096 20 5)).
Definition static_client : Config.Client :=
  Config.mkClient "" "198.51.100.7" ":1080" "0123456789abcdef" UTCPMux "8081" "" "" "cert.pem".

(** A static utcpmux client always uses the default KCP parameters: both
    configurations below are valid and match in protocol, token and port, but
    the two ends run different forward error correction. *)
Lemma static_kcp_mismatch :
  server_validate tuned_server = None /\ client_validate static_client = None
  /\ ClientProtocol static_client <> ""%string
  /\ exists o, server_options tuned_server = Ok o
     /\ kind_of (so_Protocol o) (so_Token o) (so_KCP o)
        <> kind_of (co_Protocol (client_options static_client (static_settings static_client) None))
             (co_Token (client_options static_client (static_settings static_client) None))
             (co_KCP (client_options static_client (static_settings static_client) None)).
Proof.
  split_and!; [vm_compute; reflexivity|vm_compute; reflexivity|discriminate|].
  eexists. split; [reflexivity|]. cbn. intros [= ?].
Qed.
End static.

(** ** Witnesses *)

Definition roaming_client : Config.Client :=
  Config.mkClient "198.51.100.7:8080" "198.51.100.7" ":1080" "0123456789abcdef" "" "" "" "" "cert.pem".
Definition announced_tcp : CConfig := mkCConfig TCP "8081" None.

Definition demo_run := runner_run (KeyPair := unit) (fun _ => None) (fun _ => true) ∅ roaming_client.
Definition after_apply : @runner unit :=
  match demo_run [Apply announced_tcp] newRunner with Some r => r | None => newRunner end.

Lemma one_transport_at_a_time_witness :
  demo_run [Apply announced_tcp] newRunner = Some after_apply
  /\ forall i x, all after_apply !! i = Some x -> done x = false -> current after_apply = Some i.
Proof.
  assert (H : demo_run [Apply announced_tcp] newRunner = Some after_apply) by reflexivity.
  split; [exact H|]. intros i x Hx Hd.
  destruct (one_transport_at_a_time _ _ _ _ _ _ H) as (_ & H2 & _). exact (proj1 (H2 i x Hx Hd)).
Defined.

(** A reconnection announces the same settings: nothing changes. *)
Lemma apply_effect_witness :
  demo_run [Apply announced_tcp] newRunner = Some after_apply
  /\ runner_step (fun _ => None) (fun _ => true) ∅ roaming_client (Apply announced_tcp) after_apply
     = Some (report announced_tcp None after_apply).
Proof.
  assert (H : demo_run [Apply announced_tcp] newRunner = Some after_apply) by reflexivity.
  split; [exact H|].
  exact (apply_effect (fun _ => None) (fun _ => true) ∅ roaming_client [Apply announced_tcp]
    after_apply announced_tcp H eq_refl eq_refl).
Defined.

Lemma control_end_to_end_witness :
  valid_server tuned_server
  /\ exists waiting,
    duplex 24 (mkEndpoint (control_session 0 "0123456789abcdef") nonce_a)
      (mkEndpoint (handleControl_body 1 "0123456789abcdef" (announcement tuned_server)) nonce_b)
      [] []
    = (mkEndpoint (Ret (Ok (announcement tuned_server))) [],
       mkEndpoint (Vis (CopyDiscard 1) waiting) [], [], []).
Proof.
  assert (Hv : valid_server tuned_server)
    by (apply server_validate_correct; vm_compute; reflexivity).
  split; [exact Hv|].
  assert (Hi : forall k, ServerKCP tuned_server = Some k -> int64_KCP k).
  { intros k [= <-]. repeat split; vm_compute; discriminate. }
  assert (Hl : (length (marshal (announcement tuned_server)) <= maxBodySize)%nat).
  { apply Nat.leb_le. vm_compute. reflexivity. }
  assert (Ho : exists o, server_options tuned_server = Ok o) by (eexists; reflexivity).
  destruct Ho as [o Ho].
  exact (proj1 (control_end_to_end tuned_server o roaming_client None nonce_a nonce_b
    Hv Ho eq_refl Hi Hl eq_refl eq_refl)).
Defined.

(** An accepted control connection that the server closes later. *)
Definition announced_bytes : bytes := marshal announced_tcp.
Definition session_trace : list event :=
  let token := "0123456789abcdef"%string in
  EDeadline 4 (DeadlineIn client_controlHandshakeTimeout) (Ok tt)
  :: client_accept_trace 4 token nonce_a nonce_b
  ++ [ERead 4 2 (Ok (put_uint16 (uint16 (Z.of_nat (length announced_bytes)))));
      ERead 4 (length announced_bytes + TagSize)
        (Ok (announced_bytes
             ++ Sign token labelConfig [transcript nonce_a nonce_b; announced_bytes]))]
  ++ [EDeadline 4 NoDeadline (Ok tt)].
Definition established_trace : list event :=
  EDial (AddrTCP "198.51.100.7:8080" controlDialTimeout client_keepAlive) (Ok 4%nat) :: EAfterFunc 4
  :: (session_trace ++ [EDiscard 4 (Ok tt)]) ++ [EStopAfterFunc 4; EClose 4].

Lemma session_runs :
  runs (control_session 4 "0123456789abcdef") session_trace (Ok announced_tcp).
Proof.
  unfold control_session, session_trace.
  exists (Ok tt). eexists. split; [exact I|]. split; [reflexivity|]. cbn [bind].
  apply runs_bind. eexists _, _, (Ok (transcript nonce_a nonce_b)). split; [reflexivity|].
  split; [apply ClientHandshake_ok; by exists nonce_a, nonce_b|].
  apply runs_bind. eexists _, _, (Ok announced_tcp). split; [reflexivity|].
  split; [|exists (Ok tt), []; split; [exact I|]; split; [reflexivity|]; split; reflexivity].
  assert (Hl : (length announced_bytes <= maxBodySize)%nat)
    by (apply Nat.leb_le; vm_compute; reflexivity).
  apply Receive_ok. eexists _, announced_bytes.
  split_and!; [|by apply header_length|exact Hl|reflexivity|vm_compute; reflexivity| |discriminate].
  - reflexivity.
  - apply Parse_err_none. reflexivity.
Qed.

Lemma established_runs :
  runs (runControl roaming_client (fun c => Ret ((fun _ : CConfig => None) c))) established_trace
    (true, Some (Errorf "server closed the control connection" [])).
Proof.
  unfold runControl, established_trace. apply runs_vis_bind. exists (Ok 4%nat). eexists.
  split; [exact I|]. split; [reflexivity|].
  apply runs_vis_bind. exists tt. eexists. split; [exact I|]. split; [reflexivity|].
  cbn [bind]. apply runs_bind. eexists _, _, (true, _). split; [reflexivity|]. split.
  - unfold runControl_body. apply runs_bind. eexists _, _, (Ok announced_tcp).
    split; [reflexivity|]. split; [apply runs_translate; exact session_runs|]. cbn [bind].
    exists (Ok tt), []. split; [exact I|]. split; [reflexivity|]. split; reflexivity.
  - exists tt. eexists. split; [exact I|]. split; [reflexivity|].
    exists tt. eexists. split; [exact I|]. split; [reflexivity|]. split; reflexivity.
Qed.

Lemma control_connection_outcomes_witness :
  runs (runControl roaming_client (fun c => Ret ((fun _ : CConfig => None) c))) established_trace
    (true, Some (Errorf "server closed the control connection" []))
  /\ last established_trace = Some (EClose 4).
Proof.
  split; [exact established_runs|].
  destruct (control_connection_outcomes _ (fun _ => None) _ _ _ established_runs) as (_ & H & _).
  apply (H (AddrTCP "198.51.100.7:8080" controlDialTimeout client_keepAlive) 4%nat). unfold established_trace. find_in_trace.
Defined.
