(* ===== verification/Timeouts.v ===== *)
(** * How long a peer that has not authenticated can hold a goroutine

    A trace is guarded when every operation of it that can wait for the peer
    happens under a deadline, in a context with a timeout or with a timeout of
    its own; its budget is the sum of those.  Handling a connection is guarded
    up to the proof of the token, on both listeners of the server and on the
    control connection of the client, and ends there without the proof. *)

From S2P Require Import Prelude GoLib Json JsonFuel Sha256 Proto Config Prog Net Auth Control TlsUtil Transport Serve Server Reconnect Client.

Local Open Scope Z_scope.

(** ** Guarded traces *)

(** The connections that have a deadline; whether the context has a timeout;
    the time that deadlines and timeouts have allowed so far. *)
Record guard : Type := mkGuard { armed : list nat; timeout : bool; allowed : Z }.
Definition unguarded : guard := mkGuard [] false 0.

(** The time a dial can take: [net.Dialer.Timeout] and the handshake timeout of
    the websocket dialer, where zero stands for none; opening a KCP session
    exchanges nothing. *)
Definition dial_limit (a : address) : option Z :=
  match a with
  | AddrTCP _ d _ | AddrWebSocket _ _ _ _ d => if decide (0 < d) then Some d else None
  | AddrKCP _ _ _ _ => Some 0
  | AddrQUIC _ _ => None
  end.

(** The guard after an event. *)
Definition arm (e : event) (g : guard) : guard :=
  match e with
  | EDeadline c (DeadlineIn d) (Ok _) => mkGuard (c :: armed g) (timeout g) (allowed g + d)
  | EDeadline c NoDeadline (Ok _) =>
      mkGuard (filter (fun c' => c' <> c) (armed g)) (timeout g) (allowed g)
  | EWithTimeout d => mkGuard (armed g) true (allowed g + d)
  | ECancelTimeout => mkGuard (armed g) false (allowed g)
  | EDial a _ => mkGuard (armed g) (timeout g) (allowed g + default 0 (dial_limit a))
  | _ => g
  end.

(** Reading from the peer, up to a size or to the end of what it sends, and
    writing to it need a deadline on the connection, dialling a timeout of its
    own, waiting for a stream or a QUIC connection a context with a timeout.
    What lasts as long as the peers like (relaying, serving, accepting) is
    never guarded. *)
Definition may_block (e : event) (g : guard) : Prop :=
  match e with
  | ERead c _ _ | EWrite c _ _ | EDiscard c _ | EShadowHandshake c _ _ => c ∈ armed g
  | EDial a _ => is_Some (dial_limit a)
  | EAccept _ _ | EOpen _ _ | EDialQUIC _ _ => timeout g = true
  | EPipe _ _ | EServeHTTP _ _ _ _ _ _ | EAcceptLoop _ _ | EAcceptQUIC _ _ | EUDPRelay _ _ _ => False
  | _ => True
  end.

Fixpoint guarded (g : guard) (tr : list event) : Prop :=
  match tr with
  | [] => True
  | e :: tr => may_block e g /\ guarded (arm e g) tr
  end.

Definition after (tr : list event) (g : guard) : guard := foldl (fun g e => arm e g) g tr.

Lemma guarded_app g tr1 tr2 : guarded g (tr1 ++ tr2) <-> guarded g tr1 /\ guarded (after tr1 g) tr2.
Proof. revert g. induction tr1 as [|e tr1 IH]; intros g; simpl; [tauto|]. rewrite IH. tauto. Qed.

Lemma after_app tr1 tr2 g : after (tr1 ++ tr2) g = after tr2 (after tr1 g).
Proof. apply foldl_app. Qed.

(** Every run of [p] from [g] is guarded and ends as [Q] says: a weakest
    precondition, by recursion on the program. *)
Fixpoint wp {A} (p : prog netE A) (Q : A -> guard -> Prop) (g : guard) : Prop :=
  match p with
  | Ret a => Q a g
  | Vis e k => forall x, contract e x ->
      may_block (observe e x) g /\ wp (k x) Q (arm (observe e x) g)
  end.

Lemma wp_runs {A} (p : prog netE A) Q g tr a :
  wp p Q g -> runs p tr a -> guarded g tr /\ Q a (after tr g).
Proof.
  revert g tr. induction p as [a'|X e k IH]; intros g tr Hp; cbn [runs].
  - intros [-> ->]. done.
  - intros (x & tr' & Hc & -> & Hr). destruct (Hp x Hc) as [Hb Hk].
    destruct (IH _ _ _ Hk Hr) as [??]. done.
Qed.

Lemma wp_bind {A B} (f : A -> prog netE B) (p : prog netE A) Q g :
  wp p (fun a => wp (f a) Q) g -> wp (bind f p) Q g.
Proof. revert g. induction p as [a|X e k IH]; intros g Hp; simpl in *; [done|]. naive_solver. Qed.

Lemma wp_call {X} (e : netE X) Q g :
  (forall x, contract e x -> may_block (observe e x) g /\ Q x (arm (observe e x) g)) -> wp (call e) Q g.
Proof. done. Qed.

Lemma wp_mono {A} (p : prog netE A) (Q Q' : A -> guard -> Prop) g :
  wp p Q g -> (forall a g, Q a g -> Q' a g) -> wp p Q' g.
Proof. intros Hp HQ. revert g Hp. induction p as [a|X e k IH]; simpl; naive_solver. Qed.

Lemma wp_translate {A} (p : prog netE A) Q g : wp p Q g -> wp (translate p) Q g.
Proof. revert g. induction p as [a|X e k IH]; intros g Hp; simpl in *; naive_solver. Qed.

(** Walk through a program; what is left are the conditions on the guard. *)
Ltac wp_step :=
  lazymatch goal with
  | |- wp (Ret _) _ _ => cbn [wp]
  | |- wp (bind _ _) _ _ => apply wp_bind
  | |- wp (translate _) _ _ => apply wp_translate
  | |- wp (call _) _ _ =>
      apply wp_call; let x := fresh "x" in intros x ?;
      lazymatch type of x with result _ => destruct x | _ => idtac end;
      cbn [observe net_Effect net_observe may_block arm]; split
  | |- wp (match ?r with Ok _ => _ | Err _ => _ end) _ _ => destruct r
  | |- wp (match ?r with None => _ | Some _ => _ end) _ _ => destruct r
  | |- wp (if ?b then _ else _) _ _ => destruct b
  end.
Ltac wp_all := repeat (wp_step; cbn [arm]); try done.

(** ** The handshakes *)

Section bounds.
Context `{M : Mac} {KeyPair : Type}.

(** On a connection with a deadline both handshakes are guarded and allow no
    more time. *)
Lemma ServerHandshake_wp c token (Q : result Channel -> guard -> Prop) g :
  c ∈ armed g -> (forall r, Q r g) -> wp (ServerHandshake c token) Q g.
Proof using. intros Hc HQ. unfold ServerHandshake. wp_all; auto. Qed.

Lemma ClientHandshake_wp c token (Q : result Channel -> guard -> Prop) g :
  c ∈ armed g -> (forall r, Q r g) -> wp (ClientHandshake c token) Q g.
Proof using. intros Hc HQ. unfold ClientHandshake. wp_all; auto. Qed.

Lemma serverHandshake_wp c token g :
  wp (serverHandshake c token) (fun _ g' => allowed g' <= allowed g + handshakeTimeout) g.
Proof using.
  unfold serverHandshake, handshake, then_err. wp_all.
  - apply ServerHandshake_wp; [set_solver|]. intros r. wp_all; cbn [allowed]; lia.
  - unfold handshakeTimeout, Second; lia.
Qed.

(** ** The control connection *)

(** Up to the announcement the server waits under its one deadline. *)
Definition control_greeting (conn : nat) (token : string) (ann : CConfig)
    : prog netE (result unit) :=
  let! _ := call (SetDeadline conn (DeadlineIn controlHandshakeTimeout)) or id;
  let! channel := ServerHandshake conn token or id;
  let! _ := Send conn token channel ann or id;
  call (SetDeadline conn NoDeadline).

Lemma handleControl_body_greeting conn token ann tr u :
  runs (handleControl_body conn token ann) tr u ->
  exists pre post r, tr = pre ++ post /\ runs (control_greeting conn token ann) pre r
    /\ match r with Ok _ => exists x, post = [EDiscard conn x] | Err _ => post = [] end.
Proof using.
  intros H.
  enough (Hb : runs (bind (fun r => match r with
                                   | Ok _ => run! call (CopyDiscard conn); Ret tt
                                   | Err _ => Ret tt
                                   end) (control_greeting conn token ann)) tr u).
  { apply runs_bind in Hb as (pre & post & r & -> & Hg & Hr). exists pre, post, r.
    split_and!; [done|done|]. destruct r; [|by destruct Hr].
    apply runs_vis_bind in Hr as (x & ? & _ & -> & [-> _]). by exists x. }
  revert H. unfold handleControl_body, control_greeting. cbn [bind call].
  intros (r & t & _ & -> & H). exists r, t. split_and!; [done..|].
  destruct r as [|e]; cbn [bind]; [|exact H]. apply runs_bind_assoc. revert H. apply runs_bind_mono.
  intros [ch|e] t' H'; cbn [bind]; [|exact H']. apply runs_bind_assoc. revert H'. apply runs_bind_mono.
  by intros [] t''.
Qed.

Lemma control_greeting_wp c token ann :
  wp (control_greeting c token ann) (fun _ g => allowed g <= controlHandshakeTimeout) unguarded.
Proof using.
  unfold control_greeting, Send. wp_all.
  apply ServerHandshake_wp; [set_solver|]. intros r. wp_all; first [set_solver|cbn [allowed]; lia].
Qed.

(** The client waits for the connection, then under one deadline. *)
Lemma control_session_wp c token g :
  wp (control_session c token) (fun _ g' => allowed g' <= allowed g + client_controlHandshakeTimeout) g.
Proof using.
  unfold control_session, Receive. wp_all; try (unfold client_controlHandshakeTimeout, Second; lia).
  apply ClientHandshake_wp; [set_solver|]. intros r.
  wp_all; first [set_solver|cbn [allowed]; lia].
Qed.

(** A client that has proved the token on a control connection, and a server
    that has proved it and sent an announcement under the channel. *)
Definition control_proof (token : string) (conn : nat) (tr : list event) : Prop :=
  exists cn sn pre post, length cn = NonceSize /\ length sn = NonceSize
    /\ tr = pre ++ server_accept_trace conn token cn sn ++ post.

Definition announcement_proof (token : string) (conn : nat) (tr : list event) : Prop :=
  exists cn sn body pre post, length cn = NonceSize /\ length sn = NonceSize
    /\ tr = pre ++ client_accept_trace conn token cn sn ++ post
    /\ ERead conn (length body + TagSize)
         (Ok (body ++ Sign token labelConfig [transcript cn sn; body])) ∈ post.

Lemma control_greeting_ok conn token ann tr u :
  runs (control_greeting conn token ann) tr (Ok u) -> control_proof token conn tr.
Proof using.
  unfold control_greeting. intros H. apply runs_vis_bind in H as ([|] & t & _ & -> & H);
    cbn [bind] in H; [|by destruct H].
  apply runs_bind in H as (t1 & t2 & [ch|] & -> & Hhs & H); [|by destruct H].
  apply ServerHandshake_ok in Hhs as (cn & sn & ? & ? & -> & _).
  exists cn, sn, [EDeadline conn (DeadlineIn controlHandshakeTimeout) (Ok a)], t2. split_and!; [assumption..|reflexivity].
Qed.

Lemma control_session_proof conn token tr ann :
  runs (control_session conn token) tr (Ok ann) -> announcement_proof token conn tr.
Proof using.
  intros (cn & sn & t2 & Hcn & Hsn & Hrecv & ->)%control_session_ok.
  apply Receive_ok in Hrecv as (header & body & _ & _ & _ & -> & _).
  exists cn, sn, body, [EDeadline conn (DeadlineIn client_controlHandshakeTimeout) (Ok tt)].
  eexists. split_and!; [done|done|reflexivity|find_in_trace].
Qed.

(** ** The bounds *)

(** The time a trace spends waiting for a peer before the peer has proved the
    token is bounded: a guarded part with a budget of at most [limit] leads to
    the proof, or else to nothing but [closing]. *)
Definition bounded (limit : Z) (proof : list event -> Prop) (closing tr : list event) : Prop :=
  exists pre post, tr = pre ++ post
    /\ guarded unguarded pre /\ allowed (after pre unguarded) <= limit
    /\ (proof pre \/ post = closing).

Lemma handleConn_bounded (s : @server KeyPair) fuel conn tr fin :
  runs (handleConn s fuel conn) tr fin ->
  bounded (10 * Second) (fun pre => exists hs, pre = EAfterFunc conn :: hs /\ proof_of_token s conn hs)
    [EClose conn; EStopAfterFunc conn] tr.
Proof using.
  unfold handleConn. intros (x & t & _ & -> & H)%runs_vis_bind. cbn [bind] in H.
  apply runs_bind in H as (t1 & t2 & fin1 & -> & Hbody & Hdef). apply deferred_runs in Hdef.
  unfold handleConn_body in Hbody. apply runs_bind in Hbody as (hs & t3 & h & -> & Hhs & H).
  destruct (wp_runs _ _ _ _ _ (serverHandshake_wp _ _ unguarded) Hhs) as [Hg Ha].
  exists (EAfterFunc conn :: hs), (t3 ++ t2).
  split_and!; [cbn [app]; by rewrite <- (assoc_L (++))|exact (conj I Hg)|exact Ha|].
  destruct h as [u|err]; [left; exists hs; by apply serverHandshake_ok in Hhs|right].
  inv_runs H. subst fin1. destruct Hdef as [_ [_ ->]%runs_call]. done.
Qed.

(** A QUIC connection first waits for the stream of the handshake. *)
Lemma serveQUICConn_bounded (s : @server KeyPair) fuel conn tr fin :
  runs (serveQUICConn s fuel conn) tr fin ->
  bounded (20 * Second)
    (fun pre => exists st hs,
       pre = [EWithTimeout handshakeTimeout; EAccept conn (Ok st); ECancelTimeout] ++ hs
       /\ proof_of_token s st hs)
    [ECloseWithError conn] tr.
Proof using.
  unfold serveQUICConn. intros (t1 & t2 & fin1 & -> & Hbody & Hdef)%runs_bind.
  apply deferred_runs in Hdef. unfold serveQUICConn_body in Hbody.
  apply runs_vis_bind in Hbody as (? & ? & _ & -> & H).
  apply runs_vis_bind in H as (r & ? & _ & -> & H).
  apply runs_vis_bind in H as (? & t & _ & -> & H).
  cbn [bind observe net_Effect net_observe] in H |- *. destruct r as [st|err].
  - apply runs_bind in H as (hs & t3 & h & -> & Hhs & H).
    destruct (wp_runs _ _ _ _ _
      (serverHandshake_wp _ _ (mkGuard [] false handshakeTimeout)) Hhs) as [Hg Ha].
    exists ([EWithTimeout handshakeTimeout; EAccept conn (Ok st); ECancelTimeout] ++ hs), (t3 ++ t2).
    split_and!; [cbn [app]; by rewrite <- (assoc_L (++))|exact (conj I (conj eq_refl (conj I Hg)))|exact Ha|].
    destruct h as [u|err]; [left; apply serverHandshake_ok in Hhs; eauto|right].
    inv_runs H. subst fin1. destruct Hdef as [_ [_ ->]%runs_call]. done.
  - inv_runs H. subst fin1. destruct Hdef as [_ [_ ->]%runs_call].
    exists [EWithTimeout handshakeTimeout; EAccept conn (Err err); ECancelTimeout], [ECloseWithError conn].
    split_and!; [done|by split_and!|done|by right].
Qed.

Lemma handleControl_bounded conn token ann tr u :
  runs (handleControl conn token ann) tr u ->
  bounded (10 * Second) (control_proof token conn) [EClose conn] tr.
Proof using.
  unfold handleControl. intros (t1 & t2 & [] & -> & Hbody & [_ ->]%runs_call)%runs_bind.
  apply handleControl_body_greeting in Hbody as (pre & post & r & -> & Hgreet & Hr).
  destruct (wp_runs _ _ _ _ _ (control_greeting_wp _ _ _) Hgreet) as [Hg Ha].
  exists pre, (post ++ [EClose conn]). split_and!; [by rewrite (assoc_L (++))|done|exact Ha|].
  destruct r as [|e]; [left; by eapply control_greeting_ok|right; by subst post].
Qed.

(** The client's [apply] takes no part in it: it runs after the proof. *)
Lemma runControl_bounded cfg (apply : CConfig -> option error) tr res :
  runs (runControl cfg (fun c => Ret (apply c))) tr res ->
  exists dialled, hd_error tr = Some (EDial (AddrTCP (ControlAddress cfg) controlDialTimeout client_keepAlive) dialled)
    /\ match dialled with
       | Ok conn => bounded (25 * Second) (announcement_proof (ClientToken cfg) conn)
           [EStopAfterFunc conn; EClose conn] tr
       | Err _ => bounded (10 * Second) (fun _ => False) [] tr
       end.
Proof using.
  unfold runControl, embed, embeds_refl. intros (r & t & _ & -> & H)%runs_vis_bind.
  exists r. split; [done|]. cbn [bind] in H. destruct r as [conn|e].
  2: { cbn beta iota in H. destruct H as [-> _]. exists [EDial (AddrTCP (ControlAddress cfg) controlDialTimeout client_keepAlive) (Err e)], [].
       split_and!; [done|split; [by eexists|done]|done|by right]. }
  apply runs_vis_bind in H as (? & t1 & _ & -> & H). cbn [bind observe net_Effect net_observe] in H |- *.
  apply runs_bind in H as (t2 & t3 & res1 & -> & Hbody & H). inv_runs H.
  cbn [observe net_Effect net_observe app].
  unfold runControl_body in Hbody. apply runs_bind in Hbody as (t4 & t5 & ann & -> & Hs & H).
  apply (proj1 (runs_translate _ _ _)) in Hs.
  destruct (wp_runs _ _ _ _ _ (control_session_wp conn (ClientToken cfg) (mkGuard [] false controlDialTimeout)) Hs)
    as [Hg Ha].
  exists (EDial (AddrTCP (ControlAddress cfg) controlDialTimeout client_keepAlive) (Ok conn) :: EAfterFunc conn :: t4),
    (t5 ++ [EStopAfterFunc conn; EClose conn]).
  split_and!; [cbn [app]; by rewrite <- (assoc_L (++))|split; [by eexists|exact (conj I Hg)]|exact Ha|].
  destruct ann as [ann|e]; [left|right; by destruct H as [-> _]].
  apply control_session_proof in Hs as (cn & sn & body & pre & post & ? & ? & -> & ?).
  exists cn, sn, body, (EDial (AddrTCP (ControlAddress cfg) controlDialTimeout client_keepAlive) (Ok conn) :: EAfterFunc conn :: pre), post.
  split_and!; [assumption..|reflexivity|assumption].
Qed.

(** C4: A peer that does not know the token cannot hold a goroutine for long.
    Until the proof of the token has been read, every operation that waits for
    the peer - dialling it included - waits under a deadline or timeout, and
    these add up to at most 10s on a data connection, 20s on a QUIC connection
    (its first stream, then the handshake), 10s on a control connection and
    25s on the client's end of it (10s to dial, 15s for the server's proof and
    its authenticated announcement).  Without the proof the handler closes the
    connection and returns; so a control connection is held open, by a read
    without a deadline, only after the proof. *)
Theorem unauthenticated_time_bounded (s : @server KeyPair) fuel conn token ann cfg
    (apply : CConfig -> option error) tr :
  (forall fin, runs (handleConn s fuel conn) tr fin ->
     bounded (10 * Second)
       (fun pre => exists hs, pre = EAfterFunc conn :: hs /\ proof_of_token s conn hs)
       [EClose conn; EStopAfterFunc conn] tr)
  /\ (forall fin, runs (serveQUICConn s fuel conn) tr fin ->
     bounded (20 * Second)
       (fun pre => exists st hs,
          pre = [EWithTimeout handshakeTimeout; EAccept conn (Ok st); ECancelTimeout] ++ hs
          /\ proof_of_token s st hs)
       [ECloseWithError conn] tr)
  /\ (forall u, runs (handleControl conn token ann) tr u ->
     bounded (10 * Second) (control_proof token conn) [EClose conn] tr)
  /\ (forall res, runs (runControl cfg (fun c => Ret (apply c))) tr res ->
     exists dialled,
       hd_error tr = Some (EDial (AddrTCP (ControlAddress cfg) controlDialTimeout client_keepAlive) dialled)
       /\ match dialled with
          | Ok c => bounded (25 * Second) (announcement_proof (ClientToken cfg) c)
              [EStopAfterFunc c; EClose c] tr
          | Err _ => bounded (10 * Second) (fun _ => False) [] tr
          end).
Proof using.
  split_and!.
  - intros fin. apply handleConn_bounded.
  - intros fin. apply serveQUICConn_bounded.
  - intros u. apply handleControl_bounded.
  - intros res. apply runControl_bounded.
Qed.

End bounds.
