(* ===== verification/ClientRun.v ===== *)
(** * Package [client]: the whole of [Run] (src/internal/client/client.go,
      runner.go)

    [Reconnect.v] has the loops, [Client.v] the control connection and an
    abstract runner.  Here they are one system: the goroutine of [Run], with
    the methods of the runner as the code has them, operation by operation
    under its mutex, and the goroutines that supervise transports.  Every
    interleaving is a run of the abstract runner, in which a supervising
    goroutine ends only when its context is done; when [Run] has returned no
    goroutine is left. *)

From S2P Require Import Prelude Lts GoLib Json JsonFuel Sha256 Proto Config Prog Net Auth Control Reconnect TlsUtil Transport Client.

Section client_run.
Context `{M : Mac} {KeyPair : Type}.
Context (pem_Decode : bytes -> option (string * bytes)).
Context (AppendCertsFromPEM : bytes -> bool).
Context (fs : files) (cfg : Config.Client).

Abbreviation transport_client := (@Transport.client KeyPair).
Abbreviation runner := (@Client.runner KeyPair).
Abbreviation new_transport := (@Client.new_transport KeyPair pem_Decode AppendCertsFromPEM fs cfg).
Abbreviation runner_step := (@Client.runner_step KeyPair pem_Decode AppendCertsFromPEM fs cfg).
Abbreviation runner_run := (@Client.runner_run KeyPair pem_Decode AppendCertsFromPEM fs cfg).

(** ** The goroutine of [Run] *)

(** Its operations: those of the control connection, the timer and the
    context, and on the runner.  [Lock] says for whom: [apply] with these
    settings, or [stop]. *)
Inductive clientG : Type -> Type :=
| OnNet {X} (e : netE X) : clientG X
| OnClient {X} (e : clientE X) : clientG X
| Lock (by_whom : option CConfig) : clientG unit
| Unlock : clientG unit
| ReadCurrent : clientG (option (nat * CConfig))   (* r.current and its settings *)
| SetCurrent (c : option nat) : clientG unit
| PollDone (i : nat) : clientG bool                (* select { case <-run.done: default: } *)
| CancelRun (i : nat) : clientG unit               (* run.cancel() *)
| AwaitRun (i : nat) : clientG unit                (* <-run.done *)
| NewRunning (s : CConfig) (tr : transport_client) : clientG nat   (* &running{...} *)
| GoSupervise (i : nat) : clientG unit.            (* go func() { ... supervise(ctx, tr) }() *)

#[local] Instance net_in_clientG : Embeds netE clientG := @OnNet.

Definition stopLocked : prog clientG unit :=
  do! c := call ReadCurrent;
  match c with
  | None => Ret tt
  | Some (i, _) =>
      run! call (CancelRun i);
      run! call (AwaitRun i);
      call (SetCurrent None)
  end.

(** [r.current != nil && r.current.settings.Equal(settings)], and its
    transport has not given up. *)
Definition unchanged (settings : CConfig) : prog clientG bool :=
  do! c := call ReadCurrent;
  match c with
  | Some (i, s) =>
      if Equal s settings then (do! gave_up := call (PollDone i); Ret (negb gave_up)) else Ret false
  | None => Ret false
  end.

(** The part of [apply] after [stopLocked]. *)
Definition launch (settings : CConfig) : prog clientG (option error) :=
  match new_transport settings with
  | Err err => Ret (Some err)
  | Ok tr =>
      do! i := call (NewRunning settings tr);
      run! call (SetCurrent (Some i));
      run! call (GoSupervise i);
      Ret None
  end.

(** [apply] between [Lock] and the deferred [Unlock]. *)
Definition apply_locked (settings : CConfig) : prog clientG (option error) :=
  do! same := unchanged settings;
  if (same : bool) then Ret None
  else
    run! stopLocked;
    launch settings.

Definition apply (settings : CConfig) : prog clientG (option error) :=
  run! call (Lock (Some settings));
  do! res := apply_locked settings;
  run! call Unlock;
  Ret res.

Definition stop : prog clientG unit :=
  run! call (Lock None);
  run! stopLocked;
  call Unlock.

(** The operations of [Reconnect.Run], carried out. *)
Definition carry_out {X} (e : clientE X) : prog clientG X :=
  match e in clientE X return prog clientG X with
  | RunControl => runControl cfg apply
  | Reconnect.Apply s => apply s
  | StopRunner => stop
  | CtxErr => call (OnClient CtxErr)
  | NewTimer d => call (OnClient (NewTimer d))
  | SelectTimer => call (OnClient SelectTimer)
  | StopTimer => call (OnClient StopTimer)
  | AwaitDone => call (OnClient AwaitDone)
  | TransportRun => call (OnClient TransportRun)
  end.

(** [client.Run]. *)
Definition client_Run (fuel : nat) : prog clientG (option (option error)) :=
  interp (@carry_out) (Reconnect.Run fuel cfg).

(** ** The system *)

(** [running]: whether its context is cancelled and its channel [done] closed,
    and its goroutine, once it has been started. *)
Record running : Type := mkRunning {
  settings : CConfig;
  transport : transport_client;
  cancelled : bool;
  done : bool;
  code : option (prog clientE (option unit));
}.

Record shared : Type := mkShared {
  ctx : bool;              (* the context of Run is done *)
  locked : bool;           (* r.mu *)
  current : option nat;    (* r.current *)
  runs : list running;
}.

Record system : Type := mkSystem { sh : shared; main : prog clientG (option (option error)) }.

Definition set_runs (l : list running) (s : shared) : shared := mkShared (ctx s) (locked s) (current s) l.
Definition set_locked (b : bool) (s : shared) : shared := mkShared (ctx s) b (current s) (runs s).
Definition set_current (c : option nat) (s : shared) : shared := mkShared (ctx s) (locked s) c (runs s).

Definition cancel (g : running) : running := mkRunning (settings g) (transport g) true (done g) (code g).
Definition close_done (g : running) : running :=
  mkRunning (settings g) (transport g) (cancelled g) true (code g).
Definition set_code (p : prog clientE (option unit)) (g : running) : running :=
  mkRunning (settings g) (transport g) (cancelled g) (done g) (Some p).

(** The answers a context gives that is done, or not: when the timer and the
    context are both ready either case of a [select] may be taken. *)
Definition answers (is_done : bool) {X} (e : clientE X) : X -> Prop :=
  match e in clientE X return X -> Prop with
  | CtxErr => fun b => b = is_done
  | SelectTimer => fun fired => fired = false -> is_done = true
  | AwaitDone => fun _ => is_done = true
  | NewTimer _ | StopTimer => fun _ => True
  | TransportRun => fun _ => True
  | RunControl | Reconnect.Apply _ | StopRunner => fun _ => False
  end.

(** What an operation of the main goroutine does, and answers. *)
Definition effect {X} (e : clientG X) : X -> shared -> shared -> Prop :=
  match e in clientG X return X -> shared -> shared -> Prop with
  | OnNet e => fun x s s' => contract e x /\ s' = s
  | OnClient e => fun x s s' => answers (ctx s) e x /\ s' = s
  | Lock _ => fun _ s s' => locked s = false /\ s' = set_locked true s
  | Unlock => fun _ s s' => s' = set_locked false s
  | ReadCurrent => fun c s s' =>
      c = (i ← current s; (fun g => (i, settings g)) <$> runs s !! i) /\ s' = s
  | SetCurrent c => fun _ s s' => s' = set_current c s
  | PollDone i => fun b s s' => done <$> runs s !! i = Some b /\ s' = s
  | CancelRun i => fun _ s s' => s' = set_runs (alter cancel i (runs s)) s
  | AwaitRun i => fun _ s s' => done <$> runs s !! i = Some true /\ s' = s
  | NewRunning st tr => fun i s s' =>
      i = length (runs s) /\ s' = set_runs (runs s ++ [mkRunning st tr false false None]) s
  | GoSupervise i => fun _ s s' =>
      exists fuel, s' = set_runs (alter (set_code (supervise fuel)) i (runs s)) s
  end.

Definition main_moves (m : prog clientG (option (option error))) (s : shared)
    (m' : prog clientG (option (option error))) (s' : shared) : Prop :=
  match m with
  | Ret _ => False
  | Vis e k => exists x, effect e x s s' /\ m' = k x
  end.

Definition supervisor_moves (is_done : bool) (p p' : prog clientE (option unit)) : Prop :=
  match p with
  | Ret _ => False
  | Vis e k => exists x, answers is_done e x /\ p' = k x
  end.

Inductive label : Type := Main | Supervise (i : nat) | Exits (i : nat) | CtxDone.

Inductive step : label -> system -> system -> Prop :=
| step_main s m s' m' : main_moves m s m' s' -> step Main (mkSystem s m) (mkSystem s' m')
| step_supervise i g p p' s m :
    runs s !! i = Some g -> code g = Some p -> supervisor_moves (ctx s || cancelled g) p p' ->
    step (Supervise i) (mkSystem s m) (mkSystem (set_runs (<[i := set_code p' g]> (runs s)) s) m)
| step_exits i g s m :   (* supervise has returned: the deferred close(run.done) *)
    runs s !! i = Some g -> code g = Some (Ret (Some tt)) -> done g = false ->
    step (Exits i) (mkSystem s m) (mkSystem (set_runs (<[i := close_done g]> (runs s)) s) m)
| step_ctx s m :
    step CtxDone (mkSystem s m) (mkSystem (mkShared true (locked s) (current s) (runs s)) m).

Definition start (fuel : nat) : system := mkSystem (mkShared false false None []) (client_Run fuel).

(** ** Supervising goroutines *)

(** The operations of the timer, the context and the transport; all of them
    but the wait for the context can always go on. *)
Definition plain {X} (e : clientE X) : bool :=
  match e with RunControl | Reconnect.Apply _ | StopRunner => false | _ => true end.
Definition prompt {X} (e : clientE X) : bool :=
  match e with AwaitDone => false | _ => plain e end.

Lemma prompt_answers d {X} (e : clientE X) : prompt e = true -> exists x, answers d e x.
Proof using.
  intros He. destruct e; try done; cbn; [by exists d|by exists tt|by exists true|by exists tt|by exists None].
Qed.

(** The goroutine returns only when its context is done, and never waits for
    that alone. *)

Fixpoint live (is_done : bool) (p : prog clientE (option unit)) : Prop :=
  match p with
  | Ret None => True
  | Ret (Some _) => is_done = true
  | Vis e k => prompt e = true
      /\ forall d x, (is_done = true -> d = true) -> answers d e x -> live d (k x)
  end.

Lemma live_later d d' p : (d = true -> d' = true) -> live d p -> live d' p.
Proof using.
  revert d d'. induction p as [[[]|]|X e k IH]; intros d d' Hd; simpl; [auto|done|].
  intros [He Hk]. split; [done|]. intros d2 x Hd2. apply Hk. auto.
Qed.

Lemma supervise_live fuel b d : live d (supervise_loop fuel b).
Proof using.
  revert b d. induction fuel as [|fuel IH]; intros b d; cbn [supervise_loop]; [done|].
  split; [done|]. intros d1 err _ _. split; [done|]. intros d2 c _ ->. destruct d2; [done|].
  split; [done|]. intros d3 u _ _. split; [done|]. intros d4 fired _ Hf.
  split; [done|]. intros d5 u' Hd5 _. destruct fired; cbn [negb]; [apply IH|].
  apply Hd5. auto.
Qed.

(** ** Where the main goroutine is *)

(** Between [Lock] and [Unlock]: for whom the mutex was taken, what has been
    found, and done. *)
Inductive phase : Type :=
| Idle (stopped : bool)                 (* the mutex is free; [stop] was the last to hold it *)
| Entered (w : option CConfig)
| Seen (w : option CConfig) (c : option (nat * CConfig)) (gave_up : bool)
| Kept (st : CConfig)                   (* [apply] is about to return, nothing changed *)
| Cancelling (w : option CConfig) (i : nat)
| Awaited (w : option CConfig) (i : nat)
| Cleared (w : option CConfig)
| Allocated (st : CConfig) (tr : transport_client) (i : nat) (waited : bool)
| Installed (st : CConfig) (tr : transport_client) (i : nat) (waited : bool)
| Launched.

(** The operations the code performs in a phase, and the phase they lead to. *)
Definition legal (ph : phase) {X} (e : clientG X) : Prop :=
  match e with
  | OnNet _ | Lock _ => exists b, ph = Idle b
  | OnClient e => (exists b, ph = Idle b) /\ plain e = true
  | Unlock =>
      match ph with
      | Launched | Kept _ | Seen None None _ | Cleared None => True
      | Seen (Some st) None _ | Cleared (Some st) => exists err, new_transport st = Err err
      | _ => False
      end
  | ReadCurrent => match ph with Entered _ | Seen _ _ _ => True | _ => False end
  | SetCurrent c =>
      match ph, c with
      | Awaited _ _, None => True
      | Allocated _ _ i _, Some j => i = j
      | _, _ => False
      end
  | PollDone i =>
      match ph with Seen (Some st) (Some (j, s)) _ => i = j /\ Equal s st = true | _ => False end
  | CancelRun i =>
      match ph with
      | Seen w (Some (j, s)) gave_up =>
          i = j /\ forall st, w = Some st -> Equal s st = false \/ gave_up = true
      | _ => False
      end
  | AwaitRun i => match ph with Cancelling _ j => i = j | _ => False end
  | NewRunning st tr =>
      match ph with
      | Seen (Some st') None _ | Cleared (Some st') => st = st' /\ new_transport st = Ok tr
      | _ => False
      end
  | GoSupervise i => match ph with Installed _ _ j _ => i = j | _ => False end
  end.

Definition next (ph : phase) {X} (e : clientG X) : X -> phase -> Prop :=
  match e in clientG X return X -> phase -> Prop with
  | OnNet _ | OnClient _ => fun _ ph' => ph' = Idle false
  | Lock w => fun _ ph' => ph' = Entered w
  | Unlock => fun _ ph' =>
      ph' = Idle (match ph with Seen None _ _ | Cleared None => true | _ => false end)
  | ReadCurrent => fun c ph' =>
      match ph with
      | Entered w => ph' = Seen w c false
      | Seen _ c0 _ => c = c0 /\ ph' = ph
      | _ => False
      end
  | SetCurrent _ => fun _ ph' =>
      match ph with
      | Awaited w _ => ph' = Cleared w
      | Allocated st tr i waited => ph' = Installed st tr i waited
      | _ => False
      end
  | PollDone _ => fun b ph' =>
      match ph with
      | Seen (Some st) c _ => ph' = if b then Seen (Some st) c true else Kept st
      | _ => False
      end
  | CancelRun i => fun _ ph' => match ph with Seen w _ _ => ph' = Cancelling w i | _ => False end
  | AwaitRun i => fun _ ph' => match ph with Cancelling w _ => ph' = Awaited w i | _ => False end
  | NewRunning st tr => fun i ph' =>
      ph' = Allocated st tr i (match ph with Cleared _ => true | _ => false end)
  | GoSupervise _ => fun _ ph' => ph' = Launched
  end.

(** [p] performs only legal operations and ends as [Q] says. *)
Fixpoint obeys {A} (p : prog clientG A) (Q : A -> phase -> Prop) (ph : phase) : Prop :=
  match p with
  | Ret a => Q a ph
  | Vis e k => legal ph e /\ forall x ph', next ph e x ph' -> obeys (k x) Q ph'
  end.

Lemma obeys_bind {A B} (f : A -> prog clientG B) p Q ph :
  obeys p (fun a => obeys (f a) Q) ph -> obeys (bind f p) Q ph.
Proof using. revert ph. induction p as [a|X e k IH]; intros ph; simpl; [done|]. naive_solver. Qed.

Lemma obeys_mono {A} (p : prog clientG A) (Q Q' : A -> phase -> Prop) ph :
  obeys p Q ph -> (forall a ph, Q a ph -> Q' a ph) -> obeys p Q' ph.
Proof using. intros Hp HQ. revert ph Hp. induction p as [a|X e k IH]; simpl; naive_solver. Qed.

Lemma obeys_call {X} (e : clientG X) Q ph :
  legal ph e -> (forall x ph', next ph e x ph' -> Q x ph') -> obeys (call e) Q ph.
Proof using. intros He HQ. split; done. Qed.

Definition idle {A} (_ : A) (ph : phase) : Prop := exists b, ph = Idle b.

(** Network programs leave the mutex alone. *)
Lemma translate_obeys {A} (p : prog netE A) ph : idle tt ph -> obeys (translate p) idle ph.
Proof using.
  revert ph. induction p as [a|X e k IH]; intros ph Hph; [exact Hph|].
  split; [exact Hph|]. intros x ph' ->. apply IH. by exists false.
Qed.

Lemma stopLocked_obeys w c d :
  (forall i s st, c = Some (i, s) -> w = Some st -> Equal s st = false \/ d = true) ->
  obeys stopLocked (fun _ ph => ph = Cleared w \/ (ph = Seen w None d /\ c = None)) (Seen w c d).
Proof using.
  intros Hc. unfold stopLocked. apply obeys_bind, obeys_call; [done|]. intros c' ph' [-> ->].
  destruct c as [[i s]|]; [|right; done].
  split; [split; eauto|]. intros ? ph' ->. split; [done|]. intros ? ph' ->. split; [done|].
  intros ? ph' ->. by left.
Qed.

Lemma launch_obeys st ph :
  ph = Cleared (Some st) \/ (exists d, ph = Seen (Some st) None d) ->
  obeys (launch st) (fun r ph' => r = None /\ ph' = Launched
    \/ exists err, r = Some err /\ ph' = ph /\ new_transport st = Err err) ph.
Proof using.
  intros Hph. unfold launch. destruct (new_transport st) as [tr|err] eqn:Hn; [|right; eauto].
  split; [by destruct Hph as [->|[d ->]]|]. intros i ph' ->.
  split; [done|]. intros ? ph' ->. split; [done|]. intros ? ph' ->. by left.
Qed.

Lemma unlock_obeys {A} (a : A) (Q : A -> phase -> Prop) ph :
  legal ph Unlock -> (forall b, Q a (Idle b)) -> obeys (run! call Unlock; Ret a) Q ph.
Proof using. intros Hl HQ. split; [done|]. intros ? ph' ->. apply HQ. Qed.

Lemma apply_obeys st b : obeys (apply st) idle (Idle b).
Proof using.
  unfold apply. split; [by exists b|]. intros ? ph ->. apply obeys_bind.
  assert (forall r ph, (exists r', r = Some r' /\ exists err, new_transport st = Err err
    /\ (ph = Cleared (Some st) \/ exists d, ph = Seen (Some st) None d)) \/ ph = Launched \/ ph = Kept st ->
    obeys (run! call Unlock; Ret r) (@idle (option error)) ph) as Hend.
  { intros r ph Hph. apply unlock_obeys; [|intros b'; by exists b'].
    destruct Hph as [(_ & _ & err & Hn & [->|[d ->]])|[->| ->]]; simpl; eauto. }
  assert (forall c d, (forall i s, c = Some (i, s) -> Equal s st = false \/ d = true) ->
    obeys (run! stopLocked; launch st)
      (fun r => obeys (run! call Unlock; Ret r) (@idle (option error))) (Seen (Some st) c d)) as Hrest.
  { intros c d Hc. apply obeys_bind. eapply obeys_mono; [apply stopLocked_obeys; naive_solver|].
    intros [] ph Hph. eapply obeys_mono; [apply launch_obeys; naive_solver|].
    intros r ph' [(-> & ->)|(err & -> & -> & Hn)]; apply Hend; [auto|].
    left. exists err. naive_solver. }
  unfold apply_locked, unchanged. apply obeys_bind, obeys_bind, obeys_call; [done|].
  intros c ph ->. destruct c as [[i s]|]; [|by apply Hrest].
  destruct (Equal s st) eqn:He.
  - split; [done|]. intros [] ph ->; cbn [negb].
    + apply Hrest. auto.
    + apply Hend. auto.
  - apply Hrest. intros i' s' [= <- <-]. by left.
Qed.

Lemma stop_obeys b : obeys stop (fun _ ph => ph = Idle true) (Idle b).
Proof using.
  unfold stop. split; [by exists b|]. intros ? ph ->. apply obeys_bind.
  unfold stopLocked. split; [done|]. intros c ph ->. destruct c as [[i s]|].
  - split; [done|]. intros ? ph ->. split; [done|]. intros ? ph ->. split; [done|].
    intros ? ph ->. split; [done|]. by intros ? ph ->.
  - split; [done|]. by intros ? ph ->.
Qed.

Lemma runControl_obeys ph : idle tt ph -> obeys (runControl cfg apply) idle ph.
Proof using.
  assert (forall X (e : netE X) ph (Q : X -> phase -> Prop), idle tt ph -> (forall x, Q x (Idle false)) ->
    obeys (call (OnNet e)) Q ph) as Hnet by (intros; apply obeys_call; [done|by intros x ph' ->]).
  intros Hph. unfold runControl. apply obeys_bind, Hnet; [done|]. intros [conn|err]; [|by exists false].
  apply obeys_bind, Hnet; [by exists false|]. intros [].
  apply obeys_bind. apply (obeys_mono _ idle).
  - unfold runControl_body. apply obeys_bind. eapply obeys_mono; [apply translate_obeys; by exists false|].
    intros [ann|err] ph' [b ->]; [|by exists b]. apply obeys_bind.
    eapply obeys_mono; [apply apply_obeys|]. intros [err|] ph' [b' ->]; [by exists b'|].
    apply obeys_bind, Hnet; [by exists b'|]. intros [u|err]; by exists false.
  - intros res ph' [b ->]. apply obeys_bind, Hnet; [by exists b|]. intros [].
    apply obeys_bind, Hnet; [by exists false|]. intros []. by exists false.
Qed.

(** What [Run] ends with: only after [stop] has it returned. *)
Definition ends (r : option (option error)) (ph : phase) : Prop :=
  match r with Some _ => ph = Idle true | None => idle tt ph end.

Lemma client_obeys {X} (e : clientE X) Q ph :
  plain e = true -> idle tt ph -> (forall x, Q x (Idle false)) -> obeys (carry_out e) Q ph.
Proof using.
  intros He Hph HQ.
  destruct e; try done; (apply obeys_call; [by split|]; intros x ph' ->; apply HQ).
Qed.

Lemma sleep_obeys d ph : idle tt ph -> obeys (interp (@carry_out) (sleep d)) idle ph.
Proof using.
  intros Hph. apply obeys_bind, client_obeys; [done|done|]. intros ?.
  apply obeys_bind, client_obeys; [done|by exists false|]. intros ?.
  apply obeys_bind, client_obeys; [done|by exists false|]. intros ?. by exists false.
Qed.

Lemma interp_bind {A B} (f : A -> prog clientE B) p Q ph :
  obeys (interp (@carry_out) p) (fun a => obeys (interp (@carry_out) (f a)) Q) ph ->
  obeys (interp (@carry_out) (bind f p)) Q ph.
Proof using.
  revert ph. induction p as [a|X e k IH]; intros ph; simpl; [done|].
  assert (forall ph (q : prog clientG X), obeys q (fun x => obeys (interp (@carry_out) (bind f (k x))) Q) ph ->
    obeys (bind (fun x => interp (@carry_out) (bind f (k x))) q) Q ph) as Hb by (intros; by apply obeys_bind).
  intros H. apply Hb. revert H. generalize (carry_out e). clear Hb. intros q. revert ph.
  induction q as [x|Y e' k' IHq]; intros ph; simpl; [apply IH|]. naive_solver.
Qed.

Lemma run_loop_obeys fuel d ph :
  idle tt ph -> obeys (interp (@carry_out) (run_loop fuel d)) idle ph.
Proof using.
  revert d ph. induction fuel as [|fuel IH]; intros d ph Hph; cbn [run_loop]; [exact Hph|].
  apply obeys_bind. eapply obeys_mono; [by apply runControl_obeys|]. intros [est err] ph1 Hph1.
  apply obeys_bind, client_obeys; [done|exact Hph1|]. intros []; [by exists false|].
  apply interp_bind. eapply obeys_mono; [apply sleep_obeys; by exists false|].
  intros [] ph2 Hph2; cbn [negb]; [|exact Hph2]. by apply IH.
Qed.

Lemma Run_obeys fuel : obeys (client_Run fuel) ends (Idle false).
Proof using.
  unfold client_Run, Reconnect.Run. apply interp_bind.
  assert (forall (res : option (option error)) ph, idle tt ph ->
    obeys (interp (@carry_out) (match res with
      | Some err => run! call StopRunner; Ret (Some err)
      | None => Ret None
      end)) ends ph) as Hend.
  { intros [err|] ph [b ->]; [|by exists b]. apply obeys_bind.
    eapply obeys_mono; [apply stop_obeys|]. by intros [] ph ->. }
  case_decide.
  - apply interp_bind, obeys_bind. eapply obeys_mono; [apply apply_obeys|].
    intros [err|] ph Hph; [by apply Hend|].
    apply obeys_bind, client_obeys; [done|exact Hph|]. intros []. apply Hend. by exists false.
  - eapply obeys_mono; [apply run_loop_obeys; by exists false|]. apply Hend.
Qed.

(** ** The abstract runner follows *)

Definition view (g : running) : @Client.running KeyPair :=
  Client.mkRunning (settings g) (transport g) (cancelled g) (done g).

(** The abstract runner starts a transport when its goroutine is started. *)
Definition spare (ph : phase) : list (@Client.running KeyPair) :=
  match ph with
  | Allocated st tr _ _ | Installed st tr _ _ => [Client.mkRunning st tr false false]
  | _ => []
  end.

(** It holds its mutex from the cancelling of a transport on. *)
Definition held (ph : phase) : lock_holder :=
  match ph with
  | Cancelling (Some st) _ | Awaited (Some st) _ | Cleared (Some st)
  | Allocated st _ _ true | Installed st _ _ true => ApplyWaits st
  | Cancelling None _ | Awaited None _ => StopWaits
  | _ => Unlocked
  end.

Definition ended (r : runner) : Prop :=
  exists i x, current_running r = Some (i, x) /\ Client.done x = true.

Definition ready (st : CConfig) (tr : transport_client) (i : nat) (waited : bool) (r : runner) : Prop :=
  new_transport st = Ok tr /\ i = length (all r)
  /\ if waited then ended r else Client.current r = None.

(** [r.current], and what the main goroutine knows of it. *)
Definition knows (ph : phase) (c : option nat) (r : runner) : Prop :=
  match ph with
  | Idle stopped => c = Client.current r /\ (stopped = true -> Client.current r = None)
  | Entered _ | Kept _ | Launched => c = Client.current r
  | Seen _ seen gave_up => c = Client.current r
      /\ seen = (fun '(i, x) => (i, Client.settings x)) <$> current_running r
      /\ (gave_up = true -> ended r)
  | Cancelling _ i => c = Some i /\ Client.current r = Some i
  | Awaited _ i => c = Some i /\ Client.current r = Some i /\ ended r
  | Cleared (Some _) => c = None /\ ended r
  | Cleared None => c = None /\ Client.current r = None
  | Allocated st tr i waited => c = None /\ ready st tr i waited r
  | Installed st tr i waited => c = Some i /\ ready st tr i waited r
  end.

Record agrees (ph : phase) (s : shared) (r : runner) : Prop := {
  ag_ctx : parent_done r = ctx s;
  ag_locked : locked s = match ph with Idle _ => false | _ => true end;
  ag_runs : view <$> runs s = all r ++ spare ph;
  ag_holder : holder r = held ph;
  ag_knows : knows ph (current s) r;
  ag_live : forall i g p, runs s !! i = Some g -> code g = Some p -> live (ctx s || cancelled g) p;
  ag_done : forall i g, runs s !! i = Some g -> done g = true -> code g = Some (Ret (Some tt));
  ag_started : forall i g, runs s !! i = Some g -> i < length (all r) <-> code g <> None;
}.

Lemma view_lookup ph s r i x :
  agrees ph s r -> all r !! i = Some x -> exists g, runs s !! i = Some g /\ view g = x.
Proof using.
  intros Hag Hx. apply (lookup_app_l_Some _ (spare ph)) in Hx. rewrite <- (ag_runs _ _ _ Hag) in Hx.
  by apply list_lookup_fmap_Some in Hx as (g & -> & Hg); eauto.
Qed.

Lemma lookup_view ph s r i g :
  agrees ph s r -> runs s !! i = Some g -> i < length (all r) -> all r !! i = Some (view g).
Proof using.
  intros Hag Hg Hlt. rewrite <- (lookup_app_l _ (spare ph)), <- (ag_runs _ _ _ Hag) by done.
  by rewrite list_lookup_fmap, Hg.
Qed.

Abbreviation runner_ok := (@Client.runner_ok KeyPair pem_Decode AppendCertsFromPEM fs cfg).

(** The abstract runner has gone along with an operation of the main
    goroutine. *)
Definition follows (ph : phase) (s : shared) (r : runner) : Prop :=
  exists als r', runner_run als r = Some r' /\ agrees ph s r'.

Lemma follows_still ph ph' s s' r :
  agrees ph s r -> runs s' = runs s -> ctx s' = ctx s ->
  locked s' = match ph' with Idle _ => false | _ => true end ->
  spare ph' = spare ph -> held ph' = held ph -> knows ph' (current s') r -> follows ph' s' r.
Proof using.
  intros [] Hr Hc Hl Hsp Hh Hk. exists [], r. split; [done|].
  split; try congruence; rewrite ?Hr, ?Hc, ?Hsp, ?Hh; eauto.
Qed.

Lemma follows_one ph s r l r' : runner_step l r = Some r' -> agrees ph s r' -> follows ph s r.
Proof using. intros Hs Hag. exists [l], r'. split; [|done]. cbn. by rewrite Hs. Qed.

Lemma current_none (r : runner) : runner_ok r -> current_running r = None -> Client.current r = None.
Proof using.
  intros Hok Hc. destruct (Client.current r) as [i|] eqn:E; [|done].
  destruct (rn_current _ _ _ _ _ Hok _ E) as (x & Hx & _).
  by rewrite (proj2 (current_running_Some r i x)) in Hc.
Qed.

(** What the main goroutine reads in [r.current]. *)
Lemma current_seen ph s r :
  agrees ph s r -> spare ph = [] -> current s = Client.current r ->
  (i ← current s; (fun g => (i, settings g)) <$> runs s !! i)
  = (fun '(i, x) => (i, Client.settings x)) <$> current_running r.
Proof using.
  intros Hag Hsp ->. pose proof (ag_runs _ _ _ Hag) as Hr. rewrite Hsp, app_nil_r in Hr.
  unfold current_running. destruct (Client.current r) as [i|]; [|done]. cbn.
  rewrite <- Hr, list_lookup_fmap. by destruct (runs s !! i).
Qed.

(** The current transport, in both systems. *)
Lemma current_view ph s r i g :
  agrees ph s r -> runner_ok r -> Client.current r = Some i -> runs s !! i = Some g ->
  current_running r = Some (i, view g).
Proof using.
  intros Hag Hok Hi Hg. apply current_running_Some. split; [done|].
  destruct (rn_current _ _ _ _ _ Hok _ Hi) as (x & Hx & _).
  eapply lookup_view; [done..|]. by eapply lookup_lt_Some.
Qed.

Lemma ended_done (r : runner) i x : ended r -> current_running r = Some (i, x) -> Client.done x = true.
Proof using. intros (j & y & Hy & Hd) Hx. congruence. Qed.

(** A change to one goroutine that keeps what is known about it. *)
Lemma agrees_alter ph ph' s s' r r' f h i :
  agrees ph s r -> runs s' = alter f i (runs s) -> ctx s' = ctx s ->
  locked s' = match ph' with Idle _ => false | _ => true end ->
  parent_done r' = parent_done r -> all r' ++ spare ph' = alter h i (all r ++ spare ph) ->
  holder r' = held ph' -> knows ph' (current s') r' ->
  (forall g, runs s !! i = Some g -> view (f g) = h (view g)
     /\ (forall p, code (f g) = Some p -> live (ctx s || cancelled (f g)) p)
     /\ (done (f g) = true -> code (f g) = Some (Ret (Some tt)))
     /\ (i < length (all r') <-> code (f g) <> None)) ->
  (forall j, j <> i -> j < length (all r') <-> j < length (all r)) ->
  agrees ph' s' r'.
Proof using.
  intros Hag Hr Hc Hl Hp Hall Hh Hk Hf Hlen. pose proof Hag as [].
  assert (forall j g, runs s' !! j = Some g ->
    (j = i /\ exists g0, runs s !! i = Some g0 /\ g = f g0) \/ (j <> i /\ runs s !! j = Some g)) as Hlook.
  { intros j g. rewrite Hr, list_lookup_alter. case_decide; [|by right].
    intros (g0 & Hg0 & ->)%fmap_Some. subst. left. eauto. }
  split; [congruence|done| |done|done| | |].
  - rewrite Hall, Hr, <- ag_runs0. apply list_eq. intros j.
    rewrite list_lookup_fmap, !list_lookup_alter.
    destruct (decide (i = j)) as [<-|]; rewrite !list_lookup_fmap; [|done].
    destruct (runs s !! i) as [g|] eqn:E; [|done]. cbn. by rewrite (proj1 (Hf _ eq_refl)).
  - rewrite Hc. intros j g p [[-> (g0 & Hg0 & ->)]|[Hne Hg]]%Hlook Hcode; [|eauto].
    by apply (Hf _ Hg0).
  - intros j g [[-> (g0 & Hg0 & ->)]|[Hne Hg]]%Hlook; [by apply (Hf _ Hg0)|eauto].
  - intros j g [[-> (g0 & Hg0 & ->)]|[Hne Hg]]%Hlook; [by apply (Hf _ Hg0)|].
    rewrite Hlen by done. by apply ag_started0.
Qed.

(** ** Each operation of the main goroutine *)

Lemma CancelRun_follows i ph s s' r :
  agrees ph s r -> runner_ok r -> legal ph (CancelRun i) -> effect (CancelRun i) tt s s' ->
  exists ph', next ph (CancelRun i) tt ph' /\ follows ph' s' r.
Proof using.
  intros Hag Hok Hl ->. destruct ph as [|?|w c d| | | | | | |]; try done.
  destruct c as [[j st0]|]; [|done]. destruct Hl as [<- Hw]. pose proof Hag as [].
  destruct ag_knows0 as (Hcur & Hseen & Hd).
  destruct (current_running r) as [[i' x]|] eqn:Hx; [|done]. injection Hseen as <- ->.
  pose proof (proj1 (current_running_Some r i x) Hx) as [Hci Hxi].
  assert (exists l, runner_step l r
    = Some (set_holder (held (Cancelling w i)) (update set_cancelled i r))) as [l Hl].
  { destruct w as [st|].
    - exists (Client.Apply st). cbn. rewrite ag_holder0, Hx. cbn.
      destruct (Equal (Client.settings x) st && negb (Client.done x)) eqn:E; [|done].
      apply andb_true_iff in E as [E1 E2]. destruct (Hw _ eq_refl) as [|Hg]; [congruence|].
      by rewrite (ended_done _ _ _ (Hd Hg) Hx) in E2.
    - exists Stop. cbn. by rewrite ag_holder0, Hx. }
  eexists. split; [done|]. eapply follows_one; [exact Hl|].
  eapply (agrees_alter _ _ _ _ _ _ cancel set_cancelled i); [exact Hag|done..| | | | |].
  - cbn. by rewrite !app_nil_r.
  - by destruct w.
  - cbn. by rewrite Hcur, Hci.
  - intros g Hg. split; [done|]. split; [|split].
    + intros p Hp. eapply live_later; [|by eapply ag_live0]. intros _. by destruct (ctx s).
    + exact (ag_done0 _ _ Hg).
    + cbn. rewrite length_alter. exact (ag_started0 _ _ Hg).
  - intros j _. cbn. by rewrite length_alter.
Qed.

Lemma AwaitRun_follows i ph s s' r :
  agrees ph s r -> runner_ok r -> legal ph (AwaitRun i) -> effect (AwaitRun i) tt s s' ->
  exists ph', next ph (AwaitRun i) tt ph' /\ follows ph' s' r.
Proof using.
  intros Hag Hok Hl [Hd ->]. destruct ph as [| | | |w j| | | | |]; try done. cbn in Hl. subst j.
  pose proof Hag as []. destruct ag_knows0 as [Hc Hci].
  apply fmap_Some in Hd as (g & Hg & Hd). pose proof (current_view _ _ _ _ _ Hag Hok Hci Hg) as Hx.
  eexists. split; [done|]. eapply follows_still; [exact Hag|done..|].
  split_and!; [done..|]. by exists i, (view g).
Qed.

Lemma SetCurrent_follows c ph s s' r :
  agrees ph s r -> runner_ok r -> legal ph (SetCurrent c) -> effect (SetCurrent c) tt s s' ->
  exists ph', next ph (SetCurrent c) tt ph' /\ follows ph' s' r.
Proof using.
  intros Hag Hok Hl ->. pose proof Hag as []. destruct ph as [| | | | |w i| |st tr i wt| |]; try done.
  - destruct c; [done|]. destruct ag_knows0 as (Hc & Hci & He). eexists. split; [done|].
    destruct w as [st|]; [by eapply follows_still|].
    destruct He as (j & x & Hx & Hd).
    eapply (follows_one _ _ _ StopResumes); [cbn; by rewrite ag_holder0, Hx; cbn; rewrite Hd|].
    by split.
  - destruct c as [j|]; [|done]. cbn in Hl. subst j. destruct ag_knows0 as [_ Hr].
    eexists. split; [done|]. by eapply follows_still.
Qed.

Lemma PollDone_follows i b ph s s' r :
  agrees ph s r -> runner_ok r -> legal ph (PollDone i) -> effect (PollDone i) b s s' ->
  exists ph', next ph (PollDone i) b ph' /\ follows ph' s' r.
Proof using.
  intros Hag Hok Hl [Hd ->]. destruct ph as [|?|w c gu| | | | | | |]; try done.
  destruct w as [st|]; [|done]. destruct c as [[j s0]|]; [|done]. destruct Hl as [<- He].
  pose proof Hag as []. destruct ag_knows0 as (Hc & Hseen & Hgu).
  destruct (current_running r) as [[i' x]|] eqn:Hx; [|done]. injection Hseen as <- ->.
  apply fmap_Some in Hd as (g & Hg & ->).
  pose proof (proj1 (current_running_Some r i x) Hx) as [Hci _].
  pose proof (current_view _ _ _ _ _ Hag Hok Hci Hg) as Hv. rewrite Hx in Hv. injection Hv as ->.
  eexists. split; [done|]. destruct (done g) eqn:Hd.
  - eapply follows_still; [exact Hag|done..|]. split_and!; [done|by rewrite Hx|].
    intros _. by exists i, (view g).
  - eapply (follows_one _ _ _ (Client.Apply st)).
    { cbn. rewrite ag_holder0, Hx. cbn in *. by rewrite He, Hd. }
    split; done.
Qed.

Lemma NewRunning_follows st tr i ph s s' r :
  agrees ph s r -> runner_ok r -> legal ph (NewRunning st tr) -> effect (NewRunning st tr) i s s' ->
  exists ph', next ph (NewRunning st tr) i ph' /\ follows ph' s' r.
Proof using.
  intros Hag Hok Hl [-> ->]. pose proof Hag as [].
  assert (spare ph = [] /\ length (runs s) = length (all r)
    /\ held (Allocated st tr (length (runs s)) (match ph with Cleared _ => true | _ => false end)) = held ph
    /\ current s = None
    /\ ready st tr (length (runs s)) (match ph with Cleared _ => true | _ => false end) r)
    as (Hsp & Hlen & Hh & Hc & Hr).
  { destruct ph as [| |[st'|] [?|] gu| | | |[st'|]| | |]; try done; destruct Hl as [<- Hn].
    all: assert (length (runs s) = length (all r)) as Hlen
      by (by rewrite <- (length_fmap view), ag_runs0, app_nil_r).
    - destruct ag_knows0 as (Hc & Hseen & _).
      assert (Client.current r = None).
      { apply current_none; [done|]. by destruct (current_running r) as [[]|]. }
      split_and!; [done..|congruence|done]. 
    - destruct ag_knows0 as [Hc He]. split_and!; done. }
  eexists. split; [done|]. exists [], r. split; [done|].
  assert (forall j g, (runs s ++ [mkRunning st tr false false None]) !! j = Some g ->
    runs s !! j = Some g \/ (j = length (runs s) /\ g = mkRunning st tr false false None)) as Hlook.
  { intros j g [?|[Hle Hg]]%lookup_app_Some; [by left|right].
    apply list_lookup_singleton_Some in Hg as [Hj <-]. split; [lia|done]. }
  split; cbn; try done.
  - by destruct ph.
  - by rewrite fmap_app, ag_runs0, Hsp, app_nil_r.
  - by rewrite ag_holder0, <- Hh.
  - intros j g p [Hg|[-> ->]]%Hlook Hp; [by eapply ag_live0|done].
  - intros j g [Hg|[-> ->]]%Hlook Hd; [by eapply ag_done0|done].
  - intros j g [Hg|[-> ->]]%Hlook; [by eapply ag_started0|]. cbn. split; [lia|done].
Qed.

(** The abstract runner takes its mutex to start a transport, or goes on with
    it. *)
Lemma abstract_start st waited r :
  runner_ok r -> holder r = (if waited : bool then ApplyWaits st else Unlocked) ->
  (if waited then ended r else Client.current r = None) ->
  exists l r0, runner_step l r = Some (Client.start pem_Decode AppendCertsFromPEM fs cfg st r0)
    /\ all r0 = all r /\ Client.current r0 = None /\ parent_done r0 = parent_done r.
Proof using.
  intros Hok Hh Hw. destruct waited.
  - destruct Hw as (i & x & Hx & Hd). exists ApplyResumes, (Client.set_current None r).
    split; [cbn; by rewrite Hh, Hx; cbn; rewrite Hd|done].
  - exists (Client.Apply st), r. split; [|done]. cbn. rewrite Hh. unfold current_running. by rewrite Hw.
Qed.

Lemma GoSupervise_follows i ph s s' r :
  agrees ph s r -> runner_ok r -> legal ph (GoSupervise i) -> effect (GoSupervise i) tt s s' ->
  exists ph', next ph (GoSupervise i) tt ph' /\ follows ph' s' r.
Proof using.
  intros Hag Hok Hl [fuel ->]. destruct ph as [| | | | | | | |st tr j wt|]; try done.
  cbn in Hl. subst j. pose proof Hag as []. destruct ag_knows0 as (Hc & Hn & Hi & Hw).
  destruct (abstract_start st wt r) as (l & r0 & Hs & Hall & Hcur & Hp);
    [done|by rewrite ag_holder0; destruct wt|done|].
  eexists. split; [done|]. eapply follows_one; [exact Hs|].
  unfold Client.start. rewrite Hn.
  eapply (agrees_alter _ _ _ _ _ _ (set_code (supervise fuel)) id i); [exact Hag|done..| | | | |].
  - cbn. rewrite Hall, app_nil_r. apply list_eq. intros j. rewrite list_lookup_alter.
    case_decide as Hij; [rewrite option_fmap_id; by rewrite Hij|done].
  - done.
  - cbn. by rewrite Hc, Hall, Hi.
  - intros g Hg. assert (view g = Client.mkRunning st tr false false) as Hv.
    { assert ((view <$> runs s) !! i = Some (view g)) as Hv by (by rewrite list_lookup_fmap, Hg).
      rewrite ag_runs0, Hi, lookup_app_r, Nat.sub_diag in Hv by lia. symmetry; exact (inj Some _ _ Hv). }
    split; [done|]. split; [intros p [= <-]; apply supervise_live|]. split.
    2: { split; [done|]. intros _. cbn. rewrite Hall, length_app. cbn. lia. }
    intros Hd. injection Hv as _ _ _ Hd'. cbn in Hd. congruence.
  - intros j Hne. cbn. rewrite Hall, length_app. cbn. lia.
Qed.

(** [apply] returns the error of a transport that cannot be created. *)
Lemma failed_follows st err waited ph s r :
  agrees ph s r -> runner_ok r -> new_transport st = Err err -> current s = None ->
  spare ph = [] -> held ph = (if waited : bool then ApplyWaits st else Unlocked) ->
  (if waited then ended r else Client.current r = None) ->
  follows (Idle false) (set_locked false s) r.
Proof using.
  intros Hag Hok Hn Hc Hsp Hh Hw. pose proof Hag as [].
  destruct (abstract_start st waited r) as (l & r0 & Hs & Hall & Hcur & Hp);
    [done|by rewrite ag_holder0|done|].
  eapply follows_one; [exact Hs|]. unfold Client.start. rewrite Hn.
  split; cbn; try done.
  - congruence.
  - by rewrite Hall, ag_runs0, Hsp.
  - by rewrite Hc, Hcur.
  - by rewrite Hall.
Qed.

Lemma Unlock_follows ph s s' r :
  agrees ph s r -> runner_ok r -> legal ph Unlock -> effect Unlock tt s s' ->
  exists ph', next ph Unlock tt ph' /\ follows ph' s' r.
Proof using.
  intros Hag Hok Hl ->. eexists. split; [done|]. pose proof Hag as [].
  destruct ph as [| |[st|] [?|] gu|st| | |[st|]| | |]; try done.
  - destruct Hl as [err Hn]. destruct ag_knows0 as (Hc & Hseen & _).
    assert (Client.current r = None) as Hcur.
    { apply current_none; [done|]. by destruct (current_running r) as [[]|]. }
    eapply (failed_follows st err false); [exact Hag|done|done|congruence|done|done|done].
  - destruct ag_knows0 as (Hc & Hseen & _). eapply follows_still; [exact Hag|done..|]. split; [done|].
    intros _. apply current_none; [done|]. by destruct (current_running r) as [[]|].
  - by eapply follows_still.
  - destruct Hl as [err Hn], ag_knows0 as [Hc He].
    by eapply (failed_follows st err true).
  - destruct ag_knows0 as [Hc He]. eapply follows_still; [exact Hag|done..|]. split; [cbn; congruence|done].
  - by eapply follows_still.
Qed.

(** What is legal in a phase is possible in it and leads to the next. *)
Lemma main_follows {X} (e : clientG X) x ph s s' r :
  agrees ph s r -> runner_ok r -> legal ph e -> effect e x s s' ->
  exists ph', next ph e x ph' /\ follows ph' s' r.
Proof using.
  intros Hag Hok Hl He. pose proof Hag as [].
  destruct e as [X e|X e|w| | |c|i|i|i|st tr|i]; repeat match goal with u : unit |- _ => destruct u end.
  - destruct Hl as [b ->], He as [_ ->]. eexists. split; [done|].
    eapply follows_still; [exact Hag|done..|]. by split; [apply ag_knows0|].
  - destruct Hl as [[b ->] _], He as [_ ->]. eexists. split; [done|].
    eapply follows_still; [exact Hag|done..|]. by split; [apply ag_knows0|].
  - destruct Hl as [b ->], He as [_ ->]. eexists. split; [done|].
    eapply follows_still; [exact Hag|done..|]. apply ag_knows0.
  - by eapply Unlock_follows.
  - destruct He as [-> ->]. destruct ph as [|w|w c gu| | | | | | |]; try done.
    + rewrite (current_seen _ _ _ Hag) by done. eexists. split; [done|].
      by eapply follows_still.
    + destruct ag_knows0 as (Hc & Hseen & Hgu). rewrite (current_seen _ _ _ Hag) by done.
      eexists. split; [done|]. by eapply follows_still.
  - by eapply SetCurrent_follows.
  - by eapply PollDone_follows.
  - by eapply CancelRun_follows.
  - by eapply AwaitRun_follows.
  - by eapply NewRunning_follows.
  - by eapply GoSupervise_follows.
Qed.

(** ** The supervising goroutines *)

Lemma insert_alter {A} (f : A -> A) i x (l : list A) : l !! i = Some x -> <[i := f x]> l = alter f i l.
Proof using.
  intros Hx. apply list_eq. intros j. rewrite list_lookup_alter. case_decide as Hj.
  - subst j. rewrite list_lookup_insert_eq by (by eapply lookup_lt_Some). by rewrite Hx.
  - by rewrite list_lookup_insert_ne.
Qed.

Lemma started_before ph s r i g p :
  agrees ph s r -> runs s !! i = Some g -> code g = Some p -> all r !! i = Some (view g).
Proof using.
  intros Hag Hg Hp. eapply lookup_view; [done..|]. apply (ag_started _ _ _ Hag _ _ Hg). by rewrite Hp.
Qed.

Lemma supervise_agrees i g p p' ph s r :
  agrees ph s r -> runs s !! i = Some g -> code g = Some p -> supervisor_moves (ctx s || cancelled g) p p' ->
  agrees ph (set_runs (<[i := set_code p' g]> (runs s)) s) r.
Proof using.
  intros Hag Hg Hp Hm. pose proof Hag as [].
  eapply (agrees_alter _ _ _ _ _ _ (set_code p') id i); [exact Hag|by apply insert_alter|done..| | |done| |done].
  - apply list_eq. intros j. rewrite list_lookup_alter. case_decide as Hij; [|done].
    rewrite option_fmap_id. by rewrite Hij.
  - done.
  - intros g0 Hg0. simplify_eq. split; [done|]. cbn. split; [|split].
    + intros q [= <-]. pose proof (ag_live0 _ _ _ Hg Hp) as Hl. destruct p as [|X e k]; [done|].
      destruct Hm as (x & Hx & ->). by apply Hl.
    + intros Hd. rewrite (ag_done0 _ _ Hg Hd) in Hp. by injection Hp as <-.
    + split; [done|]. intros _. apply (ag_started0 _ _ Hg). congruence.
Qed.

Lemma current_update f i (r : runner) :
  current_running (Client.update f i r)
  = (fun '(j, x) => (j, if decide (i = j) then f x else x)) <$> current_running r.
Proof using.
  unfold current_running. cbn. destruct (Client.current r) as [j|]; [|done].
  rewrite list_lookup_alter. destruct (decide (i = j)) as [<-|Hne].
  - destruct (all r !! i); [|done]. cbn. by case_decide.
  - destruct (all r !! j); [|done]. cbn. by case_decide.
Qed.

(** What the main goroutine knows stays true when a transport ends. *)
Lemma knows_exit ph c i (r : runner) : knows ph c r -> knows ph c (Client.update set_done i r).
Proof using.
  assert (ended r -> ended (Client.update set_done i r)) as He.
  { intros (j & x & Hx & Hd). unfold ended. rewrite current_update, Hx. cbn.
    eexists _, _. split; [done|]. by case_decide. }
  assert (forall st tr k wt, ready st tr k wt r -> ready st tr k wt (Client.update set_done i r)) as Hr.
  { intros st tr k wt (Hn & Hk & Hw). split; [done|]. split; [cbn; by rewrite length_alter|].
    destruct wt; auto. }
  destruct ph as [| | | | | |[|]|st tr k wt|st tr k wt|]; cbn [knows];
    change (Client.current (Client.update set_done i r)) with (Client.current r);
    try specialize (Hr st tr k wt); try tauto.
  rewrite current_update. intros (Hc & -> & Hg). split_and!; [done| |auto].
  destruct (current_running r) as [[j x]|]; cbn; [|done]. by case_decide.
Qed.

Lemma exits_follows i g ph s r :
  agrees ph s r -> runs s !! i = Some g -> code g = Some (Ret (Some tt)) -> done g = false ->
  follows ph (set_runs (<[i := close_done g]> (runs s)) s) r.
Proof using.
  intros Hag Hg Hp Hd. pose proof Hag as [].
  pose proof (started_before _ _ _ _ _ _ Hag Hg Hp) as Hx.
  pose proof (ag_live0 _ _ _ Hg Hp) as Hl. cbn in Hl.
  eapply (follows_one _ _ _ (Exit i)).
  { cbn. rewrite Hx. cbn. rewrite Hd, ag_ctx0, orb_comm, Hl. done. }
  eapply (agrees_alter _ _ _ _ _ _ close_done set_done i); [exact Hag|by apply insert_alter|done..| | | | |].
  - cbn. rewrite alter_app_l; [done|]. by eapply lookup_lt_Some.
  - done.
  - by apply knows_exit.
  - intros g0 Hg0. simplify_eq. split; [done|]. cbn. rewrite length_alter. eauto.
  - intros j _. cbn. by rewrite length_alter.
Qed.

Lemma ctx_follows ph s r :
  agrees ph s r -> follows ph (mkShared true (locked s) (current s) (runs s)) r.
Proof using.
  intros []. eapply (follows_one _ _ _ ParentDone); [done|]. split; try done.
  intros i g p Hg Hp. eapply live_later; [|by eapply ag_live0]. done.
Qed.

(** ** Every interleaving *)

Definition inv (y : system) (r : runner) : Prop :=
  exists ph, obeys (main y) ends ph /\ agrees ph (sh y) r.

Lemma client_step_inv l y y' r :
  inv y r -> runner_ok r -> step l y y' -> exists als r', runner_run als r = Some r' /\ inv y' r'.
Proof using.
  intros (ph & Ho & Hag) Hok Hstep.
  destruct Hstep as [s m s' m' Hm|i g p p' s m Hg Hp Hm|i g s m Hg Hp Hd|s m]; cbn in *.
  - destruct m as [a|X e k]; [done|]. destruct Hm as (x & He & ->). destruct Ho as [Hl Hk].
    destruct (main_follows _ _ _ _ _ _ Hag Hok Hl He) as (ph' & Hn & als & r' & Hr & Hag').
    exists als, r'. split; [done|]. exists ph'. cbn. auto.
  - exists [], r. split; [done|]. exists ph. split; [done|]. by eapply supervise_agrees.
  - destruct (exits_follows _ _ _ _ _ Hag Hg Hp Hd) as (als & r' & Hr & Hag').
    exists als, r'. split; [done|]. by exists ph.
  - destruct (ctx_follows _ _ _ Hag) as (als & r' & Hr & Hag').
    exists als, r'. split; [done|]. by exists ph.
Qed.

Lemma start_inv fuel : inv (start fuel) newRunner.
Proof using. exists (Idle false). split; [apply Run_obeys|]. by split. Qed.

Lemma client_run_inv fuel ls y :
  execution step ls (start fuel) y ->
  exists als r, runner_run als newRunner = Some r /\ runner_ok r /\ inv y r.
Proof using.
  remember (start fuel) as y0 eqn:E0. induction 1 as [|ls l y0 y1 y2 _ IH Hstep]; subst.
  - exists [], newRunner. split; [done|]. split; [apply newRunner_ok|apply start_inv].
  - destruct (IH eq_refl) as (als & r & Hr & Hok & Hinv).
    destruct (client_step_inv _ _ _ _ Hinv Hok Hstep) as (als' & r' & Hr' & Hinv').
    exists (als ++ als'), r'. split; [apply steps_app; eauto|]. split; [|done].
    by eapply runner_run_ok.
Qed.

(** C9: The client as a whole refines the abstract runner: in every
    interleaving of the goroutine of [Run], which takes the control
    connection's announcements to [apply] and ends with [stop], and of the
    goroutines that supervise transports, whatever the network and the timers
    do, there is a run of the abstract runner with the same transports, each
    cancelled and ended alike (while [apply] creates the next one, all but
    that), and, whenever the mutex is free, the same current one. *)
Theorem client_run_refines fuel ls y :
  execution step ls (start fuel) y ->
  exists als r, runner_run als newRunner = Some r
    /\ parent_done r = ctx (sh y)
    /\ (exists created, view <$> runs (sh y) = all r ++ created
         /\ (length created <= 1) /\ (locked (sh y) = false -> created = []))
    /\ (locked (sh y) = false -> current (sh y) = Client.current r /\ holder r = Unlocked).
Proof using.
  intros (als & r & Hr & _ & ph & _ & [])%client_run_inv. exists als, r. split_and!; [done..| |].
  - exists (spare ph). split_and!; [done|by destruct ph; simpl; lia|]. rewrite ag_locked0. by destruct ph.
  - rewrite ag_locked0. destruct ph; try done. intros _. by split; [apply ag_knows0|].
Qed.

(** Every operation has an answer, but for the waits. *)
Lemma contract_inhabited {X} (e : netE X) : exists x, contract e x.
Proof using.
  destruct e; cbn; first [by exists tt | by exists true | by exists O
    | by exists (Err (Sentinel "")) ].
Qed.

(** The main goroutine can move, has returned, or waits. *)
Lemma main_progress ph s r m :
  obeys m ends ph -> agrees ph s r -> runner_ok r ->
  match m with Ret _ => True | Vis _ _ => False end
  \/ (exists y', step Main (mkSystem s m) y')
  \/ (ctx s = false /\ exists k, m = Vis (OnClient AwaitDone) k)
  \/ exists i g p, runs s !! i = Some g /\ code g = Some p /\ cancelled g = true /\ done g = false.
Proof using.
  intros Ho Hag Hok. destruct m as [a|X e k]; [by left|right]. destruct Ho as [Hl _].
  assert (forall x s', effect e x s s' -> exists y', step Main (mkSystem s (Vis e k)) y') as Hgo.
  { intros x s' He. exists (mkSystem s' (k x)). constructor. by exists x. }
  pose proof Hag as [].
  destruct e as [X e|X e|w| | |c|i|i|i|st tr|i];
    try solve [left; eapply (Hgo tt); exists 0; reflexivity];
    try solve [left; eapply (Hgo tt); reflexivity]; try by (left; eapply Hgo; cbn; eauto).
  - left. destruct (contract_inhabited e) as [x Hx]. by apply (Hgo x s).
  - destruct Hl as [_ Hp]. destruct (prompt e) eqn:He.
    + left. destruct (prompt_answers (ctx s) e He) as [x Hx]. by apply (Hgo x s).
    + destruct e; try done. destruct (ctx s) eqn:Hd; [|right; left; by split; [|exists k]].
      left. by apply (Hgo tt s).
  - left. destruct Hl as [b ->]. apply (Hgo tt (set_locked true s)). split; [exact ag_locked0|done].
  - left. destruct ph as [|?|[st|] [[j s0]|] gu| | | | | | |]; try done. destruct Hl as [-> _].
    destruct ag_knows0 as (Hc & Hseen & _).
    destruct (current_running r) as [[i x]|] eqn:Hx; [|done]. injection Hseen as -> ->.
    apply current_running_Some in Hx as [_ Hx].
    destruct (view_lookup _ _ _ _ _ Hag Hx) as (g & Hg & _).
    apply (Hgo (done g) s). cbn. by rewrite Hg.
  - destruct ph as [| | | |w j| | | | |]; try done. cbn in Hl. subst j. destruct ag_knows0 as [Hc Hci].
    destruct (rn_current _ _ _ _ _ Hok _ Hci) as (x & Hx & _ & Hcan & _).
    destruct (view_lookup _ _ _ _ _ Hag Hx) as (g & Hg & <-).
    destruct (done g) eqn:Hd.
    + left. apply (Hgo tt s). cbn. rewrite Hg. cbn. by rewrite Hd.
    + right; right. assert (code g <> None) as Hp.
      { apply (ag_started0 _ _ Hg). by eapply lookup_lt_Some. }
      destruct (code g) as [p|] eqn:Ep; [|done]. exists i, g, p. split_and!; try done.
      apply Hcan. rewrite ag_holder0. by destruct w.
Qed.

(** A goroutine that supervises a transport can always go on until it has
    closed its channel. *)
Lemma supervisor_progress ph s r m i g p :
  agrees ph s r -> runs s !! i = Some g -> code g = Some p -> done g = false ->
  p = Ret None \/ exists l y', (l = Supervise i \/ l = Exits i) /\ step l (mkSystem s m) y'.
Proof using.
  intros Hag Hg Hp Hd. pose proof (ag_live _ _ _ Hag _ _ _ Hg Hp) as Hl.
  destruct p as [[[]|]|X e k]; [|by left|]; right.
  - exists (Exits i). eexists. split; [by right|]. by econstructor.
  - destruct Hl as [He _]. exists (Supervise i).
    destruct (prompt_answers (ctx s || cancelled g) e He) as [x Hx].
    eexists. split; [by left|]. econstructor; [done..|]. by exists x.
Qed.

(** C10: Shutting the client down: at any moment at most one goroutine
    supervises a transport; when [Run] has returned, all of them have
    returned too, nothing is current and the mutex is free.  The goroutine of
    [Run] never deadlocks: while it has not returned it can go on, unless it
    waits for its context (in static mode), or for a goroutine it has
    cancelled, which itself can go on (until, in the model, its fuel is used
    up). *)
Theorem client_run_shutdown fuel ls y :
  execution step ls (start fuel) y ->
  (forall i j g g', runs (sh y) !! i = Some g -> runs (sh y) !! j = Some g' ->
     code g <> None -> code g' <> None -> done g = false -> done g' = false -> i = j)
  /\ (forall res, main y = Ret (Some res) ->
     current (sh y) = None /\ locked (sh y) = false
     /\ forall i g, runs (sh y) !! i = Some g -> done g = true /\ code g = Some (Ret (Some tt)))
  /\ (match main y with Ret _ => True | Vis _ _ => False end
      \/ (exists y', step Main y y')
      \/ (ctx (sh y) = false /\ exists k, main y = Vis (OnClient AwaitDone) k)
      \/ exists i g p, runs (sh y) !! i = Some g /\ code g = Some p /\ cancelled g = true /\ done g = false
           /\ (p = Ret None \/ exists l y', (l = Supervise i \/ l = Exits i) /\ step l y y')).
Proof using.
  intros (als & r & _ & Hok & ph & Ho & Hag)%client_run_inv. destruct y as [s m]. cbn in *. pose proof Hag as [].
  split_and!.
  - intros i j g g' Hg Hg' Hp Hp' Hd Hd'.
    apply (ag_started0 _ _ Hg), (lookup_view _ _ _ _ _ Hag Hg) in Hp.
    apply (ag_started0 _ _ Hg'), (lookup_view _ _ _ _ _ Hag Hg') in Hp'.
    pose proof (rn_single _ _ _ _ _ Hok _ _ Hp Hd). pose proof (rn_single _ _ _ _ _ Hok _ _ Hp' Hd').
    congruence.
  - intros res ->. cbn in Ho. subst ph. destruct ag_knows0 as [Hc Hn]. specialize (Hn eq_refl).
    split_and!; [congruence|done|]. intros i g Hg. cbn in ag_runs0. rewrite app_nil_r in ag_runs0.
    assert (Hx : all r !! i = Some (view g)) by (by rewrite <- ag_runs0, list_lookup_fmap, Hg).
    pose proof (all_done _ _ _ _ _ Hok Hn _ _ Hx) as Hd. split; [exact Hd|]. by apply (ag_done0 _ _ Hg).
  - destruct (main_progress _ _ _ _ Ho Hag Hok) as [?|[?|[?|(i & g & p & Hg & Hp & Hcan & Hd)]]];
      [by left|by right; left|by right; right; left|right; right; right].
    exists i, g, p. split_and!; [done..|]. by eapply supervisor_progress.
Qed.

End client_run.

(** ** Witnesses *)

(** A static client: its transport is started, the context is done, the
    transport ends and is waited for. *)
Abbreviation demo_step := (step (KeyPair := unit)).
Definition demo_start : @system unit := start (fun _ => None) (fun _ => true) ∅ static_client 1.
Definition demo_labels : list label :=
  replicate 7 Main                        (* apply *)
  ++ [CtxDone; Main; Main; Main; Main]    (* the context; stop, up to cancel *)
  ++ [Supervise 0; Supervise 0; Exits 0]
  ++ replicate 3 Main.

(** Take the next step; the answer is given. *)
Ltac step_with x := eapply execution_cons; [apply step_main; hnf; exists x; split; [|reflexivity]|].

Lemma client_demo_execution :
  exists y, execution demo_step demo_labels demo_start y
    /\ main y = Ret (Some None) /\ ctx (sh y) = true /\ length (runs (sh y)) = 1
    /\ current (sh y) = None /\ locked (sh y) = false.
Proof.
  eexists. split; [unfold demo_labels, demo_start, start; cbn [replicate app]|].
  - step_with tt; [by split|]. do 2 (step_with (@None (nat * CConfig)); [by split|]).
    step_with 0; [by split|]. step_with tt; [done|]. step_with tt; [by exists 1|]. step_with tt; [done|].
    eapply execution_cons; [apply step_ctx|].
    step_with tt; [by split|]. step_with tt; [by split|].
    step_with (Some (0, static_settings static_client)); [by split|]. step_with tt; [done|].
    eapply execution_cons; [by eapply step_supervise; [done..|exists (@None error)]|].
    eapply execution_cons; [by eapply step_supervise; [done..|exists true]|].
    eapply execution_cons; [by eapply step_exits|].
    step_with tt; [by split|]. step_with tt; [done|]. step_with tt; [done|]. constructor.
  - done.
Qed.

Lemma client_run_refines_witness :
  exists y, execution demo_step demo_labels demo_start y
    /\ exists als (r : @Client.runner unit), runner_run (fun _ => None) (fun _ => true) ∅ static_client als newRunner = Some r
         /\ length (all r) = 1 /\ Client.current r = None.
Proof.
  destruct client_demo_execution as (y & Hx & Hm & Hc & Hl & Hcur & Hlock). exists y. split; [exact Hx|].
  destruct (client_run_refines _ _ _ _ _ _ _ Hx) as (als & r & Hr & _ & (created & Hv & _ & He) & Hk).
  exists als, r. split; [exact Hr|]. destruct (Hk Hlock) as [Hcr _]. split; [|congruence].
  rewrite (He Hlock), app_nil_r in Hv. by rewrite <- Hv, length_fmap.
Defined.

Lemma client_run_shutdown_witness :
  exists y, execution demo_step demo_labels demo_start y /\ main y = Ret (Some None)
    /\ length (runs (sh y)) = 1 /\ forall i g, runs (sh y) !! i = Some g -> done g = true.
Proof.
  destruct client_demo_execution as (y & Hx & Hm & Hc & Hl & _). exists y. split; [exact Hx|].
  split; [exact Hm|]. split; [exact Hl|]. intros i g Hg.
  destruct (client_run_shutdown _ _ _ _ _ _ _ Hx) as (_ & H & _).
  exact (proj1 (proj2 (proj2 (H _ Hm)) i g Hg)).
Defined.
