(* ===== verification/WsConn.v ===== *)
(** * Package [transport]: byte streams over WebSocket messages
      (src/internal/transport/wsconn.go)

    [wsConn] carries a byte stream in binary messages.  The WebSocket library
    is an argument: the messages it delivers, the error that follows them, and
    the reads of a message's reader, which obey the [io.Reader] contract. *)

From S2P Require Import Prelude GoLib Prog Net.

Inductive message_type : Type := TextMessage | BinaryMessage.

#[export] Instance message_type_eq_decision : EqDecision message_type.
Proof. solve_decision. Defined.

(** A read of at most [n] bytes of a message with [rest] left: [k] bytes and
    then nil, or [io.EOF], or another error. *)
Inductive reader_result : Type :=
| Data (k : nat)
| DataEOF (k : nat)
| DataErr (k : nat) (err : error).

(** [wsConn]: what is left of the current message, if there is one; the
    messages to come and the error of [NextReader] after them. *)
Record wsConn : Type := mkWsConn {
  reader : option bytes;
  incoming : list (message_type * bytes);
  closed : error;
}.

Definition newWSConn (incoming : list (message_type * bytes)) (closed : error) : wsConn :=
  mkWsConn None incoming closed.

Section wsconn.
(** The reads of a message's reader. *)
Context (reader_Read : bytes -> nat -> reader_result).

(** The part of [Read] after a reader is in place: [Some] is a return,
    [None] the [continue] after an end of message. *)
Definition read_current (rest : bytes) (n : nat) (c : wsConn)
    : option (bytes * option error) * wsConn :=
  let with_reader r := mkWsConn r (incoming c) (closed c) in
  match reader_Read rest n with
  | DataEOF k =>
      if decide (0 < k) then (Some (take k rest, None), with_reader None)
      else (None, with_reader None)
  | DataErr k err => (Some (take k rest, Some err), with_reader (Some (drop k rest)))
  | Data k => (Some (take k rest, None), with_reader (Some (drop k rest)))
  end.

(** [Read(p)] with [n] the length of [p]; each [continue] uses one unit of
    fuel, [None] is fuel running out. *)
Fixpoint Read (fuel n : nat) (c : wsConn) : option ((bytes * option error) * wsConn) :=
  match fuel with
  | O => None
  | S fuel =>
      match reader c with
      | None =>
          match incoming c with
          | [] => Some (([], Some (closed c)), c)
          | (typ, payload) :: queue =>
              if decide (typ <> BinaryMessage) then
                Read fuel n (mkWsConn None queue (closed c))
              else
                match read_current payload n (mkWsConn (Some payload) queue (closed c)) with
                | (Some res, c') => Some (res, c')
                | (None, c') => Read fuel n c'
                end
          end
      | Some rest =>
          match read_current rest n c with
          | (Some res, c') => Some (res, c')
          | (None, c') => Read fuel n c'
          end
      end
  end.

(** [Write(p)]: one binary message; [sent] is the peer's [incoming]. *)
Definition Write (p : bytes) (res : option error) (sent : list (message_type * bytes))
    : (nat * option error) * list (message_type * bytes) :=
  match res with
  | Some err => ((0, Some err), sent)
  | None => ((length p, None), sent ++ [(BinaryMessage, p)])
  end.

(** The bytes still to be read. *)
Definition binary_payload (m : message_type * bytes) : bytes :=
  if decide (m.1 = BinaryMessage) then m.2 else [].
Definition contents (c : wsConn) : bytes :=
  default [] (reader c) ++ concat (binary_payload <$> incoming c).

(** The [io.Reader] contract: [k] is at most the length of the buffer and of
    what is left; [io.EOF] comes only at the end; a nil error comes with at
    least one byte unless the buffer is empty. *)
Definition reader_contract : Prop :=
  forall rest n,
    match reader_Read rest n with
    | Data k => k <= n /\ k <= length rest /\ (0 < n -> 0 < k)
    | DataEOF k => k <= n /\ k = length rest
    | DataErr k _ => k <= n /\ k <= length rest
    end.

(** The iterations a [Read] can need. *)
Definition read_fuel (c : wsConn) : nat :=
  match reader c with Some _ => 1 | None => 0 end + length (incoming c) + 1.

Lemma read_current_spec rest n c res c' :
  reader_contract -> read_current rest n c = (res, c') ->
  incoming c' = incoming c /\ closed c' = closed c
  /\ match res with
     | Some (data, err) => length data <= n /\ rest = data ++ default [] (reader c')
         /\ (err = None -> 0 < n -> data <> [])
         /\ (forall e, err = Some e -> exists k, reader_Read rest n = DataErr k e)
     | None => rest = [] /\ reader c' = None
     end.
Proof.
  intros Hc. specialize (Hc rest n). unfold read_current.
  destruct (reader_Read rest n) as [k|k|k err] eqn:Hread.
  - intros [= <- <-]. destruct Hc as (Hk & Hl & Hpos). simpl.
    rewrite take_drop, length_take. split_and!; [done|done|lia|done| |done].
    intros _ Hn Hnil. specialize (Hpos Hn). apply (f_equal length) in Hnil.
    rewrite length_take in Hnil. simpl in Hnil. lia.
  - destruct Hc as [Hk ->]. case_decide as Hpos; intros [= <- <-]; simpl.
    + rewrite firstn_all, app_nil_r. split_and!; try done. intros _ _ ->. simpl in Hpos. lia.
    + split_and!; try done. apply length_zero_iff_nil. lia.
  - intros [= <- <-]. destruct Hc as (Hk & Hl). simpl.
    rewrite take_drop, length_take. split_and!; try done; [lia|]. intros e [= <-]. by exists k.
Qed.

Lemma Read_spec fuel n c :
  reader_contract -> read_fuel c <= fuel ->
  exists data err c', Read fuel n c = Some ((data, err), c')
    /\ length data <= n /\ contents c = data ++ contents c' /\ closed c' = closed c
    /\ (err = None -> 0 < n -> data <> [])
    /\ (forall e, err = Some e -> (data = [] /\ contents c = [] /\ e = closed c)
          \/ exists rest m k, reader_Read rest m = DataErr k e).
Proof.
  intros Hc. revert c. induction fuel as [|fuel IH]; intros c Hf.
  { unfold read_fuel in Hf. lia. }
  (* a [continue] that loses nothing *)
  assert (Hagain : forall c1, read_fuel c1 <= fuel -> contents c1 = contents c -> closed c1 = closed c ->
    exists data err c', Read fuel n c1 = Some ((data, err), c')
      /\ length data <= n /\ contents c = data ++ contents c' /\ closed c' = closed c
      /\ (err = None -> 0 < n -> data <> [])
      /\ (forall e, err = Some e -> (data = [] /\ contents c = [] /\ e = closed c)
            \/ exists rest m k, reader_Read rest m = DataErr k e)).
  { intros c1 Hf1 <- <-. by apply IH. }
  unfold read_fuel in Hf. cbn [Read]. destruct c as [[rest|] queue e]; simpl in Hf; cbn [reader incoming closed].
  - destruct (read_current rest n _) as [[[data err]|] c'] eqn:Hr;
      apply read_current_spec in Hr as (Hi & He & Hr); try done; cbn in Hi, He.
    + destruct Hr as (Hl & -> & Hne & Herr). exists data, err, c'.
      split_and!; try done; [|intros er Her; right; destruct (Herr er Her); by eauto].
      unfold contents. cbn. by rewrite Hi, (assoc_L (++)).
    + destruct Hr as [-> Hn]. apply Hagain; [|unfold contents; cbn; by rewrite Hn, Hi|done].
      unfold read_fuel. rewrite Hn, Hi. simpl. lia.
  - destruct queue as [|[typ payload] queue].
    { exists [], (Some e), (mkWsConn None [] e). split_and!; try done; [simpl; lia|].
      intros er [= <-]. by left. }
    simpl in Hf. case_decide as Ht.
    + apply Hagain; [unfold read_fuel; simpl; lia| |done]. unfold contents. cbn.
      unfold binary_payload at 2. by rewrite decide_False.
    + subst typ.
      destruct (read_current payload n _) as [[[data err]|] c'] eqn:Hr;
        apply read_current_spec in Hr as (Hi & He & Hr); try done; cbn in Hi, He.
      * destruct Hr as (Hl & -> & Hne & Herr). exists data, err, c'.
        split_and!; try done; [|intros er Her; right; destruct (Herr er Her); by eauto].
        unfold contents. cbn. unfold binary_payload at 1. cbn.
        by rewrite Hi, (assoc_L (++)).
      * destruct Hr as [-> Hn]. apply Hagain; [|unfold contents; cbn; by rewrite Hn, Hi|done].
        unfold read_fuel. rewrite Hn, Hi. simpl. lia.
Qed.

(** ** Deadlines and closing

    The WebSocket connection's own methods, on its state [ws]. *)

Section forwarded.
Context {ws : Type} (SetReadDeadline SetWriteDeadline : deadline -> ws -> option error * ws).

(** [SetDeadline]: the write deadline is set only after the read deadline. *)
Definition wsConn_SetDeadline (t : deadline) (c : ws) : option error * ws :=
  match SetReadDeadline t c with
  | (Some err, c) => (Some err, c)
  | (None, c) => SetWriteDeadline t c
  end.

(** When the underlying setters do what they say, a nil error means that both
    directions have the deadline, whatever was set before. *)
Lemma SetDeadline_sets (read_deadline write_deadline : ws -> deadline) t c c' :
  (forall t c c', SetReadDeadline t c = (None, c') ->
     read_deadline c' = t /\ write_deadline c' = write_deadline c) ->
  (forall t c c', SetWriteDeadline t c = (None, c') ->
     write_deadline c' = t /\ read_deadline c' = read_deadline c) ->
  wsConn_SetDeadline t c = (None, c') -> read_deadline c' = t /\ write_deadline c' = t.
Proof.
  intros Hr Hw. unfold wsConn_SetDeadline. destruct (SetReadDeadline t c) as [[err|] c1] eqn:E; [done|].
  intros H. apply Hr in E as [E _]. apply Hw in H as [? ->]. done.
Qed.
End forwarded.

(** The messages a peer's [Write]s send, and a reader that reads with a buffer
    of [n] bytes until the first error. *)
Definition write_all (pieces : list bytes) : list (message_type * bytes) :=
  foldl (fun sent p => (Write p None sent).2) [] pieces.

Fixpoint read_all (fuel n : nat) (c : wsConn) : option (bytes * error) :=
  match fuel with
  | O => None
  | S fuel =>
      match Read (read_fuel c) n c with
      | Some ((data, Some err), _) => Some (data, err)
      | Some ((data, None), c') =>
          (fun '(rest, err) => (data ++ rest, err)) <$> read_all fuel n c'
      | None => None
      end
  end.

Lemma contents_written pieces acc :
  concat (binary_payload <$> foldl (fun sent p => (Write p None sent).2) acc pieces)
  = concat (binary_payload <$> acc) ++ concat pieces.
Proof.
  revert acc. induction pieces as [|p pieces IH]; intros acc; simpl; [by rewrite app_nil_r|].
  rewrite IH, fmap_app, concat_app. simpl. rewrite app_nil_r. by rewrite <- (assoc_L (++)).
Qed.

Lemma read_all_contents fuel n c :
  reader_contract -> (forall rest m k e, reader_Read rest m <> DataErr k e) -> 0 < n ->
  length (contents c) < fuel -> read_all fuel n c = Some (contents c, closed c).
Proof.
  intros Hc Hno Hn. revert c. induction fuel as [|fuel IH]; intros c Hf; [lia|]. cbn [read_all].
  destruct (Read_spec (read_fuel c) n c Hc) as (data & err & c' & -> & _ & Hcont & Hcl & Hne & Herr);
    [done|].
  destruct err as [e|].
  - destruct (Herr e eq_refl) as [(-> & -> & ->)|(rest & m & k & Hk)]; [done|]. by apply Hno in Hk.
  - assert (0 < length data).
    { destruct data; [by destruct (Hne eq_refl Hn)|simpl; lia]. }
    rewrite IH, Hcont, Hcl; [done|]. rewrite Hcont, length_app in Hf. lia.
Qed.

(** A WebSocket connection is a byte stream: [Read] always returns; the
    bytes it returns are the next ones of the binary messages, in order, none
    lost at a message boundary and none taken from messages of another type;
    it never returns zero bytes without an error for a non-empty buffer; and
    at the end it returns the connection's error. *)
Theorem websocket_is_a_byte_stream n c :
  reader_contract ->
  (exists data err c', Read (read_fuel c) n c = Some ((data, err), c')
     /\ length data <= n /\ contents c = data ++ contents c'
     /\ (err = None -> 0 < n -> data <> []))
  /\ (reader c = None -> incoming c = [] ->
      Read (read_fuel c) n c = Some (([], Some (closed c)), c)).
Proof.
  intros Hc. split.
  - destruct (Read_spec (read_fuel c) n c Hc) as (d & e & c' & ? & ? & ? & _ & ? & _); [done|].
    by exists d, e, c'.
  - intros Hr Hi. unfold read_fuel. rewrite Hr, Hi. simpl. by rewrite Hr, Hi.
Qed.

(** C26: Whatever the sizes of the writes and of the reader's buffer, reading a
    connection to its end yields exactly the concatenation of what the peer
    wrote, and then the error that ended the connection; one more read than
    there are bytes is enough. *)
Theorem websocket_roundtrip n pieces e :
  reader_contract -> (forall rest m k e, reader_Read rest m <> DataErr k e) -> 0 < n ->
  read_all (S (length (concat pieces))) n (newWSConn (write_all pieces) e)
  = Some (concat pieces, e).
Proof.
  intros Hc Hno Hn.
  assert (Hcont : contents (newWSConn (write_all pieces) e) = concat pieces).
  { unfold contents, write_all. simpl. by rewrite contents_written. }
  rewrite read_all_contents, Hcont; [done..|]. rewrite Hcont. lia.
Qed.

End wsconn.

(** ** Witness *)

(** A reader that returns as much as fits and then a separate end of message. *)
Definition greedy_reader (rest : bytes) (n : nat) : reader_result :=
  if decide (0 < n /\ rest = []) then DataEOF 0 else Data (min n (length rest)).

Lemma greedy_contract : reader_contract greedy_reader.
Proof.
  intros rest n. unfold greedy_reader. case_decide as Hd; simpl.
  - destruct Hd as [_ ->]. simpl. lia.
  - split_and!; [lia|lia|]. intros Hn. destruct rest as [|b rest]; simpl in *; [tauto|lia].
Qed.

Definition two_messages : wsConn :=
  newWSConn [(BinaryMessage, [Byte.x01]); (TextMessage, [Byte.xff]); (BinaryMessage, [Byte.x02])]
    (Sentinel "io.EOF").

Lemma websocket_is_a_byte_stream_witness :
  reader_contract greedy_reader
  /\ exists data err c', Read greedy_reader (read_fuel two_messages) 8 two_messages
       = Some ((data, err), c')
     /\ [Byte.x01; Byte.x02] = data ++ contents c'.
Proof.
  split; [exact greedy_contract|].
  destruct (websocket_is_a_byte_stream greedy_reader 8 two_messages greedy_contract)
    as [(data & err & c' & Hr & _ & Hcont & _) _].
  exists data, err, c'. split; [exact Hr|exact Hcont].
Defined.

Lemma websocket_roundtrip_witness :
  reader_contract greedy_reader
  /\ read_all greedy_reader 4 2
       (newWSConn (write_all [[Byte.x01; Byte.x02]; []; [Byte.x03]]) (Sentinel "io.EOF"))
     = Some ([Byte.x01; Byte.x02; Byte.x03], Sentinel "io.EOF").
Proof.
  split; [exact greedy_contract|].
  apply (websocket_roundtrip greedy_reader 2 [[Byte.x01; Byte.x02]; []; [Byte.x03]] _ greedy_contract).
  - intros rest m k e. unfold greedy_reader. case_decide; discriminate.
  - lia.
Defined.
