(* ===== verification/Agreement.v ===== *)
(** * What the authentication handshake establishes

    Domain separation of everything that is signed with the token, and the
    agreement the handshake gives two honest programs when tags cannot be
    forged: a pool of client and server runs with one token, on which
    unforgeability is a hypothesis. *)

From S2P Require Import Prelude GoLib Sha256 Proto Config Prog Net Auth Control.

(** ** Domain separation *)

(** The messages the program computes tags or keys of. *)
Inductive signed_message : Type :=
| MServerProof (clientNonce serverNonce : bytes)
| MClientProof (clientNonce serverNonce : bytes)
| MConfig (channel body : bytes)
| MDatagram (dir : Direction) (payload : bytes)
| MKey (purpose : string).

(** The bytes that are authenticated. *)
Definition encode (m : signed_message) : bytes :=
  match m with
  | MServerProof cn sn => bytes_of_string labelServer ++ concat [cn; sn]
  | MClientProof cn sn => bytes_of_string labelClient ++ concat [cn; sn]
  | MConfig ch body => bytes_of_string labelConfig ++ concat [ch; body]
  | MDatagram dir payload => bytes_of_string labelDatagram ++ concat [[direction_byte dir]; payload]
  | MKey purpose => bytes_of_string (String.append "gtun/v1/key/" purpose) ++ concat []
  end.

(** Nonces and channels have their fixed lengths. *)
Definition well_formed (m : signed_message) : Prop :=
  match m with
  | MServerProof cn sn | MClientProof cn sn => length cn = NonceSize /\ length sn = NonceSize
  | MConfig ch _ => length ch = 2 * NonceSize
  | _ => True
  end.

Lemma bytes_of_string_app s t :
  bytes_of_string (String.append s t) = bytes_of_string s ++ bytes_of_string t.
Proof.
  unfold bytes_of_string, String.list_byte_of_string.
  induction s as [|c s IH]; [reflexivity|].
  exact (f_equal (cons (Ascii.byte_of_ascii c)) IH).
Qed.

Lemma direction_byte_inj d1 d2 : direction_byte d1 = direction_byte d2 -> d1 = d2.
Proof. by destruct d1, d2. Qed.

Lemma encode_inj m1 m2 : well_formed m1 -> well_formed m2 -> encode m1 = encode m2 -> m1 = m2.
Proof.
  destruct m1 as [c1 s1|c1 s1|ch1 b1|d1 p1|k1], m2 as [c2 s2|c2 s2|ch2 b2|d2 p2|k2];
    intros W1 W2 H; cbn [well_formed] in W1, W2; cbn [encode] in H;
    rewrite ?bytes_of_string_app in H;
    try (exfalso; vm_compute in H; discriminate H).
  - apply app_inv_head in H. cbn in H. rewrite !app_nil_r in H.
    apply app_split_eq in H as [-> ->]; [done|by destruct W1, W2; congruence].
  - apply app_inv_head in H. cbn in H. rewrite !app_nil_r in H.
    apply app_split_eq in H as [-> ->]; [done|by destruct W1, W2; congruence].
  - apply app_inv_head in H. cbn in H. rewrite !app_nil_r in H.
    apply app_split_eq in H as [-> ->]; [done|congruence].
  - apply app_inv_head in H. cbn in H. rewrite !app_nil_r in H.
    injection H as Hd ->. by apply direction_byte_inj in Hd as ->.
  - cbn [concat] in H. rewrite !app_nil_r in H. apply app_inv_head in H. by apply (inj _) in H as ->.
Qed.

(** Domain separation: the messages authenticated with the token for the
    five purposes (the two proofs of the handshake, the transport
    announcement, a datagram in either direction, a derived key) have pairwise
    different encodings, and within a purpose the encoding determines every
    part, so a tag made for one use is never a tag of another message. *)
Theorem domain_separation m1 m2 :
  well_formed m1 -> well_formed m2 -> (encode m1 = encode m2 <-> m1 = m2).
Proof. intros W1 W2. split; [by apply encode_inj|by intros ->]. Qed.

(** ** Agreement *)

Section agreement.
Context `{M : Mac} (token : string).

(** A run of the handshake by an honest program. *)
Inductive honest_run : Type :=
| ClientRun (conn : nat) (tr : list event) (r : result Channel)
| ServerRun (conn : nat) (tr : list event) (r : result Channel).

Definition valid_run (x : honest_run) : Prop :=
  match x with
  | ClientRun c tr r => runs (ClientHandshake c token) tr r
  | ServerRun c tr r => runs (ServerHandshake c token) tr r
  end.

Definition trace_of (x : honest_run) : list event :=
  match x with ClientRun _ tr _ | ServerRun _ tr _ => tr end.

Definition tag_of (m : signed_message) : bytes := mac (bytes_of_string token) (encode m).

(** The run read, where it checks it, the valid tag of [m] for its nonces: the
    server a client's proof, the client a server's. *)
Definition verifies (x : honest_run) (m : signed_message) : Prop :=
  match x with
  | ServerRun _ tr _ => exists cn sn c w rest, m = MClientProof cn sn
      /\ tr = [ERead c NonceSize (Ok cn); ERand NonceSize (Ok sn); w;
               ERead c TagSize (Ok (tag_of m))] ++ rest
  | ClientRun _ tr _ => exists cn sn c w rest, m = MServerProof cn sn /\ length sn = NonceSize
      /\ tr = [ERand NonceSize (Ok cn); w;
               ERead c (NonceSize + TagSize) (Ok (sn ++ tag_of m))] ++ rest
  end.

(** The run computed the tag of [m], from the nonces it holds, and sent it. *)
Definition signs (x : honest_run) (m : signed_message) : Prop :=
  match x with
  | ClientRun _ tr _ => exists cn reply c n c' wr pre post,
      m = MClientProof cn (take NonceSize reply) /\ ERand NonceSize (Ok cn) ∈ tr
      /\ tr = pre ++ [ERead c n (Ok reply); EWrite c' (tag_of m) wr] ++ post
  | ServerRun _ tr _ => exists cn sn c c' wr,
      m = MServerProof cn sn /\ ERead c NonceSize (Ok cn) ∈ tr /\ ERand NonceSize (Ok sn) ∈ tr
      /\ EWrite c' (sn ++ tag_of m) wr ∈ tr
  end.

(** What is assumed of the pool of all honest runs with the token: whatever
    valid tag one of them verifies was made by one of them, and the nonces the
    runs of a role draw are distinct. *)
Definition unforgeable (pool : list honest_run) : Prop :=
  forall x m, x ∈ pool -> verifies x m -> exists y, y ∈ pool /\ signs y m.

Definition is_server (x : honest_run) : bool :=
  match x with ServerRun _ _ _ => true | ClientRun _ _ _ => false end.

Definition fresh_nonces (pool : list honest_run) : Prop :=
  forall i j x y nonce, pool !! i = Some x -> pool !! j = Some y -> is_server x = is_server y ->
    ERand NonceSize (Ok nonce) ∈ trace_of x -> ERand NonceSize (Ok nonce) ∈ trace_of y -> i = j.

Lemma adjacent {A} (l pre post : list A) x y :
  l = pre ++ [x; y] ++ post -> exists k, l !! k = Some x /\ l !! S k = Some y.
Proof using.
  intros ->. exists (length pre). split.
  - by rewrite lookup_app_r, Nat.sub_diag by lia.
  - rewrite lookup_app_r by lia. by replace (S (length pre) - length pre) with 1 by lia.
Qed.

(** A client that went on to send after reading a reply verified that reply. *)
Lemma client_sends_after_verifying rw tr r pre c n reply c' b wr post :
  runs (ClientHandshake rw token) tr r ->
  tr = pre ++ [ERead c n (Ok reply); EWrite c' b wr] ++ post ->
  exists cn, (forall x, ERand NonceSize (Ok x) ∈ tr -> x = cn) /\ length cn = NonceSize
    /\ length (take NonceSize reply) = NonceSize
    /\ reply = take NonceSize reply ++ tag_of (MServerProof cn (take NonceSize reply))
    /\ exists w c2 rest, tr = [ERand NonceSize (Ok cn); w;
                               ERead c2 (NonceSize + TagSize) (Ok reply)] ++ rest.
Proof.
  intros H Htr. apply adjacent in Htr as (k & Hk1 & Hk2).
  unfold ClientHandshake in H. net_runs H.
  all: try (destruct k as [|[|[|[|k]]]]; discriminate).
  all: destruct k as [|[|[|[|k]]]]; try discriminate; simplify_eq/=.
  all: apply negb_false_iff, Verify_spec in E.
  all: match goal with |- context [[ERand NonceSize (Ok ?v); _; _; _]] => exists v end.
  all: split_and!; [|done| | |by do 3 eexists].
  all: try (intros x Hin; in_trace Hin; done).
  all: try (rewrite length_take;
            match goal with H : length ?l = _ |- context [length ?l] => rewrite H end; reflexivity).
  all: unfold tag_of; cbn [encode]; unfold Sign in E; by rewrite <- E, take_drop.
Qed.

(** The server run behind a client's proof that was accepted. *)
Lemma client_partner pool x cn sn :
  unforgeable pool -> Forall valid_run pool -> x ∈ pool ->
  verifies x (MServerProof cn sn) ->
  exists c tr r, ServerRun c tr r ∈ pool /\ signs (ServerRun c tr r) (MServerProof cn sn)
    /\ ERand NonceSize (Ok sn) ∈ tr /\ ERead c NonceSize (Ok cn) ∈ tr.
Proof.
  intros Hun Hval Hx Hrd. destruct (Hun x (MServerProof cn sn) Hx Hrd) as (y & Hy & Hsig).
  destruct y as [c tr r|c tr r]; [by destruct Hsig as (? & ? & ? & ? & ? & ? & ? & ? & ? & _)|].
  exists c, tr, r. split_and!; [done|done| |].
  - destruct Hsig as (cn' & sn' & c1 & c' & wr & [= <- <-] & ? & ? & _). done.
  - destruct Hsig as (cn' & sn' & c1 & c' & wr & [= <- <-] & Hr & _ & _).
    rewrite Forall_forall in Hval. specialize (Hval _ Hy). simpl in Hval.
    assert (Hsame : emits (fun e => match e with ERead c2 _ _ => c2 = c | _ => True end)
      (ServerHandshake c token)) by (unfold ServerHandshake; by emits_all).
    pose proof (Hsame _ _ Hval) as Hall. rewrite Forall_forall in Hall.
    specialize (Hall _ Hr) as ->. done.
Qed.

Lemma ServerHandshake_rand c tr ch :
  runs (ServerHandshake c token) tr (Ok ch) ->
  exists cn sn, length cn = NonceSize /\ length sn = NonceSize /\ ch = transcript cn sn
    /\ ERand NonceSize (Ok sn) ∈ tr
    /\ verifies (ServerRun c tr (Ok ch)) (MClientProof cn sn).
Proof.
  intros (cn & sn & ? & ? & -> & ->)%ServerHandshake_ok. exists cn, sn.
  split_and!; try done; [unfold server_accept_trace; find_in_trace|].
  by exists cn, sn, c, (EWrite c (sn ++ Sign token labelServer [cn; sn]) (Ok tt)), [].
Qed.

Lemma transcript_inj cn sn cn' sn' :
  length cn = NonceSize -> length cn' = NonceSize ->
  transcript cn sn = transcript cn' sn' -> cn = cn' /\ sn = sn'.
Proof using.
  unfold transcript. intros H1 H2 H. apply app_split_eq in H; [done|congruence].
Qed.

(** C1: Agreement.  In a pool of honest runs with one token, in which valid
    tags are not forged and nonces are fresh: when a server run accepts with a
    channel, some client run of the pool drew its client nonce and verified a
    proof of the server for the same two nonces, made by that very server run;
    and no other server run ever accepts with the same channel, so a recorded
    handshake cannot be replayed.  When a client run accepts with a channel,
    exactly one server run drew its server nonce, and it answered the client
    nonce this client drew. *)
Theorem handshake_agreement pool i x ch :
  Forall valid_run pool -> unforgeable pool -> fresh_nonces pool -> pool !! i = Some x ->
  (forall c tr, x = ServerRun c tr (Ok ch) ->
     exists cn sn, ch = transcript cn sn
       /\ signs x (MServerProof cn sn)
       /\ (exists c' tr' r', ClientRun c' tr' r' ∈ pool /\ ERand NonceSize (Ok cn) ∈ tr'
            /\ signs (ClientRun c' tr' r') (MClientProof cn sn)
            /\ verifies (ClientRun c' tr' r') (MServerProof cn sn))
       /\ (forall j c2 tr2, pool !! j = Some (ServerRun c2 tr2 (Ok ch)) -> j = i))
  /\ (forall c tr, x = ClientRun c tr (Ok ch) ->
     exists cn sn, ch = transcript cn sn /\ ERand NonceSize (Ok cn) ∈ tr
       /\ exists j s tr' r', pool !! j = Some (ServerRun s tr' r')
            /\ signs (ServerRun s tr' r') (MServerProof cn sn)
            /\ (forall j' s2 tr2 r2, pool !! j' = Some (ServerRun s2 tr2 r2) ->
                 ERand NonceSize (Ok sn) ∈ tr2 -> j' = j)).
Proof.
  intros Hval Hun Hfresh Hx. pose proof (list_elem_of_lookup_2 _ _ _ Hx) as Hxin.
  assert (Hv : forall y, y ∈ pool -> valid_run y) by (by rewrite Forall_forall in Hval).
  split.
  - intros c tr ->. pose proof (Hv _ Hxin) as Hrun. simpl in Hrun.
    destruct (ServerHandshake_rand _ _ _ Hrun) as (cn & sn & Hcn & Hsn & -> & Hrand & Hrd).
    destruct (Hun _ (MClientProof cn sn) Hxin Hrd) as (y & Hy & Hsig).
    destruct y as [c' tr' r'|]; [|by destruct Hsig as (? & ? & ? & ? & ? & ? & _)].
    pose proof Hsig as (cn1 & reply & c1 & n1 & c2 & wr & pre & post & [= -> ->] & Hrand1 & Htr).
    pose proof (Hv _ Hy) as Hrun'. simpl in Hrun'.
    destruct (client_sends_after_verifying _ _ _ _ _ _ _ _ _ _ _ Hrun' Htr)
      as (cn2 & Huniq & Hlen & Hlr & Hreply & w & c3 & rest & Hshape).
    apply Huniq in Hrand1 as ->.
    assert (Hrs : verifies (ClientRun c' tr' r') (MServerProof cn2 (take NonceSize reply))).
    { exists cn2, (take NonceSize reply), c3, w, rest. rewrite <- Hreply. done. }
    destruct (client_partner _ _ _ _ Hun Hval Hy Hrs)
      as (s & trs & rs & Hs & Hsign & Hsr & _).
    apply list_elem_of_lookup_1 in Hs as [j Hj].
    assert (j = i) as -> by (by eapply Hfresh).
    assert (ServerRun s trs rs = ServerRun c tr (Ok (transcript cn2 (take NonceSize reply)))) as Heq
      by congruence.
    exists cn2, (take NonceSize reply). split_and!; [done|by rewrite <- Heq| |].
    + exists c', tr', r'. split_and!; [done| |done|done].
      destruct Hsig as (? & ? & ? & ? & ? & ? & ? & ? & [= <- _] & ? & _). done.
    + intros j' c4 tr3 Hj'. pose proof (Hv _ (list_elem_of_lookup_2 _ _ _ Hj')) as Hrun3.
      simpl in Hrun3.
      destruct (ServerHandshake_rand _ _ _ Hrun3) as (cn3 & sn3 & Hc3 & Hs3 & Heq3 & Hr3 & _).
      apply transcript_inj in Heq3 as [<- <-]; [|done|done]. by eapply Hfresh.
  - intros c tr ->. pose proof (Hv _ Hxin) as Hrun. simpl in Hrun.
    apply ClientHandshake_ok in Hrun as (cn & sn & Hcn & Hsn & Htr & ->).
    assert (Hrd : verifies (ClientRun c tr (Ok (transcript cn sn))) (MServerProof cn sn)).
    { exists cn, sn, c, (EWrite c cn (Ok tt)). eexists. split_and!; [done|done|].
      rewrite Htr. reflexivity. }
    destruct (client_partner _ _ _ _ Hun Hval Hxin Hrd)
      as (s & trs & rs & Hs & Hsign & Hsr & _).
    apply list_elem_of_lookup_1 in Hs as [j Hj].
    exists cn, sn. split_and!; [done|rewrite Htr; unfold client_accept_trace; find_in_trace|].
    exists j, s, trs, rs. split_and!; [done|done|]. intros j' s2 tr2 r2 Hj' Hr2. by eapply Hfresh.
Qed.

End agreement.

(** ** Witnesses *)

Lemma domain_separation_witness :
  well_formed (MServerProof nonce_a nonce_b) /\ well_formed (MClientProof nonce_a nonce_b)
  /\ encode (MServerProof nonce_a nonce_b) <> encode (MClientProof nonce_a nonce_b).
Proof.
  assert (H1 : well_formed (MServerProof nonce_a nonce_b)) by (split; reflexivity).
  assert (H2 : well_formed (MClientProof nonce_a nonce_b)) by (split; reflexivity).
  split; [exact H1|]. split; [exact H2|]. intros H.
  apply (domain_separation _ _ H1 H2) in H. discriminate H.
Defined.

(** ** Witness: one honest client and one honest server *)

Definition honest_pool `{M : Mac} (token : string) (a b : bytes) : list honest_run :=
  [ClientRun 0 (client_accept_trace 0 token a b) (Ok (transcript a b));
   ServerRun 1 (server_accept_trace 1 token a b) (Ok (transcript a b))].

Lemma honest_pool_valid `{M : Mac} token a b :
  length a = NonceSize -> length b = NonceSize -> Forall (valid_run token) (honest_pool token a b).
Proof.
  intros Ha Hb. repeat constructor.
  - apply ClientHandshake_ok. by exists a, b.
  - apply ServerHandshake_ok. by exists a, b.
Qed.

Lemma honest_pool_unforgeable `{M : Mac} token a b :
  length a = NonceSize -> length b = NonceSize -> unforgeable token (honest_pool token a b).
Proof.
  intros Ha Hb x m Hx Hm. unfold honest_pool in Hx. apply elem_of_cons in Hx as [->|Hx].
  - destruct Hm as (cn & sn & c & w & rest & -> & Hlen & Htr).
    unfold client_accept_trace in Htr. injection Htr as <- <- <- Htag _.
    apply app_split_eq in Htag as [<- _]; [|congruence].
    eexists. split; [apply list_elem_of_further, list_elem_of_here|].
    exists a, b, 1, 1, (Ok tt). split; [done|]. unfold server_accept_trace.
    split_and!; find_in_trace.
  - apply list_elem_of_singleton in Hx as ->.
    destruct Hm as (cn & sn & c & w & rest & -> & Htr).
    unfold server_accept_trace in Htr. injection Htr as _ <- <- _ _ _.
    eexists. split; [apply list_elem_of_here|].
    exists a, (b ++ Sign token labelServer [a; b]), 0, (NonceSize + TagSize), 0, (Ok tt).
    exists [ERand NonceSize (Ok a); EWrite 0 a (Ok tt)], [].
    rewrite take_app_length' by done. split; [done|]. unfold client_accept_trace.
    split; [find_in_trace|done].
Qed.

Lemma honest_pool_fresh `{M : Mac} token a b : fresh_nonces (honest_pool token a b).
Proof.
  intros [|[|i]] [|[|j]] x y nonce Hx Hy Hr _ _; simpl in *; simplify_eq/=; done.
Qed.

Lemma handshake_agreement_witness :
  let token := "0123456789abcdef"%string in
  let server := ServerRun 1 (server_accept_trace 1 token nonce_a nonce_b)
                  (Ok (transcript nonce_a nonce_b)) in
  honest_pool token nonce_a nonce_b !! 1 = Some server
  /\ exists cn sn, transcript nonce_a nonce_b = transcript cn sn
       /\ signs token server (MServerProof cn sn).
Proof.
  intros token server.
  split; [reflexivity|].
  destruct (handshake_agreement token (honest_pool token nonce_a nonce_b) 1 server
    (transcript nonce_a nonce_b) (honest_pool_valid token nonce_a nonce_b eq_refl eq_refl)
    (honest_pool_unforgeable token nonce_a nonce_b eq_refl eq_refl) (honest_pool_fresh token _ _) eq_refl)
    as [H _].
  destruct (H _ _ eq_refl) as (cn & sn & E & S & _). exists cn, sn. split; [exact E|exact S].
Defined.
